(** * Single-cell survival game: the match simulation core

    A shallow embedding of the simulation code of the game (hexUtils.js,
    config.js, types.js, Tile.js, Player.js, GameState.js,
    TileFallManager.js, InputHandler.js, the event wiring of GameMode.js
    and the state changes of a rendered frame) together with the
    properties of the hexagonal grid, the set-up and the spawn phase of a
    match, the tile-fall scheduler, the movement tick and the game-over
    resolution.

    Conventions.
    - A JavaScript number that holds a pixel coordinate, a velocity or a
      time stamp is a real number ([R]) and its arithmetic is exact, but in
      two places, where the rounding of the machine decides the result: the
      product of [Math.floor(Math.random() * n)] is rounded to a double
      ([Binary64.round]), and the round trip of a hex through the pixels is
      stated on the doubles themselves ([HexUtils64], on the primitive
      floats).  Hex coordinates, the grid radius and the scheduler interval
      only ever hold integers and are in [Z].
    - [Math.random()] is an explicit argument, a real in the interval
      from 0 (included) to 1 (excluded); where its rounding matters it is
      a double ([Binary64.representable]).
    - Objects that are shared by reference (players) live in a heap and are
      named by their address; tiles are only reachable through the board and
      are stored in it.
    - [setTimeout] puts a timer in a queue of the world; the browser's event
      loop is the step relation that takes timers out of it.
    - Fields that only feed the renderer (colours, wobble, squash and
      stretch, jiggle, sink, shatter pieces) are left out. *)

From Stdlib Require Import ZArith Reals Lra Lia String Bool.
From Stdlib Require Import Decimal DecimalString DecimalZ DecimalPos Ascii.
From Stdlib Require Import FinFun List.
From Stdlib Require Floats.
Import ListNotations.

Set Implicit Arguments.

Local Open Scope list_scope.

(** ** hexUtils.js *)

Module HexUtils.

Record HexPosition : Type := mkHex { q : Z; r : Z }.

Definition add (a b : HexPosition) : HexPosition :=
  mkHex (q a + q b) (r a + r b).

Definition subtract (a b : HexPosition) : HexPosition :=
  mkHex (q a - q b) (r a - r b).

Definition equals (a b : HexPosition) : bool :=
  (q a =? q b)%Z && (r a =? r b)%Z.

(** Template-literal conversion of an integer: decimal digits, a leading
    minus sign for negative numbers. *)
Definition numToString (n : Z) : string :=
  NilZero.string_of_int (Z.to_int n).

Definition toKey (p : HexPosition) : string :=
  (numToString (q p) ++ "," ++ numToString (r p))%string.

Definition distance (a b : HexPosition) : Z :=
  let dq := (q a - q b)%Z in
  let dr := (r a - r b)%Z in
  let ds := ((- q a - r a) - (- q b - r b))%Z in
  ((Z.abs dq + Z.abs dr + Z.abs ds) / 2)%Z.

(** Comparisons of numbers as the booleans JavaScript computes. *)
Definition gtb (a b : R) : bool := if Rlt_dec b a then true else false.
Definition ltb (a b : R) : bool := if Rlt_dec a b then true else false.
Definition geb (a b : R) : bool := if Rle_dec b a then true else false.
Definition leb (a b : R) : bool := if Rle_dec a b then true else false.

(** [Math.round]: the nearest integer, halves towards plus infinity. *)
Definition round (x : R) : Z := Zfloor (x + / 2).

Record Pixel : Type := mkPixel { px : R; py : R }.

Definition axialToPixel (pos : HexPosition) (hexRadius centerX centerY : R)
  : Pixel :=
  let x := (hexRadius * (sqrt 3 * IZR (q pos) + sqrt 3 / 2 * IZR (r pos))
            + centerX)%R in
  let y := (hexRadius * (15 / 10 * IZR (r pos)) + centerY)%R in
  mkPixel x y.

Definition hexRound (qf rf : R) : HexPosition :=
  let s := (- qf - rf)%R in
  let rq := round qf in
  let rr := round rf in
  let rs := round s in
  let qDiff := Rabs (IZR rq - qf) in
  let rDiff := Rabs (IZR rr - rf) in
  let sDiff := Rabs (IZR rs - s) in
  if gtb qDiff rDiff && gtb qDiff sDiff then mkHex (- rr - rs) rr
  else if gtb rDiff sDiff then mkHex rq (- rq - rs)
  else mkHex rq rr.

Definition pixelToAxial (x y hexRadius centerX centerY : R) : HexPosition :=
  let relX := (x - centerX)%R in
  let relY := (y - centerY)%R in
  let qf := ((sqrt 3 / 3 * relX - 1 / 3 * relY) / hexRadius)%R in
  let rf := ((2 / 3 * relY) / hexRadius)%R in
  hexRound qf rf.

(** [for (let i = lo; i <= hi; i++)] visits [lo], [lo + 1], ..., [hi]. *)
Definition zrange (lo hi : Z) : list Z :=
  map (fun i => (lo + Z.of_nat i)%Z) (seq 0 (Z.to_nat (hi - lo + 1))).

Definition gridRow (radius q0 : Z) : list HexPosition :=
  let r1 := Z.max (- radius) (- q0 - radius) in
  let r2 := Z.min radius (- q0 + radius) in
  map (mkHex q0) (zrange r1 r2).

Definition generateHexGrid (radius : Z) : list HexPosition :=
  flat_map (gridRow radius) (zrange (- radius) radius).

Definition isWithinGrid (pos : HexPosition) (radius : Z) : bool :=
  let s := (- q pos - r pos)%Z in
  (Z.abs (q pos) <=? radius)%Z && (Z.abs (r pos) <=? radius)%Z
  && (Z.abs s <=? radius)%Z.

End HexUtils.

(** ** config.js *)

Module GameConfig.

Definition GRID_RADIUS : Z := 6.
Definition HEX_SIZE : R := 40.
Definition TILE_FALL_INTERVAL : Z := 800.
Definition TILE_WARNING_DURATION : Z := 600.
Definition MIN_FALL_INTERVAL : Z := 300.
Definition FALL_ACCELERATION : Z := 20.
Definition PLAYER_SPEED : R := 200.

End GameConfig.

Inductive MatchPhase : Type :=
| WaitingToStart
| Spawning
| InProgress
| GameOver.

Definition phaseEqb (a b : MatchPhase) : bool :=
  match a, b with
  | WaitingToStart, WaitingToStart => true
  | Spawning, Spawning => true
  | InProgress, InProgress => true
  | GameOver, GameOver => true
  | _, _ => false
  end.

(** ** A JavaScript [Map] with string keys

    Entries are kept in insertion order, which is the order [for ... of]
    and [forEach] visit them in; [set] on a present key replaces the value
    in place. *)

Module JsMap.

Section WithValues.

Variable V : Type.

Definition t : Type := list (string * V).

Fixpoint get (k : string) (m : t) : option V :=
  match m with
  | [] => None
  | (k', v) :: m' => if String.eqb k' k then Some v else get k m'
  end.

Fixpoint set (k : string) (v : V) (m : t) : t :=
  match m with
  | [] => [(k, v)]
  | (k', v') :: m' =>
      if String.eqb k' k then (k', v) :: m' else (k', v') :: set k v m'
  end.

Fixpoint delete (k : string) (m : t) : t :=
  match m with
  | [] => []
  | (k', v') :: m' =>
      if String.eqb k' k then m' else (k', v') :: delete k m'
  end.

Definition keys (m : t) : list string := map fst m.

Definition values (m : t) : list V := map snd m.

End WithValues.

End JsMap.

(** ** Tile.js *)

Module Tile.

Record t : Type := mk {
  position : HexUtils.HexPosition;
  isActive : bool;
  warningStartTime : option R;
  isSpawning : bool;
  spawnStartTime : R;
  spawnDelay : R;
  spawnDuration : R;
  isShattering : bool;
  shatterStartTime : R;
  shatterDuration : R
}.

Definition new (pos : HexUtils.HexPosition) : t :=
  mk pos true None true 0 0 800 false 0 400.

Definition isWarning (tile : t) : bool :=
  match warningStartTime tile with Some _ => true | None => false end.

Definition startSpawnAnimation (delay now : R) (tile : t) : t :=
  mk (position tile) (isActive tile) (warningStartTime tile)
     (isSpawning tile) now delay (spawnDuration tile)
     (isShattering tile) (shatterStartTime tile) (shatterDuration tile).

Definition getSpawnProgress (now : R) (tile : t) : R * t :=
  if negb (isSpawning tile) then (1%R, tile)
  else
    let elapsed := (now - spawnStartTime tile - spawnDelay tile)%R in
    if HexUtils.ltb elapsed 0 then (0%R, tile)
    else
      let progress := Rmin (elapsed / spawnDuration tile) 1 in
      if HexUtils.geb progress 1
      then (progress,
            mk (position tile) (isActive tile) (warningStartTime tile)
               false (spawnStartTime tile) (spawnDelay tile)
               (spawnDuration tile) (isShattering tile)
               (shatterStartTime tile) (shatterDuration tile))
      else (progress, tile).

Definition startWarning (now : R) (tile : t) : t :=
  mk (position tile) (isActive tile) (Some now)
     (isSpawning tile) (spawnStartTime tile) (spawnDelay tile)
     (spawnDuration tile) (isShattering tile) (shatterStartTime tile)
     (shatterDuration tile).

Definition startShatter (now : R) (tile : t) : t :=
  mk (position tile) (isActive tile) None
     (isSpawning tile) (spawnStartTime tile) (spawnDelay tile)
     (spawnDuration tile) true now (shatterDuration tile).

Definition fall (tile : t) : t :=
  mk (position tile) false None
     (isSpawning tile) (spawnStartTime tile) (spawnDelay tile)
     (spawnDuration tile) false (shatterStartTime tile)
     (shatterDuration tile).

Definition getShatterProgress (now : R) (tile : t) : R * t :=
  if negb (isShattering tile) then (0%R, tile)
  else
    let elapsed := (now - shatterStartTime tile)%R in
    let progress := Rmin (elapsed / shatterDuration tile) 1 in
    if HexUtils.geb progress 1 then (progress, fall tile)
    else (progress, tile).

End Tile.

(** ** Player.js *)

Module Player.

Record Keys : Type := mkKeys {
  up : string;
  down : string;
  left : string;
  right : string
}.

Record Config : Type := mkConfig {
  keys : Keys;
  startQ : Z;
  startR : Z
}.

Record t : Type := mk {
  index : nat;
  controls : Keys;
  x : R;
  y : R;
  vx : R;
  vy : R;
  isFalling : bool;
  fallStartTime : R;
  fallDuration : R;
  isSpawning : bool;
  spawnStartTime : R;
  spawnDuration : R;
  isAlive : bool;
  survivalTime : R
}.

Definition new (i : nat) (config : Config) (startX startY : R) : t :=
  mk i (keys config) startX startY 0 0 false 0 800 true 0 500 true 0.

Definition startSpawnAnimation (now : R) (p : t) : t :=
  mk (index p) (controls p) (x p) (y p) (vx p) (vy p) (isFalling p)
     (fallStartTime p) (fallDuration p) true now (spawnDuration p)
     (isAlive p) (survivalTime p).

Definition getSpawnProgress (now : R) (p : t) : R * t :=
  if negb (isSpawning p) then (1%R, p)
  else
    let elapsed := (now - spawnStartTime p)%R in
    let progress := Rmin (elapsed / spawnDuration p) 1 in
    if HexUtils.geb progress 1
    then (progress,
          mk (index p) (controls p) (x p) (y p) (vx p) (vy p) (isFalling p)
             (fallStartTime p) (fallDuration p) false (spawnStartTime p)
             (spawnDuration p) (isAlive p) (survivalTime p))
    else (progress, p).

Definition startFalling (now : R) (p : t) : t :=
  mk (index p) (controls p) (x p) (y p) (vx p) (vy p) true
     now (fallDuration p) (isSpawning p) (spawnStartTime p)
     (spawnDuration p) (isAlive p) (survivalTime p).

Definition getFallProgress (now : R) (p : t) : R :=
  if negb (isFalling p) then 0%R
  else Rmin ((now - fallStartTime p) / fallDuration p) 1.

(** Assignments to single fields, as the game code makes them. *)
Definition setEliminated (time : R) (p : t) : t :=
  mk (index p) (controls p) (x p) (y p) (vx p) (vy p) (isFalling p)
     (fallStartTime p) (fallDuration p) (isSpawning p) (spawnStartTime p)
     (spawnDuration p) false time.

Definition setVelocity (vx' vy' : R) (p : t) : t :=
  mk (index p) (controls p) (x p) (y p) vx' vy' (isFalling p)
     (fallStartTime p) (fallDuration p) (isSpawning p) (spawnStartTime p)
     (spawnDuration p) (isAlive p) (survivalTime p).

Definition setPosition (x' y' : R) (p : t) : t :=
  mk (index p) (controls p) x' y' (vx p) (vy p) (isFalling p)
     (fallStartTime p) (fallDuration p) (isSpawning p) (spawnStartTime p)
     (spawnDuration p) (isAlive p) (survivalTime p).

End Player.

(** ** The world: objects, timers, clock and notifications *)

(** What a timer runs when it fires: the scheduler's selection loop
    ([scheduleNextFall]), the end of a tile's warning ([selectRandomTile])
    and the delayed end-of-match check ([eliminatePlayer]). *)
Inductive Callback : Type :=
| NextFall
| ExecuteFall (posKey : string)
| GameOverCheck.

Record Timer : Type := mkTimer {
  timerId : nat;
  due : R;
  callback : Callback
}.

(** A call of [events.emit]; players are named by their heap address. *)
Inductive Event : Type :=
| tileWarning (posKey : string)
| tileFallen (posKey : string)
| playerEliminated (player : nat)
| gameOver (winner : option nat).

Record GameState : Type := mkGameState {
  board : JsMap.t Tile.t;
  players : list nat;
  alivePlayers : list nat;
  matchPhase : MatchPhase;
  gameStartTime : R;
  (** whether the listeners of GameMode.subscribeToEvents are registered *)
  listening : bool;
  centerX : R;
  centerY : R
}.

Record TileFallManager : Type := mkTileFallManager {
  fallInterval : Z;
  pendingFalls : JsMap.t nat;
  nextFallTimeout : option nat;
  isRunning : bool
}.

Record World : Type := mkWorld {
  gameState : GameState;
  tileFallManager : TileFallManager;
  heldKeys : list string;
  heap : list Player.t;
  timers : list Timer;
  nextTimerId : nat;
  now : R;
  emitted : list Event
}.

Definition onGameState (f : GameState -> GameState) (w : World) : World :=
  mkWorld (f (gameState w)) (tileFallManager w) (heldKeys w) (heap w)
          (timers w) (nextTimerId w) (now w) (emitted w).

Definition onTileFallManager (f : TileFallManager -> TileFallManager)
  (w : World) : World :=
  mkWorld (gameState w) (f (tileFallManager w)) (heldKeys w) (heap w)
          (timers w) (nextTimerId w) (now w) (emitted w).

Definition withHeldKeys (ks : list string) (w : World) : World :=
  mkWorld (gameState w) (tileFallManager w) ks (heap w)
          (timers w) (nextTimerId w) (now w) (emitted w).

Definition withHeap (h : list Player.t) (w : World) : World :=
  mkWorld (gameState w) (tileFallManager w) (heldKeys w) h
          (timers w) (nextTimerId w) (now w) (emitted w).

Definition withTimers (ts : list Timer) (w : World) : World :=
  mkWorld (gameState w) (tileFallManager w) (heldKeys w) (heap w)
          ts (nextTimerId w) (now w) (emitted w).

Definition withNow (time : R) (w : World) : World :=
  mkWorld (gameState w) (tileFallManager w) (heldKeys w) (heap w)
          (timers w) (nextTimerId w) time (emitted w).

Definition withBoard (b : JsMap.t Tile.t) (g : GameState) : GameState :=
  mkGameState b (players g) (alivePlayers g) (matchPhase g)
              (gameStartTime g) (listening g) (centerX g) (centerY g).

Definition withAlivePlayers (ps : list nat) (g : GameState) : GameState :=
  mkGameState (board g) (players g) ps (matchPhase g)
              (gameStartTime g) (listening g) (centerX g) (centerY g).

Definition withMatchPhase (ph : MatchPhase) (g : GameState) : GameState :=
  mkGameState (board g) (players g) (alivePlayers g) ph
              (gameStartTime g) (listening g) (centerX g) (centerY g).

Definition withGameStartTime (time : R) (g : GameState) : GameState :=
  mkGameState (board g) (players g) (alivePlayers g) (matchPhase g)
              time (listening g) (centerX g) (centerY g).

Definition withFallInterval (i : Z) (m : TileFallManager) : TileFallManager :=
  mkTileFallManager i (pendingFalls m) (nextFallTimeout m) (isRunning m).

Definition withPendingFalls (pf : JsMap.t nat) (m : TileFallManager)
  : TileFallManager :=
  mkTileFallManager (fallInterval m) pf (nextFallTimeout m) (isRunning m).

Definition withNextFallTimeout (o : option nat) (m : TileFallManager)
  : TileFallManager :=
  mkTileFallManager (fallInterval m) (pendingFalls m) o (isRunning m).

Definition withIsRunning (b : bool) (m : TileFallManager) : TileFallManager :=
  mkTileFallManager (fallInterval m) (pendingFalls m) (nextFallTimeout m) b.

(** [setTimeout]: the new timer is due [delay] after the current time;
    the identifier returned is a fresh positive number. *)
Definition setTimeout (cb : Callback) (delay : R) (w : World) : nat * World :=
  let id := nextTimerId w in
  (id, mkWorld (gameState w) (tileFallManager w) (heldKeys w) (heap w)
               (timers w ++ [mkTimer id (now w + delay) cb])
               (S id) (now w) (emitted w)).

Definition clearTimeout (id : nat) (w : World) : World :=
  withTimers (filter (fun t => negb (timerId t =? id)%nat) (timers w)) w.

(** Player objects. *)
Fixpoint listUpdate (A : Type) (n : nat) (f : A -> A) (l : list A) : list A :=
  match l, n with
  | [], _ => []
  | a :: l', O => f a :: l'
  | a :: l', S n' => a :: listUpdate n' f l'
  end.

Definition getPlayer (p : nat) (w : World) : option Player.t :=
  nth_error (heap w) p.

Definition updatePlayer (p : nat) (f : Player.t -> Player.t) (w : World)
  : World :=
  withHeap (listUpdate p f (heap w)) w.

(** ** TileFallManager.js, first part: [stop]

    [stop] comes first because the [gameOver] listener of GameMode calls it.
    An identifier is cleared when it is truthy, that is, not zero. *)

Definition stop (w : World) : World :=
  let w1 := onTileFallManager (withIsRunning false) w in
  let w2 :=
    match nextFallTimeout (tileFallManager w1) with
    | Some id =>
        if (id =? 0)%nat then w1
        else onTileFallManager (withNextFallTimeout None) (clearTimeout id w1)
    | None => w1
    end in
  let w3 :=
    fold_left (fun acc timeoutId => clearTimeout timeoutId acc)
              (JsMap.values (pendingFalls (tileFallManager w2))) w2 in
  onTileFallManager (withPendingFalls []) w3.

(** ** types.js and the listeners of GameMode.subscribeToEvents

    [emit] records the notification and runs the registered listeners.
    The listeners of [tileWarning], [tileFallen] and [playerEliminated]
    only play sounds; the listener of [gameOver] is [handleGameOver]. *)

Definition handleGameOver (w : World) : World := stop w.

Definition logEvent (e : Event) (w : World) : World :=
  mkWorld (gameState w) (tileFallManager w) (heldKeys w) (heap w)
          (timers w) (nextTimerId w) (now w) (emitted w ++ [e]).

Definition emit (e : Event) (w : World) : World :=
  let w1 := logEvent e w in
  if listening (gameState w1) then
    match e with
    | gameOver _ => handleGameOver w1
    | _ => w1
    end
  else w1.

(** ** GameState.js *)

Definition hexOfPixel (x y : R) (w : World) : HexUtils.HexPosition :=
  HexUtils.pixelToAxial x y GameConfig.HEX_SIZE
    (centerX (gameState w)) (centerY (gameState w)).

Definition isTileActive (x y : R) (w : World) : bool :=
  match JsMap.get (HexUtils.toKey (hexOfPixel x y w)) (board (gameState w)) with
  | Some tile => Tile.isActive tile
  | None => false
  end.

Definition setTile (posKey : string) (tile : Tile.t) (w : World) : World :=
  onGameState (fun g => withBoard (JsMap.set posKey tile (board g)) g) w.

Definition markTileWarning (posKey : string) (w : World) : World :=
  match JsMap.get posKey (board (gameState w)) with
  | Some tile =>
      if Tile.isActive tile
      then emit (tileWarning posKey)
                (setTile posKey (Tile.startWarning (now w) tile) w)
      else w
  | None => w
  end.

Definition removeTile (posKey : string) (w : World) : World :=
  match JsMap.get posKey (board (gameState w)) with
  | Some tile =>
      emit (tileFallen posKey)
           (setTile posKey (Tile.startShatter (now w) tile) w)
  | None => w
  end.

(** [eliminatePlayer]: the argument is a player object, so the address is
    always allocated; on an address that is not, nothing happens. *)
Definition eliminatePlayer (p : nat) (w : World) : World :=
  match getPlayer p w with
  | None => w
  | Some player =>
      let w1 := updatePlayer p
                  (Player.setEliminated (now w - gameStartTime (gameState w)))
                  w in
      let w2 := onGameState
                  (fun g => withAlivePlayers
                              (filter (fun p' => negb (p' =? p)%nat)
                                      (alivePlayers g)) g) w1 in
      let w3 := emit (playerEliminated p) w2 in
      if (length (alivePlayers (gameState w3)) <=? 1)%nat
      then snd (setTimeout GameOverCheck (Player.fallDuration player) w3)
      else w3
  end.

(** The body of the timer set by [eliminatePlayer]. *)
Definition gameOverCheck (w : World) : World :=
  if (length (alivePlayers (gameState w)) <=? 1)%nat
     && phaseEqb (matchPhase (gameState w)) InProgress
  then emit (gameOver (hd_error (alivePlayers (gameState w))))
            (onGameState (withMatchPhase GameOver) w)
  else w.

Definition playerOnKey (posKey : string) (w : World) (p : nat) : bool :=
  match getPlayer p w with
  | Some player =>
      String.eqb (HexUtils.toKey
                    (hexOfPixel (Player.x player) (Player.y player) w))
                 posKey
  | None => false
  end.

Definition checkPlayersOnTile (posKey : string) (w : World) : list nat :=
  match JsMap.get posKey (board (gameState w)) with
  | None => []
  | Some _ => filter (playerOnKey posKey w) (alivePlayers (gameState w))
  end.

Definition reset (w : World) : World :=
  onGameState
    (fun g => mkGameState [] [] [] WaitingToStart 0 false
                          (centerX g) (centerY g)) w.

(** ** JavaScript numbers: rounding to binary64

    Where the rounding of an arithmetic operation decides which branch the
    code takes, the operation is followed by [Binary64.round], the
    rounding of a real number to the nearest double, halves to the even
    mantissa; numbers of 2^1024 and beyond do not occur.  A real number is
    [representable] when it is a double. *)

Module Binary64.

(** The exponent of the power of two at or below [|x|]. *)
Definition binade (x : R) : Z := Zfloor (ln (Rabs x) / ln 2).

(** The exponent of the unit in the last place: 52 places below the
    binade, and -1074 for subnormal numbers. *)
Definition ulpExponent (x : R) : Z := (Z.max (binade x) (-1022) - 52)%Z.

(** The nearest integer, halves to the even one. *)
Definition nearestEven (m : R) : Z :=
  let f := Zfloor m in
  let d := (m - IZR f)%R in
  if Rlt_dec d (/ 2) then f
  else if Rlt_dec (/ 2) d then (f + 1)%Z
  else if Z.even f then f else (f + 1)%Z.

Definition round (x : R) : R :=
  if Req_dec_T x 0 then 0%R
  else (IZR (nearestEven (x / powerRZ 2 (ulpExponent x)))
        * powerRZ 2 (ulpExponent x))%R.

Definition representable (x : R) : Prop := round x = x.

End Binary64.

(** ** TileFallManager.js *)

Definition scheduleNextFall (w : World) : World :=
  if negb (isRunning (tileFallManager w)) then w
  else
    let (id, w1) := setTimeout NextFall (IZR (fallInterval (tileFallManager w)))
                               w in
    onTileFallManager (withNextFallTimeout (Some id)) w1.

Definition start (w : World) : World :=
  scheduleNextFall
    (onTileFallManager
       (fun m => withFallInterval GameConfig.TILE_FALL_INTERVAL
                   (withIsRunning true m)) w).

Definition isCandidate (tile : Tile.t) : bool :=
  Tile.isActive tile && negb (Tile.isWarning tile).

(** The loop over the board that fills [activeTiles] and
    [tilesWithPlayers]. *)
Definition gatherTiles (w : World) : list string * list string :=
  fold_left
    (fun (acc : list string * list string) (entry : string * Tile.t) =>
       let (posKey, tile) := entry in
       if isCandidate tile then
         let activeTiles := fst acc ++ [posKey] in
         let playersOnTile := checkPlayersOnTile posKey w in
         if (0 <? length playersOnTile)%nat
         then (activeTiles, snd acc ++ [posKey])
         else (activeTiles, snd acc)
       else acc)
    (board (gameState w)) ([], []).

(** The candidate sets of the selection policy: the keys of the tiles that
    are active and not warning, and those of them on which
    [checkPlayersOnTile] finds a player. *)
Definition candidates (w : World) : list string :=
  map fst (filter (fun e : string * Tile.t => isCandidate (snd e))
                  (board (gameState w))).

Definition isOccupied (w : World) (posKey : string) : bool :=
  (0 <? length (checkPlayersOnTile posKey w))%nat.

Definition occupiedCandidates (w : World) : list string :=
  filter (isOccupied w) (candidates w).

(** [Math.floor(Math.random() * n)] for the draw [u]: the product is
    rounded to a double before [Math.floor] sees it. *)
Definition randomIndex (u : R) (n : nat) : nat :=
  Z.to_nat (Zfloor (Binary64.round (u * INR n))).

(** [coin] is the draw compared with 0.2 and [pick] the draw that becomes an
    index.  An index is below the length for every double below 1, so the
    selected key is always defined. *)
Definition selectRandomTile (coin pick : R) (w : World) : World :=
  let (activeTiles, tilesWithPlayers) := gatherTiles w in
  if (length activeTiles =? 0)%nat then w
  else
    let choice :=
      if (0 <? length tilesWithPlayers)%nat && HexUtils.ltb coin (2 / 10)
      then nth_error tilesWithPlayers
                     (randomIndex pick (length tilesWithPlayers))
      else nth_error activeTiles (randomIndex pick (length activeTiles)) in
    match choice with
    | None => w
    | Some posKey =>
        let w1 := markTileWarning posKey w in
        let (timeoutId, w2) :=
          setTimeout (ExecuteFall posKey)
                     (IZR GameConfig.TILE_WARNING_DURATION) w1 in
        onTileFallManager
          (fun m => withPendingFalls
                      (JsMap.set posKey timeoutId (pendingFalls m)) m) w2
    end.

Definition startFalling (p : nat) (w : World) : World :=
  updatePlayer p (Player.startFalling (now w)) w.

Definition executeFall (posKey : string) (w : World) : World :=
  let w1 := onTileFallManager
              (fun m => withPendingFalls
                          (JsMap.delete posKey (pendingFalls m)) m) w in
  let playersOnTile := checkPlayersOnTile posKey w1 in
  let w2 := fold_left (fun acc p => eliminatePlayer p (startFalling p acc))
                      playersOnTile w1 in
  removeTile posKey w2.

Definition accelerate (interval : Z) : Z :=
  Z.max GameConfig.MIN_FALL_INTERVAL
        (interval - GameConfig.FALL_ACCELERATION).

Definition accelerateFallRate (w : World) : World :=
  onTileFallManager (fun m => withFallInterval (accelerate (fallInterval m)) m)
                    w.

(** The body of the timer set by [scheduleNextFall]: one scheduler cycle. *)
Definition nextFall (coin pick : R) (w : World) : World :=
  scheduleNextFall (accelerateFallRate (selectRandomTile coin pick w)).

(** Successive scheduler cycles, one pair of draws for each. *)
Definition cycles (draws : list (R * R)) (w : World) : World :=
  fold_left (fun acc d => nextFall (fst d) (snd d) acc) draws w.

(** ** InputHandler.js *)

Definition handleKeyDown (code : string) (w : World) : World :=
  if existsb (String.eqb code) (heldKeys w) then w
  else withHeldKeys (heldKeys w ++ [code]) w.

Definition handleKeyUp (code : string) (w : World) : World :=
  withHeldKeys (filter (fun c => negb (String.eqb c code)) (heldKeys w)) w.

Definition neqb (a b : R) : bool := if Req_dec_T a b then false else true.

Record Motion : Type := mkMotion {
  newVx : R;
  newVy : R;
  newX : R;
  newY : R
}.

(** Input, momentum, speed clamp and candidate position of
    [updatePlayerMovement]. *)
Definition integrate (held : list string) (player : Player.t) (deltaTime : R)
  : Motion :=
  let has k := existsb (String.eqb k) held in
  let keys := Player.controls player in
  let inputY := 0%R in
  let inputX := 0%R in
  let inputY := if has (Player.up keys) then (inputY - 1)%R else inputY in
  let inputY := if has (Player.down keys) then (inputY + 1)%R else inputY in
  let inputX := if has (Player.left keys) then (inputX - 1)%R else inputX in
  let inputX := if has (Player.right keys) then (inputX + 1)%R else inputX in
  let diagonal := neqb inputX 0 && neqb inputY 0 in
  let inputX := if diagonal then (inputX * (707 / 1000))%R else inputX in
  let inputY := if diagonal then (inputY * (707 / 1000))%R else inputY in
  let acceleration := 1200%R in
  let deceleration := 800%R in
  let maxSpeed := GameConfig.PLAYER_SPEED in
  let dt := (deltaTime / 1000)%R in
  let vx := Player.vx player in
  let vy := Player.vy player in
  let vx :=
    if neqb inputX 0 then (vx + inputX * acceleration * dt)%R
    else if HexUtils.gtb vx 0 then Rmax 0 (vx - deceleration * dt)
    else if HexUtils.ltb vx 0 then Rmin 0 (vx + deceleration * dt)
    else vx in
  let vy :=
    if neqb inputY 0 then (vy + inputY * acceleration * dt)%R
    else if HexUtils.gtb vy 0 then Rmax 0 (vy - deceleration * dt)
    else if HexUtils.ltb vy 0 then Rmin 0 (vy + deceleration * dt)
    else vy in
  let speed := sqrt (vx * vx + vy * vy) in
  let clamp := HexUtils.gtb speed maxSpeed in
  let vx' := if clamp then (vx / speed * maxSpeed)%R else vx in
  let vy' := if clamp then (vy / speed * maxSpeed)%R else vy in
  mkMotion vx' vy' (Player.x player + vx' * dt) (Player.y player + vy' * dt).

Definition updatePlayerMovement (p : nat) (deltaTime : R) (w : World)
  : World :=
  match getPlayer p w with
  | None => w
  | Some player =>
      if Player.isFalling player then w
      else
        let m := integrate (heldKeys w) player deltaTime in
        let w1 := updatePlayer p (Player.setVelocity (newVx m) (newVy m)) w in
        if negb (isTileActive (newX m) (newY m) w1)
        then eliminatePlayer p (startFalling p w1)
        else updatePlayer p (Player.setPosition (newX m) (newY m)) w1
  end.

(** The loop runs over the array that [alivePlayers] held when it began. *)
Definition updatePlayers (deltaTime : R) (w : World) : World :=
  if negb (phaseEqb (matchPhase (gameState w)) InProgress) then w
  else fold_left (fun acc p => updatePlayerMovement p deltaTime acc)
                 (alivePlayers (gameState w)) w.

(** ** GameMode.js and the state changes of a rendered frame *)

Definition startGame (w : World) : World :=
  start (onGameState
           (fun g => withGameStartTime (now w) (withMatchPhase InProgress g))
           w).

Definition updateTileAnimations (w : World) : World :=
  onGameState
    (fun g => withBoard
       (map (fun e : string * Tile.t =>
               if Tile.isShattering (snd e)
               then (fst e, snd (Tile.getShatterProgress (now w) (snd e)))
               else e)
            (board g)) g) w.

Definition update (deltaTime : R) (w : World) : World :=
  let w1 := if phaseEqb (matchPhase (gameState w)) InProgress
            then updatePlayers deltaTime w else w in
  updateTileAnimations w1.

Definition renderTile (time : R) (tile : Tile.t) : Tile.t :=
  if Tile.isShattering tile then snd (Tile.getShatterProgress time tile)
  else if negb (Tile.isActive tile) then tile
  else if Tile.isSpawning tile then snd (Tile.getSpawnProgress time tile)
  else tile.

Definition renderPlayer (time : R) (player : Player.t) : Player.t :=
  if negb (Player.isAlive player) && negb (Player.isFalling player)
  then player
  else if Player.isSpawning player
       then snd (Player.getSpawnProgress time player)
       else player.

Definition render (w : World) : World :=
  let w1 := onGameState
              (fun g => withBoard
                 (map (fun e : string * Tile.t =>
                         (fst e, renderTile (now w) (snd e)))
                      (board g)) g) w in
  match board (gameState w) with
  | [] => w1
  | _ :: _ =>
      fold_left (fun acc p => updatePlayer p (renderPlayer (now w)) acc)
                (players (gameState w1)) w1
  end.

Definition gameLoop (deltaTime : R) (w : World) : World :=
  render (update deltaTime w).

(** ** The event loop *)

Definition runCallback (cb : Callback) (coin pick : R) (w : World) : World :=
  match cb with
  | NextFall => nextFall coin pick w
  | ExecuteFall posKey => executeFall posKey w
  | GameOverCheck => gameOverCheck w
  end.

Definition unitDraw (u : R) : Prop := (0 <= u < 1)%R.

(** One turn of the browser's event loop on the world.  The clock never
    runs backwards; a timer fires at or after its due time and leaves the
    queue when it does; [coin] and [pick] are the random draws of the turn.
    The scheduler is only started when it is not running (GameMode starts
    a scheduler object once).  These are the turns of a match that has
    been set up; the key-down listener of [bindStartKey] and the spawn
    check of GameMode are turns of [matchTurn], further down. *)
Inductive step : World -> World -> Prop :=
| step_fire (w : World) (before after : list Timer) (t : Timer)
    (time coin pick : R) :
    timers w = before ++ t :: after ->
    (now w <= time)%R -> (due t <= time)%R ->
    unitDraw coin -> unitDraw pick ->
    step w (runCallback (callback t) coin pick
              (withNow time (withTimers (before ++ after) w)))
| step_frame (w : World) (time deltaTime : R) :
    (now w <= time)%R ->
    step w (gameLoop deltaTime (withNow time w))
| step_keyDown (w : World) (code : string) :
    step w (handleKeyDown code w)
| step_keyUp (w : World) (code : string) :
    step w (handleKeyUp code w)
| step_startGame (w : World) :
    isRunning (tileFallManager w) = false ->
    step w (startGame w)
| step_stop (w : World) :
    step w (stop w)
| step_reset (w : World) :
    step w (reset w).

Inductive steps : World -> World -> Prop :=
| steps_refl (w : World) : steps w w
| steps_next (w1 w2 w3 : World) : steps w1 w2 -> step w2 w3 -> steps w1 w3.

(** Time passing with nothing but timers firing. *)
Inductive timePasses : World -> World -> Prop :=
| timePasses_refl (w : World) : timePasses w w
| timePasses_fire (w1 w2 : World) (before after : list Timer) (t : Timer)
    (time coin pick : R) :
    timePasses w1 w2 ->
    timers w2 = before ++ t :: after ->
    (now w2 <= time)%R -> (due t <= time)%R ->
    unitDraw coin -> unitDraw pick ->
    timePasses w1 (runCallback (callback t) coin pick
                     (withNow time (withTimers (before ++ after) w2)))
| timePasses_wait (w1 w2 : World) (time : R) :
    timePasses w1 w2 -> (now w2 <= time)%R ->
    timePasses w1 (withNow time w2).

Definition isSchedulerTimer (t : Timer) : bool :=
  match callback t with
  | NextFall | ExecuteFall _ => true
  | GameOverCheck => false
  end.

(** The timer identifiers in the queue are positive, pairwise different and
    below the next identifier. *)
Definition timersFresh (w : World) : Prop :=
  (0 < nextTimerId w)%nat
  /\ NoDup (map timerId (timers w))
  /\ forall t, In t (timers w) -> (0 < timerId t < nextTimerId w)%nat.

(** The scheduler's bookkeeping covers its timers in the queue: a selection
    timer is the one held in [nextFallTimeout], and the scheduler is
    running; the timer that ends the warning of the key [k] is the one
    [pendingFalls] holds for [k], and the tile of [k] is not selectable
    while it is in the queue; an identifier held in [nextFallTimeout] is
    positive. *)
Definition schedulerTracks (w : World) : Prop :=
  (forall t, In t (timers w) -> callback t = NextFall ->
     nextFallTimeout (tileFallManager w) = Some (timerId t)
     /\ isRunning (tileFallManager w) = true)
  /\ (forall t k, In t (timers w) -> callback t = ExecuteFall k ->
        JsMap.get k (pendingFalls (tileFallManager w)) = Some (timerId t)
        /\ forall tile, JsMap.get k (board (gameState w)) = Some tile ->
                        isCandidate tile = false)
  /\ (forall id, nextFallTimeout (tileFallManager w) = Some id ->
        (0 < id)%nat).

Definition schedulerInvariant (w : World) : Prop :=
  timersFresh w /\ schedulerTracks w
  /\ NoDup (JsMap.keys (board (gameState w))).

(** No timer of the scheduler is in the queue and its bookkeeping is
    empty. *)
Definition schedulerStopped (w : World) : Prop :=
  isRunning (tileFallManager w) = false
  /\ nextFallTimeout (tileFallManager w) = None
  /\ pendingFalls (tileFallManager w) = []
  /\ forall t, In t (timers w) -> isSchedulerTimer t = false.

(** A world before [start]: the scheduler as its constructor leaves it,
    timers with fresh identifiers, and a board that is a map. *)
Definition schedulerFresh (w : World) : Prop :=
  schedulerStopped w /\ timersFresh w
  /\ NoDup (JsMap.keys (board (gameState w))).

(** The [tileWarning] and [tileFallen] notifications of a log. *)
Definition tileEvents (log : list Event) : list Event :=
  filter (fun e => match e with
                   | tileWarning _ | tileFallen _ => true
                   | _ => false
                   end) log.

(** [w'] differs from [w] at most by players, roster, log and game-over
    checks added to the queue. *)
Definition addsChecks (w w' : World) : Prop :=
  tileFallManager w' = tileFallManager w
  /\ board (gameState w') = board (gameState w)
  /\ (nextTimerId w <= nextTimerId w')%nat
  /\ exists extra,
       timers w' = timers w ++ extra
       /\ NoDup (map timerId extra)
       /\ forall t, In t extra ->
            callback t = GameOverCheck
            /\ (nextTimerId w <= timerId t < nextTimerId w')%nat.

(** How often [playerEliminated] was emitted for the player [p]. *)
Definition eliminations (p : nat) (log : list Event) : nat :=
  length (filter (fun e => match e with
                           | playerEliminated p' => (p' =? p)%nat
                           | _ => false
                           end) log).

(** The player at the address [p] has fallen at the position [(x0, y0)]:
    the object is falling and not alive, it is off the alive roster, and
    [playerEliminated] has been emitted [n] times for it. *)
Definition fallenAt (p : nat) (x0 y0 : R) (n : nat) (w : World) : Prop :=
  exists player,
    getPlayer p w = Some player
    /\ Player.x player = x0 /\ Player.y player = y0
    /\ Player.isFalling player = true /\ Player.isAlive player = false
    /\ ~ In p (alivePlayers (gameState w))
    /\ eliminations p (emitted w) = n.

(** What the movement of another player leaves alone. *)
Definition sameStage (p : nat) (w w' : World) : Prop :=
  getPlayer p w' = getPlayer p w
  /\ heldKeys w' = heldKeys w
  /\ board (gameState w') = board (gameState w)
  /\ centerX (gameState w') = centerX (gameState w)
  /\ centerY (gameState w') = centerY (gameState w)
  /\ eliminations p (emitted w') = eliminations p (emitted w).

(** ** config.js: the two players, and a small world for examples *)

Definition player1Config : Player.Config :=
  Player.mkConfig (Player.mkKeys "KeyW" "KeyS" "KeyA" "KeyD") 0 (-5).

Definition player2Config : Player.Config :=
  Player.mkConfig (Player.mkKeys "ArrowUp" "ArrowDown" "ArrowLeft"
                                 "ArrowRight") 0 5.

Definition PlayerConfig : list Player.Config :=
  [player1Config; player2Config].

(** A board of two tiles, the second one fallen, and the two players at the
    centre of the canvas, mid-match at time 1000 with the scheduler idle. *)
Definition exampleBoard : JsMap.t Tile.t :=
  [ ("0,0"%string, Tile.new (HexUtils.mkHex 0 0));
    ("1,0"%string, Tile.fall (Tile.new (HexUtils.mkHex 1 0))) ].

Definition exampleWorld : World :=
  mkWorld
    (mkGameState exampleBoard [0%nat; 1%nat] [0%nat; 1%nat] InProgress 0 true
                 350 350)
    (mkTileFallManager 800 [] None false)
    []
    [Player.new 0 player1Config 350 350; Player.new 1 player2Config 350 350]
    [] 1 1000 [].

(** A board of one tile and no player, before the match starts, and a run
    of the event loop on it; every draw of the run is 0. *)
Definition tile0 : Tile.t := Tile.new (HexUtils.mkHex 0 0).

Definition oneTileWorld : World :=
  mkWorld
    (mkGameState [("0,0"%string, tile0)] [] []
                 Spawning 0 true 350 350)
    (mkTileFallManager 800 [] None false)
    [] [] [] 1 1000 [].

Definition replay1 : World := startGame oneTileWorld.

Definition replay2 : World :=
  runCallback NextFall 0 0 (withNow 1800 (withTimers [] replay1)).

Definition replay3 : World :=
  runCallback (ExecuteFall "0,0") 0 0
    (withNow 2400 (withTimers [mkTimer 3 (1800 + 780) NextFall] replay2)).

Definition replay4 : World :=
  runCallback NextFall 0 0 (withNow 2580 (withTimers [] replay3)).

Definition replay5 : World := gameLoop 16 (withNow 2800 replay4).

Definition replay6 : World :=
  runCallback (ExecuteFall "0,0") 0 0
    (withNow 3180 (withTimers [mkTimer 5 (2580 + 760) NextFall] replay5)).

(** The characters of a printed number are digits and the minus sign. *)
Fixpoint commaFree (s : string) : Prop :=
  match s with
  | EmptyString => True
  | String c s' => c <> ","%char /\ commaFree s'
  end.

(** ** GameState.js: setting up the board and the players *)

Definition withCenter (cx cy : R) (g : GameState) : GameState :=
  mkGameState (board g) (players g) (alivePlayers g) (matchPhase g)
              (gameStartTime g) (listening g) cx cy.

Definition withPlayers (ps : list nat) (g : GameState) : GameState :=
  mkGameState (board g) ps (alivePlayers g) (matchPhase g)
              (gameStartTime g) (listening g) (centerX g) (centerY g).

(** The tile [initializeBoard] makes for the position [pos]: [jitter] is
    the value of [Math.random()] drawn for its delay. *)
Definition spawnTile (time jitter : R) (pos : HexUtils.HexPosition) : Tile.t :=
  let tile := Tile.new pos in
  let distance := HexUtils.distance pos (HexUtils.mkHex 0 0) in
  let baseDelay := (IZR distance * 50)%R in
  let randomDelay := (jitter * 200)%R in
  Tile.startSpawnAnimation (baseDelay + randomDelay) time tile.

(** [initializeBoard]: [jitter i] is the draw of the [i]-th position. *)
Definition initializeBoard (cx cy : R) (jitter : nat -> R) (w : World)
  : World :=
  let positions := HexUtils.generateHexGrid GameConfig.GRID_RADIUS in
  let b :=
    fold_left
      (fun (acc : JsMap.t Tile.t) (ip : nat * HexUtils.HexPosition) =>
         JsMap.set (HexUtils.toKey (snd ip))
                   (spawnTile (now w) (jitter (fst ip)) (snd ip)) acc)
      (combine (seq 0 (length positions)) positions) [] in
  onGameState (fun g => withBoard b (withCenter cx cy g)) w.

(** [initializePlayers]: the new player objects are allocated at the end
    of the heap. *)
Definition createPlayer (w : World) (i : nat) (config : Player.Config)
  : Player.t :=
  let startPos := HexUtils.mkHex (Player.startQ config)
                                 (Player.startR config) in
  let pixel := HexUtils.axialToPixel startPos GameConfig.HEX_SIZE
                 (centerX (gameState w)) (centerY (gameState w)) in
  Player.new i config (HexUtils.px pixel) (HexUtils.py pixel).

Definition initializePlayers (configs : list Player.Config) (w : World)
  : World :=
  let base := length (heap w) in
  let objects := map (fun ic => createPlayer w (fst ic) (snd ic))
                     (combine (seq 0 (length configs)) configs) in
  let refs := seq base (length configs) in
  withHeap (heap w ++ objects)
    (onGameState (fun g => withAlivePlayers refs (withPlayers refs g)) w).

Definition startPlayerSpawnAnimations (w : World) : World :=
  fold_left
    (fun acc p => updatePlayer p (Player.startSpawnAnimation (now w)) acc)
    (players (gameState w)) w.

Definition areAllTilesSpawned (w : World) : bool :=
  forallb (fun e : string * Tile.t => negb (Tile.isSpawning (snd e)))
          (board (gameState w)).

Definition areAllPlayersSpawned (w : World) : bool :=
  forallb (fun p => match getPlayer p w with
                    | Some pl => negb (Player.isSpawning pl)
                    | None => true
                    end)
          (players (gameState w)).

Definition getPlayerCurrentTile (player : Player.t) (w : World)
  : option Tile.t :=
  JsMap.get (HexUtils.toKey
               (hexOfPixel (Player.x player) (Player.y player) w))
            (board (gameState w)).

(** ** The rosters and the elimination log

    The alive roster has no repetition; [playerEliminated] has been
    emitted at most once for a player, never for a player on the alive
    roster and once for a player of the roster that is off it; the object
    of a player on the alive roster is alive and not falling, that of a
    player of the roster off it is not alive and falling. *)
Definition rosterConsistent (w : World) : Prop :=
  NoDup (alivePlayers (gameState w))
  /\ forall p,
       (eliminations p (emitted w) <= 1)%nat
       /\ (In p (alivePlayers (gameState w)) ->
           eliminations p (emitted w) = 0%nat
           /\ forall pl, getPlayer p w = Some pl ->
                Player.isAlive pl = true /\ Player.isFalling pl = false)
       /\ (In p (players (gameState w)) ->
           ~ In p (alivePlayers (gameState w)) ->
           eliminations p (emitted w) = 1%nat
           /\ forall pl, getPlayer p w = Some pl ->
                Player.isAlive pl = false /\ Player.isFalling pl = true).

(** [w'] has the rosters and the elimination counts of [w], and its
    player objects have the flags they have in [w]. *)
Definition sameRoster (w w' : World) : Prop :=
  players (gameState w') = players (gameState w)
  /\ alivePlayers (gameState w') = alivePlayers (gameState w)
  /\ (forall p, eliminations p (emitted w') = eliminations p (emitted w))
  /\ forall p pl', getPlayer p w' = Some pl' ->
       exists pl, getPlayer p w = Some pl
                  /\ Player.isAlive pl' = Player.isAlive pl
                  /\ Player.isFalling pl' = Player.isFalling pl.

(** ** The board over a run

    Every tile of [w'] is a tile of [w] under the same key, at the same
    position, and active only if it is active in [w]; the centre is the
    same; the keys are those of [w], in the same order. *)
Definition boardDecays (w w' : World) : Prop :=
  centerX (gameState w') = centerX (gameState w)
  /\ centerY (gameState w') = centerY (gameState w)
  /\ JsMap.keys (board (gameState w')) = JsMap.keys (board (gameState w))
  /\ forall k tile', JsMap.get k (board (gameState w')) = Some tile' ->
       exists tile,
         JsMap.get k (board (gameState w)) = Some tile
         /\ Tile.position tile' = Tile.position tile
         /\ (Tile.isActive tile = false -> Tile.isActive tile' = false).

(** ** The selection loop of the scheduler

    While the scheduler runs, a selection timer is in the queue. *)
Definition loopArmed (w : World) : Prop :=
  isRunning (tileFallManager w) = true ->
  exists t, In t (timers w) /\ callback t = NextFall.

(** [w'] runs exactly when [w] does and has the timers of [w] in its
    queue. *)
Definition keepsQueue (w w' : World) : Prop :=
  isRunning (tileFallManager w') = isRunning (tileFallManager w)
  /\ forall t, In t (timers w) -> In t (timers w').

(** ** Warnings and falls in the log

    Every [tileFallen] of the log comes after a [tileWarning] for the
    same key. *)
Definition fallsWarned (log : list Event) : Prop :=
  forall l1 l2 k, log = l1 ++ tileFallen k :: l2 -> In (tileWarning k) l1.

(** The fall timers of the queue are for keys with a [tileWarning] in the
    log. *)
Definition pendingWarned (w : World) : Prop :=
  forall t k, In t (timers w) -> callback t = ExecuteFall k ->
              In (tileWarning k) (emitted w).

(** [w'] has the log of [w] followed by notifications other than
    [tileFallen], and no fall timer that [w] does not have. *)
Definition appendsQuiet (w w' : World) : Prop :=
  (exists more, emitted w' = emitted w ++ more
                /\ forall k, ~ In (tileFallen k) more)
  /\ forall t k, In t (timers w') -> callback t = ExecuteFall k ->
                 In t (timers w).

(** ** After the match

    The event loop without [startGame] and [reset]: timers firing, frames,
    keys and [stop]. *)
Inductive idles : World -> World -> Prop :=
| idles_refl (w : World) : idles w w
| idles_fire (w1 w2 : World) (before after : list Timer) (t : Timer)
    (time coin pick : R) :
    idles w1 w2 ->
    timers w2 = before ++ t :: after ->
    (now w2 <= time)%R -> (due t <= time)%R ->
    unitDraw coin -> unitDraw pick ->
    idles w1 (runCallback (callback t) coin pick
                (withNow time (withTimers (before ++ after) w2)))
| idles_frame (w1 w2 : World) (time deltaTime : R) :
    idles w1 w2 -> (now w2 <= time)%R ->
    idles w1 (gameLoop deltaTime (withNow time w2))
| idles_keyDown (w1 w2 : World) (code : string) :
    idles w1 w2 -> idles w1 (handleKeyDown code w2)
| idles_keyUp (w1 w2 : World) (code : string) :
    idles w1 w2 -> idles w1 (handleKeyUp code w2)
| idles_stop (w1 w2 : World) :
    idles w1 w2 -> idles w1 (stop w2).

(** The match is over: the phase is [GameOver] and the scheduler is
    stopped. *)
Definition matchOver (w : World) : Prop :=
  matchPhase (gameState w) = GameOver /\ schedulerStopped w.

(** What a player object is, apart from its spawn animation. *)
Definition sameBody (pl pl' : Player.t) : Prop :=
  Player.index pl' = Player.index pl
  /\ Player.x pl' = Player.x pl /\ Player.y pl' = Player.y pl
  /\ Player.vx pl' = Player.vx pl /\ Player.vy pl' = Player.vy pl
  /\ Player.isAlive pl' = Player.isAlive pl
  /\ Player.isFalling pl' = Player.isFalling pl
  /\ Player.fallStartTime pl' = Player.fallStartTime pl
  /\ Player.survivalTime pl' = Player.survivalTime pl.

(** [w'] has the log, the rosters and the phase of [w], and its players
    are where they are in [w]. *)
Definition samePlay (w w' : World) : Prop :=
  emitted w' = emitted w
  /\ alivePlayers (gameState w') = alivePlayers (gameState w)
  /\ players (gameState w') = players (gameState w)
  /\ matchPhase (gameState w') = matchPhase (gameState w)
  /\ forall p pl', getPlayer p w' = Some pl' ->
       exists pl, getPlayer p w = Some pl /\ sameBody pl pl'.

(** A world one game-over check away from the end of the match: player 1
    alone is alive. *)
Definition endgameWorld : World :=
  mkWorld
    (mkGameState exampleBoard [0%nat; 1%nat] [1%nat] InProgress 0 true
                 350 350)
    (mkTileFallManager 800 [] None false)
    []
    [Player.setEliminated 900 (Player.startFalling 900
       (Player.new 0 player1Config 350 350));
     Player.new 1 player2Config 350 350]
    [mkTimer 1 1700 GameOverCheck] 2 1000 [playerEliminated 0].

(** ** types.js: the event emitter

    The listeners are a [Map] from event names to [Set]s of callbacks; a
    callback is a function object, named by its address.  A [Set] keeps
    insertion order and holds a value once.  [emit] gives the callbacks it
    calls, in the order of the calls.  The function [subscribe] returns is
    [unsubscribe]; it throws when the event has no set, which is the case
    after [clear]. *)
Module EventEmitter.

Definition t : Type := JsMap.t (list nat).

Definition setAdd (cb : nat) (s : list nat) : list nat :=
  if existsb (Nat.eqb cb) s then s else s ++ [cb].

Definition setDelete (cb : nat) (s : list nat) : list nat :=
  filter (fun c => negb (c =? cb)%nat) s.

Definition subscribe (event : string) (cb : nat) (l : t) : t :=
  let l1 := match JsMap.get event l with
            | Some _ => l
            | None => JsMap.set event [] l
            end in
  match JsMap.get event l1 with
  | Some s => JsMap.set event (setAdd cb s) l1
  | None => l1
  end.

Definition unsubscribe (event : string) (cb : nat) (l : t) : option t :=
  match JsMap.get event l with
  | Some s => Some (JsMap.set event (setDelete cb s) l)
  | None => None
  end.

Definition emit (event : string) (l : t) : list nat :=
  match JsMap.get event l with
  | Some s => s
  | None => []
  end.

Definition clear (l : t) : t := [].

(** Every set of listeners holds a callback once. *)
Definition wellFormed (l : t) : Prop :=
  forall event s, JsMap.get event l = Some s -> NoDup s.

End EventEmitter.

(** ** InputHandler.js: the keys held *)

Definition isKeyHeld (code : string) (w : World) : bool :=
  existsb (String.eqb code) (heldKeys w).

(** ** GameMode.js: the set-up of a match *)

Definition spaceKey : string := "Space".

(** [startTileSpawn]: the centre is the renderer's, [jitter] the draws of
    [initializeBoard]. *)
Definition startTileSpawn (cx cy : R) (jitter : nat -> R) (w : World)
  : World :=
  initializeBoard cx cy jitter (onGameState (withMatchPhase Spawning) w).

(** The key-down listener of [bindStartKey].  It removes itself when it
    acts; [restart] binds it again after [reset] has put the phase back to
    [WaitingToStart]. *)
Definition handleStart (code : string) (cx cy : R) (jitter : nat -> R)
  (w : World) : World :=
  if String.eqb code spaceKey
     && phaseEqb (matchPhase (gameState w)) WaitingToStart
  then startTileSpawn cx cy jitter w
  else w.

(** The first branch of the interval callback of [checkSpawnProgress],
    whatever its flag [playersSpawnStarted] holds. *)
Definition spawnPlayers (configs : list Player.Config) (w : World) : World :=
  if areAllTilesSpawned w
  then startPlayerSpawnAnimations (initializePlayers configs w)
  else w.

(** One turn of the event loop of a match, from the page load to the
    restart key: the turns of [step] but [reset], a key-down event with the
    listener of [bindStartKey] after that of the input handler, and the
    spawn check. *)
Inductive matchTurn : World -> World -> Prop :=
| matchTurn_fire (w : World) (before after : list Timer) (t : Timer)
    (time coin pick : R) :
    timers w = before ++ t :: after ->
    (now w <= time)%R -> (due t <= time)%R ->
    unitDraw coin -> unitDraw pick ->
    matchTurn w (runCallback (callback t) coin pick
                   (withNow time (withTimers (before ++ after) w)))
| matchTurn_frame (w : World) (time deltaTime : R) :
    (now w <= time)%R ->
    matchTurn w (gameLoop deltaTime (withNow time w))
| matchTurn_keyDown (w : World) (code : string) (cx cy : R)
    (jitter : nat -> R) :
    (forall i, unitDraw (jitter i)) ->
    matchTurn w (handleStart code cx cy jitter (handleKeyDown code w))
| matchTurn_keyUp (w : World) (code : string) :
    matchTurn w (handleKeyUp code w)
| matchTurn_spawnPlayers (w : World) (configs : list Player.Config) :
    matchTurn w (spawnPlayers configs w)
| matchTurn_startGame (w : World) :
    isRunning (tileFallManager w) = false ->
    matchTurn w (startGame w)
| matchTurn_stop (w : World) :
    matchTurn w (stop w).

Inductive matchRun : World -> World -> Prop :=
| matchRun_refl (w : World) : matchRun w w
| matchRun_next (w1 w2 w3 : World) :
    matchRun w1 w2 -> matchTurn w2 w3 -> matchRun w1 w3.

(** The phase of [w'] is that of [w], or the match has begun or ended. *)
Definition phaseAdvances (w w' : World) : Prop :=
  matchPhase (gameState w') = matchPhase (gameState w)
  \/ matchPhase (gameState w') = InProgress
  \/ matchPhase (gameState w') = GameOver.

(** ** hexUtils.js in binary64

    The projections once more, on the doubles of the machine: the
    arithmetic is that of IEEE 754 binary64, every operation rounded to
    nearest, halves to the even mantissa, as JavaScript computes it.  A hex
    position holds two numbers, as the objects of the class do. *)

Module HexUtils64.

Import PrimFloat.
#[local] Open Scope float_scope.

Record HexPosition : Type := mkHex { q : float; r : float }.

(** [equals]: [===] on numbers is the equality of IEEE 754, for which the
    two zeros are equal. *)
Definition equals (a b : HexPosition) : bool :=
  (q a =? q b) && (r a =? r b).

(** The number of an integer; exact below 2^53. *)
Definition ofZ (z : Z) : float :=
  match z with
  | Z0 => 0
  | Zpos _ => of_uint63 (Uint63.of_Z z)
  | Zneg p => - of_uint63 (Uint63.of_Z (Zpos p))
  end.

Definition ofHex (p : HexUtils.HexPosition) : HexPosition :=
  mkHex (ofZ (HexUtils.q p)) (ofZ (HexUtils.r p)).

(** [Math.round]: the integer nearest to [x], halves towards plus
    infinity, computed exactly from the mantissa [m] and the exponent [e]
    of [x = m * 2^e] as [floor ((2 m + 2^-e) / 2^(1 - e))]; a number of
    magnitude 2^52 or more is an integer already, and so are the
    infinities and NaN returned as they are.  A zero result is returned as
    +0: the sign of a zero makes no difference to the subtractions and
    comparisons of [hexRound]. *)
Definition round (x : float) : float :=
  if abs x <? 0x1p52 then
    match FloatOps.Prim2SF x with
    | SpecFloat.S754_finite s m e =>
        let v := if s then Zneg m else Zpos m in
        match e with
        | Zneg p => ofZ ((2 * v + Z.pow_pos 2 p) / (2 * Z.pow_pos 2 p))
        | _ => x
        end
    | _ => x
    end
  else x.

Record Pixel : Type := mkPixel { px : float; py : float }.

Definition axialToPixel (pos : HexPosition) (hexRadius centerX centerY : float)
  : Pixel :=
  let x := hexRadius * (sqrt 3 * q pos + sqrt 3 / 2 * r pos) + centerX in
  let y := hexRadius * (1.5 * r pos) + centerY in
  mkPixel x y.

Definition hexRound (qf rf : float) : HexPosition :=
  let s := - qf - rf in
  let rq := round qf in
  let rr := round rf in
  let rs := round s in
  let qDiff := abs (rq - qf) in
  let rDiff := abs (rr - rf) in
  let sDiff := abs (rs - s) in
  if (rDiff <? qDiff) && (sDiff <? qDiff) then mkHex (- rr - rs) rr
  else if sDiff <? rDiff then mkHex rq (- rq - rs)
  else mkHex rq rr.

Definition pixelToAxial (x y hexRadius centerX centerY : float)
  : HexPosition :=
  let relX := x - centerX in
  let relY := y - centerY in
  let qf := (sqrt 3 / 3 * relX - 1 / 3 * relY) / hexRadius in
  let rf := (2 / 3 * relY) / hexRadius in
  hexRound qf rf.

(** [GameConfig.HEX_SIZE]. *)
Definition HEX_SIZE : float := 40.

(** The centre of the renderer: half the width and half the height of the
    window, which are whole numbers of pixels. *)
Definition half (i : Z) : float := ofZ i / 2.

End HexUtils64.

(** ** The round trip through the pixels, by evaluation

    The centre of a hex of the board is projected back for every window at
    once: the horizontal offset [relX] of the centre of a hex depends on the
    hex and [centerX] only, the vertical offset [relY] on the hex and
    [centerY] only, and each takes few values over the windows. *)

Module RoundTrip64.

Import PrimFloat HexUtils64.
#[local] Open Scope float_scope.

(** The integers [i], [i + 1], ..., [i + n - 1]. *)
Fixpoint count (n : nat) (i : Z) : list Z :=
  match n with
  | O => []
  | S n' => i :: count n' (i + 1)
  end.

(** The centres of the windows of [0], [1], ..., [limit] pixels. *)
Definition centres (limit : Z) : list float :=
  map half (count (Z.to_nat (limit + 1)) 0).

Definition memF (x : float) (l : list float) : bool :=
  existsb (Leibniz.eqb x) l.

(** The values of a list, each once. *)
Fixpoint dedup (l acc : list float) : list float :=
  match l with
  | [] => acc
  | x :: l' => dedup l' (if memF x acc then acc else x :: acc)
  end.

Definition relX (p : HexPosition) (centerX : float) : float :=
  px (axialToPixel p HEX_SIZE centerX 0) - centerX.

Definition relY (p : HexPosition) (centerY : float) : float :=
  py (axialToPixel p HEX_SIZE 0 centerY) - centerY.

(** [pixelToAxial] from the offsets to the centre. *)
Definition ofOffsets (relX relY : float) : HexPosition :=
  let qf := (sqrt 3 / 3 * relX - 1 / 3 * relY) / HEX_SIZE in
  let rf := (2 / 3 * relY) / HEX_SIZE in
  hexRound qf rf.

(** The hex [h] is [p], and its cube components sum to zero with the third
    component of [p]. *)
Definition sameHex (h p : HexPosition) : bool :=
  equals h p && (q h + r h + (- q p - r p) =? 0).

Definition checkHex (cs : list float) (p : HexPosition) : bool :=
  let xs := dedup (map (relX p) cs) [] in
  let ys := dedup (map (relY p) cs) [] in
  forallb (fun x => forallb (fun y => sameHex (ofOffsets x y) p) ys) xs.

Definition checkGrid (radius limit : Z) : bool :=
  forallb (fun p => checkHex (centres limit) (ofHex p))
          (HexUtils.generateHexGrid radius).

(** The widest and highest window considered, in pixels. *)
Definition WINDOW_LIMIT : Z := 16384.

End RoundTrip64.

(** * Properties

    ** The hexagonal grid *)

Section HexGridFacts.

Import HexUtils.

(** *** The loops of [generateHexGrid] *)

Lemma in_zrange (lo hi z : Z) : In z (zrange lo hi) <-> (lo <= z <= hi)%Z.
Proof.
  unfold zrange. rewrite in_map_iff. split.
  - intros [i [<- Hi]]. apply in_seq in Hi. lia.
  - intros Hz. exists (Z.to_nat (z - lo)). split; [lia|].
    apply in_seq. lia.
Qed.

Lemma NoDup_zrange (lo hi : Z) : NoDup (zrange lo hi).
Proof.
  unfold zrange. apply Injective_map_NoDup.
  - intros a b Hab. lia.
  - apply seq_NoDup.
Qed.

Lemma in_gridRow (radius q0 : Z) (p : HexPosition) :
  In p (gridRow radius q0) <->
  q p = q0 /\
  (Z.max (- radius) (- q0 - radius) <= r p
   <= Z.min radius (- q0 + radius))%Z.
Proof.
  unfold gridRow. rewrite in_map_iff. split.
  - intros [z [<- Hz]]. apply in_zrange in Hz. simpl. lia.
  - intros [Hq Hr]. exists (r p). split.
    + destruct p; simpl in *; congruence.
    + apply in_zrange. exact Hr.
Qed.

Lemma NoDup_gridRow (radius q0 : Z) : NoDup (gridRow radius q0).
Proof.
  unfold gridRow. apply Injective_map_NoDup.
  - intros a b Hab. congruence.
  - apply NoDup_zrange.
Qed.

Lemma NoDup_flat_map (A B : Type) (f : A -> list B) (l : list A) :
  NoDup l ->
  (forall a, In a l -> NoDup (f a)) ->
  (forall a a' b, In a l -> In a' l -> In b (f a) -> In b (f a') -> a = a') ->
  NoDup (flat_map f l).
Proof.
  induction 1 as [|a l Hnotin Hnd IH]; intros Hrow Hdisj; simpl.
  - constructor.
  - apply NoDup_app.
    + apply Hrow. now left.
    + apply IH.
      * intros a' Ha'. apply Hrow. now right.
      * intros a1 a2 b H1 H2. apply Hdisj; now right.
    + intros b Hb Hb'. apply in_flat_map in Hb' as [a' [Ha' Hb']].
      assert (a = a') by (apply (Hdisj a a' b); auto; [now left|now right]).
      subst a'. contradiction.
Qed.

Lemma in_generateHexGrid (radius : Z) (p : HexPosition) :
  In p (generateHexGrid radius) <->
  (Z.abs (q p) <= radius /\ Z.abs (r p) <= radius
   /\ Z.abs (- q p - r p) <= radius)%Z.
Proof.
  unfold generateHexGrid. rewrite in_flat_map. split.
  - intros [q0 [Hq0 Hp]]. apply in_zrange in Hq0.
    apply in_gridRow in Hp. lia.
  - intros H. exists (q p). split.
    + apply in_zrange. lia.
    + apply in_gridRow. lia.
Qed.

Lemma isWithinGrid_true (p : HexPosition) (radius : Z) :
  isWithinGrid p radius = true <->
  (Z.abs (q p) <= radius /\ Z.abs (r p) <= radius
   /\ Z.abs (- q p - r p) <= radius)%Z.
Proof.
  unfold isWithinGrid. rewrite !andb_true_iff, !Z.leb_le. tauto.
Qed.

Lemma length_gridRow (radius q0 : Z) :
  length (gridRow radius q0) =
  Z.to_nat (Z.min radius (- q0 + radius)
            - Z.max (- radius) (- q0 - radius) + 1).
Proof.
  unfold gridRow, zrange. now rewrite !length_map, length_seq.
Qed.

(** Cells of the rows [q = -radius, ..., -radius + n - 1], for the rows
    with [q <= 0]: row [i] has [radius + 1 + i] cells. *)
Lemma length_lower_rows (radius : Z) (n : nat) :
  (Z.of_nat n <= radius + 1)%Z ->
  (2 * Z.of_nat (length (flat_map (gridRow radius)
        (map (fun i => (- radius + Z.of_nat i)%Z) (seq 0 n))))
   = Z.of_nat n * (2 * radius + 1 + Z.of_nat n))%Z.
Proof.
  induction n as [|n IH]; intros Hn.
  - simpl. lia.
  - rewrite seq_S, map_app, flat_map_app, length_app. cbn [map flat_map].
    rewrite app_nil_r, length_gridRow.
    rewrite Nat2Z.inj_add, Z.mul_add_distr_l, IH by lia.
    rewrite Z2Nat.id by lia. nia.
Qed.

(** Cells of the rows [q = 1, ..., m]: row [radius + 1 + j] has
    [2 * radius - j] cells. *)
Lemma length_upper_rows (radius : Z) (m : nat) :
  (0 <= radius)%Z -> (Z.of_nat m <= radius)%Z ->
  (2 * Z.of_nat (length (flat_map (gridRow radius)
        (map (fun i => (- radius + Z.of_nat i)%Z)
             (seq (Z.to_nat (radius + 1)) m))))
   = Z.of_nat m * (4 * radius + 1 - Z.of_nat m))%Z.
Proof.
  intros Hr. induction m as [|m IH]; intros Hm.
  - simpl. lia.
  - rewrite seq_S, map_app, flat_map_app, length_app. cbn [map flat_map].
    rewrite app_nil_r, length_gridRow.
    rewrite Nat2Z.inj_add, Z.mul_add_distr_l, IH by lia.
    rewrite Z2Nat.id by lia. nia.
Qed.

Lemma length_generateHexGrid (radius : Z) :
  (0 <= radius)%Z ->
  Z.of_nat (length (generateHexGrid radius))
  = (3 * radius ^ 2 + 3 * radius + 1)%Z.
Proof.
  intros Hr. unfold generateHexGrid, zrange.
  replace (Z.to_nat (radius - - radius + 1))
    with (Z.to_nat (radius + 1) + Z.to_nat radius)%nat by lia.
  rewrite seq_app, map_app, flat_map_app, length_app, Nat2Z.inj_add.
  pose proof (@length_lower_rows radius (Z.to_nat (radius + 1))) as Hlo.
  pose proof (@length_upper_rows radius (Z.to_nat radius) Hr) as Hup.
  simpl (0 + _)%nat.
  rewrite !Z2Nat.id in * by lia.
  specialize (Hlo ltac:(lia)). specialize (Hup ltac:(lia)). nia.
Qed.

Lemma NoDup_generateHexGrid (radius : Z) : NoDup (generateHexGrid radius).
Proof.
  unfold generateHexGrid. apply NoDup_flat_map.
  - apply NoDup_zrange.
  - intros a _. apply NoDup_gridRow.
  - intros a a' b _ _ Ha Ha'.
    apply in_gridRow in Ha, Ha'. lia.
Qed.

(** C3. For every radius [0 <= radius], [generateHexGrid radius] returns
    exactly [3 * radius^2 + 3 * radius + 1] coordinates, no two of them
    equal, and a coordinate is in the list if and only if its three cube
    components are at most [radius] in absolute value, which is the test
    [isWithinGrid] makes. *)
Theorem generateHexGrid_cells (radius : Z) :
  (0 <= radius)%Z ->
  Z.of_nat (length (generateHexGrid radius))
  = (3 * radius ^ 2 + 3 * radius + 1)%Z
  /\ NoDup (generateHexGrid radius)
  /\ (forall q' r' : Z,
        In (mkHex q' r') (generateHexGrid radius) <->
        (Z.abs q' <= radius /\ Z.abs r' <= radius
         /\ Z.abs (- q' - r') <= radius)%Z)
  /\ (forall p : HexPosition,
        In p (generateHexGrid radius) <-> isWithinGrid p radius = true).
Proof.
  intros Hr. split; [|split; [|split]].
  - now apply length_generateHexGrid.
  - apply NoDup_generateHexGrid.
  - intros q' r'. apply (in_generateHexGrid radius (mkHex q' r')).
  - intros p. rewrite isWithinGrid_true. apply in_generateHexGrid.
Qed.

Lemma generateHexGrid_cells_witness :
  Z.of_nat (length (generateHexGrid 2)) = 19%Z
  /\ NoDup (generateHexGrid 2)
  /\ (forall q' r' : Z,
        In (mkHex q' r') (generateHexGrid 2) <->
        (Z.abs q' <= 2 /\ Z.abs r' <= 2 /\ Z.abs (- q' - r') <= 2)%Z)
  /\ (forall p : HexPosition,
        In p (generateHexGrid 2) <-> isWithinGrid p 2 = true).
Proof.
  apply (@generateHexGrid_cells 2). lia.
Defined.

(** *** Projection to pixels and back *)

Lemma round_IZR (n : Z) : round (IZR n) = n.
Proof.
  unfold round. apply Zfloor_eq. lra.
Qed.

Lemma gtb_irrefl (a : R) : gtb a a = false.
Proof.
  unfold gtb. destruct (Rlt_dec a a) as [H|H]; [lra|reflexivity].
Qed.

Lemma hexRound_IZR (a b : Z) : hexRound (IZR a) (IZR b) = mkHex a b.
Proof.
  unfold hexRound.
  replace (- IZR a - IZR b)%R with (IZR (- a - b))
    by (rewrite minus_IZR, opp_IZR; reflexivity).
  rewrite !round_IZR.
  replace (IZR a - IZR a)%R with 0%R by ring.
  replace (IZR b - IZR b)%R with 0%R by ring.
  replace (IZR (- a - b) - IZR (- a - b))%R with 0%R by ring.
  rewrite gtb_irrefl. reflexivity.
Qed.

Lemma sqrt3_sqr : (sqrt 3 * sqrt 3 = 3)%R.
Proof. apply sqrt_sqrt. lra. Qed.

(** In real arithmetic the inverse projection of the centre of a hex is
    the hex, for a hex size that is not zero. *)
Lemma pixelToAxial_center (p : HexPosition) (size cx cy : R) :
  size <> 0%R ->
  pixelToAxial (px (axialToPixel p size cx cy))
               (py (axialToPixel p size cx cy)) size cx cy = p.
Proof.
  intros Hsize. unfold pixelToAxial, axialToPixel. simpl.
  set (s3 := sqrt 3).
  assert (Hs3 : (s3 * s3 = 3)%R) by apply sqrt3_sqr.
  replace ((s3 / 3 * (size * (s3 * IZR (q p) + s3 / 2 * IZR (r p)) + cx - cx)
            - 1 / 3 * (size * (15 / 10 * IZR (r p)) + cy - cy)) / size)%R
    with (IZR (q p)).
  - replace (2 / 3 * (size * (15 / 10 * IZR (r p)) + cy - cy) / size)%R
      with (IZR (r p)) by (field; exact Hsize).
    rewrite hexRound_IZR. destruct p; reflexivity.
  - transitivity ((s3 * s3) / 3 * IZR (q p)
                  + ((s3 * s3) / 6 - 1 / 2) * IZR (r p))%R.
    + rewrite Hs3. field.
    + field. exact Hsize.
Qed.

End HexGridFacts.

(** ** hexUtils.js in binary64: projection to pixels and back *)

Section RoundTrip.

Import PrimFloat HexUtils64 RoundTrip64.

Lemma count_In (n : nat) (a i : Z) :
  (a <= i < a + Z.of_nat n)%Z -> In i (count n a).
Proof.
  revert a. induction n as [|n IH]; intros a H; [lia|].
  cbn [count]. destruct (Z.eq_dec a i) as [->|Hne]; [now left|].
  right. apply IH. lia.
Qed.

Lemma memF_In (x : float) (l : list float) : memF x l = true <-> In x l.
Proof.
  unfold memF. rewrite existsb_exists. split.
  - intros (y & Hy & E). apply FloatAxioms.Leibniz.eqb_spec in E.
    now subst y.
  - intros H. exists x. split; [exact H|].
    now apply FloatAxioms.Leibniz.eqb_spec.
Qed.

Lemma dedup_In (x : float) (l acc : list float) :
  In x l \/ In x acc -> In x (dedup l acc).
Proof.
  revert acc. induction l as [|a l IH]; intros acc H; cbn [dedup].
  - destruct H as [[]|H]. exact H.
  - apply IH. destruct H as [[->|H]|H].
    + right. destruct (memF x acc) eqn:E; [now apply memF_In|now left].
    + now left.
    + right. destruct (memF a acc); [exact H|now right].
Qed.

Lemma checkHex_sound (cs : list float) (p : HexPosition) (cx cy : float) :
  checkHex cs p = true -> In cx cs -> In cy cs ->
  let pixel := axialToPixel p HEX_SIZE cx cy in
  sameHex (pixelToAxial (px pixel) (py pixel) HEX_SIZE cx cy) p = true.
Proof.
  intros Hc Hx Hy pixel. unfold checkHex in Hc.
  rewrite forallb_forall in Hc.
  assert (Hrx : In (relX p cx) (dedup (map (relX p) cs) [])).
  { apply dedup_In. left. now apply in_map. }
  assert (Hry : In (relY p cy) (dedup (map (relY p) cs) [])).
  { apply dedup_In. left. now apply in_map. }
  specialize (Hc _ Hrx). rewrite forallb_forall in Hc.
  exact (Hc _ Hry).
Qed.

Lemma centres_In (limit i : Z) :
  (0 <= i <= limit)%Z -> In (half i) (centres limit).
Proof.
  intros H. unfold centres. apply in_map. apply count_In. lia.
Qed.

Lemma checkGrid_sound (radius limit : Z) (p : HexUtils.HexPosition)
  (width height : Z) :
  checkGrid radius limit = true ->
  In p (HexUtils.generateHexGrid radius) ->
  (0 <= width <= limit)%Z -> (0 <= height <= limit)%Z ->
  let pixel := axialToPixel (ofHex p) HEX_SIZE (half width) (half height) in
  sameHex (pixelToAxial (px pixel) (py pixel) HEX_SIZE
                        (half width) (half height)) (ofHex p) = true.
Proof.
  intros Hc Hp Hw Hh.
  apply checkHex_sound with (cs := centres limit).
  - unfold checkGrid in Hc. rewrite forallb_forall in Hc. exact (Hc p Hp).
  - now apply centres_In.
  - now apply centres_In.
Qed.

Lemma checkGrid_board : checkGrid GameConfig.GRID_RADIUS WINDOW_LIMIT = true.
Proof. vm_compute. reflexivity. Qed.

(** C4. In the arithmetic of the machine the round trip is exact on the
    board of the game: for every coordinate [p] that [generateHexGrid]
    returns for a radius up to [GRID_RADIUS], the hex size [HEX_SIZE] and
    the centre of a window of at most 16384 by 16384 pixels, [pixelToAxial]
    applied to [axialToPixel p] gives a position that [equals] [p]; put
    differently, [hexRound] returns [p] on the fractional coordinates of
    the inverse projection, and the cube components of the result sum to
    zero with the third component of [p]. *)
Theorem pixelToAxial_axialToPixel (radius : Z) (p : HexUtils.HexPosition)
  (width height : Z) :
  (radius <= GameConfig.GRID_RADIUS)%Z ->
  In p (HexUtils.generateHexGrid radius) ->
  (0 <= width <= WINDOW_LIMIT)%Z ->
  (0 <= height <= WINDOW_LIMIT)%Z ->
  let pos := ofHex p in
  let centerX := half width in
  let centerY := half height in
  let pixel := axialToPixel pos HEX_SIZE centerX centerY in
  let qf := ((sqrt 3 / 3 * (px pixel - centerX)
              - 1 / 3 * (py pixel - centerY)) / HEX_SIZE)%float in
  let rf := ((2 / 3 * (py pixel - centerY)) / HEX_SIZE)%float in
  let h := pixelToAxial (px pixel) (py pixel) HEX_SIZE centerX centerY in
  equals h pos = true
  /\ equals (hexRound qf rf) pos = true
  /\ (q h + r h + (- q pos - r pos) =? 0)%float = true.
Proof.
  intros Hr Hp Hw Hh pos centerX centerY pixel qf rf h.
  assert (Hp6 : In p (HexUtils.generateHexGrid GameConfig.GRID_RADIUS)).
  { apply in_generateHexGrid in Hp. apply in_generateHexGrid. lia. }
  pose proof (@checkGrid_sound _ _ p width height checkGrid_board Hp6 Hw Hh)
    as Hs.
  cbv zeta in Hs. unfold sameHex in Hs.
  apply andb_true_iff in Hs as [He Hsum].
  split; [exact He|]. split; [exact He|exact Hsum].
Qed.

Lemma pixelToAxial_axialToPixel_witness :
  let pos := ofHex (HexUtils.mkHex 1 (-2)) in
  let pixel := axialToPixel pos HEX_SIZE (half 700) (half 700) in
  equals (pixelToAxial (px pixel) (py pixel) HEX_SIZE (half 700) (half 700))
         pos = true.
Proof.
  assert (Hr : (2 <= GameConfig.GRID_RADIUS)%Z)
    by (unfold GameConfig.GRID_RADIUS; lia).
  assert (Hp : In (HexUtils.mkHex 1 (-2)) (HexUtils.generateHexGrid 2))
    by (apply in_generateHexGrid; simpl; lia).
  assert (Hw : (0 <= 700 <= WINDOW_LIMIT)%Z) by (unfold WINDOW_LIMIT; lia).
  exact (proj1 (@pixelToAxial_axialToPixel 2 (HexUtils.mkHex 1 (-2)) 700 700
                  Hr Hp Hw Hw)).
Defined.

(** The round trip is not exact for every size and centre: far from the
    origin the hex [(1, 0)] of size 40 comes back as [(2, 0)]. *)
Lemma pixelToAxial_axialToPixel_far_centre :
  let p := HexUtils.mkHex 1 0 in
  let pos := ofHex p in
  let pixel := axialToPixel pos 40 1e18 1e18 in
  In p (HexUtils.generateHexGrid 1)
  /\ (0 <? 40)%float = true
  /\ pixelToAxial (px pixel) (py pixel) 40 1e18 1e18 = mkHex 2 0
  /\ equals (pixelToAxial (px pixel) (py pixel) 40 1e18 1e18) pos = false.
Proof.
  split; [vm_compute; tauto|].
  split; [reflexivity|]. split; vm_compute; reflexivity.
Qed.

End RoundTrip.


(** ** The scheduler's interval *)

Section SchedulerInterval.

Lemma emit_tileWarning (k : string) (w : World) :
  emit (tileWarning k) w = logEvent (tileWarning k) w.
Proof. unfold emit. now destruct (listening _). Qed.

Lemma emit_tileFallen (k : string) (w : World) :
  emit (tileFallen k) w = logEvent (tileFallen k) w.
Proof. unfold emit. now destruct (listening _). Qed.

Lemma emit_playerEliminated (p : nat) (w : World) :
  emit (playerEliminated p) w = logEvent (playerEliminated p) w.
Proof. unfold emit. now destruct (listening _). Qed.

Lemma markTileWarning_tileFallManager (k : string) (w : World) :
  tileFallManager (markTileWarning k w) = tileFallManager w.
Proof.
  unfold markTileWarning.
  destruct (JsMap.get k _) as [tile|]; [|reflexivity].
  destruct (Tile.isActive tile); [|reflexivity].
  now rewrite emit_tileWarning.
Qed.

Lemma selectRandomTile_fallInterval (coin pick : R) (w : World) :
  fallInterval (tileFallManager (selectRandomTile coin pick w))
  = fallInterval (tileFallManager w).
Proof.
  unfold selectRandomTile.
  destruct (gatherTiles w) as [act occ].
  destruct (length act =? 0)%nat; [reflexivity|].
  match goal with |- context [match ?c with Some _ => _ | None => _ end] =>
    destruct c as [k|] end; [|reflexivity].
  cbn. now rewrite markTileWarning_tileFallManager.
Qed.

Lemma scheduleNextFall_fallInterval (w : World) :
  fallInterval (tileFallManager (scheduleNextFall w))
  = fallInterval (tileFallManager w).
Proof.
  unfold scheduleNextFall. now destruct (isRunning _).
Qed.

Lemma nextFall_fallInterval (coin pick : R) (w : World) :
  fallInterval (tileFallManager (nextFall coin pick w))
  = accelerate (fallInterval (tileFallManager w)).
Proof.
  unfold nextFall. rewrite scheduleNextFall_fallInterval.
  unfold accelerateFallRate. cbn.
  now rewrite selectRandomTile_fallInterval.
Qed.

Lemma start_fallInterval (w : World) :
  fallInterval (tileFallManager (start w)) = GameConfig.TILE_FALL_INTERVAL.
Proof.
  unfold start. now rewrite scheduleNextFall_fallInterval.
Qed.

Lemma cycles_snoc (draws : list (R * R)) (d : R * R) (w : World) :
  cycles (draws ++ [d]) w = nextFall (fst d) (snd d) (cycles draws w).
Proof. unfold cycles. now rewrite fold_left_app. Qed.

Lemma cycles_fallInterval (draws : list (R * R)) (w : World) :
  fallInterval (tileFallManager (cycles draws (start w)))
  = Z.max 300 (800 - 20 * Z.of_nat (length draws)).
Proof.
  induction draws as [|d draws IH] using rev_ind.
  - cbn [cycles fold_left length]. rewrite start_fallInterval.
    reflexivity.
  - rewrite cycles_snoc, nextFall_fallInterval, IH, length_app.
    unfold accelerate, GameConfig.MIN_FALL_INTERVAL,
      GameConfig.FALL_ACCELERATION.
    cbn [length]. lia.
Qed.

End SchedulerInterval.

(** C5. From [start] on, every scheduler cycle replaces the interval by
    [max MIN_FALL_INTERVAL (interval - FALL_ACCELERATION)]; the interval
    never grows and never drops below the floor; with base 800, step 20 and
    floor 300 it is [max 300 (800 - 20 n)] after [n] cycles, so it equals
    300 exactly from the 25th cycle on. *)
Theorem fallInterval_acceleration (w : World) (draws : list (R * R))
  (coin pick : R) :
  let interval := fallInterval (tileFallManager (cycles draws (start w))) in
  let next := fallInterval (tileFallManager
                (nextFall coin pick (cycles draws (start w)))) in
  next = Z.max GameConfig.MIN_FALL_INTERVAL
               (interval - GameConfig.FALL_ACCELERATION)
  /\ (next <= interval)%Z
  /\ (GameConfig.MIN_FALL_INTERVAL <= interval)%Z
  /\ interval = Z.max 300 (800 - 20 * Z.of_nat (length draws))
  /\ (interval = 300%Z <-> (25 <= length draws)%nat).
Proof.
  cbv zeta. rewrite nextFall_fallInterval, cycles_fallInterval.
  unfold accelerate, GameConfig.MIN_FALL_INTERVAL,
    GameConfig.FALL_ACCELERATION.
  repeat split; lia.
Qed.


(** ** Maps, the heap and frame facts *)

Section MapFacts.

Variable V : Type.

Lemma get_set_same (k : string) (v : V) (m : JsMap.t V) :
  JsMap.get k (JsMap.set k v m) = Some v.
Proof.
  induction m as [|[k' v'] m IH]; simpl.
  - now rewrite String.eqb_refl.
  - destruct (String.eqb k' k) eqn:E; simpl; now rewrite E.
Qed.

Lemma get_set_other (k k' : string) (v : V) (m : JsMap.t V) :
  k <> k' -> JsMap.get k' (JsMap.set k v m) = JsMap.get k' m.
Proof.
  intros Hk. induction m as [|[k0 v0] m IH]; simpl.
  - apply String.eqb_neq in Hk. now rewrite Hk.
  - destruct (String.eqb k0 k) eqn:E; simpl.
    + apply String.eqb_eq in E. subst k0.
      apply String.eqb_neq in Hk. now rewrite Hk.
    + now rewrite IH.
Qed.

Lemma keys_set_present (k : string) (v v0 : V) (m : JsMap.t V) :
  JsMap.get k m = Some v0 -> JsMap.keys (JsMap.set k v m) = JsMap.keys m.
Proof.
  unfold JsMap.keys.
  induction m as [|[k' v'] m IH]; simpl; [discriminate|].
  destruct (String.eqb k' k) eqn:E; simpl; [reflexivity|].
  intros H. now rewrite IH.
Qed.

Lemma get_Some_in (k : string) (v : V) (m : JsMap.t V) :
  JsMap.get k m = Some v -> In (k, v) m.
Proof.
  induction m as [|[k' v'] m IH]; simpl; [discriminate|].
  destruct (String.eqb k' k) eqn:E.
  - apply String.eqb_eq in E. intros [= ->]. left. now subst.
  - intros H. right. now apply IH.
Qed.

Lemma get_None_keys (k : string) (m : JsMap.t V) :
  JsMap.get k m = None <-> ~ In k (JsMap.keys m).
Proof.
  induction m as [|[k' v'] m IH]; simpl; [tauto|].
  destruct (String.eqb k' k) eqn:E.
  - apply String.eqb_eq in E. split; [discriminate|]. intros H. tauto.
  - apply String.eqb_neq in E. rewrite IH. tauto.
Qed.

End MapFacts.

Section HeapFacts.

Variable A : Type.

Lemma nth_error_listUpdate_same (n : nat) (f : A -> A) (l : list A) :
  nth_error (listUpdate n f l) n = option_map f (nth_error l n).
Proof.
  revert n. induction l as [|a l IH]; intros [|n]; simpl; auto.
Qed.

Lemma nth_error_listUpdate_other (n n' : nat) (f : A -> A) (l : list A) :
  n <> n' -> nth_error (listUpdate n f l) n' = nth_error l n'.
Proof.
  revert n n'. induction l as [|a l IH]; intros [|n] [|n'] H; simpl;
    try reflexivity; try congruence.
  apply IH. congruence.
Qed.

Lemma length_listUpdate (n : nat) (f : A -> A) (l : list A) :
  length (listUpdate n f l) = length l.
Proof.
  revert n. induction l as [|a l IH]; intros [|n]; simpl; auto.
Qed.

End HeapFacts.

Lemma getPlayer_updatePlayer_same (p : nat) (f : Player.t -> Player.t)
  (w : World) (player : Player.t) :
  getPlayer p w = Some player ->
  getPlayer p (updatePlayer p f w) = Some (f player).
Proof.
  unfold getPlayer, updatePlayer. simpl. intros H.
  now rewrite nth_error_listUpdate_same, H.
Qed.

Lemma getPlayer_updatePlayer_other (p p' : nat) (f : Player.t -> Player.t)
  (w : World) :
  p <> p' -> getPlayer p' (updatePlayer p f w) = getPlayer p' w.
Proof.
  unfold getPlayer, updatePlayer. simpl. intros H.
  now apply nth_error_listUpdate_other.
Qed.

Lemma filter_others_id (p : nat) (l : list nat) :
  ~ In p l -> filter (fun p' => negb (p' =? p)%nat) l = l.
Proof.
  induction l as [|a l IH]; simpl; [reflexivity|].
  intros H. destruct (a =? p)%nat eqn:E.
  - apply Nat.eqb_eq in E. tauto.
  - simpl. rewrite IH; tauto.
Qed.

Lemma filter_others_not_in (p : nat) (l : list nat) :
  ~ In p (filter (fun p' => negb (p' =? p)%nat) l).
Proof.
  rewrite filter_In. intros [_ H]. now rewrite Nat.eqb_refl in H.
Qed.

(** [stop] only touches the scheduler and the timer queue. *)
Lemma clearAll_frame (ids : list nat) (w : World) :
  let w' := fold_left (fun acc timeoutId => clearTimeout timeoutId acc) ids w in
  gameState w' = gameState w /\ tileFallManager w' = tileFallManager w
  /\ heldKeys w' = heldKeys w /\ heap w' = heap w
  /\ nextTimerId w' = nextTimerId w /\ now w' = now w
  /\ emitted w' = emitted w.
Proof.
  revert w. induction ids as [|id ids IH]; intros w; simpl.
  - tauto.
  - specialize (IH (clearTimeout id w)). simpl in IH. exact IH.
Qed.

Lemma stop_frame (w : World) :
  gameState (stop w) = gameState w /\ heldKeys (stop w) = heldKeys w
  /\ heap (stop w) = heap w /\ nextTimerId (stop w) = nextTimerId w
  /\ now (stop w) = now w /\ emitted (stop w) = emitted w
  /\ fallInterval (tileFallManager (stop w)) = fallInterval (tileFallManager w).
Proof.
  unfold stop.
  cbn [onTileFallManager gameState heldKeys heap nextTimerId now emitted
       tileFallManager withPendingFalls fallInterval].
  match goal with
  | |- context [fold_left ?f ?ids ?w0] =>
      destruct (clearAll_frame ids w0) as (Hg & Ht & Hk & Hh & Hn & Hc & He)
  end.
  cbv zeta in *. rewrite Hg, Ht, Hk, Hh, Hn, Hc, He.
  destruct (nextFallTimeout _) as [id|]; [destruct (id =? 0)%nat|];
    cbn; tauto.
Qed.

Lemma emit_frame (e : Event) (w : World) :
  gameState (emit e w) = gameState w /\ heap (emit e w) = heap w
  /\ heldKeys (emit e w) = heldKeys w
  /\ nextTimerId (emit e w) = nextTimerId w /\ now (emit e w) = now w
  /\ emitted (emit e w) = emitted w ++ [e].
Proof.
  unfold emit. cbn [logEvent gameState].
  destruct (listening (gameState w)); [|simpl; tauto].
  destruct e; try (simpl; tauto).
  unfold handleGameOver.
  destruct (stop_frame (logEvent (gameOver winner) w))
    as (Hg & Hk & Hh & Hn & Hc & He & _).
  rewrite Hg, Hk, Hh, Hn, Hc, He. simpl. tauto.
Qed.


(** ** GameState: tiles *)

Section TileOperations.

Variables (w : World) (posKey : string).

Lemma markTileWarning_missing :
  JsMap.get posKey (board (gameState w)) = None ->
  markTileWarning posKey w = w.
Proof. unfold markTileWarning. now intros ->. Qed.

Lemma markTileWarning_inactive (tile : Tile.t) :
  JsMap.get posKey (board (gameState w)) = Some tile ->
  Tile.isActive tile = false ->
  markTileWarning posKey w = w.
Proof. unfold markTileWarning. now intros -> ->. Qed.

Lemma markTileWarning_active (tile : Tile.t) :
  JsMap.get posKey (board (gameState w)) = Some tile ->
  Tile.isActive tile = true ->
  markTileWarning posKey w
  = logEvent (tileWarning posKey)
             (setTile posKey (Tile.startWarning (now w) tile) w).
Proof.
  unfold markTileWarning. intros -> ->. apply emit_tileWarning.
Qed.

Lemma removeTile_missing :
  JsMap.get posKey (board (gameState w)) = None ->
  removeTile posKey w = w.
Proof. unfold removeTile. now intros ->. Qed.

Lemma removeTile_present (tile : Tile.t) :
  JsMap.get posKey (board (gameState w)) = Some tile ->
  removeTile posKey w
  = logEvent (tileFallen posKey)
             (setTile posKey (Tile.startShatter (now w) tile) w).
Proof.
  unfold removeTile. intros ->. apply emit_tileFallen.
Qed.

End TileOperations.

(** What the guards cover.  On a key that is not on the board
    [markTileWarning] and [removeTile] change nothing and emit nothing; on
    an inactive tile [markTileWarning] changes nothing and emits nothing;
    on an active tile [markTileWarning] records the warning start and emits
    [tileWarning], and [removeTile] starts the shatter and emits
    [tileFallen]. *)
Lemma tile_operations_guarded (w : World) (posKey : string) :
  match JsMap.get posKey (board (gameState w)) with
  | None => markTileWarning posKey w = w /\ removeTile posKey w = w
  | Some tile =>
      (Tile.isActive tile = false -> markTileWarning posKey w = w)
      /\ (Tile.isActive tile = true ->
          markTileWarning posKey w
          = logEvent (tileWarning posKey)
                     (setTile posKey (Tile.startWarning (now w) tile) w)
          /\ removeTile posKey w
             = logEvent (tileFallen posKey)
                        (setTile posKey (Tile.startShatter (now w) tile) w))
  end.
Proof.
  destruct (JsMap.get posKey (board (gameState w))) as [tile|] eqn:Hget.
  - split.
    + intros Hin. now apply markTileWarning_inactive with tile.
    + intros Hact. split.
      * now apply markTileWarning_active.
      * now apply removeTile_present.
  - split; [now apply markTileWarning_missing|now apply removeTile_missing].
Qed.

(** C9, where the code departs from it.  In [exampleWorld] the tile of key
    1,0 has fallen (it is not active), and [removeTile] on that key still
    starts a shatter and emits [tileFallen]: the test of [removeTile] is
    only that the tile exists, while [markTileWarning] also tests
    [isActive]. *)
Theorem removeTile_inactive_not_noop :
  let w' := removeTile "1,0" exampleWorld in
  option_map Tile.isActive (JsMap.get "1,0" (board (gameState exampleWorld)))
  = Some false
  /\ emitted exampleWorld = []
  /\ emitted w' = [tileFallen "1,0"]
  /\ option_map Tile.isShattering
       (JsMap.get "1,0" (board (gameState exampleWorld))) = Some false
  /\ option_map Tile.isShattering (JsMap.get "1,0" (board (gameState w')))
     = Some true
  /\ w' <> exampleWorld.
Proof.
  cbv zeta.
  assert (He : emitted (removeTile "1,0" exampleWorld) = [tileFallen "1,0"])
    by reflexivity.
  repeat split; try reflexivity.
  intros Heq. rewrite Heq in He. discriminate He.
Qed.

(** ** C10: a removed tile stays active while it shatters *)

Lemma geb_true (a b : R) : (b <= a)%R -> HexUtils.geb a b = true.
Proof. unfold HexUtils.geb. intros H. now destruct (Rle_dec b a). Qed.

Lemma geb_false (a b : R) : (a < b)%R -> HexUtils.geb a b = false.
Proof.
  unfold HexUtils.geb. intros H. destruct (Rle_dec b a); [lra|reflexivity].
Qed.

Lemma getShatterProgress_before (time : R) (tile : Tile.t) :
  Tile.isShattering tile = true ->
  (0 < Tile.shatterDuration tile)%R ->
  (time - Tile.shatterStartTime tile < Tile.shatterDuration tile)%R ->
  snd (Tile.getShatterProgress time tile) = tile.
Proof.
  intros Hs Hd Ht. unfold Tile.getShatterProgress. rewrite Hs. simpl.
  rewrite geb_false; [reflexivity|].
  eapply Rle_lt_trans; [apply Rmin_l|].
  apply Rmult_lt_reg_r with (Tile.shatterDuration tile); [lra|].
  unfold Rdiv. rewrite Rmult_assoc, Rinv_l by lra. lra.
Qed.

Lemma getShatterProgress_after (time : R) (tile : Tile.t) :
  Tile.isShattering tile = true ->
  (0 < Tile.shatterDuration tile)%R ->
  (Tile.shatterDuration tile <= time - Tile.shatterStartTime tile)%R ->
  snd (Tile.getShatterProgress time tile) = Tile.fall tile.
Proof.
  intros Hs Hd Ht. unfold Tile.getShatterProgress. rewrite Hs. simpl.
  rewrite geb_true; [reflexivity|].
  apply Rmin_glb; [|lra].
  apply Rmult_le_reg_r with (Tile.shatterDuration tile); [lra|].
  unfold Rdiv. rewrite Rmult_assoc, Rinv_l by lra. lra.
Qed.


Lemma get_map_values (V : Type) (f : string * V -> string * V) (k : string)
  (m : JsMap.t V) :
  (forall e, fst (f e) = fst e) ->
  JsMap.get k (map f m)
  = option_map (fun v => snd (f (k, v))) (JsMap.get k m).
Proof.
  intros Hf. induction m as [|[k' v'] m IH]; simpl; [reflexivity|].
  specialize (Hf (k', v')) as Hk. destruct (f (k', v')) as [k'' v''] eqn:E.
  simpl in Hk. subst k''.
  destruct (String.eqb k' k) eqn:Ek; [|exact IH].
  apply String.eqb_eq in Ek. subst k'. simpl. now rewrite E.
Qed.

Lemma isTileActive_updatePlayer (x y : R) (p : nat)
  (f : Player.t -> Player.t) (w : World) :
  isTileActive x y (updatePlayer p f w) = isTileActive x y w.
Proof. reflexivity. Qed.

(** The movement tick of a player that is not falling, by the answer of
    [isTileActive] at the candidate position. *)
Lemma updatePlayerMovement_active (p : nat) (deltaTime : R) (w : World)
  (player : Player.t) :
  getPlayer p w = Some player ->
  Player.isFalling player = false ->
  let m := integrate (heldKeys w) player deltaTime in
  isTileActive (newX m) (newY m) w = true ->
  updatePlayerMovement p deltaTime w
  = updatePlayer p (Player.setPosition (newX m) (newY m))
      (updatePlayer p (Player.setVelocity (newVx m) (newVy m)) w).
Proof.
  intros Hp Hf m Hact. unfold updatePlayerMovement.
  rewrite Hp, Hf. fold m. rewrite isTileActive_updatePlayer, Hact.
  reflexivity.
Qed.

Lemma updatePlayerMovement_inactive (p : nat) (deltaTime : R) (w : World)
  (player : Player.t) :
  getPlayer p w = Some player ->
  Player.isFalling player = false ->
  let m := integrate (heldKeys w) player deltaTime in
  isTileActive (newX m) (newY m) w = false ->
  updatePlayerMovement p deltaTime w
  = eliminatePlayer p
      (startFalling p
         (updatePlayer p (Player.setVelocity (newVx m) (newVy m)) w)).
Proof.
  intros Hp Hf m Hact. unfold updatePlayerMovement.
  rewrite Hp, Hf. fold m. rewrite isTileActive_updatePlayer, Hact.
  reflexivity.
Qed.

Lemma updatePlayerMovement_falling (p : nat) (deltaTime : R) (w : World)
  (player : Player.t) :
  getPlayer p w = Some player ->
  Player.isFalling player = true ->
  updatePlayerMovement p deltaTime w = w.
Proof.
  intros Hp Hf. unfold updatePlayerMovement. now rewrite Hp, Hf.
Qed.

(** C10. [removeTile] does not clear the active flag.  After [removeTile]
    on an active tile the tile is shattering and still active, and
    [isTileActive] answers true for every pixel that projects to it.  The
    flag is cleared by [fall], which [getShatterProgress] calls once the
    elapsed time has reached the shatter duration of 400 ms; the frame
    update leaves the tile active before that and inactive from then on.
    In between, the movement tick of a player whose candidate position
    projects to the tile commits the position and eliminates nobody. *)
Theorem removeTile_keeps_tile_active (w : World) (posKey : string)
  (tile : Tile.t) :
  JsMap.get posKey (board (gameState w)) = Some tile ->
  Tile.isActive tile = true ->
  Tile.shatterDuration tile = 400%R ->
  let w' := removeTile posKey w in
  let tile' := Tile.startShatter (now w) tile in
  JsMap.get posKey (board (gameState w')) = Some tile'
  /\ Tile.isShattering tile' = true
  /\ Tile.isActive tile' = true
  /\ (forall x y : R,
        HexUtils.toKey (hexOfPixel x y w') = posKey ->
        isTileActive x y w' = true)
  /\ (forall time : R,
        (time - now w < 400)%R ->
        snd (Tile.getShatterProgress time tile') = tile'
        /\ JsMap.get posKey
             (board (gameState (updateTileAnimations (withNow time w'))))
           = Some tile')
  /\ (forall time : R,
        (400 <= time - now w)%R ->
        Tile.isActive (snd (Tile.getShatterProgress time tile')) = false
        /\ JsMap.get posKey
             (board (gameState (updateTileAnimations (withNow time w'))))
           = Some (Tile.fall tile'))
  /\ (forall (p : nat) (player : Player.t) (deltaTime : R),
        getPlayer p w' = Some player ->
        Player.isFalling player = false ->
        let m := integrate (heldKeys w') player deltaTime in
        HexUtils.toKey (hexOfPixel (newX m) (newY m) w') = posKey ->
        let w'' := updatePlayerMovement p deltaTime w' in
        getPlayer p w''
        = Some (Player.setPosition (newX m) (newY m)
                  (Player.setVelocity (newVx m) (newVy m) player))
        /\ alivePlayers (gameState w'') = alivePlayers (gameState w')
        /\ emitted w'' = emitted w').
Proof.
  intros Hget Hact Hdur w' tile'.
  assert (Hw' : w' = logEvent (tileFallen posKey) (setTile posKey tile' w))
    by (now apply removeTile_present).
  assert (Hget' : JsMap.get posKey (board (gameState w')) = Some tile')
    by (rewrite Hw'; cbn; apply get_set_same).
  assert (Hactive : forall x y : R,
             HexUtils.toKey (hexOfPixel x y w') = posKey ->
             isTileActive x y w' = true).
  { intros x y Hkey. unfold isTileActive. now rewrite Hkey, Hget'. }
  assert (Hanim : forall time,
             JsMap.get posKey
               (board (gameState (updateTileAnimations (withNow time w'))))
             = Some (snd (Tile.getShatterProgress time tile'))).
  { intros time. unfold updateTileAnimations. cbn.
    rewrite get_map_values.
    - rewrite Hget'. reflexivity.
    - intros e. now destruct (Tile.isShattering (snd e)). }
  split; [exact Hget'|]. split; [reflexivity|]. split; [exact Hact|].
  split; [exact Hactive|]. split; [|split].
  - intros time Ht.
    assert (Hsame : snd (Tile.getShatterProgress time tile') = tile').
    { apply getShatterProgress_before; simpl; try rewrite Hdur; lra. }
    split; [exact Hsame|]. now rewrite Hanim, Hsame.
  - intros time Ht.
    assert (Hfall : snd (Tile.getShatterProgress time tile') = Tile.fall tile').
    { apply getShatterProgress_after; simpl; try rewrite Hdur; lra. }
    split; [now rewrite Hfall|]. now rewrite Hanim, Hfall.
  - intros p player deltaTime Hp Hf m Hkey w''.
    assert (Hmove : w'' = updatePlayer p (Player.setPosition (newX m) (newY m))
                       (updatePlayer p
                          (Player.setVelocity (newVx m) (newVy m)) w')).
    { apply (@updatePlayerMovement_active p deltaTime w' player Hp Hf).
      apply Hactive. exact Hkey. }
    rewrite Hmove. split; [|split; reflexivity].
    apply getPlayer_updatePlayer_same.
    now apply getPlayer_updatePlayer_same.
Qed.

Lemma removeTile_keeps_tile_active_witness :
  JsMap.get "0,0" (board (gameState (removeTile "0,0" exampleWorld)))
  = Some (Tile.startShatter 1000 (Tile.new (HexUtils.mkHex 0 0)))
  /\ isTileActive 350 350 (removeTile "0,0" exampleWorld) = true.
Proof.
  destruct (@removeTile_keeps_tile_active exampleWorld "0,0"
              (Tile.new (HexUtils.mkHex 0 0)) eq_refl eq_refl eq_refl)
    as (Hget & _ & _ & Hact & _).
  split; [exact Hget|].
  apply Hact. unfold hexOfPixel, HexUtils.pixelToAxial. cbn.
  replace ((sqrt 3 / 3 * (350 - 350) - 1 / 3 * (350 - 350))
           / GameConfig.HEX_SIZE)%R with (IZR 0)
    by (unfold GameConfig.HEX_SIZE; field).
  replace (2 / 3 * (350 - 350) / GameConfig.HEX_SIZE)%R with (IZR 0)
    by (unfold GameConfig.HEX_SIZE; field).
  now rewrite hexRound_IZR.
Defined.


(** ** GameState: elimination and the end of the match *)

Section Elimination.

Variables (w : World) (p : nat) (player : Player.t).

Hypothesis Hplayer : getPlayer p w = Some player.

Lemma eliminatePlayer_gameState :
  gameState (eliminatePlayer p w) = withAlivePlayers
      (filter (fun p' => negb (p' =? p)%nat) (alivePlayers (gameState w)))
      (gameState w).
Proof.
  unfold eliminatePlayer. rewrite Hplayer, emit_playerEliminated. cbn.
  now destruct (length _ <=? 1)%nat.
Qed.

Lemma eliminatePlayer_tileFallManager :
  tileFallManager (eliminatePlayer p w) = tileFallManager w.
Proof.
  unfold eliminatePlayer. rewrite Hplayer, emit_playerEliminated. cbn.
  now destruct (length _ <=? 1)%nat.
Qed.

Lemma eliminatePlayer_heap :
  heap (eliminatePlayer p w)
  = listUpdate p
      (Player.setEliminated (now w - gameStartTime (gameState w))) (heap w).
Proof.
  unfold eliminatePlayer. rewrite Hplayer, emit_playerEliminated. cbn.
  now destruct (length _ <=? 1)%nat.
Qed.

Lemma eliminatePlayer_emitted :
  emitted (eliminatePlayer p w) = emitted w ++ [playerEliminated p].
Proof.
  unfold eliminatePlayer. rewrite Hplayer, emit_playerEliminated. cbn.
  now destruct (length _ <=? 1)%nat.
Qed.

Lemma eliminatePlayer_timers :
  timers (eliminatePlayer p w)
  = if (length (filter (fun p' => negb (p' =? p)%nat)
                        (alivePlayers (gameState w))) <=? 1)%nat
    then timers w ++ [mkTimer (nextTimerId w)
                              (now w + Player.fallDuration player)
                              GameOverCheck]
    else timers w.
Proof.
  unfold eliminatePlayer. rewrite Hplayer, emit_playerEliminated. cbn.
  now destruct (length _ <=? 1)%nat.
Qed.

Lemma eliminatePlayer_clock :
  now (eliminatePlayer p w) = now w
  /\ heldKeys (eliminatePlayer p w) = heldKeys w.
Proof.
  unfold eliminatePlayer. rewrite Hplayer, emit_playerEliminated. cbn.
  now destruct (length _ <=? 1)%nat.
Qed.

Lemma eliminatePlayer_getPlayer :
  getPlayer p (eliminatePlayer p w)
  = Some (Player.setEliminated (now w - gameStartTime (gameState w)) player)
  /\ forall p', p' <> p ->
       getPlayer p' (eliminatePlayer p w) = getPlayer p' w.
Proof.
  unfold getPlayer in *. rewrite eliminatePlayer_heap. split.
  - now rewrite nth_error_listUpdate_same, Hplayer.
  - intros p' Hp'. apply nth_error_listUpdate_other. congruence.
Qed.

End Elimination.

Lemma checkPlayersOnTile_alive (posKey : string) (w : World) (p : nat) :
  In p (checkPlayersOnTile posKey w) -> In p (alivePlayers (gameState w)).
Proof.
  unfold checkPlayersOnTile. destruct (JsMap.get posKey _); [|contradiction].
  intros H. now apply filter_In in H.
Qed.

(** C1, as the code has it.  [eliminatePlayer] has no guard of its own.
    Called on a player that is already eliminated (not alive and not on the
    alive roster), it leaves the game state (board, rosters, match phase),
    the scheduler and every other player as they are and keeps [isAlive]
    false; it overwrites [survivalTime] with the current time minus the
    match start, emits [playerEliminated] once more and, when at most one
    player is alive, schedules one more delayed game-over check.  The
    callers never pass an eliminated player: the movement tick returns at
    once on a falling player, and the scheduler eliminates players returned
    by [checkPlayersOnTile], all of which are on the alive roster. *)
Theorem eliminatePlayer_again (w : World) (p : nat) (player : Player.t) :
  getPlayer p w = Some player ->
  Player.isAlive player = false ->
  ~ In p (alivePlayers (gameState w)) ->
  let w' := eliminatePlayer p w in
  gameState w' = gameState w
  /\ tileFallManager w' = tileFallManager w
  /\ getPlayer p w'
     = Some (Player.setEliminated (now w - gameStartTime (gameState w)) player)
  /\ option_map Player.isAlive (getPlayer p w') = Some false
  /\ (forall p', p' <> p -> getPlayer p' w' = getPlayer p' w)
  /\ emitted w' = emitted w ++ [playerEliminated p]
  /\ timers w'
     = (if (length (alivePlayers (gameState w)) <=? 1)%nat
        then timers w ++ [mkTimer (nextTimerId w)
                                  (now w + Player.fallDuration player)
                                  GameOverCheck]
        else timers w)
  /\ (forall deltaTime, Player.isFalling player = true ->
        updatePlayerMovement p deltaTime w = w)
  /\ (forall posKey, ~ In p (checkPlayersOnTile posKey w)).
Proof.
  intros Hp Halive Hnotin w'. subst w'.
  assert (Hothers : filter (fun p' => negb (p' =? p)%nat)
                           (alivePlayers (gameState w))
                    = alivePlayers (gameState w))
    by (now apply filter_others_id).
  destruct (@eliminatePlayer_getPlayer w p player Hp) as [Hsame Hother].
  split; [|split; [|split; [|split; [|split; [|split; [|split; [|split]]]]]]].
  - rewrite (@eliminatePlayer_gameState w p player Hp), Hothers.
    now destruct (gameState w).
  - exact (@eliminatePlayer_tileFallManager w p player Hp).
  - exact Hsame.
  - now rewrite Hsame.
  - exact Hother.
  - exact (@eliminatePlayer_emitted w p player Hp).
  - rewrite (@eliminatePlayer_timers w p player Hp), Hothers. reflexivity.
  - intros deltaTime Hfall.
    exact (@updatePlayerMovement_falling p deltaTime w player Hp Hfall).
  - intros posKey Hin. apply checkPlayersOnTile_alive in Hin. contradiction.
Qed.

Lemma eliminatePlayer_again_witness :
  emitted (eliminatePlayer 0 (eliminatePlayer 0 exampleWorld))
  = emitted (eliminatePlayer 0 exampleWorld) ++ [playerEliminated 0]
  /\ gameState (eliminatePlayer 0 (eliminatePlayer 0 exampleWorld))
     = gameState (eliminatePlayer 0 exampleWorld).
Proof.
  destruct (@eliminatePlayer_again (eliminatePlayer 0 exampleWorld) 0
              (Player.setEliminated (1000 - 0)
                 (Player.new 0 player1Config 350 350)))
    as (Hg & _ & _ & _ & _ & He & _).
  - reflexivity.
  - reflexivity.
  - simpl. intros [H|[]]. discriminate H.
  - split; [exact He|exact Hg].
Defined.

(** C1, as it is stated, fails.  In [exampleWorld] player 0 is eliminated
    and then eliminated again: the second call emits a second
    [playerEliminated], schedules a second game-over check and, when the
    clock has moved on, replaces the survival time. *)
Lemma eliminatePlayer_twice_changes_state :
  let w1 := eliminatePlayer 0 exampleWorld in
  let w2 := eliminatePlayer 0 w1 in
  let w2' := eliminatePlayer 0 (withNow 1500 w1) in
  option_map Player.isAlive (getPlayer 0 w1) = Some false
  /\ emitted w1 = [playerEliminated 0]
  /\ emitted w2 = [playerEliminated 0; playerEliminated 0]
  /\ length (timers w1) = 1%nat
  /\ length (timers w2) = 2%nat
  /\ option_map Player.survivalTime (getPlayer 0 w1) = Some (1000 - 0)%R
  /\ option_map Player.survivalTime (getPlayer 0 w2') = Some (1500 - 0)%R
  /\ w2 <> w1.
Proof.
  cbv zeta. repeat split; try reflexivity.
  intros Heq.
  assert (H : length (timers (eliminatePlayer 0
                                (eliminatePlayer 0 exampleWorld)))
              = 2%nat) by reflexivity.
  rewrite Heq in H. discriminate H.
Qed.


Lemma phaseEqb_eq (a b : MatchPhase) : phaseEqb a b = true <-> a = b.
Proof. destruct a, b; simpl; split; congruence. Qed.

Lemma gameOverCheck_fires (w : World) :
  (length (alivePlayers (gameState w)) <= 1)%nat ->
  matchPhase (gameState w) = InProgress ->
  gameOverCheck w
  = emit (gameOver (hd_error (alivePlayers (gameState w))))
         (onGameState (withMatchPhase GameOver) w).
Proof.
  intros Hlen Hphase. unfold gameOverCheck.
  apply Nat.leb_le in Hlen. rewrite Hlen, Hphase. reflexivity.
Qed.

Lemma gameOverCheck_skips (w : World) :
  ~ ((length (alivePlayers (gameState w)) <= 1)%nat
     /\ matchPhase (gameState w) = InProgress) ->
  gameOverCheck w = w.
Proof.
  intros Hnot. unfold gameOverCheck.
  destruct (length _ <=? 1)%nat eqn:Hlen; [|reflexivity].
  destruct (phaseEqb _ InProgress) eqn:Hphase; [|reflexivity].
  apply Nat.leb_le in Hlen. apply phaseEqb_eq in Hphase. tauto.
Qed.

(** C8. When [eliminatePlayer] leaves at most one player alive it sets one
    timer, due one fall duration after the current time, and sets none
    otherwise.  When that timer fires, the phase becomes [GameOver] and
    [gameOver] is emitted if and only if at that moment at most one player
    is alive and the phase is [InProgress]; otherwise the firing changes
    nothing.  The payload is the one alive player when there is one and
    nothing when there is none.  After [reset] the check changes nothing:
    the phase stays [WaitingToStart]. *)
Theorem gameOver_resolution (w : World) (p : nat) (player : Player.t) :
  getPlayer p w = Some player ->
  let w1 := eliminatePlayer p w in
  let alive1 := alivePlayers (gameState w1) in
  alive1 = filter (fun p' => negb (p' =? p)%nat) (alivePlayers (gameState w))
  /\ timers w1
     = (if (length alive1 <=? 1)%nat
        then timers w ++ [mkTimer (nextTimerId w)
                                  (now w + Player.fallDuration player)
                                  GameOverCheck]
        else timers w)
  /\ (forall (coin pick : R) (wf : World),
        let alive := alivePlayers (gameState wf) in
        let wf' := runCallback GameOverCheck coin pick wf in
        ((length alive <= 1)%nat /\ matchPhase (gameState wf) = InProgress ->
         matchPhase (gameState wf') = GameOver
         /\ emitted wf' = emitted wf ++ [gameOver (hd_error alive)]
         /\ (forall p1, alive = [p1] -> hd_error alive = Some p1)
         /\ (alive = [] -> hd_error alive = None))
        /\ (~ ((length alive <= 1)%nat
               /\ matchPhase (gameState wf) = InProgress) ->
            wf' = wf)
        /\ (matchPhase (gameState wf') = GameOver
            /\ emitted wf' = emitted wf ++ [gameOver (hd_error alive)]
            <-> (length alive <= 1)%nat
                /\ matchPhase (gameState wf) = InProgress))
  /\ (forall (coin pick : R) (wf : World),
        runCallback GameOverCheck coin pick (reset wf) = reset wf
        /\ matchPhase (gameState (reset wf)) = WaitingToStart).
Proof.
  intros Hp w1 alive1.
  assert (Halive : alive1 = filter (fun p' => negb (p' =? p)%nat)
                                   (alivePlayers (gameState w))).
  { subst alive1 w1. now rewrite (@eliminatePlayer_gameState w p player Hp). }
  split; [exact Halive|]. split.
  { subst w1. rewrite (@eliminatePlayer_timers w p player Hp).
    now rewrite <- Halive. }
  split.
  - intros coin pick wf alive wf'. subst wf'. cbn [runCallback].
    assert (Hfire : (length alive <= 1)%nat /\
                    matchPhase (gameState wf) = InProgress ->
                    matchPhase (gameState (gameOverCheck wf)) = GameOver
                    /\ emitted (gameOverCheck wf)
                       = emitted wf ++ [gameOver (hd_error alive)]).
    { intros [Hlen Hphase]. rewrite gameOverCheck_fires by assumption.
      destruct (emit_frame (gameOver (hd_error (alivePlayers (gameState wf))))
                           (onGameState (withMatchPhase GameOver) wf))
        as (Hg & _ & _ & _ & _ & He).
      rewrite Hg, He. split; reflexivity. }
    split; [|split].
    + intros Hcond. destruct (Hfire Hcond) as [H1 H2].
      split; [exact H1|]. split; [exact H2|].
      split; [intros p1 ->; reflexivity|intros ->; reflexivity].
    + apply gameOverCheck_skips.
    + split; [|exact Hfire].
      intros [_ Hem].
      destruct (Nat.le_gt_cases (length alive) 1) as [Hlen|Hlen].
      * destruct (matchPhase (gameState wf)) eqn:Hphase; try tauto;
          rewrite gameOverCheck_skips in Hem
            by (subst alive; rewrite Hphase; intros [_ H]; discriminate H);
          apply (f_equal (@length Event)) in Hem;
          rewrite length_app in Hem; simpl in Hem; lia.
      * rewrite gameOverCheck_skips in Hem by (subst alive; lia).
        apply (f_equal (@length Event)) in Hem.
        rewrite length_app in Hem. simpl in Hem. lia.
  - intros coin pick wf. split; reflexivity.
Qed.

Lemma gameOver_resolution_witness :
  timers (eliminatePlayer 0 exampleWorld)
  = [mkTimer 1 (1000 + 800) GameOverCheck]
  /\ alivePlayers (gameState (eliminatePlayer 0 exampleWorld)) = [1%nat].
Proof.
  destruct (@gameOver_resolution exampleWorld 0
              (Player.new 0 player1Config 350 350) eq_refl)
    as (Halive & Htimers & _).
  split; [exact Htimers|exact Halive].
Defined.

(** The two endings on the example world: one survivor is the winner; with
    nobody left the match is a draw. *)
Example gameOver_winner :
  let w1 := withNow 1800 (eliminatePlayer 0 exampleWorld) in
  emitted (gameOverCheck w1) = [playerEliminated 0; gameOver (Some 1%nat)]
  /\ matchPhase (gameState (gameOverCheck w1)) = GameOver.
Proof. split; reflexivity. Qed.

Example gameOver_draw :
  let w1 := eliminatePlayer 1 (eliminatePlayer 0 exampleWorld) in
  emitted (gameOverCheck (withNow 1800 w1))
  = [playerEliminated 0; playerEliminated 1; gameOver None]
  /\ matchPhase (gameState (gameOverCheck (withNow 1800 w1))) = GameOver.
Proof. split; reflexivity. Qed.


(** ** The tile selection policy *)

Section Rounding.

Import Binary64.

Local Open Scope R_scope.

Lemma nearestEven_ge (m : R) (k : Z) : IZR k <= m -> (k <= nearestEven m)%Z.
Proof.
  intros H. unfold nearestEven.
  assert (Hf : (k <= Zfloor m)%Z) by now apply Zfloor_lub.
  destruct (Rlt_dec _ _); [exact Hf|].
  destruct (Rlt_dec _ _); [lia|]. destruct (Z.even _); lia.
Qed.

Lemma nearestEven_lt (m : R) (k : Z) :
  m < IZR k - / 2 -> (nearestEven m <= k - 1)%Z.
Proof.
  intros H. unfold nearestEven.
  destruct (Zfloor_bound m) as [Hlo Hhi].
  assert (Hf : (Zfloor m <= k - 1)%Z).
  { assert (IZR (Zfloor m) < IZR k) by lra. apply lt_IZR in H0. lia. }
  destruct (Z.eq_dec (Zfloor m) (k - 1)) as [E|E].
  - assert (Hd : m - IZR (Zfloor m) < / 2).
    { rewrite E, minus_IZR. lra. }
    destruct (Rlt_dec _ _); [exact Hf|contradiction].
  - destruct (Rlt_dec _ _); [exact Hf|].
    destruct (Rlt_dec _ _); [lia|]. destruct (Z.even _); lia.
Qed.

Lemma nearestEven_le (m : R) (k : Z) : m <= IZR k -> (nearestEven m <= k)%Z.
Proof.
  intros H. destruct (Rle_lt_dec (IZR k) m) as [Hge|Hlt].
  - assert (m = IZR k) by lra. subst m. unfold nearestEven.
    rewrite ZfloorZ. rewrite Rminus_diag.
    destruct (Rlt_dec 0 (/ 2)); [lia|lra].
  - unfold nearestEven.
    destruct (Zfloor_bound m) as [Hlo Hhi].
    assert (Hf : (Zfloor m <= k - 1)%Z).
    { assert (IZR (Zfloor m) < IZR k) by lra. apply lt_IZR in H0. lia. }
    destruct (Rlt_dec _ _); [lia|].
    destruct (Rlt_dec _ _); [lia|]. destruct (Z.even _); lia.
Qed.

Lemma nearestEven_IZR (k : Z) : nearestEven (IZR k) = k.
Proof.
  apply Z.le_antisymm; [apply nearestEven_le|apply nearestEven_ge]; lra.
Qed.

Lemma powerRZ_2_pos (z : Z) : 0 < powerRZ 2 z.
Proof. apply powerRZ_lt. lra. Qed.

Lemma powerRZ_2_exp (z : Z) : powerRZ 2 z = exp (IZR z * ln 2).
Proof. rewrite powerRZ_Rpower by lra. reflexivity. Qed.

Lemma powerRZ_2_le (a b : Z) : (a <= b)%Z -> powerRZ 2 a <= powerRZ 2 b.
Proof.
  intros H. rewrite !powerRZ_2_exp.
  assert (Hln : 0 < ln 2) by (rewrite <- ln_1; apply ln_increasing; lra).
  apply IZR_le in H.
  destruct (Req_dec (IZR a) (IZR b)) as [->|Hne]; [lra|].
  left. apply exp_increasing. nra.
Qed.

Lemma powerRZ_2_lt_inv (a b : Z) : powerRZ 2 a < powerRZ 2 b -> (a < b)%Z.
Proof.
  intros H. destruct (Z_lt_le_dec a b) as [Hlt|Hge]; [exact Hlt|].
  apply powerRZ_2_le in Hge. lra.
Qed.

(** The binade of a positive number. *)
Lemma binade_bounds (x : R) :
  0 < x -> powerRZ 2 (binade x) <= x < powerRZ 2 (binade x + 1).
Proof.
  intros Hx. unfold binade. rewrite Rabs_right by lra.
  assert (Hln : 0 < ln 2) by (rewrite <- ln_1; apply ln_increasing; lra).
  destruct (Zfloor_bound (ln x / ln 2)) as [Hlo Hhi].
  set (e := Zfloor (ln x / ln 2)) in *.
  assert (Hq : ln x / ln 2 * ln 2 = ln x) by (field; lra).
  rewrite !powerRZ_2_exp, plus_IZR.
  pose proof (exp_ln x Hx) as Hexp.
  split.
  - rewrite <- Hexp at 1.
    assert (IZR e * ln 2 <= ln x) by nra.
    destruct (Req_dec (IZR e * ln 2) (ln x)) as [->|Hne]; [lra|].
    left. apply exp_increasing. lra.
  - rewrite <- Hexp at 1. apply exp_increasing. nra.
Qed.

Lemma binade_lt (x : R) (k : Z) :
  0 < x -> x < powerRZ 2 k -> (binade x < k)%Z.
Proof.
  intros Hx Hk. apply powerRZ_2_lt_inv.
  destruct (@binade_bounds x Hx). lra.
Qed.

Lemma binade_ge (x : R) (k : Z) :
  0 < x -> powerRZ 2 k <= x -> (k <= binade x)%Z.
Proof.
  intros Hx Hk.
  assert (k < binade x + 1)%Z; [|lia].
  apply powerRZ_2_lt_inv. destruct (@binade_bounds x Hx). lra.
Qed.

Lemma powerRZ_2_nonneg (n : Z) : (0 <= n)%Z -> powerRZ 2 n = IZR (2 ^ n).
Proof.
  intros Hn. destruct n as [|p|p]; [reflexivity| |lia].
  cbn [powerRZ]. rewrite pow_IZR. now rewrite positive_nat_Z.
Qed.

(** An integer is a multiple of a unit in the last place that is at most 1. *)
Lemma integer_in_ulps (j z : Z) :
  (z <= 0)%Z -> IZR j = IZR (j * 2 ^ (- z)) * powerRZ 2 z.
Proof.
  intros Hz. rewrite mult_IZR, Rmult_assoc.
  rewrite <- powerRZ_2_nonneg by lia.
  rewrite <- powerRZ_add by lra.
  replace (- z + z)%Z with 0%Z by lia. simpl. ring.
Qed.

Lemma ulpExponent_small (x : R) :
  0 < x -> x < powerRZ 2 53 -> (ulpExponent x <= 0)%Z.
Proof.
  intros Hx Hlt. unfold ulpExponent.
  pose proof (@binade_lt x 53 Hx Hlt). lia.
Qed.

Lemma round_pos (x : R) :
  x <> 0 ->
  round x = IZR (nearestEven (x / powerRZ 2 (ulpExponent x)))
            * powerRZ 2 (ulpExponent x).
Proof. intros H. unfold round. now destruct (Req_dec_T x 0). Qed.

Lemma round_0 : round 0 = 0.
Proof. unfold round. destruct (Req_dec_T 0 0); [reflexivity|congruence]. Qed.

Lemma quotient_by_ulp (x P : R) : 0 < P -> x / P * P = x.
Proof. intros H. field. lra. Qed.

(** Rounding does not cross an integer. *)
Lemma round_ge_integer (x : R) (j : Z) :
  0 <= x -> x < powerRZ 2 53 -> IZR j <= x -> IZR j <= round x.
Proof.
  intros H0 H53 Hj. destruct (Req_dec x 0) as [->|Hne].
  - now rewrite round_0.
  - assert (Hx : 0 < x) by lra.
    pose proof (@ulpExponent_small x Hx H53) as Hu.
    rewrite round_pos by exact Hne.
    pose proof (@integer_in_ulps j _ Hu) as Hji.
    set (P := powerRZ 2 (ulpExponent x)) in *.
    set (K := (j * 2 ^ (- ulpExponent x))%Z) in *.
    assert (HP : 0 < P) by apply powerRZ_2_pos.
    assert (Hk : (K <= nearestEven (x / P))%Z).
    { apply nearestEven_ge. apply Rmult_le_reg_r with P; [exact HP|].
      rewrite quotient_by_ulp by exact HP. lra. }
    apply IZR_le in Hk. rewrite Hji.
    apply Rmult_le_compat_r; lra.
Qed.

Lemma round_le_integer (x : R) (j : Z) :
  0 <= x -> x <= IZR j -> IZR j < powerRZ 2 53 -> round x <= IZR j.
Proof.
  intros H0 Hj H53. destruct (Req_dec x 0) as [->|Hne].
  - rewrite round_0. lra.
  - assert (Hx : 0 < x) by lra.
    assert (Hu : (ulpExponent x <= 0)%Z) by (apply ulpExponent_small; lra).
    rewrite round_pos by exact Hne.
    pose proof (@integer_in_ulps j _ Hu) as Hji.
    set (P := powerRZ 2 (ulpExponent x)) in *.
    set (K := (j * 2 ^ (- ulpExponent x))%Z) in *.
    assert (HP : 0 < P) by apply powerRZ_2_pos.
    assert (Hk : (nearestEven (x / P) <= K)%Z).
    { apply nearestEven_le. apply Rmult_le_reg_r with P; [exact HP|].
      rewrite quotient_by_ulp by exact HP. lra. }
    apply IZR_le in Hk. rewrite Hji.
    apply Rmult_le_compat_r; lra.
Qed.

(** Below an integer by more than its relative rounding error, the rounded
    value stays below the integer. *)
Lemma round_lt_integer (x : R) (j : Z) :
  0 <= x -> (1 <= j)%Z -> IZR j < powerRZ 2 53 ->
  x <= IZR j * (1 - powerRZ 2 (-53)) -> round x < IZR j.
Proof.
  intros H0 H1 H53 Hj.
  assert (Hj1 : 1 <= IZR j) by now apply IZR_le.
  assert (He : 0 < powerRZ 2 (-53)) by apply powerRZ_2_pos.
  destruct (Req_dec x 0) as [->|Hne]; [rewrite round_0; lra|].
  assert (Hx : 0 < x) by lra.
  assert (Hje : 0 < IZR j * powerRZ 2 (-53))
    by (apply Rmult_lt_0_compat; lra).
  rewrite Rmult_minus_distr_l, Rmult_1_r in Hj.
  assert (Hxj : x < IZR j) by lra.
  assert (Hu : (ulpExponent x <= 0)%Z) by (apply ulpExponent_small; lra).
  rewrite round_pos by exact Hne.
  pose proof (@integer_in_ulps j _ Hu) as Hji.
  set (M := Z.max (binade x) (-1022)).
  assert (HM : powerRZ 2 M < IZR j).
  { unfold M. destruct (Z.max_spec (binade x) (-1022)) as [[_ ->]|[_ ->]].
    - assert (Hsmall : powerRZ 2 (-1022) <= powerRZ 2 (-1))
        by (apply powerRZ_2_le; lia).
      replace (powerRZ 2 (-1)) with (/ 2) in Hsmall by (simpl; lra). lra.
    - destruct (@binade_bounds x Hx). lra. }
  assert (HPM : powerRZ 2 (ulpExponent x) = powerRZ 2 M * powerRZ 2 (-52)).
  { unfold ulpExponent. fold M.
    rewrite <- powerRZ_add by lra. f_equal. }
  assert (Hhalf : powerRZ 2 (-53) = powerRZ 2 (-52) * / 2).
  { replace (-53)%Z with (-52 + -1)%Z by lia.
    rewrite powerRZ_add by lra. f_equal. simpl. lra. }
  assert (H52 : 0 < powerRZ 2 (-52)) by apply powerRZ_2_pos.
  assert (HMpos : 0 < powerRZ 2 M) by apply powerRZ_2_pos.
  set (P := powerRZ 2 (ulpExponent x)) in *.
  set (K := (j * 2 ^ (- ulpExponent x))%Z) in *.
  assert (HP : 0 < P) by apply powerRZ_2_pos.
  assert (Hgap : x < IZR j - P / 2).
  { rewrite HPM. rewrite Hhalf in Hj. nra. }
  assert (Hk : (nearestEven (x / P) <= K - 1)%Z).
  { apply nearestEven_lt.
    apply Rmult_lt_reg_r with P; [exact HP|].
    rewrite quotient_by_ulp by exact HP.
    rewrite Rmult_minus_distr_r, <- Hji. lra. }
  apply IZR_le in Hk. rewrite minus_IZR in Hk.
  apply Rmult_le_compat_r with (r := P) in Hk; [|lra].
  rewrite Rmult_minus_distr_r, <- Hji in Hk. lra.
Qed.

(** The doubles below 1. *)
Lemma representable_below_1 (x : R) :
  representable x -> 0 <= x < 1 -> x <= 1 - powerRZ 2 (-53).
Proof.
  intros Hr [H0 H1].
  assert (He : powerRZ 2 (-53) <= / 2).
  { replace (/ 2) with (powerRZ 2 (-1)) by (simpl; lra).
    apply powerRZ_2_le. lia. }
  destruct (Rlt_le_dec x (/ 2)) as [Hlt|Hge]; [lra|].
  assert (Hx : 0 < x) by lra.
  assert (Hb : binade x = (-1)%Z).
  { assert (-1 <= binade x)%Z
      by (apply binade_ge; [exact Hx|simpl; lra]).
    assert (binade x < 0)%Z
      by (apply binade_lt; [exact Hx|simpl; lra]).
    lia. }
  assert (Hu : ulpExponent x = (-53)%Z)
    by (unfold ulpExponent; rewrite Hb; reflexivity).
  unfold representable in Hr. rewrite round_pos in Hr by lra.
  rewrite Hu in Hr.
  set (k := nearestEven (x / powerRZ 2 (-53))) in *.
  assert (HP : 0 < powerRZ 2 (-53)) by apply powerRZ_2_pos.
  assert (Hone : 1 = IZR (2 ^ 53) * powerRZ 2 (-53)).
  { rewrite <- powerRZ_2_nonneg by lia.
    rewrite <- powerRZ_add by lra. reflexivity. }
  assert (Hk : (k < 2 ^ 53)%Z).
  { apply lt_IZR. apply Rmult_lt_reg_r with (powerRZ 2 (-53)); [exact HP|].
    rewrite <- Hone, Hr. exact H1. }
  assert (Hk' : IZR k <= IZR (2 ^ 53) - 1).
  { rewrite <- minus_IZR. apply IZR_le. lia. }
  rewrite <- Hr.
  apply Rmult_le_compat_r with (r := powerRZ 2 (-53)) in Hk'; [|lra].
  rewrite Rmult_minus_distr_r, <- Hone in Hk'. lra.
Qed.

End Rounding.

Section RandomIndex.

Variables (u : R) (n : nat).

Hypothesis Hu : (0 <= u < 1)%R.

Hypothesis Hn : (0 < n)%nat.

Hypothesis Hsize : (INR n < powerRZ 2 53)%R.

Lemma product_small : (0 <= u * INR n < powerRZ 2 53)%R.
Proof.
  assert (Hpos : (0 < INR n)%R) by (apply lt_0_INR; exact Hn).
  split; [apply Rmult_le_pos; lra|nra].
Qed.

Lemma randomIndex_floor :
  INR (randomIndex u n) = IZR (Zfloor (Binary64.round (u * INR n))).
Proof.
  unfold randomIndex. rewrite INR_IZR_INZ, Z2Nat.id; [reflexivity|].
  apply Zfloor_lub. destruct product_small.
  now apply (@round_ge_integer (u * INR n) 0).
Qed.

(** The index is the integer part of the rounded product. *)
Lemma randomIndex_spec (j : nat) :
  randomIndex u n = j <->
  (INR j <= Binary64.round (u * INR n) < INR j + 1)%R.
Proof.
  pose proof (Zfloor_bound (Binary64.round (u * INR n))) as Hb.
  rewrite <- randomIndex_floor in Hb. split.
  - intros <-. exact Hb.
  - intros [Hlo Hhi].
    assert (H1 : (INR (randomIndex u n) < INR j + 1)%R) by lra.
    assert (H2 : (INR j < INR (randomIndex u n) + 1)%R) by lra.
    rewrite <- S_INR in H1, H2.
    apply INR_lt in H1, H2. lia.
Qed.

(** Draws well inside the [j]-th of [n] equal parts of the unit interval
    give the index [j]. *)
Lemma randomIndex_inner (j : nat) :
  (j < n)%nat ->
  (INR j <= u * INR n <= (INR j + 1) * (1 - powerRZ 2 (-53)))%R ->
  randomIndex u n = j.
Proof.
  intros Hj [Hlo Hhi]. destruct product_small as [H0 H53].
  apply randomIndex_spec. split.
  - rewrite (INR_IZR_INZ j) in *. now apply round_ge_integer.
  - rewrite <- S_INR in *. rewrite (INR_IZR_INZ (S j)) in *.
    apply round_lt_integer; [exact H0|lia| |exact Hhi].
    apply Rle_lt_trans with (INR n); [|exact Hsize].
    rewrite <- INR_IZR_INZ. apply le_INR. lia.
Qed.

(** A draw that gives the index [j] lies in the [j]-th part, up to the
    rounding of the product at its lower end. *)
Lemma randomIndex_outer :
  (INR (randomIndex u n) * (1 - powerRZ 2 (-53)) <= u * INR n
   < INR (randomIndex u n) + 1)%R.
Proof.
  destruct product_small as [H0 H53].
  destruct (proj1 (randomIndex_spec (randomIndex u n)) eq_refl) as [Hlo Hhi].
  set (j := randomIndex u n) in *.
  assert (He : (0 < powerRZ 2 (-53) <= / 2)%R).
  { split; [apply powerRZ_2_pos|].
    replace (/ 2)%R with (powerRZ 2 (-1)) by (simpl; lra).
    apply powerRZ_2_le. lia. }
  split.
  - destruct (Rle_lt_dec (INR j * (1 - powerRZ 2 (-53))) (u * INR n))
      as [Hge|Hlt]; [exact Hge|exfalso].
    destruct j as [|j'].
    + simpl in Hlt. lra.
    + assert (Hpos : (0 < INR n)%R) by (apply lt_0_INR; exact Hn).
      assert (Hn53 : (IZR (Z.of_nat n) < powerRZ 2 53)%R)
        by now rewrite <- INR_IZR_INZ.
      assert (Hxn : (u * INR n <= IZR (Z.of_nat n))%R)
        by (rewrite <- INR_IZR_INZ; nra).
      pose proof (@round_le_integer (u * INR n) (Z.of_nat n) H0 Hxn Hn53)
        as Hrn.
      assert (Hround : (Binary64.round (u * INR n) < INR (S j'))%R).
      { rewrite (INR_IZR_INZ (S j')) in *.
        apply round_lt_integer; [exact H0|lia|lra|lra]. }
      lra.
  - destruct (Rlt_le_dec (u * INR n) (INR j + 1)) as [Hlt|Hge];
      [exact Hlt|exfalso].
    rewrite <- S_INR in *. rewrite (INR_IZR_INZ (S j)) in *.
    pose proof (@round_ge_integer (u * INR n) (Z.of_nat (S j)) H0 H53 Hge).
    lra.
Qed.

(** The draw of a double never selects an index past the end. *)
Lemma randomIndex_lt :
  Binary64.representable u -> (randomIndex u n < n)%nat.
Proof.
  intros Hrep. destruct product_small as [H0 H53].
  pose proof (representable_below_1 Hrep Hu) as Hu1.
  assert (Hpos : (0 < INR n)%R) by (apply lt_0_INR; exact Hn).
  pose proof (Zfloor_bound (Binary64.round (u * INR n))) as Hb.
  rewrite <- randomIndex_floor in Hb.
  assert (Hround : (Binary64.round (u * INR n) < INR n)%R).
  { assert (Hx : (u * INR n <= INR n * (1 - powerRZ 2 (-53)))%R) by nra.
    pose proof Hsize as Hsize'.
    rewrite (INR_IZR_INZ n) in Hsize'.
    rewrite (INR_IZR_INZ n) in Hx at 2.
    rewrite (INR_IZR_INZ n) at 2.
    apply round_lt_integer; [exact H0|lia|exact Hsize'|exact Hx]. }
  apply INR_lt. lra.
Qed.

End RandomIndex.

Section RoundingExample.

Import Binary64.
Local Open Scope R_scope.

Lemma binade_eq (x : R) (k : Z) :
  powerRZ 2 k <= x < powerRZ 2 (k + 1) -> binade x = k.
Proof.
  intros [Hlo Hhi].
  assert (Hx : 0 < x) by (pose proof (powerRZ_2_pos k); lra).
  pose proof (@binade_lt x (k + 1) Hx Hhi).
  pose proof (@binade_ge x k Hx Hlo). lia.
Qed.

Lemma powerRZ_2_m53 : powerRZ 2 (-53) = / 9007199254740992.
Proof.
  change (powerRZ 2 (-53)) with (/ 2 ^ Pos.to_nat 53).
  rewrite pow_IZR, positive_nat_Z. reflexivity.
Qed.

(** The double nearest to 1/3 is [6004799503160661 / 2^54]; three times
    it is [1 - 2^-54], which rounds to 1: for this draw and an array of
    three entries [Math.floor(Math.random() * 3)] is 1, where the real
    product would give 0. *)
Lemma randomIndex_third :
  randomIndex (6004799503160661 / 18014398509481984) 3 = 1%nat
  /\ Zfloor (6004799503160661 / 18014398509481984 * 3) = 0%Z.
Proof.
  split; [|apply Zfloor_eq; lra].
  unfold randomIndex.
  replace (6004799503160661 / 18014398509481984 * INR 3)
    with (18014398509481983 / 18014398509481984) by (simpl; lra).
  set (x := 18014398509481983 / 18014398509481984).
  assert (Hb : binade x = (-1)%Z).
  { apply binade_eq. change (-1 + 1)%Z with 0%Z.
    change (powerRZ 2 0) with 1. change (powerRZ 2 (-1)) with (/ (2 * 1)).
    unfold x. lra. }
  assert (Hr : round x = 1).
  { rewrite round_pos by (unfold x; lra).
    unfold ulpExponent. rewrite Hb.
    change (Z.max (-1) (-1022) - 52)%Z with (-53)%Z.
    rewrite powerRZ_2_m53.
    replace (x / / 9007199254740992) with (9007199254740991 + / 2)
      by (unfold x; lra).
    assert (Hn : nearestEven (9007199254740991 + / 2) = 9007199254740992%Z).
    { unfold nearestEven.
      assert (Hf : Zfloor (9007199254740991 + / 2) = 9007199254740991%Z)
        by (apply Zfloor_eq; lra).
      rewrite Hf.
      destruct (Rlt_dec _ _) as [H|_]; [lra|].
      destruct (Rlt_dec _ _) as [H|_]; [lra|].
      reflexivity. }
    rewrite Hn. lra. }
  rewrite Hr. rewrite ZfloorZ. reflexivity.
Qed.

Lemma representable_third :
  representable (6004799503160661 / 18014398509481984).
Proof.
  unfold representable.
  set (x := 6004799503160661 / 18014398509481984).
  assert (Hb : binade x = (-2)%Z).
  { apply binade_eq. change (-2 + 1)%Z with (-1)%Z.
    change (powerRZ 2 (-1)) with (/ (2 * 1)).
    change (powerRZ 2 (-2)) with (/ (2 * (2 * 1))).
    unfold x. lra. }
  rewrite round_pos by (unfold x; lra).
  unfold ulpExponent. rewrite Hb.
  change (Z.max (-2) (-1022) - 52)%Z with (-54)%Z.
  assert (Hp : powerRZ 2 (-54) = / 18014398509481984).
  { change (powerRZ 2 (-54)) with (/ 2 ^ Pos.to_nat 54).
    rewrite pow_IZR, positive_nat_Z. reflexivity. }
  rewrite Hp.
  replace (x / / 18014398509481984) with (IZR 6004799503160661)
    by (unfold x; lra).
  rewrite nearestEven_IZR. unfold x. lra.
Qed.

End RoundingExample.

Lemma gatherTiles_fold (w : World) (b : JsMap.t Tile.t)
  (acc : list string * list string) :
  fold_left
    (fun (acc : list string * list string) (entry : string * Tile.t) =>
       let (posKey, tile) := entry in
       if isCandidate tile then
         let activeTiles := fst acc ++ [posKey] in
         let playersOnTile := checkPlayersOnTile posKey w in
         if (0 <? length playersOnTile)%nat
         then (activeTiles, snd acc ++ [posKey])
         else (activeTiles, snd acc)
       else acc) b acc
  = (fst acc
       ++ map fst (filter (fun e : string * Tile.t => isCandidate (snd e)) b),
     snd acc
       ++ filter (isOccupied w)
            (map fst (filter (fun e : string * Tile.t => isCandidate (snd e))
                             b))).
Proof.
  revert acc. induction b as [|[k tile] b IH]; intros [act occ].
  - cbn. now rewrite !app_nil_r.
  - cbn [fold_left filter map fst snd].
    destruct (isCandidate tile); cbn [filter map fst snd]; [|apply IH].
    destruct (isOccupied w k) eqn:E; unfold isOccupied in E; rewrite E, IH;
      cbn [fst snd]; now rewrite <- !app_assoc.
Qed.

Lemma gatherTiles_spec (w : World) :
  gatherTiles w = (candidates w, occupiedCandidates w).
Proof.
  unfold gatherTiles. rewrite gatherTiles_fold. reflexivity.
Qed.

Lemma get_of_In (V : Type) (k : string) (v : V) (m : JsMap.t V) :
  NoDup (JsMap.keys m) -> In (k, v) m -> JsMap.get k m = Some v.
Proof.
  unfold JsMap.keys.
  induction m as [|[k' v'] m IH]; simpl; [contradiction|].
  intros Hnd [Heq|Hin].
  - injection Heq as -> ->. now rewrite String.eqb_refl.
  - inversion Hnd as [|? ? Hnotin Hnd']; subst.
    destruct (String.eqb k' k) eqn:E.
    + apply String.eqb_eq in E. subst k'. exfalso. apply Hnotin.
      apply in_map_iff. now exists (k, v).
    + now apply IH.
Qed.

Lemma in_candidates (w : World) (k : string) :
  NoDup (JsMap.keys (board (gameState w))) ->
  In k (candidates w) <->
  exists tile, JsMap.get k (board (gameState w)) = Some tile
               /\ Tile.isActive tile = true /\ Tile.isWarning tile = false.
Proof.
  intros Hnd. unfold candidates. rewrite in_map_iff. split.
  - intros [[k' tile] [Hk Hin]]. simpl in Hk. subst k'.
    apply filter_In in Hin as [Hin Hc]. simpl in Hc.
    unfold isCandidate in Hc. apply andb_true_iff in Hc as [Ha Hw].
    exists tile. rewrite negb_true_iff in Hw. auto using get_of_In.
  - intros [tile (Hget & Ha & Hw)]. exists (k, tile). split; [reflexivity|].
    apply filter_In. split; [now apply get_Some_in|].
    simpl. unfold isCandidate. now rewrite Ha, Hw.
Qed.

Lemma NoDup_candidates (w : World) :
  NoDup (JsMap.keys (board (gameState w))) -> NoDup (candidates w).
Proof.
  unfold candidates, JsMap.keys.
  induction (board (gameState w)) as [|[k tile] b IH]; simpl; intros Hnd.
  - constructor.
  - inversion Hnd as [|? ? Hnotin Hnd']; subst.
    destruct (isCandidate tile); simpl; [|auto].
    constructor; [|auto].
    intros Hin. apply Hnotin. apply in_map_iff in Hin as [e [He Hin]].
    apply filter_In in Hin as [Hin _]. apply in_map_iff. now exists e.
Qed.

Lemma in_occupiedCandidates (w : World) (k : string) :
  In k (occupiedCandidates w) <->
  In k (candidates w)
  /\ exists p player,
       In p (alivePlayers (gameState w)) /\ getPlayer p w = Some player
       /\ HexUtils.toKey (hexOfPixel (Player.x player) (Player.y player) w)
          = k.
Proof.
  unfold occupiedCandidates. rewrite filter_In.
  assert (Hocc : In k (candidates w) ->
                 (isOccupied w k = true <->
                  exists p player,
                    In p (alivePlayers (gameState w))
                    /\ getPlayer p w = Some player
                    /\ HexUtils.toKey
                         (hexOfPixel (Player.x player) (Player.y player) w)
                       = k)).
  { intros Hin. unfold isOccupied, checkPlayersOnTile.
    assert (Hget : exists tile,
               JsMap.get k (board (gameState w)) = Some tile).
    { unfold candidates in Hin. apply in_map_iff in Hin as [[k' t] [Hk Hin]].
      simpl in Hk. subst k'. apply filter_In in Hin as [Hin _].
      destruct (JsMap.get k (board (gameState w))) as [t'|] eqn:E;
        [now exists t'|].
      apply get_None_keys in E. exfalso. apply E.
      unfold JsMap.keys. apply in_map_iff. now exists (k, t). }
    destruct Hget as [tile ->]. rewrite Nat.ltb_lt. split.
    - intros Hlen.
      destruct (filter (playerOnKey k w) (alivePlayers (gameState w)))
        as [|p l] eqn:E; [simpl in Hlen; lia|].
      assert (Hp : In p (filter (playerOnKey k w)
                                (alivePlayers (gameState w))))
        by (rewrite E; now left).
      apply filter_In in Hp as [Hp Hon]. unfold playerOnKey in Hon.
      destruct (getPlayer p w) as [player|] eqn:Eg; [|discriminate].
      apply String.eqb_eq in Hon. now exists p, player.
    - intros (p & player & Hp & Hg & Hk).
      assert (Hin' : In p (filter (playerOnKey k w)
                                  (alivePlayers (gameState w)))).
      { apply filter_In. split; [exact Hp|]. unfold playerOnKey.
        rewrite Hg. now apply String.eqb_eq. }
      destruct (filter (playerOnKey k w) (alivePlayers (gameState w)));
        [contradiction|simpl; lia]. }
  tauto.
Qed.

Lemma ltb_true (a b : R) : (a < b)%R -> HexUtils.ltb a b = true.
Proof. unfold HexUtils.ltb. intros H. now destruct (Rlt_dec a b). Qed.

Lemma ltb_false (a b : R) : (b <= a)%R -> HexUtils.ltb a b = false.
Proof.
  unfold HexUtils.ltb. intros H. destruct (Rlt_dec a b); [lra|reflexivity].
Qed.

Lemma representable_0 : Binary64.representable 0.
Proof. unfold Binary64.representable. apply round_0. Qed.

Lemma array_length_small (n : nat) :
  (Z.of_nat n < 2 ^ 53)%Z -> (INR n < powerRZ 2 53)%R.
Proof.
  intros H. rewrite INR_IZR_INZ.
  change (powerRZ 2 53) with (2 ^ Pos.to_nat 53)%R.
  rewrite pow_IZR, positive_nat_Z. now apply IZR_lt.
Qed.

Lemma length_occupiedCandidates (w : World) :
  (length (occupiedCandidates w) <= length (candidates w))%nat.
Proof. unfold occupiedCandidates. apply filter_length_le. Qed.

(** The world after a selection of the key [k] whose tile is [tile]. *)
Lemma selectRandomTile_selected (w : World) (coin pick : R) :
  unitDraw coin -> unitDraw pick -> Binary64.representable pick ->
  (Z.of_nat (length (candidates w)) < 2 ^ 53)%Z ->
  candidates w <> [] ->
  let pool := if (0 <? length (occupiedCandidates w))%nat
                 && HexUtils.ltb coin (2 / 10)
              then occupiedCandidates w else candidates w in
  exists k,
    nth_error pool (randomIndex pick (length pool)) = Some k
    /\ selectRandomTile coin pick w
       = onTileFallManager
           (fun m => withPendingFalls
                       (JsMap.set k (nextTimerId (markTileWarning k w))
                                  (pendingFalls m)) m)
           (snd (setTimeout (ExecuteFall k)
                            (IZR GameConfig.TILE_WARNING_DURATION)
                            (markTileWarning k w))).
Proof.
  intros Hcoin Hpick Hrep Hsize Hact pool.
  assert (Hlen : (0 < length pool)%nat).
  { subst pool. destruct (0 <? length (occupiedCandidates w))%nat eqn:E; simpl.
    - destruct (HexUtils.ltb coin (2 / 10)).
      + now apply Nat.ltb_lt.
      + destruct (candidates w); [congruence|simpl; lia].
    - destruct (candidates w); [congruence|simpl; lia]. }
  assert (Hsmall : (INR (length pool) < powerRZ 2 53)%R).
  { apply array_length_small. subst pool.
    pose proof (length_occupiedCandidates w).
    destruct (_ && _); lia. }
  pose proof (randomIndex_lt Hpick Hlen Hsmall Hrep) as Hidx.
  destruct (nth_error pool (randomIndex pick (length pool))) as [k|] eqn:Ek;
    [|apply nth_error_None in Ek; lia].
  exists k. split; [reflexivity|].
  unfold selectRandomTile. rewrite gatherTiles_spec.
  destruct (length (candidates w) =? 0)%nat eqn:E0.
  { apply Nat.eqb_eq in E0.
    destruct (candidates w); [congruence|discriminate]. }
  subst pool.
  destruct ((0 <? length (occupiedCandidates w))%nat
            && HexUtils.ltb coin (2 / 10)); rewrite Ek; reflexivity.
Qed.

(** C6. In a scheduler cycle the candidates are exactly the tiles that are
    active and not warning, and the occupied candidates those of them on
    which an alive player stands.  With no candidate the cycle changes
    nothing.  Otherwise exactly one candidate is selected: its tile is
    marked warning ([isWarning] becomes true, with the warning started at
    the current time), stays active and leaves the candidates, and no other
    tile changes.  The pool is the occupied candidates when there is one
    and the first draw is below 0.2 (a fifth of the unit interval), and all
    the candidates otherwise.  The second draw [pick] is a double in
    [0, 1) and the pool an array of [n] entries: the entry selected is the
    one whose index [j] satisfies [j <= round (pick * n) < j + 1], the
    product being rounded to a double before [Math.floor]; every draw with
    [j / n <= pick <= (j + 1) / n * (1 - 2^-53)] selects entry [j], and
    entry [j] is selected only by draws with
    [j / n * (1 - 2^-53) <= pick < (j + 1) / n].  So every entry of the pool
    has an interval of the draw of length [1 / n] up to the rounding of the
    product. *)
Theorem selectRandomTile_policy (w : World) (coin pick : R) :
  unitDraw coin -> unitDraw pick -> Binary64.representable pick ->
  (Z.of_nat (length (candidates w)) < 2 ^ 53)%Z ->
  NoDup (JsMap.keys (board (gameState w))) ->
  let act := candidates w in
  let occ := occupiedCandidates w in
  let pool := if (0 <? length occ)%nat && HexUtils.ltb coin (2 / 10)
              then occ else act in
  let n := INR (length pool) in
  let w' := selectRandomTile coin pick w in
  gatherTiles w = (act, occ)
  /\ (forall k, In k act <->
        exists tile, JsMap.get k (board (gameState w)) = Some tile
                     /\ Tile.isActive tile = true
                     /\ Tile.isWarning tile = false)
  /\ (forall k, In k occ <->
        In k act
        /\ exists p player,
             In p (alivePlayers (gameState w)) /\ getPlayer p w = Some player
             /\ HexUtils.toKey
                  (hexOfPixel (Player.x player) (Player.y player) w) = k)
  /\ NoDup act /\ NoDup occ
  /\ (act = [] -> w' = w)
  /\ (occ <> [] -> (coin < 2 / 10)%R -> pool = occ)
  /\ (occ = [] \/ (2 / 10 <= coin)%R -> pool = act)
  /\ (act <> [] ->
      exists k tile,
        nth_error pool (randomIndex pick (length pool)) = Some k
        /\ (forall j, (j < length pool)%nat ->
              (nth_error pool j = Some k <->
               (INR j <= Binary64.round (pick * n) < INR j + 1)%R))
        /\ (forall j, (j < length pool)%nat ->
              (INR j / n <= pick
               <= (INR j + 1) / n * (1 - powerRZ 2 (-53)))%R ->
              nth_error pool j = Some k)
        /\ (forall j, nth_error pool j = Some k ->
              (INR j / n * (1 - powerRZ 2 (-53)) <= pick
               < (INR j + 1) / n)%R)
        /\ In k act
        /\ JsMap.get k (board (gameState w)) = Some tile
        /\ board (gameState w')
           = JsMap.set k (Tile.startWarning (now w) tile)
                       (board (gameState w))
        /\ JsMap.get k (board (gameState w'))
           = Some (Tile.startWarning (now w) tile)
        /\ (exists tile',
              JsMap.get k (board (gameState w')) = Some tile'
              /\ Tile.isWarning tile' = true
              /\ Tile.warningStartTime tile' = Some (now w)
              /\ Tile.isActive tile' = true
              /\ Tile.position tile' = Tile.position tile)
        /\ (forall k', k <> k' ->
              JsMap.get k' (board (gameState w'))
              = JsMap.get k' (board (gameState w)))
        /\ (forall k', In k' (candidates w') <-> In k' act /\ k' <> k)
        /\ emitted w' = emitted w ++ [tileWarning k]
        /\ timers w'
           = timers w
             ++ [mkTimer (nextTimerId w)
                         (now w + IZR GameConfig.TILE_WARNING_DURATION)
                         (ExecuteFall k)]).
Proof.
  intros Hcoin Hpick Hrep Hsize Hnd act occ pool n w'.
  assert (Hndact : NoDup act) by (now apply NoDup_candidates).
  assert (Hndocc : NoDup occ) by (now apply NoDup_filter).
  assert (Hocc : occ <> [] -> (coin < 2 / 10)%R -> pool = occ).
  { intros Hne Hlt. subst pool. rewrite ltb_true by exact Hlt.
    destruct occ; [congruence|reflexivity]. }
  assert (Hall : occ = [] \/ (2 / 10 <= coin)%R -> pool = act).
  { intros [He|Hge]; subst pool.
    - now rewrite He.
    - rewrite ltb_false by exact Hge. now rewrite andb_false_r. }
  split; [apply gatherTiles_spec|].
  split; [intros k; now apply in_candidates|].
  split; [intros k; apply in_occupiedCandidates|].
  split; [exact Hndact|]. split; [exact Hndocc|].
  split.
  { intros He. subst w'. unfold selectRandomTile.
    rewrite gatherTiles_spec. fold act. now rewrite He. }
  split; [exact Hocc|]. split; [exact Hall|].
  intros Hne.
  destruct (@selectRandomTile_selected w coin pick Hcoin Hpick Hrep Hsize Hne)
    as [k [Hk Hw']].
  fold occ act pool in Hk. fold w' in Hw'.
  assert (Hpoolnd : NoDup pool)
    by (subst pool; destruct (_ && _); assumption).
  assert (Hkin : In k act).
  { apply nth_error_In in Hk. subst pool.
    destruct (_ && _); [|exact Hk].
    subst occ. unfold occupiedCandidates in Hk.
    now apply filter_In in Hk. }
  destruct (proj1 (@in_candidates w k Hnd) Hkin) as [tile (Hget & Ha & Hwarn)].
  assert (Hmark : markTileWarning k w
                  = logEvent (tileWarning k)
                      (setTile k (Tile.startWarning (now w) tile) w))
    by (now apply markTileWarning_active).
  rewrite Hmark in Hw'.
  assert (Hboard : board (gameState w')
                   = JsMap.set k (Tile.startWarning (now w) tile)
                               (board (gameState w)))
    by (rewrite Hw'; reflexivity).
  assert (Hlen : (0 < length pool)%nat).
  { assert (randomIndex pick (length pool) < length pool)%nat
      by (apply nth_error_Some; congruence).
    lia. }
  assert (Hsmall : (INR (length pool) < powerRZ 2 53)%R).
  { apply array_length_small.
    pose proof (length_occupiedCandidates w) as Hle.
    unfold pool, occ, act. destruct (_ && _); lia. }
  assert (Hn : (0 < n)%R) by (apply lt_0_INR; exact Hlen).
  assert (Hindex : forall j, nth_error pool j = Some k ->
                             randomIndex pick (length pool) = j).
  { intros j Hjk.
    apply (proj1 (NoDup_nth_error pool) Hpoolnd);
      [apply nth_error_Some; congruence|congruence]. }
  exists k, tile.
  split; [exact Hk|]. split.
  { intros j Hj. unfold n.
    rewrite <- (randomIndex_spec Hpick Hlen Hsmall j). split.
    - apply Hindex.
    - intros <-. exact Hk. }
  split.
  { intros j Hj [Hlo Hhi].
    rewrite <- (@randomIndex_inner pick (length pool) Hpick Hlen Hsmall j Hj);
      [exact Hk|].
    fold n. split.
    - apply Rmult_le_reg_r with (/ n)%R; [now apply Rinv_0_lt_compat|].
      rewrite Rmult_assoc, Rinv_r, Rmult_1_r by lra. exact Hlo.
    - apply Rmult_le_reg_r with (/ n)%R; [now apply Rinv_0_lt_compat|].
      rewrite Rmult_assoc, Rinv_r, Rmult_1_r by lra.
      unfold Rdiv in Hhi. lra. }
  split.
  { intros j Hjk. apply Hindex in Hjk.
    pose proof (randomIndex_outer Hpick Hlen Hsmall) as [Hlo Hhi].
    rewrite Hjk in Hlo, Hhi. fold n in Hlo, Hhi. split.
    - apply Rmult_le_reg_r with n; [exact Hn|].
      unfold Rdiv. replace (INR j * / n * (1 - powerRZ 2 (-53)) * n)%R
        with (INR j * (1 - powerRZ 2 (-53)) * (n * / n))%R by ring.
      rewrite Rinv_r, Rmult_1_r by lra. exact Hlo.
    - apply Rmult_lt_reg_r with n; [exact Hn|].
      unfold Rdiv. rewrite Rmult_assoc, Rinv_l, Rmult_1_r by lra.
      exact Hhi. }
  split; [exact Hkin|]. split; [exact Hget|]. split; [exact Hboard|].
  split; [rewrite Hboard; apply get_set_same|].
  split.
  { exists (Tile.startWarning (now w) tile).
    split; [rewrite Hboard; apply get_set_same|].
    repeat split. exact Ha. }
  split; [intros k' Hk'; rewrite Hboard; now apply get_set_other|].
  split.
  { assert (Hnd' : NoDup (JsMap.keys (board (gameState w')))).
    { rewrite Hboard, (keys_set_present _ _ _ Hget). exact Hnd. }
    intros k'. rewrite (@in_candidates w' k' Hnd').
    unfold act. rewrite (@in_candidates w k' Hnd). rewrite Hboard.
    destruct (String.eqb k k') eqn:E.
    - apply String.eqb_eq in E. subst k'. rewrite get_set_same. split.
      + intros (t' & Ht' & _ & Hw). injection Ht' as <-. discriminate Hw.
      + intros [_ Hneq]. congruence.
    - apply String.eqb_neq in E. rewrite (get_set_other _ _ E). split.
      + intros H. split; [exact H|congruence].
      + intros [H _]. exact H. }
  split; rewrite Hw'; reflexivity.
Qed.

Lemma selectRandomTile_policy_witness :
  let third := (6004799503160661 / 18014398509481984)%R in
  let w := onGameState
             (withBoard [ ("0,0"%string, Tile.new (HexUtils.mkHex 0 0));
                          ("1,0"%string, Tile.new (HexUtils.mkHex 1 0));
                          ("0,1"%string, Tile.new (HexUtils.mkHex 0 1)) ])
             exampleWorld in
  candidates exampleWorld = ["0,0"%string]
  /\ JsMap.get "0,0" (board (gameState (selectRandomTile 0 0 exampleWorld)))
     = Some (Tile.startWarning 1000 (Tile.new (HexUtils.mkHex 0 0)))
  /\ Tile.isWarning (Tile.startWarning 1000 (Tile.new (HexUtils.mkHex 0 0)))
     = true
  /\ candidates w = ["0,0"; "1,0"; "0,1"]%string
  /\ JsMap.get "1,0" (board (gameState (selectRandomTile (1 / 2) third w)))
     = Some (Tile.startWarning 1000 (Tile.new (HexUtils.mkHex 1 0))).
Proof.
  intros third w.
  split; [reflexivity|].
  assert (Hdraw : unitDraw 0) by (unfold unitDraw; lra).
  assert (Hsize : (Z.of_nat (length (candidates exampleWorld)) < 2 ^ 53)%Z)
    by (simpl; lia).
  assert (Hnd : NoDup (JsMap.keys (board (gameState exampleWorld)))).
  { simpl. repeat constructor; simpl; intuition discriminate. }
  split.
  { destruct (@selectRandomTile_policy exampleWorld 0 0 Hdraw Hdraw
                representable_0 Hsize Hnd)
      as (_ & _ & _ & _ & _ & _ & _ & _ & Hsel).
    destruct Hsel as (k & tile & _ & _ & _ & _ & Hin & Hget & _ & Hget' & _).
    - discriminate.
    - destruct Hin as [<-|[]]. simpl in Hget. injection Hget as <-.
      exact Hget'. }
  split; [reflexivity|]. split; [reflexivity|].
  assert (Hcoin : unitDraw (1 / 2)) by (unfold unitDraw; lra).
  assert (Hpick : unitDraw third) by (unfold unitDraw, third; lra).
  assert (Hsize3 : (Z.of_nat (length (candidates w)) < 2 ^ 53)%Z)
    by (simpl; lia).
  assert (Hnd3 : NoDup (JsMap.keys (board (gameState w)))).
  { simpl. repeat constructor; simpl; intuition discriminate. }
  destruct (@selectRandomTile_policy w (1 / 2) third Hcoin Hpick
              representable_third Hsize3 Hnd3)
    as (_ & _ & _ & _ & _ & _ & _ & Hall & Hsel).
  assert (Hpool : (if (0 <? length (occupiedCandidates w))%nat
                      && HexUtils.ltb (1 / 2) (2 / 10)
                   then occupiedCandidates w else candidates w)
                  = candidates w)
    by (apply Hall; right; lra).
  destruct Hsel as (k & tile & Hk & _ & _ & _ & Hin & Hget & _ & Hget' & _).
  - discriminate.
  - rewrite Hpool in Hk.
    change (candidates w) with ["0,0"; "1,0"; "0,1"]%string in Hk.
    change (length ["0,0"; "1,0"; "0,1"]%string) with 3%nat in Hk.
    unfold third in Hk. rewrite (proj1 randomIndex_third) in Hk.
    injection Hk as <-.
    simpl in Hget. injection Hget as <-.
    exact Hget'.
Defined.


(** ** The movement tick and players that have fallen *)

Section Fallen.

Variables (p : nat) (x0 y0 : R) (n : nat).

Lemma fallenAt_ext (w w' : World) :
  getPlayer p w' = getPlayer p w ->
  alivePlayers (gameState w') = alivePlayers (gameState w) ->
  emitted w' = emitted w ->
  fallenAt p x0 y0 n w -> fallenAt p x0 y0 n w'.
Proof.
  intros Hp Ha He (pl & H1 & H2). exists pl. now rewrite Hp, Ha, He.
Qed.

Lemma eliminations_snoc (log : list Event) (e : Event) :
  e <> playerEliminated p ->
  eliminations p (log ++ [e]) = eliminations p log.
Proof.
  intros He. unfold eliminations. rewrite filter_app, length_app. simpl.
  destruct e as [k|k|p'|o]; simpl; try lia.
  destruct (p' =? p)%nat eqn:E; simpl; [|lia].
  apply Nat.eqb_eq in E. congruence.
Qed.

Lemma fallenAt_emit (e : Event) (w : World) :
  e <> playerEliminated p ->
  fallenAt p x0 y0 n w -> fallenAt p x0 y0 n (emit e w).
Proof.
  intros He (pl & H1 & H2 & H3 & H4 & H5 & H6 & H7).
  destruct (emit_frame e w) as (Hg & Hh & _ & _ & _ & Hem).
  exists pl. unfold getPlayer in *. rewrite Hg, Hh, Hem.
  rewrite eliminations_snoc by exact He. auto 10.
Qed.

Lemma fallenAt_stop (w : World) :
  fallenAt p x0 y0 n w -> fallenAt p x0 y0 n (stop w).
Proof.
  destruct (stop_frame w) as (Hg & _ & Hh & _ & _ & He & _).
  apply fallenAt_ext; unfold getPlayer; congruence.
Qed.

Lemma fallenAt_updatePlayer (q : nat) (f : Player.t -> Player.t)
  (w : World) :
  (q = p -> forall pl, Player.x (f pl) = Player.x pl
                       /\ Player.y (f pl) = Player.y pl
                       /\ Player.isFalling (f pl) = Player.isFalling pl
                       /\ Player.isAlive (f pl) = Player.isAlive pl) ->
  fallenAt p x0 y0 n w -> fallenAt p x0 y0 n (updatePlayer q f w).
Proof.
  intros Hf (pl & H1 & H2 & H3 & H4 & H5 & H6 & H7).
  destruct (Nat.eq_dec q p) as [->|Hq].
  - exists (f pl). destruct (Hf eq_refl pl) as (Hx & Hy & Hfa & Hal).
    rewrite (@getPlayer_updatePlayer_same p f w pl H1), Hx, Hy, Hfa, Hal.
    cbn. auto 10.
  - exists pl. rewrite (@getPlayer_updatePlayer_other q p f w Hq). cbn. auto 10.
Qed.

Lemma fallenAt_eliminatePlayer (q : nat) (w : World) :
  q <> p -> fallenAt p x0 y0 n w -> fallenAt p x0 y0 n (eliminatePlayer q w).
Proof.
  intros Hq Hw.
  destruct (getPlayer q w) as [pl|] eqn:Eq;
    [|unfold eliminatePlayer; now rewrite Eq].
  destruct Hw as (pl0 & H1 & H2 & H3 & H4 & H5 & H6 & H7).
  destruct (@eliminatePlayer_getPlayer w q pl Eq) as [_ Hother].
  exists pl0. rewrite Hother by congruence.
  rewrite (@eliminatePlayer_gameState w q pl Eq).
  rewrite (@eliminatePlayer_emitted w q pl Eq).
  rewrite eliminations_snoc by congruence. cbn.
  repeat split; auto.
  intros Hin. apply filter_In in Hin. tauto.
Qed.

Lemma fallenAt_updatePlayerMovement (q : nat) (deltaTime : R) (w : World) :
  fallenAt p x0 y0 n w ->
  fallenAt p x0 y0 n (updatePlayerMovement q deltaTime w).
Proof.
  intros Hw. unfold updatePlayerMovement.
  destruct (getPlayer q w) as [pl|] eqn:Eq; [|exact Hw].
  destruct (Player.isFalling pl) eqn:Ef; [exact Hw|].
  assert (Hq : q <> p).
  { intros ->. destruct Hw as (pl0 & H1 & _ & _ & H4 & _). congruence. }
  destruct (negb (isTileActive _ _ _)).
  - apply fallenAt_eliminatePlayer; [exact Hq|].
    unfold startFalling.
    apply fallenAt_updatePlayer; [congruence|].
    apply fallenAt_updatePlayer; [congruence|exact Hw].
  - apply fallenAt_updatePlayer; [congruence|].
    apply fallenAt_updatePlayer; [congruence|exact Hw].
Qed.

Lemma fallenAt_fold (A : Type) (f : World -> A -> World) (l : list A)
  (w : World) :
  (forall a w0,
      In a l -> fallenAt p x0 y0 n w0 -> fallenAt p x0 y0 n (f w0 a)) ->
  fallenAt p x0 y0 n w -> fallenAt p x0 y0 n (fold_left f l w).
Proof.
  revert w. induction l as [|a l IH]; intros w Hf Hw; simpl; [exact Hw|].
  apply IH.
  - intros a' w0 Ha'. apply Hf. now right.
  - apply Hf; [now left|exact Hw].
Qed.

Lemma fallenAt_updatePlayers (deltaTime : R) (w : World) :
  fallenAt p x0 y0 n w -> fallenAt p x0 y0 n (updatePlayers deltaTime w).
Proof.
  intros Hw. unfold updatePlayers.
  destruct (negb _); [exact Hw|].
  apply fallenAt_fold; [|exact Hw].
  intros q w0 _. apply fallenAt_updatePlayerMovement.
Qed.

Lemma fallenAt_onBoard (f : JsMap.t Tile.t -> JsMap.t Tile.t) (w : World) :
  fallenAt p x0 y0 n w ->
  fallenAt p x0 y0 n (onGameState (fun g => withBoard (f (board g)) g) w).
Proof. apply fallenAt_ext; reflexivity. Qed.

Lemma fallenAt_markTileWarning (k : string) (w : World) :
  fallenAt p x0 y0 n w -> fallenAt p x0 y0 n (markTileWarning k w).
Proof.
  intros Hw. unfold markTileWarning.
  destruct (JsMap.get k _) as [tile|]; [|exact Hw].
  destruct (Tile.isActive tile); [|exact Hw].
  apply fallenAt_emit; [discriminate|].
  revert Hw. apply fallenAt_ext; reflexivity.
Qed.

Lemma fallenAt_removeTile (k : string) (w : World) :
  fallenAt p x0 y0 n w -> fallenAt p x0 y0 n (removeTile k w).
Proof.
  intros Hw. unfold removeTile.
  destruct (JsMap.get k _) as [tile|]; [|exact Hw].
  apply fallenAt_emit; [discriminate|].
  revert Hw. apply fallenAt_ext; reflexivity.
Qed.

Lemma fallenAt_scheduleNextFall (w : World) :
  fallenAt p x0 y0 n w -> fallenAt p x0 y0 n (scheduleNextFall w).
Proof.
  unfold scheduleNextFall. destruct (negb _); [auto|].
  apply fallenAt_ext; reflexivity.
Qed.

Lemma fallenAt_selectRandomTile (coin pick : R) (w : World) :
  fallenAt p x0 y0 n w -> fallenAt p x0 y0 n (selectRandomTile coin pick w).
Proof.
  intros Hw. unfold selectRandomTile.
  destruct (gatherTiles w) as [act occ].
  destruct (length act =? 0)%nat; [exact Hw|].
  match goal with |- context [match ?c with Some _ => _ | None => _ end] =>
    destruct c as [k|] end; [|exact Hw].
  apply fallenAt_markTileWarning with (k := k) in Hw.
  revert Hw. apply fallenAt_ext; reflexivity.
Qed.

Lemma fallenAt_executeFall (k : string) (w : World) :
  fallenAt p x0 y0 n w -> fallenAt p x0 y0 n (executeFall k w).
Proof.
  intros Hw. unfold executeFall. apply fallenAt_removeTile.
  set (w1 := onTileFallManager _ w).
  assert (Hw1 : fallenAt p x0 y0 n w1)
    by (revert Hw; apply fallenAt_ext; reflexivity).
  apply fallenAt_fold; [|exact Hw1].
  intros q w0 Hq Hw0.
  apply checkPlayersOnTile_alive in Hq.
  assert (Hqp : q <> p).
  { intros ->. destruct Hw1 as (pl & _ & _ & _ & _ & _ & Hnot & _). tauto. }
  apply fallenAt_eliminatePlayer; [exact Hqp|].
  unfold startFalling. apply fallenAt_updatePlayer; [congruence|exact Hw0].
Qed.

Lemma fallenAt_gameOverCheck (w : World) :
  fallenAt p x0 y0 n w -> fallenAt p x0 y0 n (gameOverCheck w).
Proof.
  intros Hw. unfold gameOverCheck. destruct (_ && _); [|exact Hw].
  apply fallenAt_emit; [discriminate|].
  revert Hw. apply fallenAt_ext; reflexivity.
Qed.

Lemma renderPlayer_keeps (time : R) (pl : Player.t) :
  Player.x (renderPlayer time pl) = Player.x pl
  /\ Player.y (renderPlayer time pl) = Player.y pl
  /\ Player.isFalling (renderPlayer time pl) = Player.isFalling pl
  /\ Player.isAlive (renderPlayer time pl) = Player.isAlive pl.
Proof.
  unfold renderPlayer, Player.getSpawnProgress.
  destruct (negb (Player.isAlive pl) && negb (Player.isFalling pl));
    [tauto|].
  destruct (Player.isSpawning pl); simpl; [|tauto].
  destruct (HexUtils.geb _ 1); simpl; tauto.
Qed.

Lemma fallenAt_gameLoop (deltaTime : R) (w : World) :
  fallenAt p x0 y0 n w -> fallenAt p x0 y0 n (gameLoop deltaTime w).
Proof.
  intros Hw. unfold gameLoop, render, update.
  set (w1 := if phaseEqb _ InProgress then _ else w).
  assert (Hw1 : fallenAt p x0 y0 n w1)
    by (subst w1; destruct (phaseEqb _ _);
        [now apply fallenAt_updatePlayers|exact Hw]).
  assert (Hw2 : fallenAt p x0 y0 n (updateTileAnimations w1))
    by (revert Hw1; apply fallenAt_ext; reflexivity).
  set (w2 := updateTileAnimations w1) in *.
  set (w3 := onGameState _ w2).
  assert (Hw3 : fallenAt p x0 y0 n w3)
    by (revert Hw2; apply fallenAt_ext; reflexivity).
  destruct (board (gameState w2)); [exact Hw3|].
  apply fallenAt_fold; [|exact Hw3].
  intros q w0 _. apply fallenAt_updatePlayer.
  intros _ pl. apply renderPlayer_keeps.
Qed.

Lemma fallenAt_step (w w' : World) :
  step w w' -> fallenAt p x0 y0 n w -> fallenAt p x0 y0 n w'.
Proof.
  intros Hstep Hw. destruct Hstep.
  - set (w0 := withNow time (withTimers (before ++ after) w)).
    assert (Hw0 : fallenAt p x0 y0 n w0)
      by (revert Hw; apply fallenAt_ext; reflexivity).
    destruct (callback t); cbn [runCallback].
    + unfold nextFall. apply fallenAt_scheduleNextFall.
      assert (Hs : fallenAt p x0 y0 n (selectRandomTile coin pick w0))
        by (now apply fallenAt_selectRandomTile).
      revert Hs. apply fallenAt_ext; reflexivity.
    + now apply fallenAt_executeFall.
    + now apply fallenAt_gameOverCheck.
  - apply fallenAt_gameLoop. revert Hw. apply fallenAt_ext; reflexivity.
  - unfold handleKeyDown. destruct (existsb _ _); [exact Hw|].
    revert Hw. apply fallenAt_ext; reflexivity.
  - revert Hw. apply fallenAt_ext; reflexivity.
  - unfold startGame, start. apply fallenAt_scheduleNextFall.
    revert Hw. apply fallenAt_ext; reflexivity.
  - now apply fallenAt_stop.
  - destruct Hw as (pl & H1 & H2 & H3 & H4 & H5 & H6 & H7).
    exists pl. cbn. auto 10.
Qed.

Lemma fallenAt_steps (w w' : World) :
  steps w w' -> fallenAt p x0 y0 n w -> fallenAt p x0 y0 n w'.
Proof.
  induction 1 as [|w1 w2 w3 _ IH Hstep]; [auto|].
  intros Hw. apply (fallenAt_step Hstep). now apply IH.
Qed.

End Fallen.

Lemma sameStage_movement (p q : nat) (deltaTime : R) (w : World) :
  q <> p -> sameStage p w (updatePlayerMovement q deltaTime w).
Proof.
  intros Hq. unfold updatePlayerMovement, sameStage.
  destruct (getPlayer q w) as [pl|] eqn:Eq; [|tauto].
  destruct (Player.isFalling pl); [tauto|].
  set (m := integrate (heldKeys w) pl deltaTime).
  set (w1 := updatePlayer q (Player.setVelocity (newVx m) (newVy m)) w).
  assert (H1 : getPlayer p w1 = getPlayer p w)
    by (apply getPlayer_updatePlayer_other; exact Hq).
  destruct (negb (isTileActive _ _ _)).
  - set (w2 := startFalling q w1).
    assert (Eq2 : getPlayer q w2
                  = Some (Player.startFalling (now w1)
                            (Player.setVelocity (newVx m) (newVy m) pl))).
    { unfold w2, startFalling. apply getPlayer_updatePlayer_same.
      unfold w1. now apply getPlayer_updatePlayer_same. }
    destruct (@eliminatePlayer_getPlayer w2 q _ Eq2) as [_ Hother].
    rewrite Hother by congruence.
    rewrite (@eliminatePlayer_gameState w2 q _ Eq2).
    rewrite (@eliminatePlayer_emitted w2 q _ Eq2).
    destruct (@eliminatePlayer_clock w2 q _ Eq2) as [_ Hk]. rewrite Hk.
    rewrite eliminations_snoc by congruence.
    unfold w2, startFalling.
    rewrite getPlayer_updatePlayer_other by exact Hq.
    rewrite H1. cbn. tauto.
  - rewrite getPlayer_updatePlayer_other by exact Hq.
    rewrite H1. cbn. tauto.
Qed.

Lemma isTileActive_sameStage (p : nat) (x y : R) (w w' : World) :
  sameStage p w w' -> isTileActive x y w' = isTileActive x y w.
Proof.
  intros (_ & _ & Hb & Hx & Hy & _).
  unfold isTileActive, hexOfPixel. now rewrite Hb, Hx, Hy.
Qed.

(** A movement that ends off the board. *)
Lemma movement_falls (p : nat) (deltaTime : R) (w : World)
  (player : Player.t) :
  getPlayer p w = Some player ->
  Player.isFalling player = false ->
  let m := integrate (heldKeys w) player deltaTime in
  isTileActive (newX m) (newY m) w = false ->
  emitted (updatePlayerMovement p deltaTime w)
  = emitted w ++ [playerEliminated p]
  /\ fallenAt p (Player.x player) (Player.y player)
              (S (eliminations p (emitted w)))
              (updatePlayerMovement p deltaTime w).
Proof.
  intros Hp Hf m Hin.
  rewrite (@updatePlayerMovement_inactive p deltaTime w player Hp Hf Hin).
  fold m.
  set (w1 := updatePlayer p (Player.setVelocity (newVx m) (newVy m)) w).
  set (w2 := startFalling p w1).
  assert (Hp2 : getPlayer p w2
                = Some (Player.startFalling (now w1)
                          (Player.setVelocity (newVx m) (newVy m) player))).
  { unfold w2, startFalling. apply getPlayer_updatePlayer_same.
    unfold w1. now apply getPlayer_updatePlayer_same. }
  destruct (@eliminatePlayer_getPlayer w2 p _ Hp2) as [Hsame _].
  pose proof (@eliminatePlayer_emitted w2 p _ Hp2) as Hem.
  pose proof (@eliminatePlayer_gameState w2 p _ Hp2) as Hgs.
  split; [exact Hem|].
  eexists. split; [exact Hsame|].
  rewrite Hgs, Hem. cbn.
  repeat split; try reflexivity.
  - apply filter_others_not_in.
  - unfold eliminations. rewrite filter_app, length_app. simpl.
    rewrite Nat.eqb_refl. simpl. lia.
Qed.

Lemma updatePlayers_falls (p : nat) (deltaTime : R) (w : World)
  (player : Player.t) (l : list nat) (w0 : World) :
  getPlayer p w = Some player ->
  Player.isFalling player = false ->
  let m := integrate (heldKeys w) player deltaTime in
  isTileActive (newX m) (newY m) w = false ->
  (In p l /\ sameStage p w w0)
  \/ fallenAt p (Player.x player) (Player.y player)
              (S (eliminations p (emitted w))) w0 ->
  fallenAt p (Player.x player) (Player.y player)
           (S (eliminations p (emitted w)))
           (fold_left (fun acc q => updatePlayerMovement q deltaTime acc)
                      l w0).
Proof.
  intros Hp Hf m Hin. revert w0.
  induction l as [|q l IH]; intros w0 [[Hl Hs]|Hfallen]; simpl.
  - contradiction.
  - exact Hfallen.
  - apply IH. destruct (Nat.eq_dec q p) as [->|Hq].
    + right.
      destruct Hs as (Hg & Hk & Hb & Hx & Hy & He).
      assert (Hp0 : getPlayer p w0 = Some player) by congruence.
      assert (Hin0 : isTileActive
                       (newX (integrate (heldKeys w0) player deltaTime))
                       (newY (integrate (heldKeys w0) player deltaTime)) w0
                     = false).
      { rewrite Hk. fold m. rewrite <- Hin.
        unfold isTileActive, hexOfPixel. now rewrite Hb, Hx, Hy. }
      destruct (@movement_falls p deltaTime w0 player Hp0 Hf Hin0)
        as [_ Hfall].
      now rewrite He in Hfall.
    + left. split; [destruct Hl; [congruence|assumption]|].
      pose proof (@sameStage_movement p q deltaTime w0 Hq) as Hs'.
      unfold sameStage in *. intuition congruence.
  - apply IH. right. now apply fallenAt_updatePlayerMovement.
Qed.

(** The motion that [integrate] computes, in terms of the keys held: the
    input on an axis is -1, 0 or 1, scaled by 0.707 when both axes have
    input; a velocity component gains 1200 times the input per second, or
    loses 800 per second towards zero when its axis has no input; a speed
    above the top speed is scaled down to it; the candidate position is the
    position plus the new velocity times the elapsed seconds. *)
Lemma integrate_spec (held : list string) (player : Player.t) (deltaTime : R) :
  let m := integrate held player deltaTime in
  let dt := (deltaTime / 1000)%R in
  let keys := Player.controls player in
  let has code := existsb (String.eqb code) held in
  let axis (minus plus : string) : R :=
    if has minus then (if has plus then 0%R else (-1)%R)
    else (if has plus then 1%R else 0%R) in
  let inputX := axis (Player.left keys) (Player.right keys) in
  let inputY := axis (Player.up keys) (Player.down keys) in
  let diagonal := neqb inputX 0 && neqb inputY 0 in
  let scale input := if diagonal then (input * (707 / 1000))%R else input in
  let momentum v input :=
    if neqb input 0 then (v + input * 1200 * dt)%R
    else if HexUtils.gtb v 0 then Rmax 0 (v - 800 * dt)
    else if HexUtils.ltb v 0 then Rmin 0 (v + 800 * dt)
    else v in
  let vx := momentum (Player.vx player) (scale inputX) in
  let vy := momentum (Player.vy player) (scale inputY) in
  let speed := sqrt (vx * vx + vy * vy) in
  let fast := HexUtils.gtb speed GameConfig.PLAYER_SPEED in
  newVx m = (if fast then (vx / speed * GameConfig.PLAYER_SPEED)%R else vx)
  /\ newVy m = (if fast then (vy / speed * GameConfig.PLAYER_SPEED)%R else vy)
  /\ newX m = (Player.x player + newVx m * dt)%R
  /\ newY m = (Player.y player + newVy m * dt)%R.
Proof.
  intros m dt keys has axis inputX inputY diagonal scale momentum vx vy speed
         fast.
  assert (H1 : (0 - 1 = -1)%R) by lra.
  assert (H2 : (0 + 1 = 1)%R) by lra.
  assert (H3 : (0 - 1 + 1 = 0)%R) by lra.
  subst m fast speed vx vy momentum scale diagonal inputX inputY axis.
  unfold integrate. fold keys. cbv zeta. fold dt.
  unfold has.
  destruct (existsb (String.eqb (Player.up keys)) held),
           (existsb (String.eqb (Player.down keys)) held),
           (existsb (String.eqb (Player.left keys)) held),
           (existsb (String.eqb (Player.right keys)) held);
    cbv beta iota; rewrite ?H3, ?H1, ?H2; cbn [newVx newVy newX newY];
    repeat split; reflexivity.
Qed.

(** C7. The candidate position of a player is its position plus its new
    velocity times the elapsed time [deltaTime / 1000], the new velocity
    being the one that input, momentum and the speed clamp of
    [updatePlayerMovement] give.  The movement of a player that is not
    falling, whose candidate position is not over an active tile, eliminates
    the player: [playerEliminated] is emitted once, the fields [x] and [y]
    of the player keep their values (the new velocity is stored), and the
    player is falling, not alive and off the alive roster.  The same holds
    for the whole tick [updatePlayers] of a match in progress when the
    player is on the alive roster.  From then on, whatever happens (ticks,
    timers, keys, start, stop, reset), the position never changes and the
    player is never reported eliminated again.  If the candidate position
    is over an active tile, the fields [x] and [y] become the candidate,
    no other field but the velocity changes and nobody is eliminated. *)
Theorem offboard_move_eliminates (w : World) (p : nat) (player : Player.t)
  (deltaTime : R) :
  getPlayer p w = Some player ->
  Player.isFalling player = false ->
  let m := integrate (heldKeys w) player deltaTime in
  let w' := updatePlayerMovement p deltaTime w in
  let x0 := Player.x player in
  let y0 := Player.y player in
  let n := eliminations p (emitted w) in
  let dt := (deltaTime / 1000)%R in
  let keys := Player.controls player in
  let has code := existsb (String.eqb code) (heldKeys w) in
  let axis (minus plus : string) : R :=
    if has minus then (if has plus then 0%R else (-1)%R)
    else (if has plus then 1%R else 0%R) in
  let inputX := axis (Player.left keys) (Player.right keys) in
  let inputY := axis (Player.up keys) (Player.down keys) in
  let diagonal := neqb inputX 0 && neqb inputY 0 in
  let scale input := if diagonal then (input * (707 / 1000))%R else input in
  let momentum v input :=
    if neqb input 0 then (v + input * 1200 * dt)%R
    else if HexUtils.gtb v 0 then Rmax 0 (v - 800 * dt)
    else if HexUtils.ltb v 0 then Rmin 0 (v + 800 * dt)
    else v in
  let vx := momentum (Player.vx player) (scale inputX) in
  let vy := momentum (Player.vy player) (scale inputY) in
  let speed := sqrt (vx * vx + vy * vy) in
  let fast := HexUtils.gtb speed GameConfig.PLAYER_SPEED in
  newVx m = (if fast then (vx / speed * GameConfig.PLAYER_SPEED)%R else vx)
  /\ newVy m = (if fast then (vy / speed * GameConfig.PLAYER_SPEED)%R else vy)
  /\ newX m = (x0 + newVx m * dt)%R
  /\ newY m = (y0 + newVy m * dt)%R
  /\ (isTileActive (newX m) (newY m) w = false ->
      emitted w' = emitted w ++ [playerEliminated p]
      /\ fallenAt p x0 y0 (S n) w'
      /\ (exists player',
            getPlayer p w' = Some player'
            /\ Player.x player' = x0 /\ Player.y player' = y0
            /\ Player.vx player' = newVx m /\ Player.vy player' = newVy m
            /\ Player.isFalling player' = true
            /\ Player.fallStartTime player' = now w
            /\ Player.isAlive player' = false
            /\ Player.survivalTime player'
               = (now w - gameStartTime (gameState w))%R)
      /\ alivePlayers (gameState w')
         = filter (fun p' => negb (p' =? p)%nat) (alivePlayers (gameState w))
      /\ (forall w'', steps w' w'' -> fallenAt p x0 y0 (S n) w'')
      /\ (In p (alivePlayers (gameState w)) ->
          matchPhase (gameState w) = InProgress ->
          fallenAt p x0 y0 (S n) (updatePlayers deltaTime w)
          /\ forall w'', steps (updatePlayers deltaTime w) w'' ->
                         fallenAt p x0 y0 (S n) w''))
  /\ (isTileActive (newX m) (newY m) w = true ->
      getPlayer p w'
      = Some (Player.setPosition (newX m) (newY m)
                (Player.setVelocity (newVx m) (newVy m) player))
      /\ (exists player',
            getPlayer p w' = Some player'
            /\ Player.x player' = newX m /\ Player.y player' = newY m
            /\ Player.vx player' = newVx m /\ Player.vy player' = newVy m
            /\ Player.isFalling player' = false
            /\ Player.isAlive player' = Player.isAlive player
            /\ Player.survivalTime player' = Player.survivalTime player)
      /\ alivePlayers (gameState w') = alivePlayers (gameState w)
      /\ emitted w' = emitted w).
Proof.
  intros Hp Hf m w' x0 y0 n dt keys has axis inputX inputY diagonal scale
         momentum vx vy speed fast.
  destruct (integrate_spec (heldKeys w) player deltaTime)
    as (Hvx & Hvy & Hx & Hy).
  split; [exact Hvx|]. split; [exact Hvy|].
  split; [exact Hx|]. split; [exact Hy|]. split.
  - intros Hin.
    destruct (@movement_falls p deltaTime w player Hp Hf Hin) as [Hem Hfall].
    split; [exact Hem|]. split; [exact Hfall|].
    assert (Hw' : w' = eliminatePlayer p
                         (startFalling p
                            (updatePlayer p
                               (Player.setVelocity (newVx m) (newVy m)) w)))
      by (apply (@updatePlayerMovement_inactive p deltaTime w player
                   Hp Hf Hin)).
    assert (Hg1 : getPlayer p
                    (startFalling p
                       (updatePlayer p
                          (Player.setVelocity (newVx m) (newVy m)) w))
                  = Some (Player.startFalling (now w)
                            (Player.setVelocity (newVx m) (newVy m) player))).
    { unfold startFalling.
      apply (@getPlayer_updatePlayer_same p _ _ _).
      now apply getPlayer_updatePlayer_same. }
    split.
    { exists (Player.setEliminated (now w - gameStartTime (gameState w))
                (Player.startFalling (now w)
                   (Player.setVelocity (newVx m) (newVy m) player))).
      split; [|repeat split].
      rewrite Hw'. apply (proj1 (@eliminatePlayer_getPlayer _ _ _ Hg1)). }
    split.
    { rewrite Hw', (@eliminatePlayer_gameState _ _ _ Hg1). reflexivity. }
    split.
    + intros w'' Hsteps. now apply (fallenAt_steps Hsteps).
    + intros Halive Hphase.
      assert (Htick : fallenAt p x0 y0 (S n) (updatePlayers deltaTime w)).
      { unfold updatePlayers. rewrite Hphase. cbn [phaseEqb negb].
        apply (@updatePlayers_falls p deltaTime w player
                 (alivePlayers (gameState w)) w Hp Hf Hin).
        left. split; [exact Halive|]. unfold sameStage. tauto. }
      split; [exact Htick|].
      intros w'' Hsteps. now apply (fallenAt_steps Hsteps).
  - intros Hact.
    assert (Hmove : w' = updatePlayer p (Player.setPosition (newX m) (newY m))
                       (updatePlayer p
                          (Player.setVelocity (newVx m) (newVy m)) w))
      by (apply (@updatePlayerMovement_active p deltaTime w player Hp Hf Hact)).
    assert (Hget : getPlayer p w'
                   = Some (Player.setPosition (newX m) (newY m)
                             (Player.setVelocity (newVx m) (newVy m) player))).
    { rewrite Hmove. apply getPlayer_updatePlayer_same.
      now apply getPlayer_updatePlayer_same. }
    split; [exact Hget|]. split.
    { eexists. split; [exact Hget|]. repeat split. exact Hf. }
    rewrite Hmove. split; reflexivity.
Qed.


(** ** The scheduler and the timer queue *)

Lemma get_delete_other (V : Type) (k k' : string) (m : JsMap.t V) :
  k <> k' -> JsMap.get k' (JsMap.delete k m) = JsMap.get k' m.
Proof.
  intros Hk. induction m as [|[k0 v0] m IH]; simpl; [reflexivity|].
  destruct (String.eqb k0 k) eqn:E; simpl.
  - apply String.eqb_eq in E. subst k0.
    apply String.eqb_neq in Hk. now rewrite Hk.
  - now rewrite IH.
Qed.

Lemma get_Some_values (V : Type) (k : string) (v : V) (m : JsMap.t V) :
  JsMap.get k m = Some v -> In v (JsMap.values m).
Proof.
  intros H. apply get_Some_in in H. unfold JsMap.values.
  apply in_map_iff. now exists (k, v).
Qed.

Lemma NoDup_map_filter (A B : Type) (f : A -> B) (g : A -> bool)
  (l : list A) :
  NoDup (map f l) -> NoDup (map f (filter g l)).
Proof.
  induction l as [|a l IH]; simpl; intros Hnd; [constructor|].
  inversion Hnd as [|? ? Hnotin Hnd']; subst.
  destruct (g a); simpl; [|auto].
  constructor; [|auto].
  intros Hin. apply Hnotin. apply in_map_iff in Hin as [a' [Ha' Hin]].
  apply filter_In in Hin as [Hin _]. apply in_map_iff. now exists a'.
Qed.

Lemma NoDup_map_remove (A B : Type) (f : A -> B) (l1 l2 : list A) (a : A) :
  NoDup (map f (l1 ++ a :: l2)) ->
  NoDup (map f (l1 ++ l2))
  /\ forall a', In a' (l1 ++ l2) -> f a' <> f a.
Proof.
  rewrite !map_app. simpl. intros Hnd.
  split; [now apply NoDup_remove_1 in Hnd|].
  apply NoDup_remove_2 in Hnd. intros a' Hin Heq. apply Hnd.
  rewrite <- Heq, <- map_app. now apply in_map.
Qed.

(** The queue after clearing a list of identifiers. *)
Lemma clearAll_timers (ids : list nat) (w : World) :
  timers (fold_left (fun acc timeoutId => clearTimeout timeoutId acc) ids w)
  = filter (fun t => forallb (fun id => negb (timerId t =? id)%nat) ids)
           (timers w).
Proof.
  revert w. induction ids as [|id ids IH]; intros w; simpl.
  - induction (timers w) as [|t l IHl]; simpl; [reflexivity|].
    now rewrite <- IHl.
  - rewrite IH. cbn [clearTimeout withTimers timers].
    induction (timers w) as [|t l IHl]; simpl; [reflexivity|].
    destruct (timerId t =? id)%nat; simpl; [exact IHl|].
    destruct (forallb _ ids); simpl; now rewrite IHl.
Qed.

(** What [stop] leaves in the queue. *)
Lemma stop_timers (w : World) (t : Timer) :
  In t (timers (stop w)) ->
  In t (timers w)
  /\ ~ In (timerId t) (JsMap.values (pendingFalls (tileFallManager w)))
  /\ (forall id, nextFallTimeout (tileFallManager w) = Some id ->
        id <> 0%nat -> timerId t <> id).
Proof.
  unfold stop.
  cbn [onTileFallManager timers tileFallManager withIsRunning
       nextFallTimeout].
  rewrite clearAll_timers. intros Hin. apply filter_In in Hin as [Hin Hall].
  rewrite forallb_forall in Hall.
  assert (Hpend : ~ In (timerId t)
                       (JsMap.values (pendingFalls (tileFallManager w)))).
  { intros Hv.
    destruct (nextFallTimeout (tileFallManager w)) as [id|];
      [destruct (id =? 0)%nat|];
      cbn in Hall; specialize (Hall _ Hv);
      now rewrite Nat.eqb_refl in Hall. }
  destruct (nextFallTimeout (tileFallManager w)) as [id|] eqn:En.
  - destruct (id =? 0)%nat eqn:E0; cbn in Hin.
    + split; [exact Hin|]. split; [exact Hpend|].
      intros id' [= <-] Hne. apply Nat.eqb_neq in Hne. congruence.
    + apply filter_In in Hin as [Hin Hne]. split; [exact Hin|].
      split; [exact Hpend|].
      intros id' [= <-] _ Heq. rewrite Heq, Nat.eqb_refl in Hne.
      discriminate Hne.
  - cbn in Hin. split; [exact Hin|]. split; [exact Hpend|]. discriminate.
Qed.

Lemma stop_timers_NoDup (w : World) :
  NoDup (map timerId (timers w)) -> NoDup (map timerId (timers (stop w))).
Proof.
  unfold stop.
  cbn [onTileFallManager timers tileFallManager withIsRunning
       nextFallTimeout].
  rewrite clearAll_timers. intros Hnd. apply NoDup_map_filter.
  destruct (nextFallTimeout (tileFallManager w)) as [id|];
    [destruct (id =? 0)%nat|]; cbn; try exact Hnd.
  now apply NoDup_map_filter.
Qed.

Lemma stop_bookkeeping (w : World) :
  isRunning (tileFallManager (stop w)) = false
  /\ pendingFalls (tileFallManager (stop w)) = []
  /\ (nextFallTimeout (tileFallManager (stop w)) = None
      \/ nextFallTimeout (tileFallManager w) = Some 0%nat).
Proof.
  unfold stop.
  cbn [onTileFallManager tileFallManager withPendingFalls isRunning
       pendingFalls nextFallTimeout].
  match goal with
  | |- context [fold_left ?f ?ids ?w0] =>
      destruct (clearAll_frame ids w0) as (_ & Ht & _)
  end.
  cbv zeta in Ht. rewrite Ht.
  cbn [withIsRunning tileFallManager onTileFallManager nextFallTimeout].
  destruct (nextFallTimeout (tileFallManager w)) as [id|] eqn:En;
    [destruct (id =? 0)%nat eqn:E0|]; cbn.
  - apply Nat.eqb_eq in E0. subst id. rewrite En. auto.
  - auto.
  - rewrite En. auto.
Qed.

Lemma schedulerStopped_fixpoint (w : World) :
  schedulerStopped w -> stop w = w.
Proof.
  intros (Hr & Hn & Hp & _). unfold stop.
  cbn [onTileFallManager tileFallManager withIsRunning nextFallTimeout].
  rewrite Hn. cbn [onTileFallManager tileFallManager withIsRunning
                   pendingFalls].
  rewrite Hp. cbn.
  destruct w as [g m ks h ts nid t e].
  destruct m as [i pf nf r]. cbn in *. now subst.
Qed.


Lemma schedulerInvariant_ext (w w' : World) :
  timers w' = timers w ->
  nextTimerId w' = nextTimerId w ->
  tileFallManager w' = tileFallManager w ->
  board (gameState w') = board (gameState w) ->
  schedulerInvariant w -> schedulerInvariant w'.
Proof.
  unfold schedulerInvariant, timersFresh, schedulerTracks.
  intros -> -> -> ->. tauto.
Qed.

Lemma stop_invariant (w : World) :
  schedulerInvariant w ->
  schedulerInvariant (stop w) /\ schedulerStopped (stop w).
Proof.
  intros ((Hpos & Hnd & Hrange) & (Hsel & Hfall & Hid) & Hboard).
  destruct (stop_frame w) as (Hg & _ & _ & Hn & _).
  destruct (stop_bookkeeping w) as (Hr & Hp & Hnone).
  assert (Hnf : nextFallTimeout (tileFallManager (stop w)) = None).
  { destruct Hnone as [H|H]; [exact H|]. apply Hid in H. lia. }
  assert (Hno : forall t, In t (timers (stop w)) -> isSchedulerTimer t = false).
  { intros t Hin. apply stop_timers in Hin as (Hin & Hv & Hnext).
    unfold isSchedulerTimer. destruct (callback t) as [|k|] eqn:Ec.
    - destruct (Hsel t Hin Ec) as [Hsome _].
      exfalso. apply (Hnext _ Hsome); [|reflexivity].
      specialize (Hrange t Hin). lia.
    - destruct (Hfall t k Hin Ec) as [Hsome _].
      exfalso. apply Hv. now apply get_Some_values with k.
    - reflexivity. }
  split; [|unfold schedulerStopped; auto].
  split; [|split].
  - split; [now rewrite Hn|]. split; [now apply stop_timers_NoDup|].
    intros t Hin. rewrite Hn. apply Hrange.
    now apply stop_timers in Hin.
  - split; [|split].
    + intros t Hin Ec. apply Hno in Hin. unfold isSchedulerTimer in Hin.
      rewrite Ec in Hin. discriminate.
    + intros t k Hin Ec. apply Hno in Hin. unfold isSchedulerTimer in Hin.
      rewrite Ec in Hin. discriminate.
    + intros id. rewrite Hnf. discriminate.
  - now rewrite Hg.
Qed.

Lemma schedulerFresh_invariant (w : World) :
  schedulerFresh w -> schedulerInvariant w.
Proof.
  intros ((Hr & Hn & Hp & Hno) & Hfresh & Hboard).
  split; [exact Hfresh|]. split; [|exact Hboard].
  split; [|split].
  - intros t Hin Ec. apply Hno in Hin. unfold isSchedulerTimer in Hin.
    rewrite Ec in Hin. discriminate.
  - intros t k Hin Ec. apply Hno in Hin. unfold isSchedulerTimer in Hin.
    rewrite Ec in Hin. discriminate.
  - intros id. rewrite Hn. discriminate.
Qed.

(** *** Worlds that only gain game-over checks *)

Lemma addsChecks_refl (w : World) : addsChecks w w.
Proof.
  unfold addsChecks. repeat split; auto.
  exists []. rewrite app_nil_r. repeat split; try constructor; contradiction.
Qed.

Lemma addsChecks_trans (w1 w2 w3 : World) :
  addsChecks w1 w2 -> addsChecks w2 w3 -> addsChecks w1 w3.
Proof.
  intros (Ht1 & Hb1 & Hn1 & e1 & He1 & Hnd1 & Hc1)
         (Ht2 & Hb2 & Hn2 & e2 & He2 & Hnd2 & Hc2).
  unfold addsChecks. split; [congruence|]. split; [congruence|].
  split; [lia|]. exists (e1 ++ e2).
  split; [rewrite He2, He1; now rewrite app_assoc|]. split.
  - rewrite map_app. apply NoDup_app; [exact Hnd1|exact Hnd2|].
    intros id Hin1 Hin2.
    apply in_map_iff in Hin1 as [t1 [<- Hin1]].
    apply in_map_iff in Hin2 as [t2 [Heq Hin2]].
    apply Hc1 in Hin1. apply Hc2 in Hin2. lia.
  - intros t Hin. apply in_app_or in Hin as [Hin|Hin].
    + apply Hc1 in Hin. split; [tauto|lia].
    + apply Hc2 in Hin. split; [tauto|lia].
Qed.

Lemma addsChecks_same (w w' : World) :
  tileFallManager w' = tileFallManager w ->
  board (gameState w') = board (gameState w) ->
  nextTimerId w' = nextTimerId w ->
  timers w' = timers w ->
  addsChecks w w'.
Proof.
  intros Ht Hb Hn Hts. unfold addsChecks. rewrite Ht, Hb, Hn, Hts.
  apply addsChecks_refl.
Qed.

Lemma addsChecks_eliminatePlayer (p : nat) (w : World) :
  addsChecks w (eliminatePlayer p w).
Proof.
  destruct (getPlayer p w) as [pl|] eqn:Ep;
    [|unfold eliminatePlayer; rewrite Ep; apply addsChecks_refl].
  unfold addsChecks.
  rewrite (@eliminatePlayer_tileFallManager w p pl Ep).
  rewrite (@eliminatePlayer_gameState w p pl Ep).
  rewrite (@eliminatePlayer_timers w p pl Ep).
  assert (Hn : nextTimerId (eliminatePlayer p w)
               = if (length (filter (fun p' => negb (p' =? p)%nat)
                                    (alivePlayers (gameState w))) <=? 1)%nat
                 then S (nextTimerId w) else nextTimerId w).
  { unfold eliminatePlayer. rewrite Ep, emit_playerEliminated. cbn.
    now destruct (length _ <=? 1)%nat. }
  rewrite Hn. split; [reflexivity|]. split; [reflexivity|].
  destruct (length _ <=? 1)%nat.
  - split; [lia|]. eexists. split; [reflexivity|]. split.
    + simpl. constructor; [tauto|constructor].
    + intros t [<-|[]]. simpl. split; [reflexivity|lia].
  - split; [lia|]. exists []. rewrite app_nil_r.
    repeat split; try constructor; contradiction.
Qed.

Lemma addsChecks_updatePlayer (p : nat) (f : Player.t -> Player.t)
  (w : World) :
  addsChecks w (updatePlayer p f w).
Proof. apply addsChecks_same; reflexivity. Qed.

Lemma addsChecks_updatePlayerMovement (p : nat) (deltaTime : R) (w : World) :
  addsChecks w (updatePlayerMovement p deltaTime w).
Proof.
  unfold updatePlayerMovement.
  destruct (getPlayer p w) as [pl|]; [|apply addsChecks_refl].
  destruct (Player.isFalling pl); [apply addsChecks_refl|].
  destruct (negb (isTileActive _ _ _)).
  - eapply addsChecks_trans; [|apply addsChecks_eliminatePlayer].
    apply addsChecks_same; reflexivity.
  - apply addsChecks_same; reflexivity.
Qed.

Lemma addsChecks_fold (A : Type) (f : World -> A -> World) (l : list A)
  (w : World) :
  (forall a w0, addsChecks w0 (f w0 a)) ->
  addsChecks w (fold_left f l w).
Proof.
  intros Hf. revert w. induction l as [|a l IH]; intros w; simpl.
  - apply addsChecks_refl.
  - eapply addsChecks_trans; [apply Hf|apply IH].
Qed.

Lemma addsChecks_updatePlayers (deltaTime : R) (w : World) :
  addsChecks w (updatePlayers deltaTime w).
Proof.
  unfold updatePlayers. destruct (negb _); [apply addsChecks_refl|].
  apply addsChecks_fold. intros p w0. apply addsChecks_updatePlayerMovement.
Qed.

Lemma schedulerInvariant_addsChecks (w w' : World) :
  addsChecks w w' -> schedulerInvariant w -> schedulerInvariant w'.
Proof.
  intros (Ht & Hb & Hn & extra & He & Hnd & Hc)
         ((Hpos & Hnd0 & Hrange) & (Hsel & Hfall & Hid) & Hboard).
  split; [|split].
  - split; [lia|]. split.
    + rewrite He, map_app. apply NoDup_app; [exact Hnd0|exact Hnd|].
      intros id Hin1 Hin2.
      apply in_map_iff in Hin1 as [t1 [<- Hin1]].
      apply in_map_iff in Hin2 as [t2 [Heq Hin2]].
      apply Hrange in Hin1. apply Hc in Hin2. lia.
    + intros t Hin. rewrite He in Hin. apply in_app_or in Hin as [Hin|Hin].
      * apply Hrange in Hin. lia.
      * apply Hc in Hin. lia.
  - unfold schedulerTracks. rewrite Ht, Hb. split; [|split; [|exact Hid]].
    + intros t Hin Ec. rewrite He in Hin.
      apply in_app_or in Hin as [Hin|Hin]; [now apply Hsel|].
      apply Hc in Hin. destruct Hin as [Hcb _]. congruence.
    + intros t k Hin Ec. rewrite He in Hin.
      apply in_app_or in Hin as [Hin|Hin]; [now apply Hfall|].
      apply Hc in Hin. destruct Hin as [Hcb _]. congruence.
  - now rewrite Hb.
Qed.


(** *** The invariant through the operations *)

Lemma isCandidate_fall (tile : Tile.t) : isCandidate (Tile.fall tile) = false.
Proof. reflexivity. Qed.

Lemma isCandidate_getShatterProgress (time : R) (tile : Tile.t) :
  isCandidate tile = false ->
  isCandidate (snd (Tile.getShatterProgress time tile)) = false.
Proof.
  intros H. unfold Tile.getShatterProgress.
  destruct (negb (Tile.isShattering tile)); [exact H|].
  destruct (HexUtils.geb _ 1); [reflexivity|exact H].
Qed.

Lemma isCandidate_getSpawnProgress (time : R) (tile : Tile.t) :
  isCandidate (snd (Tile.getSpawnProgress time tile)) = isCandidate tile.
Proof.
  unfold Tile.getSpawnProgress.
  destruct (negb (Tile.isSpawning tile)); [reflexivity|].
  destruct (HexUtils.ltb _ 0); [reflexivity|].
  destruct (HexUtils.geb _ 1); reflexivity.
Qed.

Lemma schedulerInvariant_mapBoard (f : string * Tile.t -> string * Tile.t)
  (w : World) :
  (forall e, fst (f e) = fst e) ->
  (forall e, isCandidate (snd e) = false -> isCandidate (snd (f e)) = false) ->
  schedulerInvariant w ->
  schedulerInvariant (onGameState (fun g => withBoard (map f (board g)) g) w).
Proof.
  intros Hkey Hcand (Hfresh & (Hsel & Hfall & Hid) & Hboard).
  split; [exact Hfresh|]. split; [split; [exact Hsel|split; [|exact Hid]]|].
  - intros t k Hin Ec. destruct (Hfall t k Hin Ec) as [Hget Htile].
    split; [exact Hget|]. cbn. intros tile'.
    rewrite get_map_values by exact Hkey.
    destruct (JsMap.get k (board (gameState w))) as [tile|]; [|discriminate].
    intros [= <-]. apply (Hcand (k, tile)). now apply Htile.
  - cbn. unfold JsMap.keys in *. rewrite map_map.
    erewrite map_ext; [exact Hboard|]. intros e. apply Hkey.
Qed.

Lemma schedulerInvariant_updateTileAnimations (w : World) :
  schedulerInvariant w -> schedulerInvariant (updateTileAnimations w).
Proof.
  unfold updateTileAnimations. apply schedulerInvariant_mapBoard.
  - intros e. now destruct (Tile.isShattering (snd e)).
  - intros e He. destruct (Tile.isShattering (snd e)); [|exact He].
    now apply isCandidate_getShatterProgress.
Qed.

Lemma schedulerInvariant_render (w : World) :
  schedulerInvariant w -> schedulerInvariant (render w).
Proof.
  intros Hw. unfold render.
  set (w1 := onGameState _ w).
  assert (Hw1 : schedulerInvariant w1).
  { apply schedulerInvariant_mapBoard; [reflexivity| |exact Hw].
    intros e He. cbn [snd]. unfold renderTile.
    destruct (Tile.isShattering (snd e));
      [now apply isCandidate_getShatterProgress|].
    destruct (negb (Tile.isActive (snd e))); [exact He|].
    destruct (Tile.isSpawning (snd e)); [|exact He].
    now rewrite isCandidate_getSpawnProgress. }
  destruct (board (gameState w)); [exact Hw1|].
  apply schedulerInvariant_addsChecks with w1; [|exact Hw1].
  apply addsChecks_fold. intros q w0. apply addsChecks_updatePlayer.
Qed.

Lemma schedulerInvariant_gameLoop (deltaTime : R) (w : World) :
  schedulerInvariant w -> schedulerInvariant (gameLoop deltaTime w).
Proof.
  intros Hw. unfold gameLoop, update.
  apply schedulerInvariant_render, schedulerInvariant_updateTileAnimations.
  destruct (phaseEqb _ InProgress); [|exact Hw].
  apply schedulerInvariant_addsChecks with w; [|exact Hw].
  apply addsChecks_updatePlayers.
Qed.

(** The queue once the timer [t] has fired. *)
Lemma schedulerInvariant_fired (w : World) (before after : list Timer)
  (t : Timer) (time : R) :
  schedulerInvariant w ->
  timers w = before ++ t :: after ->
  let w0 := withNow time (withTimers (before ++ after) w) in
  schedulerInvariant w0
  /\ forall t', In t' (timers w0) -> timerId t' <> timerId t.
Proof.
  intros ((Hpos & Hnd & Hrange) & (Hsel & Hfall & Hid) & Hboard) Hts w0.
  rewrite Hts in Hnd.
  destruct (NoDup_map_remove timerId before after t Hnd) as [Hnd' Hne].
  assert (Hsub : forall t', In t' (before ++ after) -> In t' (timers w)).
  { intros t' Hin. rewrite Hts. apply in_app_or in Hin.
    apply in_or_app. simpl. tauto. }
  split; [|exact Hne].
  split; [|split; [|exact Hboard]].
  - split; [exact Hpos|]. split; [exact Hnd'|].
    intros t' Hin. apply Hrange. now apply Hsub.
  - split; [|split; [|exact Hid]].
    + intros t' Hin. apply Hsel. now apply Hsub.
    + intros t' k Hin. apply Hfall. now apply Hsub.
Qed.

Lemma schedulerInvariant_selectRandomTile (coin pick : R) (w : World) :
  schedulerInvariant w ->
  let w' := selectRandomTile coin pick w in
  schedulerInvariant w'
  /\ (forall t, In t (timers w') -> callback t = NextFall -> In t (timers w))
  /\ isRunning (tileFallManager w') = isRunning (tileFallManager w)
  /\ nextFallTimeout (tileFallManager w')
     = nextFallTimeout (tileFallManager w).
Proof.
  intros Hw w'. subst w'. unfold selectRandomTile.
  rewrite gatherTiles_spec.
  destruct (length (candidates w) =? 0)%nat; [auto|].
  set (choice := if _ && _ then _ else _).
  destruct choice as [k|] eqn:Ek; [|auto].
  assert (Hkin : In k (candidates w)).
  { subst choice. destruct (_ && _); apply nth_error_In in Ek; [|exact Ek].
    unfold occupiedCandidates in Ek. now apply filter_In in Ek. }
  destruct Hw as ((Hpos & Hnd & Hrange) & (Hsel & Hfall & Hid) & Hboard).
  destruct (proj1 (@in_candidates w k Hboard) Hkin)
    as [tile (Hget & Ha & Hwarn)].
  rewrite (@markTileWarning_active w k tile Hget Ha).
  unfold schedulerInvariant, timersFresh, schedulerTracks.
  cbn [setTimeout logEvent setTile onGameState onTileFallManager snd
       timers nextTimerId tileFallManager gameState now withBoard board
       withPendingFalls pendingFalls isRunning nextFallTimeout].
  assert (Hcand : isCandidate tile = true)
    by (unfold isCandidate; now rewrite Ha, Hwarn).
  split; [|split; [|split; reflexivity]].
  - split; [|split].
    + split; [lia|]. split.
      * rewrite map_app. simpl. apply NoDup_app; [exact Hnd| |].
        -- constructor; [tauto|constructor].
        -- intros id Hin [<-|[]].
           apply in_map_iff in Hin as [t [Ht Hin]].
           apply Hrange in Hin. lia.
      * intros t Hin. apply in_app_or in Hin as [Hin|[<-|[]]].
        -- apply Hrange in Hin. lia.
        -- simpl. lia.
    + split; [|split; [|exact Hid]].
      * intros t Hin Ec. apply in_app_or in Hin as [Hin|[<-|[]]].
        -- now apply Hsel.
        -- discriminate Ec.
      * intros t k' Hin Ec. apply in_app_or in Hin as [Hin|[<-|[]]].
        -- destruct (Hfall t k' Hin Ec) as [Hp Ht].
           assert (Hk : k <> k').
           { intros <-. specialize (Ht tile Hget). congruence. }
           rewrite !get_set_other by exact Hk. auto.
        -- simpl in Ec. injection Ec as <-. simpl.
           rewrite !get_set_same. split; [reflexivity|].
           intros tile' [= <-]. unfold isCandidate. simpl.
           now rewrite andb_false_r.
    + now rewrite (@keys_set_present _ k (Tile.startWarning (now w) tile)
                     tile (board (gameState w)) Hget).
  - intros t Hin Ec. apply in_app_or in Hin as [Hin|[<-|[]]];
      [exact Hin|discriminate Ec].
Qed.

Lemma schedulerInvariant_scheduleNextFall (w : World) :
  schedulerInvariant w ->
  (forall t, In t (timers w) -> callback t <> NextFall) ->
  schedulerInvariant (scheduleNextFall w).
Proof.
  unfold scheduleNextFall.
  destruct (isRunning (tileFallManager w)) eqn:Er; cbn [negb];
    [|intros Hw _; exact Hw].
  intros ((Hpos & Hnd & Hrange) & (Hsel & Hfall & Hid) & Hboard) Hno.
  cbn [setTimeout onTileFallManager].
  split; [|split; [|exact Hboard]].
  - split; [cbn; lia|]. split.
    + cbn. rewrite map_app. simpl. apply NoDup_app; [exact Hnd| |].
      * constructor; [tauto|constructor].
      * intros id Hin [<-|[]].
        apply in_map_iff in Hin as [t [Ht Hin]].
        apply Hrange in Hin. lia.
    + cbn. intros t Hin. apply in_app_or in Hin as [Hin|[<-|[]]].
      * apply Hrange in Hin. lia.
      * simpl. lia.
  - split; [|split].
    + cbn. intros t Hin Ec. apply in_app_or in Hin as [Hin|[<-|[]]].
      * exfalso. now apply (Hno t).
      * simpl. auto.
    + cbn. intros t k Hin Ec. apply in_app_or in Hin as [Hin|[<-|[]]].
      * now apply Hfall.
      * discriminate Ec.
    + cbn. intros id [= <-]. exact Hpos.
Qed.

Lemma schedulerInvariant_nextFall (w : World) (before after : list Timer)
  (t : Timer) (time coin pick : R) :
  schedulerInvariant w ->
  timers w = before ++ t :: after ->
  callback t = NextFall ->
  schedulerInvariant
    (nextFall coin pick (withNow time (withTimers (before ++ after) w))).
Proof.
  intros Hw Hts Ec.
  destruct (@schedulerInvariant_fired w before after t time Hw Hts)
    as [Hw0 Hne].
  set (w0 := withNow time (withTimers (before ++ after) w)) in *.
  assert (Hnone : forall t', In t' (timers w0) -> callback t' <> NextFall).
  { intros t' Hin Ec'.
    destruct Hw as (_ & (Hsel & _) & _).
    assert (Hin' : In t' (timers w)).
    { rewrite Hts. cbn in Hin. apply in_app_or in Hin.
      apply in_or_app. simpl. tauto. }
    assert (Hint : In t (timers w))
      by (rewrite Hts; apply in_or_app; simpl; tauto).
    destruct (Hsel t' Hin' Ec') as [H1 _].
    destruct (Hsel t Hint Ec) as [H2 _].
    apply (Hne t' Hin). congruence. }
  destruct (@schedulerInvariant_selectRandomTile coin pick w0 Hw0)
    as (Hw1 & Hold & _ & _).
  unfold nextFall.
  apply schedulerInvariant_scheduleNextFall.
  - revert Hw1.
    unfold schedulerInvariant, timersFresh, schedulerTracks,
      accelerateFallRate. cbn. tauto.
  - intros t' Hin Ec'. cbn in Hin. apply (Hnone t'); [|exact Ec'].
    now apply Hold.
Qed.

Lemma schedulerInvariant_removeTile (k : string) (w : World) :
  schedulerInvariant w ->
  (forall t, In t (timers w) -> callback t <> ExecuteFall k) ->
  schedulerInvariant (removeTile k w).
Proof.
  intros Hw Hno. unfold removeTile.
  destruct (JsMap.get k (board (gameState w))) as [tile|] eqn:Hget;
    [|exact Hw].
  rewrite emit_tileFallen.
  destruct Hw as (Hfresh & (Hsel & Hfall & Hid) & Hboard).
  split; [exact Hfresh|]. split; [split; [exact Hsel|split; [|exact Hid]]|].
  - cbn. intros t k' Hin Ec. destruct (Hfall t k' Hin Ec) as [Hp Ht].
    split; [exact Hp|].
    assert (Hk : k <> k') by (intros <-; now apply (Hno t)).
    now rewrite get_set_other by exact Hk.
  - cbn [logEvent setTile onGameState gameState withBoard board].
    now rewrite (@keys_set_present _ k (Tile.startShatter (now w) tile)
                   tile (board (gameState w)) Hget).
Qed.

Lemma schedulerInvariant_executeFall (w : World) (before after : list Timer)
  (t : Timer) (time : R) (k : string) :
  schedulerInvariant w ->
  timers w = before ++ t :: after ->
  callback t = ExecuteFall k ->
  schedulerInvariant
    (executeFall k (withNow time (withTimers (before ++ after) w))).
Proof.
  intros Hw Hts Ec.
  destruct (@schedulerInvariant_fired w before after t time Hw Hts)
    as [Hw0 Hne].
  set (w0 := withNow time (withTimers (before ++ after) w)) in *.
  assert (Hnone : forall t', In t' (timers w0) ->
                             callback t' <> ExecuteFall k).
  { intros t' Hin Ec'.
    destruct Hw as (_ & (_ & Hfall & _) & _).
    assert (Hin' : In t' (timers w)).
    { rewrite Hts. cbn in Hin. apply in_app_or in Hin.
      apply in_or_app. simpl. tauto. }
    assert (Hint : In t (timers w))
      by (rewrite Hts; apply in_or_app; simpl; tauto).
    destruct (Hfall t' k Hin' Ec') as [H1 _].
    destruct (Hfall t k Hint Ec) as [H2 _].
    apply (Hne t' Hin). congruence. }
  unfold executeFall.
  set (w1 := onTileFallManager _ w0).
  assert (Hw1 : schedulerInvariant w1).
  { destruct Hw0 as (Hfresh & (Hsel & Hfall & Hid) & Hboard).
    split; [exact Hfresh|].
    split; [split; [exact Hsel|split; [|exact Hid]]|exact Hboard].
    intros t' k' Hin Ec'. destruct (Hfall t' k' Hin Ec') as [Hp Ht].
    split; [|exact Ht]. cbn.
    assert (Hk : k <> k') by (intros <-; now apply (Hnone t')).
    now rewrite get_delete_other by exact Hk. }
  set (w2 := fold_left _ _ w1).
  assert (Hadd : addsChecks w1 w2).
  { apply addsChecks_fold. intros p w'.
    eapply addsChecks_trans; [|apply addsChecks_eliminatePlayer].
    apply addsChecks_same; reflexivity. }
  apply schedulerInvariant_removeTile.
  - now apply schedulerInvariant_addsChecks with w1.
  - intros t' Hin Ec'.
    destruct Hadd as (_ & _ & _ & extra & He & _ & Hc).
    rewrite He in Hin. apply in_app_or in Hin as [Hin|Hin].
    + now apply (Hnone t').
    + apply Hc in Hin. destruct Hin as [Hcb _]. congruence.
Qed.

Lemma schedulerInvariant_gameOverCheck (w : World) :
  schedulerInvariant w -> schedulerInvariant (gameOverCheck w).
Proof.
  intros Hw. unfold gameOverCheck. destruct (_ && _); [|exact Hw].
  unfold emit. cbn [logEvent gameState onGameState withMatchPhase listening].
  destruct (listening (gameState w)).
  - unfold handleGameOver. apply stop_invariant.
    revert Hw. apply schedulerInvariant_ext; reflexivity.
  - revert Hw. apply schedulerInvariant_ext; reflexivity.
Qed.

Lemma schedulerInvariant_startGame (w : World) :
  isRunning (tileFallManager w) = false ->
  schedulerInvariant w -> schedulerInvariant (startGame w).
Proof.
  intros Hr (Hfresh & (Hsel & Hfall & Hid) & Hboard).
  assert (Hnone : forall t, In t (timers w) -> callback t <> NextFall).
  { intros t Hin Ec. destruct (Hsel t Hin Ec) as [_ H]. congruence. }
  unfold startGame, start. apply schedulerInvariant_scheduleNextFall.
  - split; [exact Hfresh|]. split; [|exact Hboard].
    split; [|split; [exact Hfall|exact Hid]].
    intros t Hin Ec. exfalso. now apply (Hnone t).
  - exact Hnone.
Qed.

Lemma schedulerInvariant_reset (w : World) :
  schedulerInvariant w -> schedulerInvariant (reset w).
Proof.
  intros (Hfresh & (Hsel & Hfall & Hid) & Hboard).
  split; [exact Hfresh|]. split; [|constructor].
  split; [exact Hsel|split; [|exact Hid]].
  intros t k Hin Ec. destruct (Hfall t k Hin Ec) as [Hp _].
  split; [exact Hp|]. cbn. discriminate.
Qed.

Lemma schedulerInvariant_step (w w' : World) :
  step w w' -> schedulerInvariant w -> schedulerInvariant w'.
Proof.
  intros Hstep Hw. destruct Hstep.
  - destruct (callback t) as [|k|] eqn:Ec; cbn [runCallback].
    + now apply schedulerInvariant_nextFall with t.
    + now apply schedulerInvariant_executeFall with t.
    + apply schedulerInvariant_gameOverCheck.
      now apply (@schedulerInvariant_fired w before after t time).
  - apply schedulerInvariant_gameLoop.
    revert Hw. apply schedulerInvariant_ext; reflexivity.
  - unfold handleKeyDown. destruct (existsb _ _); [exact Hw|].
    revert Hw. apply schedulerInvariant_ext; reflexivity.
  - revert Hw. apply schedulerInvariant_ext; reflexivity.
  - now apply schedulerInvariant_startGame.
  - now apply stop_invariant.
  - now apply schedulerInvariant_reset.
Qed.

Lemma schedulerInvariant_steps (w w' : World) :
  steps w w' -> schedulerInvariant w -> schedulerInvariant w'.
Proof.
  induction 1 as [|w1 w2 w3 _ IH Hstep]; [auto|].
  intros Hw. apply (schedulerInvariant_step Hstep). now apply IH.
Qed.


(** *** After [stop] *)

Lemma tileEvents_snoc_gameOver (log : list Event) (winner : option nat) :
  tileEvents (log ++ [gameOver winner]) = tileEvents log.
Proof.
  unfold tileEvents. rewrite filter_app. simpl. apply app_nil_r.
Qed.

Lemma schedulerStopped_gameOverCheck (w : World) :
  schedulerStopped w ->
  schedulerStopped (gameOverCheck w)
  /\ board (gameState (gameOverCheck w)) = board (gameState w)
  /\ tileEvents (emitted (gameOverCheck w)) = tileEvents (emitted w).
Proof.
  intros Hw. unfold gameOverCheck. destruct (_ && _); [|auto].
  set (e := gameOver _). set (w1 := onGameState _ w).
  assert (Hw1 : schedulerStopped (logEvent e w1)) by exact Hw.
  assert (Hem : emit e w1 = logEvent e w1).
  { unfold emit. destruct (listening _); [|reflexivity].
    unfold handleGameOver. now apply schedulerStopped_fixpoint. }
  rewrite Hem. split; [exact Hw1|]. split; [reflexivity|].
  cbn [logEvent emitted]. apply tileEvents_snoc_gameOver.
Qed.

Lemma schedulerStopped_timePasses (w w' : World) :
  timePasses w w' ->
  schedulerStopped w ->
  schedulerStopped w'
  /\ board (gameState w') = board (gameState w)
  /\ tileEvents (emitted w') = tileEvents (emitted w).
Proof.
  induction 1 as [w|w1 w2 before after t time coin pick _ IH Hts _ _ _ _
                    |w1 w2 time _ IH _]; intros Hw.
  - auto.
  - destruct (IH Hw) as ((Hr & Hn & Hp & Hno) & Hb & He).
    assert (Hcb : callback t = GameOverCheck).
    { assert (Hin : In t (timers w2))
        by (rewrite Hts; apply in_or_app; simpl; tauto).
      apply Hno in Hin. unfold isSchedulerTimer in Hin.
      now destruct (callback t). }
    rewrite Hcb. cbn [runCallback].
    set (w0 := withNow time (withTimers (before ++ after) w2)).
    assert (Hw0 : schedulerStopped w0).
    { split; [exact Hr|]. split; [exact Hn|]. split; [exact Hp|].
      intros t' Hin. apply Hno. rewrite Hts. cbn in Hin.
      apply in_app_or in Hin. apply in_or_app. simpl. tauto. }
    destruct (schedulerStopped_gameOverCheck Hw0) as (Hs & Hb' & He').
    split; [exact Hs|]. split; [now rewrite Hb'|now rewrite He'].
  - destruct (IH Hw) as (Hs & Hb & He). auto.
Qed.

(** C2. In a world reached from a fresh scheduler by any turns of the
    event loop, [stop] leaves no timer of the scheduler in the queue and
    nothing in its bookkeeping (not running, no selection timer, no pending
    fall), and does not touch the board.  From there, however far time
    advances and whichever of the remaining timers fire, the board stays
    as it is, no [tileWarning] or [tileFallen] is emitted, the scheduler
    stays stopped, and [stop] changes nothing: it is idempotent. *)
Theorem stop_cancels_all_timers (w0 w : World) :
  schedulerFresh w0 ->
  steps w0 w ->
  schedulerStopped (stop w)
  /\ board (gameState (stop w)) = board (gameState w)
  /\ stop (stop w) = stop w
  /\ forall w', timePasses (stop w) w' ->
       board (gameState w') = board (gameState w)
       /\ tileEvents (emitted w') = tileEvents (emitted w)
       /\ schedulerStopped w'
       /\ stop w' = w'.
Proof.
  intros Hfresh Hsteps.
  assert (Hinv : schedulerInvariant w).
  { apply (schedulerInvariant_steps Hsteps).
    now apply schedulerFresh_invariant. }
  destruct (stop_invariant Hinv) as [_ Hstopped].
  destruct (stop_frame w) as (Hg & _ & _ & _ & _ & He & _).
  split; [exact Hstopped|]. split; [now rewrite Hg|].
  split; [now apply schedulerStopped_fixpoint|].
  intros w' Hpass.
  destruct (schedulerStopped_timePasses Hpass Hstopped) as (Hs & Hb & Het).
  rewrite Hg in Hb. rewrite He in Het.
  split; [exact Hb|]. split; [exact Het|]. split; [exact Hs|].
  now apply schedulerStopped_fixpoint.
Qed.

Lemma stop_cancels_all_timers_witness :
  length (timers (startGame exampleWorld)) = 1%nat
  /\ timers (stop (startGame exampleWorld)) = []
  /\ schedulerStopped (stop (startGame exampleWorld))
  /\ stop (stop (startGame exampleWorld)) = stop (startGame exampleWorld).
Proof.
  split; [reflexivity|]. split; [reflexivity|].
  assert (Hfresh : schedulerFresh exampleWorld).
  { split; [|split].
    - repeat split; simpl; contradiction.
    - repeat split; simpl; try lia; try constructor; contradiction.
    - simpl. repeat constructor; simpl; intuition discriminate. }
  assert (Hsteps : steps exampleWorld (startGame exampleWorld)).
  { apply steps_next with exampleWorld; [apply steps_refl|].
    apply step_startGame. reflexivity. }
  destruct (@stop_cancels_all_timers exampleWorld (startGame exampleWorld)
              Hfresh Hsteps) as (Hs & _ & Hi & _).
  split; [exact Hs|exact Hi].
Defined.


(** ** A run in which [removeTile] meets a fallen tile *)

Lemma randomIndex_zero (n : nat) : randomIndex 0 n = 0%nat.
Proof.
  unfold randomIndex. rewrite Rmult_0_l, round_0.
  change 0%R with (IZR 0). now rewrite ZfloorZ.
Qed.

Lemma unitDraw_zero : unitDraw 0.
Proof. unfold unitDraw. lra. Qed.

Lemma replay2_eq :
  replay2
  = mkWorld
      (mkGameState [("0,0"%string, Tile.startWarning 1800 tile0)] [] []
                   InProgress 1000 true 350 350)
      (mkTileFallManager 780 [("0,0"%string, 2%nat)] (Some 3%nat) true)
      [] []
      [mkTimer 2 (1800 + 600) (ExecuteFall "0,0");
       mkTimer 3 (1800 + 780) NextFall]
      4 1800 [tileWarning "0,0"].
Proof.
  unfold replay2, runCallback, nextFall, selectRandomTile.
  cbn -[randomIndex IZR Rplus]. rewrite randomIndex_zero. reflexivity.
Qed.

Lemma replay3_eq :
  replay3
  = mkWorld
      (mkGameState
         [("0,0"%string,
           Tile.startShatter 2400 (Tile.startWarning 1800 tile0))] [] []
         InProgress 1000 true 350 350)
      (mkTileFallManager 780 [] (Some 3%nat) true)
      [] []
      [mkTimer 3 (1800 + 780) NextFall]
      4 2400 [tileWarning "0,0"; tileFallen "0,0"].
Proof.
  unfold replay3. rewrite replay2_eq. reflexivity.
Qed.

Lemma replay4_eq :
  replay4
  = mkWorld
      (mkGameState
         [("0,0"%string,
           Tile.startWarning 2580
             (Tile.startShatter 2400 (Tile.startWarning 1800 tile0)))] [] []
         InProgress 1000 true 350 350)
      (mkTileFallManager 760 [("0,0"%string, 4%nat)] (Some 5%nat) true)
      [] []
      [mkTimer 4 (2580 + 600) (ExecuteFall "0,0");
       mkTimer 5 (2580 + 760) NextFall]
      6 2580 [tileWarning "0,0"; tileFallen "0,0"; tileWarning "0,0"].
Proof.
  unfold replay4. rewrite replay3_eq.
  unfold runCallback, nextFall, selectRandomTile.
  cbn -[randomIndex IZR Rplus]. rewrite randomIndex_zero. reflexivity.
Qed.

Lemma replay5_eq :
  replay5
  = mkWorld
      (mkGameState
         [("0,0"%string,
           Tile.fall
             (Tile.startWarning 2580
                (Tile.startShatter 2400 (Tile.startWarning 1800 tile0))))]
         [] [] InProgress 1000 true 350 350)
      (mkTileFallManager 760 [("0,0"%string, 4%nat)] (Some 5%nat) true)
      [] []
      [mkTimer 4 (2580 + 600) (ExecuteFall "0,0");
       mkTimer 5 (2580 + 760) NextFall]
      6 2800 [tileWarning "0,0"; tileFallen "0,0"; tileWarning "0,0"].
Proof.
  unfold replay5. rewrite replay4_eq.
  unfold gameLoop, update, updateTileAnimations, render, renderTile.
  unfold onGameState, withNow, withBoard.
  cbn [gameState board map fst snd tileFallManager heldKeys heap timers
       nextTimerId now emitted players alivePlayers matchPhase gameStartTime
       listening centerX centerY phaseEqb updatePlayers negb fold_left
       Tile.isShattering Tile.startWarning Tile.startShatter].
  rewrite getShatterProgress_after; [reflexivity|reflexivity|simpl; lra|].
  simpl. lra.
Qed.

(** A match in which [removeTile] meets a fallen tile.  On a board of one
    tile the scheduler selects the tile, its warning ends and it starts to
    shatter (it is still active), the scheduler selects it again 180 ms
    later, a frame 400 ms after the shatter began makes it fall, and the
    second warning then ends on the fallen tile: it shatters again and
    [tileFallen] is emitted a second time. *)
Example removeTile_on_fallen_tile_in_play :
  steps oneTileWorld replay6
  /\ option_map Tile.isActive (JsMap.get "0,0" (board (gameState replay5)))
     = Some false
  /\ option_map Tile.isShattering
       (JsMap.get "0,0" (board (gameState replay6))) = Some true
  /\ emitted replay6
     = [tileWarning "0,0"; tileFallen "0,0"; tileWarning "0,0";
        tileFallen "0,0"].
Proof.
  assert (H6 : replay6
               = executeFall "0,0"
                   (withNow 3180
                      (withTimers [mkTimer 5 (2580 + 760) NextFall] replay5)))
    by reflexivity.
  split; [|rewrite H6, replay5_eq; repeat split; reflexivity].
  assert (Hd : unitDraw 0) by (unfold unitDraw; lra).
  apply steps_next with replay5.
  - apply steps_next with replay4.
    + apply steps_next with replay3.
      * apply steps_next with replay2.
        -- apply steps_next with replay1.
           ++ apply steps_next with oneTileWorld; [apply steps_refl|].
              apply step_startGame. reflexivity.
           ++ apply (@step_fire replay1 [] []
                       (mkTimer 1 (1000 + 800) NextFall) 1800 0 0);
                try exact Hd; try reflexivity; simpl; lra.
        -- apply (@step_fire replay2 []
                    [mkTimer 3 (1800 + 780) NextFall]
                    (mkTimer 2 (1800 + 600) (ExecuteFall "0,0")) 2400 0 0);
             try exact Hd; rewrite ?replay2_eq; try reflexivity; simpl; lra.
      * apply (@step_fire replay3 [] []
                 (mkTimer 3 (1800 + 780) NextFall) 2580 0 0);
          try exact Hd; rewrite ?replay3_eq; try reflexivity; simpl; lra.
    + apply (@step_frame replay4 2800 16). rewrite replay4_eq. simpl. lra.
  - apply (@step_fire replay5 []
             [mkTimer 5 (2580 + 760) NextFall]
             (mkTimer 4 (2580 + 600) (ExecuteFall "0,0")) 3180 0 0);
      try exact Hd; rewrite ?replay5_eq; try reflexivity; simpl; lra.
Qed.

(** * Further properties

    ** hexUtils.js: distance, keys and rounding *)

Section HexDistance.

Import HexUtils.

Lemma distance_max (a b : HexPosition) :
  distance a b
  = Z.max (Z.max (Z.abs (q a - q b)) (Z.abs (r a - r b)))
          (Z.abs ((- q a - r a) - (- q b - r b))).
Proof.
  unfold distance. cbv zeta.
  replace (Z.abs (q a - q b) + Z.abs (r a - r b)
           + Z.abs (- q a - r a - (- q b - r b)))%Z
    with (Z.max (Z.max (Z.abs (q a - q b)) (Z.abs (r a - r b)))
                (Z.abs ((- q a - r a) - (- q b - r b))) * 2)%Z by lia.
  apply Z.div_mul. lia.
Qed.

Lemma cube_norm_triangle (x1 y1 x2 y2 : Z) :
  (Z.max (Z.max (Z.abs (x1 + x2)) (Z.abs (y1 + y2)))
         (Z.abs (x1 + x2 + (y1 + y2)))
   <= Z.max (Z.max (Z.abs x1) (Z.abs y1)) (Z.abs (x1 + y1))
      + Z.max (Z.max (Z.abs x2) (Z.abs y2)) (Z.abs (x2 + y2)))%Z.
Proof.
  pose proof (Z.abs_triangle x1 x2) as Hx.
  pose proof (Z.abs_triangle y1 y2) as Hy.
  pose proof (Z.abs_triangle (x1 + y1) (x2 + y2)) as Hs.
  replace (x1 + y1 + (x2 + y2))%Z with (x1 + x2 + (y1 + y2))%Z in Hs by ring.
  revert Hx Hy Hs.
  generalize (Z.abs (x1 + x2 + (y1 + y2))) (Z.abs (x1 + x2))
    (Z.abs (y1 + y2)) (Z.abs (x1 + y1)) (Z.abs (x2 + y2))
    (Z.abs x1) (Z.abs y1) (Z.abs x2) (Z.abs y2).
  intros. lia.
Qed.

Lemma distance_nonneg (a b : HexPosition) : (0 <= distance a b)%Z.
Proof. rewrite distance_max. lia. Qed.

Lemma isWithinGrid_distance (radius : Z) (p : HexPosition) :
  isWithinGrid p radius = true <-> (distance p (mkHex 0 0) <= radius)%Z.
Proof. rewrite isWithinGrid_true, distance_max. simpl. lia. Qed.

(** [distance] is the hex metric: the division by two is exact (the
    result is an integer), it is the largest of the three cube
    differences, it is symmetric, it is zero exactly between equal
    positions, and it satisfies the triangle inequality. *)
Theorem distance_metric (a b c : HexPosition) :
  (2 * distance a b
   = Z.abs (q a - q b) + Z.abs (r a - r b)
     + Z.abs ((- q a - r a) - (- q b - r b)))%Z
  /\ distance a b
     = Z.max (Z.max (Z.abs (q a - q b)) (Z.abs (r a - r b)))
             (Z.abs ((- q a - r a) - (- q b - r b)))
  /\ distance a b = distance b a
  /\ (0 <= distance a b)%Z
  /\ (distance a b = 0%Z <-> a = b)
  /\ (distance a c <= distance a b + distance b c)%Z.
Proof.
  split; [rewrite distance_max; lia|].
  split; [apply distance_max|].
  split; [rewrite !distance_max; lia|].
  split; [rewrite distance_max; lia|].
  split.
  - rewrite distance_max. split.
    + intros H. destruct a as [qa ra], b as [qb rb]. simpl in *.
      f_equal; lia.
    + intros ->. lia.
  - rewrite !distance_max.
    pose proof (cube_norm_triangle (q a - q b) (r a - r b)
                                   (q b - q c) (r b - r c)) as H.
    replace (q a - q b + (q b - q c))%Z with (q a - q c)%Z in H by ring.
    replace (r a - r b + (r b - r c))%Z with (r a - r c)%Z in H by ring.
    replace (- q a - r a - (- q c - r c))%Z
      with (- (q a - q c + (r a - r c)))%Z by ring.
    replace (- q a - r a - (- q b - r b))%Z
      with (- (q a - q b + (r a - r b)))%Z by ring.
    replace (- q b - r b - (- q c - r c))%Z
      with (- (q b - q c + (r b - r c)))%Z by ring.
    rewrite !Z.abs_opp. exact H.
Qed.

(** [isWithinGrid] and [generateHexGrid] in terms of [distance]: the grid
    of a radius is the set of positions at distance at most the radius
    from the origin, and it is empty for a negative radius. *)
Theorem grid_is_ball (radius : Z) (p : HexPosition) :
  (isWithinGrid p radius = true <-> (distance p (mkHex 0 0) <= radius)%Z)
  /\ (In p (generateHexGrid radius)
      <-> (distance p (mkHex 0 0) <= radius)%Z)
  /\ ((radius < 0)%Z -> generateHexGrid radius = []).
Proof.
  rewrite isWithinGrid_true, in_generateHexGrid, distance_max. simpl.
  split; [lia|]. split; [lia|].
  intros Hneg. unfold generateHexGrid, zrange.
  replace (Z.to_nat (radius - - radius + 1)) with 0%nat by lia.
  reflexivity.
Qed.

(** [add] and [subtract] undo each other, and [distance] only depends on
    the difference of its arguments. *)
Theorem add_subtract (a b c : HexPosition) :
  subtract (add a b) b = a
  /\ add (subtract a b) b = a
  /\ add a b = add b a
  /\ distance (add a c) (add b c) = distance a b
  /\ distance a b = distance (subtract a b) (mkHex 0 0).
Proof.
  destruct a as [qa ra], b as [qb rb], c as [qc rc].
  unfold subtract, add, distance. simpl.
  repeat split; f_equal; lia.
Qed.

End HexDistance.

Section HexKeys.

Import HexUtils.

Lemma commaFree_uint (d : uint) : commaFree (NilEmpty.string_of_uint d).
Proof.
  induction d; simpl; (split; [discriminate|assumption]) || exact I.
Qed.

Lemma commaFree_numToString (n : Z) : commaFree (numToString n).
Proof.
  unfold numToString, NilZero.string_of_int, NilZero.string_of_uint.
  destruct (Z.to_int n) as [d|d]; destruct d; simpl;
    repeat (split; try discriminate); try apply commaFree_uint.
Qed.

Lemma append_comma_inj (s1 s1' s2 s2' : string) :
  commaFree s1 -> commaFree s1' ->
  (s1 ++ "," ++ s2 = s1' ++ "," ++ s2')%string ->
  s1 = s1' /\ s2 = s2'.
Proof.
  revert s1'. induction s1 as [|c s1 IH]; intros [|c' s1'] H1 H1' Heq;
    simpl in *.
  - injection Heq as ->. auto.
  - injection Heq as <- _. destruct H1' as [H _]. congruence.
  - injection Heq as -> _. destruct H1 as [H _]. congruence.
  - injection Heq as -> Heq. destruct H1 as [_ H1], H1' as [_ H1'].
    destruct (IH s1' H1 H1' Heq) as [-> ->]. auto.
Qed.

Lemma to_int_not_nil (n : Z) : Z.to_int n <> Pos Nil /\ Z.to_int n <> Neg Nil.
Proof.
  destruct n as [|p|p]; simpl; split; try discriminate;
    intros [= H]; now apply (Unsigned.to_uint_nonnil p).
Qed.

Lemma numToString_inj (n n' : Z) : numToString n = numToString n' -> n = n'.
Proof.
  unfold numToString. intros H.
  apply (f_equal NilZero.int_of_string) in H.
  destruct (to_int_not_nil n) as [H1 H2].
  destruct (to_int_not_nil n') as [H1' H2'].
  rewrite !NilZero.isi in H by assumption.
  injection H as H. now apply DecimalZ.to_int_inj.
Qed.

Lemma toKey_inj (a b : HexPosition) : toKey a = toKey b -> a = b.
Proof.
  unfold toKey. intros H.
  apply append_comma_inj in H; try apply commaFree_numToString.
  destruct H as [Hq Hr].
  apply numToString_inj in Hq, Hr.
  destruct a, b; simpl in *; congruence.
Qed.

Lemma equals_eq (a b : HexPosition) : equals a b = true <-> a = b.
Proof.
  unfold equals. rewrite andb_true_iff, !Z.eqb_eq.
  destruct a, b; simpl; split; [intros [-> ->]; reflexivity|].
  intros [= -> ->]. auto.
Qed.

(** [toKey] is a canonical key: two positions have the same key exactly
    when they are the same position, which is what [equals] tests. *)
Theorem toKey_canonical (a b : HexPosition) :
  (toKey a = toKey b <-> a = b)
  /\ (equals a b = true <-> a = b)
  /\ (String.eqb (toKey a) (toKey b) = equals a b).
Proof.
  assert (Hkey : toKey a = toKey b <-> a = b)
    by (split; [apply toKey_inj|now intros ->]).
  pose proof (equals_eq a b) as Heq.
  split; [exact Hkey|]. split; [exact Heq|].
  destruct (String.eqb (toKey a) (toKey b)) eqn:E1.
  - apply String.eqb_eq in E1. apply (proj1 Hkey) in E1.
    symmetry. apply (proj2 Heq). exact E1.
  - destruct (equals a b) eqn:E2; [|reflexivity].
    apply String.eqb_neq in E1. exfalso. apply E1.
    apply (proj2 Hkey). now apply (proj1 Heq).
Qed.

End HexKeys.

Section HexRounding.

Import HexUtils.

Lemma round_near (x : R) (a : Z) :
  (IZR a - / 2 <= x < IZR a + / 2)%R -> round x = a.
Proof. intros H. unfold round. apply Zfloor_eq. lra. Qed.

Lemma hexRound_close (qf rf : R) (a b : Z) :
  (Rabs (qf - IZR a) < / 2)%R ->
  (Rabs (rf - IZR b) < / 2)%R ->
  (Rabs ((- qf - rf) - IZR (- a - b)) < / 2)%R ->
  hexRound qf rf = mkHex a b.
Proof.
  intros Hq Hr Hs.
  apply Rabs_def2 in Hq, Hr, Hs.
  unfold hexRound.
  rewrite (@round_near qf a) by lra.
  rewrite (@round_near rf b) by lra.
  rewrite (@round_near (- qf - rf) (- a - b)) by lra.
  destruct (gtb _ _ && gtb _ _); [f_equal; lia|].
  destruct (gtb _ _); f_equal; lia.
Qed.

(** Rounding is stable around a hex: fractional coordinates whose three
    cube components are each less than a half away from those of the hex
    [(a, b)] round to [(a, b)], whichever component [hexRound] corrects. *)
Theorem hexRound_near (qf rf : R) (a b : Z) :
  (Rabs (qf - IZR a) < / 2)%R ->
  (Rabs (rf - IZR b) < / 2)%R ->
  (Rabs ((- qf - rf) - IZR (- a - b)) < / 2)%R ->
  hexRound qf rf = mkHex a b.
Proof. apply hexRound_close. Qed.

Lemma hexRound_near_witness :
  hexRound (12 / 10) (- (19 / 10)) = mkHex 1 (-2).
Proof.
  apply (@hexRound_near (12 / 10) (- (19 / 10)) 1 (-2)).
  - apply Rabs_def1; lra.
  - apply Rabs_def1; lra.
  - change (Rabs (- (12 / 10) - - (19 / 10) - 1) < / 2)%R.
    apply Rabs_def1; lra.
Defined.

Lemma half_of_quotient (w size : R) :
  (0 < size)%R -> (- (size / 2) < w < size / 2)%R ->
  (Rabs (w / size) < / 2)%R.
Proof.
  intros Hs [Hlo Hhi].
  apply Rabs_def1.
  - apply Rmult_lt_reg_r with size; [exact Hs|].
    unfold Rdiv. rewrite Rmult_assoc, Rinv_l by lra. lra.
  - apply Rmult_lt_reg_r with size; [exact Hs|].
    unfold Rdiv. rewrite Rmult_assoc, Rinv_l by lra. lra.
Qed.

(** A pixel close enough to the centre of a hex projects to that hex, in
    real arithmetic. *)
Lemma pixelToAxial_close (p : HexPosition) (size cx cy x y : R) :
  (0 < size)%R ->
  let ex := (x - px (axialToPixel p size cx cy))%R in
  let ey := (y - py (axialToPixel p size cx cy))%R in
  (Rabs ey < 3 / 4 * size)%R ->
  (sqrt 3 * Rabs ex + Rabs ey < 3 / 2 * size)%R ->
  pixelToAxial x y size cx cy = p.
Proof.
  intros Hsize ex ey Hy Hxy.
  assert (Hs3 : (sqrt 3 * sqrt 3 = 3)%R) by apply sqrt3_sqr.
  assert (Hpos : (0 <= sqrt 3)%R) by apply sqrt_pos.
  set (u := (sqrt 3 * ex)%R).
  assert (Hu : Rabs u = (sqrt 3 * Rabs ex)%R).
  { unfold u. rewrite Rabs_mult. f_equal. now apply Rabs_right, Rle_ge. }
  rewrite <- Hu in Hxy.
  assert (Hyb : (- (3 / 4 * size) < ey < 3 / 4 * size)%R).
  { apply Rabs_def2 in Hy. lra. }
  assert (Hub : (- (3 / 2 * size) < u - ey /\ u - ey < 3 / 2 * size
                 /\ - (3 / 2 * size) < u + ey /\ u + ey < 3 / 2 * size)%R).
  { revert Hxy. unfold Rabs.
    destruct (Rcase_abs u), (Rcase_abs ey); lra. }
  unfold pixelToAxial.
  set (qf := ((sqrt 3 / 3 * (x - cx) - 1 / 3 * (y - cy)) / size)%R).
  set (rf := (2 / 3 * (y - cy) / size)%R).
  assert (Hqf : (qf - IZR (q p) = (u / 3 - ey / 3) / size)%R).
  { unfold qf, u, ex, ey, axialToPixel. cbn [px py].
    transitivity (((sqrt 3 / 3 * (x - cx) - 1 / 3 * (y - cy))
                   - (sqrt 3 * sqrt 3) / 3 * size * IZR (q p)
                   - ((sqrt 3 * sqrt 3) / 6 - / 2) * size * IZR (r p))
                  / size)%R.
    - rewrite Hs3. field. lra.
    - field. lra. }
  assert (Hrf : (rf - IZR (r p) = (2 / 3 * ey) / size)%R).
  { unfold rf, ey, axialToPixel. cbn [px py]. field. lra. }
  assert (Hsf : ((- qf - rf) - IZR (- q p - r p)
                 = (- (u / 3 + ey / 3)) / size)%R).
  { rewrite minus_IZR, opp_IZR.
    replace (- qf - rf - (- IZR (q p) - IZR (r p)))%R
      with (- (qf - IZR (q p)) - (rf - IZR (r p)))%R by ring.
    rewrite Hqf, Hrf. field. lra. }
  rewrite (@hexRound_close qf rf (q p) (r p)).
  - now destruct p.
  - rewrite Hqf. apply half_of_quotient; lra.
  - rewrite Hrf. apply half_of_quotient; lra.
  - rewrite Hsf. apply half_of_quotient; lra.
Qed.

Lemma sqrt3_lt_2 : (sqrt 3 < 2)%R.
Proof.
  replace 2%R with (sqrt (2 * 2)) by (apply sqrt_square; lra).
  apply sqrt_lt_1; lra.
Qed.

End HexRounding.

(** ** GameState.js: the board of a new match *)

Section NewBoard.

Import HexUtils.

Lemma set_fresh (V : Type) (k : string) (v : V) (m : JsMap.t V) :
  ~ In k (JsMap.keys m) -> JsMap.set k v m = m ++ [(k, v)].
Proof.
  unfold JsMap.keys.
  induction m as [|[k' v'] m IH]; simpl; intros H; [reflexivity|].
  destruct (String.eqb k' k) eqn:E.
  - apply String.eqb_eq in E. tauto.
  - rewrite IH; tauto.
Qed.

Lemma fold_set_entries (A : Type) (key : A -> string) (val : A -> Tile.t)
  (l : list A) (m : JsMap.t Tile.t) :
  NoDup (JsMap.keys m ++ map key l) ->
  fold_left (fun acc a => JsMap.set (key a) (val a) acc) l m
  = m ++ map (fun a => (key a, val a)) l.
Proof.
  revert m. induction l as [|a l IH]; intros m Hnd; simpl.
  - now rewrite app_nil_r.
  - rewrite set_fresh.
    + rewrite IH.
      * now rewrite <- app_assoc.
      * unfold JsMap.keys in *. rewrite map_app. simpl.
        rewrite <- app_assoc. exact Hnd.
    + simpl in Hnd. apply NoDup_remove_2 in Hnd.
      intros Hin. apply Hnd. apply in_or_app. now left.
Qed.

Lemma map_snd_combine_seq (A : Type) (l : list A) (s : nat) :
  map snd (combine (seq s (length l)) l) = l.
Proof.
  revert s. induction l as [|a l IH]; intros s; simpl; [reflexivity|].
  now rewrite IH.
Qed.

Lemma NoDup_grid_keys (radius : Z) :
  NoDup (map toKey (generateHexGrid radius)).
Proof.
  apply Injective_map_NoDup.
  - intros a b. apply toKey_inj.
  - apply NoDup_generateHexGrid.
Qed.

(** The board [initializeBoard] builds, as a list of entries. *)
Lemma initializeBoard_board (cx cy : R) (jitter : nat -> R) (w : World) :
  board (gameState (initializeBoard cx cy jitter w))
  = map (fun ip : nat * HexPosition =>
           (toKey (snd ip), spawnTile (now w) (jitter (fst ip)) (snd ip)))
        (combine (seq 0 (length (generateHexGrid GameConfig.GRID_RADIUS)))
                 (generateHexGrid GameConfig.GRID_RADIUS)).
Proof.
  unfold initializeBoard. cbn [onGameState gameState withBoard board].
  rewrite (@fold_set_entries _ (fun ip => toKey (snd ip))
             (fun ip => spawnTile (now w) (jitter (fst ip)) (snd ip))).
  - reflexivity.
  - cbn [JsMap.keys map app].
    rewrite <- (map_map (@snd nat HexPosition) toKey).
    rewrite map_snd_combine_seq.
    apply NoDup_grid_keys.
Qed.

Lemma initializeBoard_keys (cx cy : R) (jitter : nat -> R) (w : World) :
  JsMap.keys (board (gameState (initializeBoard cx cy jitter w)))
  = map toKey (generateHexGrid GameConfig.GRID_RADIUS).
Proof.
  rewrite initializeBoard_board. unfold JsMap.keys.
  rewrite map_map. cbn [fst].
  rewrite <- (map_map (@snd nat HexPosition) toKey).
  rewrite map_snd_combine_seq.
  reflexivity.
Qed.

Lemma in_combine_seq (A : Type) (l : list A) (i : nat) (a : A) :
  In (i, a) (combine (seq 0 (length l)) l) <-> nth_error l i = Some a.
Proof.
  assert (H : forall (s : nat) (l : list A),
             In (i, a) (combine (seq s (length l)) l)
             <-> (s <= i)%nat /\ nth_error l (i - s) = Some a).
  { clear l. intros s l. revert s.
    induction l as [|b l IH]; intros s; simpl.
    - split; [contradiction|]. intros [_ H]. now destruct (i - s)%nat.
    - rewrite IH. split.
      + intros [[= <- <-]|[Hs Hn]].
        * rewrite Nat.sub_diag. auto.
        * split; [lia|].
          replace (i - s)%nat with (S (i - S s)) by lia. exact Hn.
      + intros [Hs Hn]. destruct (Nat.eq_dec s i) as [->|Hne].
        * rewrite Nat.sub_diag in Hn. simpl in Hn. left. congruence.
        * right. split; [lia|].
          replace (i - s)%nat with (S (i - S s)) in Hn by lia.
          exact Hn. }
  rewrite H, Nat.sub_0_r. split; [tauto|]. intros Hn. split; [lia|exact Hn].
Qed.

Lemma spawnTile_fields (time jitter : R) (p : HexPosition) :
  unitDraw jitter ->
  let tile := spawnTile time jitter p in
  Tile.position tile = p
  /\ Tile.isActive tile = true /\ Tile.isWarning tile = false
  /\ Tile.isSpawning tile = true /\ Tile.isShattering tile = false
  /\ Tile.spawnStartTime tile = time
  /\ Tile.spawnDuration tile = 800%R
  /\ (IZR (distance p (mkHex 0 0)) * 50 <= Tile.spawnDelay tile
      < IZR (distance p (mkHex 0 0)) * 50 + 200)%R.
Proof.
  intros [H0 H1]. cbn. repeat split; try reflexivity; lra.
Qed.



(** On a new board the tile under the centre of a hex is active exactly
    when the hex is in the grid. *)
Theorem initializeBoard_isTileActive (cx cy : R) (jitter : nat -> R)
  (w : World) (p : HexPosition) :
  let w' := initializeBoard cx cy jitter w in
  let c := axialToPixel p GameConfig.HEX_SIZE cx cy in
  isTileActive (px c) (py c) w' = isWithinGrid p GameConfig.GRID_RADIUS.
Proof.
  intros w' c. unfold isTileActive, hexOfPixel.
  change (centerX (gameState w')) with cx.
  change (centerY (gameState w')) with cy.
  unfold c. rewrite pixelToAxial_center
    by (unfold GameConfig.HEX_SIZE; lra).
  destruct (isWithinGrid p GameConfig.GRID_RADIUS) eqn:Hin.
  - apply isWithinGrid_true, in_generateHexGrid in Hin.
    destruct (In_nth_error _ _ Hin) as [i Hi].
    assert (Hnd : NoDup (JsMap.keys (board (gameState w'))))
      by (unfold w'; rewrite initializeBoard_keys; apply NoDup_grid_keys).
    rewrite (@get_of_In _ (toKey p) (spawnTile (now w) (jitter i) p));
      [reflexivity|exact Hnd|].
    unfold w'. rewrite initializeBoard_board.
    apply in_map_iff. exists (i, p). split; [reflexivity|].
    now apply in_combine_seq.
  - assert (Hnone : JsMap.get (toKey p) (board (gameState w')) = None).
    { apply get_None_keys. unfold w'. rewrite initializeBoard_keys.
      intros Hk. apply in_map_iff in Hk as [p' [Hk Hp']].
      apply toKey_inj in Hk. subst p'.
      apply (proj1 (in_generateHexGrid _ _)) in Hp'.
      apply (proj2 (isWithinGrid_true _ _)) in Hp'. congruence. }
    now rewrite Hnone.
Qed.

End NewBoard.

(** ** GameState.js: the players of a new match *)

Section NewPlayers.

Import HexUtils.

Lemma nth_error_combine_seq (A : Type) (l : list A) (s i : nat) (a : A) :
  nth_error l i = Some a ->
  nth_error (combine (seq s (length l)) l) i = Some ((s + i)%nat, a).
Proof.
  revert s i. induction l as [|b l IH]; intros s [|i] H; simpl in *;
    try discriminate.
  - injection H as ->. now rewrite Nat.add_0_r.
  - rewrite (IH (S s) i H). f_equal. f_equal. lia.
Qed.

Lemma initializePlayers_getPlayer (configs : list Player.Config) (w : World)
  (i : nat) (config : Player.Config) :
  nth_error configs i = Some config ->
  getPlayer (length (heap w) + i) (initializePlayers configs w)
  = Some (createPlayer w i config).
Proof.
  intros Hn. unfold getPlayer, initializePlayers.
  cbn [withHeap heap].
  rewrite nth_error_app2 by lia.
  replace (length (heap w) + i - length (heap w))%nat with i by lia.
  rewrite nth_error_map.
  now rewrite (nth_error_combine_seq configs 0 i Hn).
Qed.

Lemma createPlayer_hex (w : World) (i : nat) (config : Player.Config) :
  hexOfPixel (Player.x (createPlayer w i config))
             (Player.y (createPlayer w i config)) w
  = mkHex (Player.startQ config) (Player.startR config).
Proof.
  unfold hexOfPixel, createPlayer. cbn [Player.new Player.x Player.y].
  apply pixelToAxial_center. unfold GameConfig.HEX_SIZE. lra.
Qed.

(** [initializePlayers] allocates one new player object for each
    configuration and keeps the objects that exist.  The roster and the
    alive roster are the new objects, in the order of the configurations
    and without repetition.  The player of the [i]-th configuration has
    index [i], is alive, not falling, at rest, and stands on the centre of
    its starting hex, to which its pixel position projects back. *)
Theorem initializePlayers_spec (configs : list Player.Config) (w : World) :
  let w' := initializePlayers configs w in
  let base := length (heap w) in
  players (gameState w') = seq base (length configs)
  /\ alivePlayers (gameState w') = players (gameState w')
  /\ NoDup (alivePlayers (gameState w'))
  /\ length (heap w') = (base + length configs)%nat
  /\ (forall p pl, getPlayer p w = Some pl -> getPlayer p w' = Some pl)
  /\ (forall i config, nth_error configs i = Some config ->
        exists pl,
          getPlayer (base + i) w' = Some pl
          /\ In (base + i)%nat (alivePlayers (gameState w'))
          /\ Player.index pl = i
          /\ Player.controls pl = Player.keys config
          /\ Player.isAlive pl = true /\ Player.isFalling pl = false
          /\ Player.isSpawning pl = true
          /\ Player.vx pl = 0%R /\ Player.vy pl = 0%R
          /\ Player.survivalTime pl = 0%R
          /\ HexUtils.mkPixel (Player.x pl) (Player.y pl)
             = axialToPixel (mkHex (Player.startQ config)
                                   (Player.startR config))
                            GameConfig.HEX_SIZE
                            (centerX (gameState w)) (centerY (gameState w))
          /\ hexOfPixel (Player.x pl) (Player.y pl) w'
             = mkHex (Player.startQ config) (Player.startR config))
  /\ board (gameState w') = board (gameState w)
  /\ matchPhase (gameState w') = matchPhase (gameState w)
  /\ timers w' = timers w /\ emitted w' = emitted w
  /\ tileFallManager w' = tileFallManager w.
Proof.
  intros w' base.
  split; [reflexivity|]. split; [reflexivity|].
  split; [apply seq_NoDup|].
  split.
  { unfold w', initializePlayers. cbn [withHeap heap].
    rewrite length_app, length_map, length_combine, length_seq.
    fold base. lia. }
  split.
  { intros p pl Hp. unfold getPlayer in *. unfold w', initializePlayers.
    cbn [withHeap heap]. rewrite nth_error_app1; [exact Hp|].
    apply nth_error_Some. congruence. }
  split; [|repeat split; reflexivity].
  intros i config Hn. exists (createPlayer w i config).
  split; [now apply initializePlayers_getPlayer|].
  split.
  { cbn. apply in_seq. split; [lia|].
    assert (i < length configs)%nat by (apply nth_error_Some; congruence).
    fold base. lia. }
  repeat (split; [reflexivity|]).
  apply (createPlayer_hex w i config).
Qed.

(** After [initializeBoard] and [initializePlayers], a player whose
    starting hex is in the grid stands on an active tile:
    [getPlayerCurrentTile] gives the tile of the starting hex,
    [isTileActive] answers true at the player's position, and
    [checkPlayersOnTile] finds the player on the key of the starting hex
    and on no other key. *)
Theorem players_start_on_tiles (cx cy : R) (jitter : nat -> R)
  (configs : list Player.Config) (w : World) (i : nat)
  (config : Player.Config) :
  nth_error configs i = Some config ->
  let start := mkHex (Player.startQ config) (Player.startR config) in
  isWithinGrid start GameConfig.GRID_RADIUS = true ->
  let w1 := initializeBoard cx cy jitter w in
  let w2 := initializePlayers configs w1 in
  let p := (length (heap w) + i)%nat in
  exists pl tile,
    getPlayer p w2 = Some pl
    /\ getPlayerCurrentTile pl w2 = Some tile
    /\ Tile.position tile = start /\ Tile.isActive tile = true
    /\ isTileActive (Player.x pl) (Player.y pl) w2 = true
    /\ forall posKey, In p (checkPlayersOnTile posKey w2)
                      <-> posKey = toKey start.
Proof.
  intros Hn start Hin w1 w2 p.
  assert (Hp : getPlayer p w2 = Some (createPlayer w1 i config))
    by (apply (initializePlayers_getPlayer configs w1 i Hn)).
  assert (Hhex : hexOfPixel (Player.x (createPlayer w1 i config))
                            (Player.y (createPlayer w1 i config)) w2
                 = start) by apply (createPlayer_hex w1 i config).
  apply isWithinGrid_true, in_generateHexGrid in Hin.
  destruct (In_nth_error _ _ Hin) as [j Hj].
  assert (Hnd : NoDup (JsMap.keys (board (gameState w1))))
    by (unfold w1; rewrite initializeBoard_keys; apply NoDup_grid_keys).
  assert (Hget : JsMap.get (toKey start) (board (gameState w2))
                 = Some (spawnTile (now w) (jitter j) start)).
  { change (board (gameState w2)) with (board (gameState w1)).
    apply get_of_In; [exact Hnd|].
    unfold w1. rewrite initializeBoard_board.
    apply in_map_iff. exists (j, start). split; [reflexivity|].
    now apply in_combine_seq. }
  exists (createPlayer w1 i config), (spawnTile (now w) (jitter j) start).
  split; [exact Hp|].
  split; [unfold getPlayerCurrentTile; now rewrite Hhex|].
  split; [reflexivity|]. split; [reflexivity|].
  split; [unfold isTileActive; now rewrite Hhex, Hget|].
  assert (Halive : In p (alivePlayers (gameState w2))).
  { cbn. apply in_seq. split; [unfold p; lia|].
    assert (i < length configs)%nat by (apply nth_error_Some; congruence).
    unfold p. lia. }
  intros posKey. unfold checkPlayersOnTile. split.
  - destruct (JsMap.get posKey _); [|contradiction].
    intros H. apply filter_In in H as [_ H]. unfold playerOnKey in H.
    rewrite Hp, Hhex in H. now apply String.eqb_eq in H.
  - intros ->. rewrite Hget. apply filter_In. split; [exact Halive|].
    unfold playerOnKey. rewrite Hp, Hhex. apply String.eqb_refl.
Qed.

Lemma players_start_on_tiles_witness :
  exists pl tile,
    getPlayer 2 (initializePlayers PlayerConfig
                   (initializeBoard 350 350 (fun _ => 0%R) exampleWorld))
    = Some pl
    /\ getPlayerCurrentTile pl
         (initializePlayers PlayerConfig
            (initializeBoard 350 350 (fun _ => 0%R) exampleWorld))
       = Some tile
    /\ Tile.position tile = mkHex 0 (-5) /\ Tile.isActive tile = true.
Proof.
  destruct (@players_start_on_tiles 350 350 (fun _ => 0%R) PlayerConfig
              exampleWorld 0 player1Config eq_refl eq_refl)
    as (pl & tile & H1 & H2 & H3 & H4 & _).
  exists pl, tile. auto.
Defined.

End NewPlayers.

(** ** Every player is eliminated at most once *)

Section Rosters.

Lemma listUpdate_out (A : Type) (n : nat) (f : A -> A) (l : list A) :
  nth_error l n = None -> listUpdate n f l = l.
Proof.
  revert n. induction l as [|a l IH]; intros [|n] H; simpl in *;
    try reflexivity; try discriminate.
  now rewrite IH.
Qed.

Lemma sameRoster_refl (w : World) : sameRoster w w.
Proof.
  repeat split; auto. intros p pl H. exists pl. auto.
Qed.

Lemma sameRoster_trans (w1 w2 w3 : World) :
  sameRoster w1 w2 -> sameRoster w2 w3 -> sameRoster w1 w3.
Proof.
  intros (P1 & A1 & E1 & O1) (P2 & A2 & E2 & O2).
  split; [congruence|]. split; [congruence|].
  split; [intros p; now rewrite E2|].
  intros p pl3 H3. destruct (O2 p pl3 H3) as (pl2 & H2 & Ha & Hf).
  destruct (O1 p pl2 H2) as (pl1 & H1 & Ha' & Hf').
  exists pl1. repeat split; congruence.
Qed.

Lemma sameRoster_ext (w w' : World) :
  gameState w' = gameState w -> heap w' = heap w -> emitted w' = emitted w ->
  sameRoster w w'.
Proof.
  intros Hg Hh He. unfold sameRoster, getPlayer. rewrite Hg, Hh, He.
  repeat split; auto. intros p pl H. exists pl. auto.
Qed.

Lemma sameRoster_view (w w' : World) :
  players (gameState w') = players (gameState w) ->
  alivePlayers (gameState w') = alivePlayers (gameState w) ->
  heap w' = heap w -> emitted w' = emitted w ->
  sameRoster w w'.
Proof.
  intros Hp Ha Hh He. unfold sameRoster, getPlayer. rewrite Hp, Ha, Hh, He.
  repeat split; auto. intros p pl H. exists pl. auto.
Qed.

Lemma rosterConsistent_same (w w' : World) :
  sameRoster w w' -> rosterConsistent w -> rosterConsistent w'.
Proof.
  intros (P & A & E & O) (Hnd & H). split; [now rewrite A|].
  intros p. destruct (H p) as (H1 & H2 & H3). rewrite P, A, E.
  split; [exact H1|]. split.
  - intros Hin. destruct (H2 Hin) as [H0 Hobj]. split; [exact H0|].
    intros pl' Hpl'. destruct (O p pl' Hpl') as (pl & Hpl & -> & ->).
    now apply Hobj.
  - intros Hin Hnot. destruct (H3 Hin Hnot) as [H0 Hobj]. split; [exact H0|].
    intros pl' Hpl'. destruct (O p pl' Hpl') as (pl & Hpl & -> & ->).
    now apply Hobj.
Qed.

Lemma sameRoster_emit (e : Event) (w : World) :
  (forall p, e <> playerEliminated p) -> sameRoster w (emit e w).
Proof.
  intros He. destruct (emit_frame e w) as (Hg & Hh & _ & _ & _ & Hem).
  unfold sameRoster, getPlayer. rewrite Hg, Hh, Hem.
  repeat split; auto.
  - intros p. apply eliminations_snoc. apply He.
  - intros p pl H. exists pl. auto.
Qed.

Lemma sameRoster_stop (w : World) : sameRoster w (stop w).
Proof.
  destruct (stop_frame w) as (Hg & _ & Hh & _ & _ & He & _).
  now apply sameRoster_ext.
Qed.

Lemma sameRoster_updatePlayer (q : nat) (f : Player.t -> Player.t)
  (w : World) :
  (forall pl, Player.isAlive (f pl) = Player.isAlive pl
              /\ Player.isFalling (f pl) = Player.isFalling pl) ->
  sameRoster w (updatePlayer q f w).
Proof.
  intros Hf. repeat split; auto. intros p pl' H.
  destruct (Nat.eq_dec q p) as [->|Hq].
  - destruct (getPlayer p w) as [pl|] eqn:E.
    + rewrite (@getPlayer_updatePlayer_same p f w pl E) in H.
      injection H as <-. exists pl. destruct (Hf pl). auto.
    + exfalso. unfold getPlayer, updatePlayer in *. cbn in H.
      apply nth_error_None in E.
      assert (nth_error (listUpdate p f (heap w)) p <> None) by congruence.
      apply nth_error_Some in H0. rewrite length_listUpdate in H0. lia.
  - rewrite (@getPlayer_updatePlayer_other q p f w Hq) in H.
    exists pl'. auto.
Qed.

Lemma sameRoster_fold (A : Type) (f : World -> A -> World) (l : list A)
  (w : World) :
  (forall a w0, sameRoster w0 (f w0 a)) -> sameRoster w (fold_left f l w).
Proof.
  intros Hf. revert w. induction l as [|a l IH]; intros w; simpl.
  - apply sameRoster_refl.
  - eapply sameRoster_trans; [apply Hf|apply IH].
Qed.

Lemma sameRoster_markTileWarning (k : string) (w : World) :
  sameRoster w (markTileWarning k w).
Proof.
  unfold markTileWarning.
  destruct (JsMap.get k _) as [tile|]; [|apply sameRoster_refl].
  destruct (Tile.isActive tile); [|apply sameRoster_refl].
  eapply sameRoster_trans; [|apply sameRoster_emit; discriminate].
  now apply sameRoster_view.
Qed.

Lemma sameRoster_removeTile (k : string) (w : World) :
  sameRoster w (removeTile k w).
Proof.
  unfold removeTile.
  destruct (JsMap.get k _) as [tile|]; [|apply sameRoster_refl].
  eapply sameRoster_trans; [|apply sameRoster_emit; discriminate].
  now apply sameRoster_view.
Qed.

Lemma sameRoster_scheduleNextFall (w : World) :
  sameRoster w (scheduleNextFall w).
Proof.
  unfold scheduleNextFall. destruct (negb _); [apply sameRoster_refl|].
  now apply sameRoster_ext.
Qed.

Lemma sameRoster_selectRandomTile (coin pick : R) (w : World) :
  sameRoster w (selectRandomTile coin pick w).
Proof.
  unfold selectRandomTile.
  destruct (gatherTiles w) as [act occ].
  destruct (length act =? 0)%nat; [apply sameRoster_refl|].
  match goal with |- context [match ?c with Some _ => _ | None => _ end] =>
    destruct c as [k|] end; [|apply sameRoster_refl].
  eapply sameRoster_trans; [apply (sameRoster_markTileWarning k)|].
  now apply sameRoster_ext.
Qed.

Lemma sameRoster_nextFall (coin pick : R) (w : World) :
  sameRoster w (nextFall coin pick w).
Proof.
  unfold nextFall.
  eapply sameRoster_trans; [|apply sameRoster_scheduleNextFall].
  eapply sameRoster_trans; [apply (sameRoster_selectRandomTile coin pick)|].
  now apply sameRoster_ext.
Qed.

Lemma sameRoster_gameOverCheck (w : World) : sameRoster w (gameOverCheck w).
Proof.
  unfold gameOverCheck. destruct (_ && _); [|apply sameRoster_refl].
  eapply sameRoster_trans; [|apply sameRoster_emit; discriminate].
  now apply sameRoster_view.
Qed.

Lemma sameRoster_render (w : World) : sameRoster w (render w).
Proof.
  unfold render.
  set (w1 := onGameState _ w).
  assert (H1 : sameRoster w w1) by now apply sameRoster_view.
  destruct (board (gameState w)); [exact H1|].
  eapply sameRoster_trans; [exact H1|].
  apply sameRoster_fold. intros q w0. apply sameRoster_updatePlayer.
  intros pl. destruct (renderPlayer_keeps (now w) pl) as (_ & _ & ? & ?).
  auto.
Qed.

(** The elimination of a player of the alive roster. *)
Lemma rosterConsistent_eliminate (p : nat) (w : World) :
  rosterConsistent w -> In p (alivePlayers (gameState w)) ->
  rosterConsistent (eliminatePlayer p (startFalling p w)).
Proof.
  intros (Hnd & H) Hin.
  destruct (getPlayer p w) as [pl|] eqn:Ep.
  - assert (Ep' : getPlayer p (startFalling p w)
                  = Some (Player.startFalling (now w) pl))
      by (apply getPlayer_updatePlayer_same; exact Ep).
    set (w1 := startFalling p w) in *.
    destruct (@eliminatePlayer_getPlayer w1 p _ Ep') as [Hsame Hother].
    split.
    + rewrite (@eliminatePlayer_gameState w1 p _ Ep'). cbn.
      now apply NoDup_filter.
    + intros q. rewrite (@eliminatePlayer_gameState w1 p _ Ep').
      rewrite (@eliminatePlayer_emitted w1 p _ Ep').
      cbn [withAlivePlayers alivePlayers players].
      change (emitted w1) with (emitted w).
      change (alivePlayers (gameState w1)) with (alivePlayers (gameState w)).
      change (players (gameState w1)) with (players (gameState w)).
      destruct (H q) as (H1 & H2 & H3).
      destruct (Nat.eq_dec q p) as [->|Hq].
      * destruct (H2 Hin) as [H0 _].
        assert (He : eliminations p (emitted w ++ [playerEliminated p])
                     = 1%nat).
        { unfold eliminations in *. rewrite filter_app, length_app, H0.
          simpl. now rewrite Nat.eqb_refl. }
        rewrite He. split; [lia|]. split.
        -- intros Hf. now apply filter_others_not_in in Hf.
        -- intros _ _. split; [reflexivity|].
           intros pl' Hpl'. rewrite Hsame in Hpl'. injection Hpl' as <-.
           split; reflexivity.
      * rewrite eliminations_snoc by congruence.
        rewrite (Hother q Hq).
        unfold w1, startFalling.
        rewrite (@getPlayer_updatePlayer_other p q _ w) by congruence.
        split; [exact H1|]. split.
        -- intros Hf. apply filter_In in Hf as [Hf _]. now apply H2.
        -- intros Hp Hnot. apply H3; [exact Hp|].
           intros Hq'. apply Hnot. apply filter_In. split; [exact Hq'|].
           apply negb_true_iff, Nat.eqb_neq. exact Hq.
  - assert (Ep' : getPlayer p (startFalling p w) = None).
    { unfold getPlayer, startFalling, updatePlayer in *. cbn.
      apply nth_error_None. rewrite length_listUpdate.
      now apply nth_error_None. }
    unfold eliminatePlayer. rewrite Ep'.
    apply rosterConsistent_same with (w := w); [|now split].
    apply sameRoster_view; try reflexivity.
    unfold startFalling, updatePlayer. cbn. now apply listUpdate_out.
Qed.

Lemma eliminate_alive (p q : nat) (w : World) :
  q <> p -> In q (alivePlayers (gameState w)) ->
  In q (alivePlayers (gameState (eliminatePlayer p (startFalling p w)))).
Proof.
  intros Hq Hin.
  destruct (getPlayer p (startFalling p w)) as [pl|] eqn:Ep.
  - rewrite (@eliminatePlayer_gameState _ p _ Ep). cbn.
    apply filter_In. split; [exact Hin|].
    apply negb_true_iff, Nat.eqb_neq. exact Hq.
  - unfold eliminatePlayer. now rewrite Ep.
Qed.

Lemma rosterConsistent_fold (f : World -> nat -> World) (l : list nat)
  (w : World) :
  (forall q w0, rosterConsistent w0 -> In q (alivePlayers (gameState w0)) ->
     rosterConsistent (f w0 q)
     /\ forall q', q' <> q -> In q' (alivePlayers (gameState w0)) ->
                   In q' (alivePlayers (gameState (f w0 q)))) ->
  NoDup l -> (forall q, In q l -> In q (alivePlayers (gameState w))) ->
  rosterConsistent w -> rosterConsistent (fold_left f l w).
Proof.
  intros Hf. revert w. induction l as [|a l IH]; intros w Hnd Hin Hw; simpl;
    [exact Hw|].
  inversion Hnd as [|? ? Ha Hnd']; subst.
  destruct (Hf a w Hw (Hin a (or_introl eq_refl))) as [Hw' Hkeep].
  apply IH; [exact Hnd'| |exact Hw'].
  intros q Hq. apply Hkeep; [|apply Hin; now right].
  intros ->. contradiction.
Qed.

Lemma rosterConsistent_executeFall (k : string) (w : World) :
  rosterConsistent w -> rosterConsistent (executeFall k w).
Proof.
  intros Hw. unfold executeFall.
  apply (rosterConsistent_same (sameRoster_removeTile k _)).
  set (w1 := onTileFallManager _ w).
  assert (Hw1 : rosterConsistent w1)
    by (revert Hw; apply rosterConsistent_same; now apply sameRoster_ext).
  apply rosterConsistent_fold.
  - intros q w0 Hw0 Hq. split.
    + now apply rosterConsistent_eliminate.
    + intros q' Hq' Hin. now apply eliminate_alive.
  - unfold checkPlayersOnTile. destruct (JsMap.get k _); [|constructor].
    apply NoDup_filter. apply Hw1.
  - intros q. apply checkPlayersOnTile_alive.
  - exact Hw1.
Qed.

Lemma rosterConsistent_updatePlayerMovement (q : nat) (deltaTime : R)
  (w : World) :
  rosterConsistent w -> In q (alivePlayers (gameState w)) ->
  rosterConsistent (updatePlayerMovement q deltaTime w)
  /\ forall q', q' <> q -> In q' (alivePlayers (gameState w)) ->
       In q' (alivePlayers (gameState (updatePlayerMovement q deltaTime w))).
Proof.
  intros Hw Hin. unfold updatePlayerMovement.
  destruct (getPlayer q w) as [pl|] eqn:Eq; [|now split].
  destruct (Player.isFalling pl) eqn:Ef; [now split|].
  set (m := integrate _ _ _).
  set (w1 := updatePlayer q _ w).
  assert (S1 : sameRoster w w1)
    by (apply sameRoster_updatePlayer; intros; split; reflexivity).
  assert (Hw1 : rosterConsistent w1)
    by (revert Hw; now apply rosterConsistent_same).
  destruct (negb (isTileActive _ _ _)).
  - split.
    + apply rosterConsistent_eliminate; [exact Hw1|exact Hin].
    + intros q' Hq' Hin'. now apply eliminate_alive.
  - split.
    + revert Hw1. apply rosterConsistent_same.
      apply sameRoster_updatePlayer; intros; split; reflexivity.
    + intros q' _ Hin'. exact Hin'.
Qed.

Lemma rosterConsistent_updatePlayers (deltaTime : R) (w : World) :
  rosterConsistent w -> rosterConsistent (updatePlayers deltaTime w).
Proof.
  intros Hw. unfold updatePlayers. destruct (negb _); [exact Hw|].
  apply rosterConsistent_fold; [| apply Hw | auto | exact Hw].
  intros q w0. apply rosterConsistent_updatePlayerMovement.
Qed.

Lemma rosterConsistent_gameLoop (deltaTime : R) (w : World) :
  rosterConsistent w -> rosterConsistent (gameLoop deltaTime w).
Proof.
  intros Hw. unfold gameLoop.
  apply (rosterConsistent_same (sameRoster_render _)).
  unfold update.
  set (w1 := if phaseEqb _ InProgress then _ else w).
  assert (Hw1 : rosterConsistent w1)
    by (subst w1; destruct (phaseEqb _ _);
        [now apply rosterConsistent_updatePlayers|exact Hw]).
  revert Hw1. apply rosterConsistent_same. now apply sameRoster_view.
Qed.

Lemma rosterConsistent_step (w w' : World) :
  step w w' -> rosterConsistent w -> rosterConsistent w'.
Proof.
  intros Hstep Hw. destruct Hstep.
  - set (w0 := withNow time (withTimers (before ++ after) w)).
    assert (Hw0 : rosterConsistent w0)
      by (revert Hw; apply rosterConsistent_same; now apply sameRoster_ext).
    destruct (callback t); cbn [runCallback].
    + revert Hw0. apply rosterConsistent_same, sameRoster_nextFall.
    + now apply rosterConsistent_executeFall.
    + revert Hw0. apply rosterConsistent_same, sameRoster_gameOverCheck.
  - apply rosterConsistent_gameLoop.
    revert Hw; apply rosterConsistent_same; now apply sameRoster_ext.
  - unfold handleKeyDown. destruct (existsb _ _); [exact Hw|].
    revert Hw; apply rosterConsistent_same; now apply sameRoster_ext.
  - revert Hw; apply rosterConsistent_same; now apply sameRoster_ext.
  - unfold startGame, start.
    apply (rosterConsistent_same (sameRoster_scheduleNextFall _)).
    revert Hw; apply rosterConsistent_same; now apply sameRoster_view.
  - revert Hw. apply rosterConsistent_same, sameRoster_stop.
  - destruct Hw as [_ H]. split; [constructor|].
    intros p. destruct (H p) as (H1 & _). cbn. tauto.
Qed.

Lemma rosterConsistent_steps (w w' : World) :
  steps w w' -> rosterConsistent w -> rosterConsistent w'.
Proof.
  induction 1 as [|w1 w2 w3 _ IH Hstep]; [auto|].
  intros Hw. apply (rosterConsistent_step Hstep). now apply IH.
Qed.

Lemma rosterConsistent_start (w : World) :
  (forall p, eliminations p (emitted w) = 0%nat) ->
  NoDup (alivePlayers (gameState w)) ->
  (forall p, In p (players (gameState w)) ->
             In p (alivePlayers (gameState w))) ->
  (forall p pl, In p (alivePlayers (gameState w)) ->
     getPlayer p w = Some pl ->
     Player.isAlive pl = true /\ Player.isFalling pl = false) ->
  rosterConsistent w.
Proof.
  intros He Hnd Hsub Hobj. split; [exact Hnd|].
  intros p. rewrite He. split; [lia|]. split.
  - intros Hin. split; [reflexivity|]. intros pl. now apply Hobj.
  - intros Hin Hnot. exfalso. auto.
Qed.

(** In every run of the event loop that begins with no elimination
    logged, a duplicate-free alive roster that holds the whole roster, and
    alive players that are alive and not falling: [playerEliminated] is
    emitted at most once for a player; it has not been emitted for a
    player on the alive roster, whose object is alive and not falling; it
    has been emitted exactly once for a roster player that is off the
    alive roster, whose object is not alive and falling; and the alive
    roster stays duplicate-free. *)
Theorem eliminated_at_most_once (w0 w : World) :
  steps w0 w ->
  (forall p, eliminations p (emitted w0) = 0%nat) ->
  NoDup (alivePlayers (gameState w0)) ->
  (forall p, In p (players (gameState w0)) ->
             In p (alivePlayers (gameState w0))) ->
  (forall p pl, In p (alivePlayers (gameState w0)) ->
     getPlayer p w0 = Some pl ->
     Player.isAlive pl = true /\ Player.isFalling pl = false) ->
  NoDup (alivePlayers (gameState w))
  /\ forall p,
       (eliminations p (emitted w) <= 1)%nat
       /\ (In p (alivePlayers (gameState w)) ->
           eliminations p (emitted w) = 0%nat
           /\ forall pl, getPlayer p w = Some pl ->
                Player.isAlive pl = true /\ Player.isFalling pl = false)
       /\ (In p (players (gameState w)) ->
           ~ In p (alivePlayers (gameState w)) ->
           eliminations p (emitted w) = 1%nat
           /\ forall pl, getPlayer p w = Some pl ->
                Player.isAlive pl = false /\ Player.isFalling pl = true).
Proof.
  intros Hsteps He Hnd Hsub Hobj.
  apply (rosterConsistent_steps Hsteps).
  now apply rosterConsistent_start.
Qed.

Lemma eliminated_at_most_once_witness :
  (eliminations 0
     (emitted (gameLoop 1000
                 (withNow 2000 (handleKeyDown "KeyD" exampleWorld)))) <= 1)%nat.
Proof.
  apply (@eliminated_at_most_once exampleWorld
           (gameLoop 1000 (withNow 2000 (handleKeyDown "KeyD" exampleWorld)))).
  - eapply steps_next; [eapply steps_next; [apply steps_refl|]|].
    + apply step_keyDown.
    + apply step_frame. simpl. lra.
  - reflexivity.
  - repeat constructor; simpl; intuition congruence.
  - auto.
  - intros p pl [<-|[<-|[]]] H; injection H as <-; split; reflexivity.
Defined.

End Rosters.

(** ** The spawn animations *)

Section Spawning.

Import HexUtils.

Lemma getSpawnProgress_waiting (time : R) (tile : Tile.t) :
  Tile.isSpawning tile = true -> (0 < Tile.spawnDuration tile)%R ->
  (time < Tile.spawnStartTime tile + Tile.spawnDelay tile
          + Tile.spawnDuration tile)%R ->
  snd (Tile.getSpawnProgress time tile) = tile
  /\ (0 <= fst (Tile.getSpawnProgress time tile) < 1)%R.
Proof.
  intros Hs Hd Ht. unfold Tile.getSpawnProgress. rewrite Hs.
  cbn [negb].
  set (elapsed := (time - _ - _)%R).
  destruct (Rlt_le_dec elapsed 0) as [Hneg|Hpos].
  - rewrite ltb_true by exact Hneg. simpl. split; [reflexivity|lra].
  - rewrite ltb_false by exact Hpos.
    assert (H1 : (elapsed / Tile.spawnDuration tile < 1)%R).
    { apply Rmult_lt_reg_r with (r := Tile.spawnDuration tile); [exact Hd|].
      unfold Rdiv. rewrite Rmult_assoc, Rinv_l by lra.
      unfold elapsed. lra. }
    assert (H0 : (0 <= elapsed / Tile.spawnDuration tile)%R).
    { unfold Rdiv. apply Rmult_le_pos; [exact Hpos|].
      left. now apply Rinv_0_lt_compat. }
    rewrite Rmin_left by lra.
    rewrite geb_false by exact H1. simpl. split; [reflexivity|lra].
Qed.

Lemma getSpawnProgress_done (time : R) (tile : Tile.t) :
  Tile.isSpawning tile = true -> (0 < Tile.spawnDuration tile)%R ->
  (Tile.spawnStartTime tile + Tile.spawnDelay tile
   + Tile.spawnDuration tile <= time)%R ->
  Tile.isSpawning (snd (Tile.getSpawnProgress time tile)) = false
  /\ fst (Tile.getSpawnProgress time tile) = 1%R.
Proof.
  intros Hs Hd Ht. unfold Tile.getSpawnProgress. rewrite Hs.
  cbn [negb].
  set (elapsed := (time - _ - _)%R).
  assert (Hpos : (0 <= elapsed)%R) by (unfold elapsed; lra).
  rewrite ltb_false by exact Hpos.
  assert (H1 : (1 <= elapsed / Tile.spawnDuration tile)%R).
  { apply Rmult_le_reg_r with (r := Tile.spawnDuration tile); [exact Hd|].
    unfold Rdiv. rewrite Rmult_assoc, Rinv_l by lra.
    unfold elapsed. lra. }
  rewrite Rmin_right by exact H1.
  rewrite geb_true by lra. simpl. split; reflexivity.
Qed.

Lemma renderTile_gridTile (time t0 jitter : R) (p : HexPosition) :
  unitDraw jitter -> In p (generateHexGrid GameConfig.GRID_RADIUS) ->
  let tile := spawnTile t0 jitter p in
  ((t0 + 1300 <= time)%R ->
   Tile.isSpawning (renderTile time tile) = false)
  /\ ((time < t0 + 800)%R -> renderTile time tile = tile).
Proof.
  intros Hj Hp tile.
  destruct (@spawnTile_fields t0 jitter p Hj)
    as (_ & Hact & _ & Hsp & Hsh & Hst & Hdur & Hdel).
  fold tile in Hact, Hsp, Hsh, Hst, Hdur, Hdel.
  assert (Hd0 : (0 <= distance p (mkHex 0 0))%Z) by apply distance_nonneg.
  assert (Hd6 : (distance p (mkHex 0 0) <= 6)%Z).
  { apply isWithinGrid_distance, isWithinGrid_true.
    now apply in_generateHexGrid. }
  apply IZR_le in Hd0, Hd6.
  unfold renderTile. rewrite Hsh, Hact, Hsp. cbn [negb].
  split; intros Ht.
  - apply getSpawnProgress_done; [exact Hsp|rewrite Hdur; lra|].
    rewrite Hst, Hdur. lra.
  - apply getSpawnProgress_waiting; [exact Hsp|rewrite Hdur; lra|].
    rewrite Hst, Hdur. lra.
Qed.

Lemma render_board (w : World) :
  board (gameState (render w))
  = map (fun e : string * Tile.t => (fst e, renderTile (now w) (snd e)))
        (board (gameState w)).
Proof.
  assert (H : forall l w0,
             board (gameState
                      (fold_left (fun acc p =>
                                    updatePlayer p (renderPlayer (now w)) acc)
                                 l w0))
             = board (gameState w0)).
  { induction l as [|a l IH]; intros w0; simpl; [reflexivity|].
    now rewrite IH. }
  unfold render. destruct (board (gameState w)) eqn:E.
  - cbn [onGameState gameState withBoard board]. now rewrite E.
  - rewrite H. cbn [onGameState gameState withBoard board]. now rewrite E.
Qed.

(** The tiles of a new board are all spawning.  A frame rendered
    1300 ms or more after [initializeBoard] ends the spawn animation of
    every tile, so that [areAllTilesSpawned] answers true; a frame
    rendered less than 800 ms after it leaves every tile as it is, and
    [areAllTilesSpawned] still answers false. *)
Theorem board_spawn_window (cx cy : R) (jitter : nat -> R) (w : World)
  (time : R) :
  (forall i, unitDraw (jitter i)) ->
  let w1 := initializeBoard cx cy jitter w in
  areAllTilesSpawned w1 = false
  /\ ((now w + 1300 <= time)%R ->
      areAllTilesSpawned (render (withNow time w1)) = true)
  /\ ((time < now w + 800)%R ->
      board (gameState (render (withNow time w1))) = board (gameState w1)
      /\ areAllTilesSpawned (render (withNow time w1)) = false).
Proof.
  intros Hj w1.
  assert (Hb : board (gameState w1)
               = map (fun ip : nat * HexPosition =>
                        (toKey (snd ip),
                         spawnTile (now w) (jitter (fst ip)) (snd ip)))
                     (combine (seq 0 (length (generateHexGrid
                                                GameConfig.GRID_RADIUS)))
                              (generateHexGrid GameConfig.GRID_RADIUS)))
    by apply initializeBoard_board.
  assert (Hgrid : forall e, In e (board (gameState w1)) ->
            exists i p, In p (generateHexGrid GameConfig.GRID_RADIUS)
                        /\ snd e = spawnTile (now w) (jitter i) p).
  { intros e He. rewrite Hb in He. apply in_map_iff in He as [[i p] [<- Hip]].
    exists i, p. split; [|reflexivity].
    apply in_combine_r in Hip. exact Hip. }
  assert (Hne : exists e, In e (board (gameState w1))).
  { destruct (board (gameState w1)) as [|e b] eqn:E.
    - apply (f_equal (@length _)) in Hb.
      rewrite length_map, length_combine, length_seq, Nat.min_id in Hb.
      assert (Hlen : (0 <= GameConfig.GRID_RADIUS)%Z)
        by (unfold GameConfig.GRID_RADIUS; lia).
      apply length_generateHexGrid in Hlen.
      rewrite <- Hb in Hlen. unfold GameConfig.GRID_RADIUS in Hlen.
      simpl in Hlen. lia.
    - exists e. now left. }
  assert (Hfalse : areAllTilesSpawned w1 = false).
  { destruct Hne as [e He]. unfold areAllTilesSpawned.
    destruct (forallb _ _) eqn:F; [|reflexivity].
    rewrite forallb_forall in F. specialize (F e He).
    destruct (Hgrid e He) as (i & p & _ & Hs). rewrite Hs in F.
    discriminate. }
  split; [exact Hfalse|]. split.
  - intros Ht. unfold areAllTilesSpawned. rewrite render_board.
    apply forallb_forall. intros e He.
    apply in_map_iff in He as [e0 [<- He0]].
    destruct (Hgrid e0 He0) as (i & p & Hp & Hs).
    cbn [snd]. rewrite Hs.
    change (now (withNow time w1)) with time.
    destruct (@renderTile_gridTile time (now w) (jitter i) p (Hj i) Hp)
      as [Hdone _].
    now rewrite Hdone.
  - intros Ht.
    assert (Hsame : board (gameState (render (withNow time w1)))
                    = board (gameState w1)).
    { rewrite render_board.
      change (board (gameState (withNow time w1)))
        with (board (gameState w1)).
      change (now (withNow time w1)) with time.
      rewrite <- (map_id (board (gameState w1))) at 2.
      apply map_ext_in. intros e He.
      destruct (Hgrid e He) as (i & p & Hp & Hs).
      destruct (@renderTile_gridTile time (now w) (jitter i) p (Hj i) Hp)
        as [_ Hwait].
      rewrite Hs, Hwait by exact Ht. rewrite <- Hs. now destruct e. }
    split; [exact Hsame|].
    unfold areAllTilesSpawned in *. now rewrite Hsame.
Qed.

Lemma board_spawn_window_witness :
  areAllTilesSpawned
    (render (withNow 2300 (initializeBoard 350 350 (fun _ => 0%R)
                                           exampleWorld))) = true.
Proof.
  apply (@board_spawn_window 350 350 (fun _ => 0%R) exampleWorld 2300).
  - intros _. unfold unitDraw. lra.
  - simpl. lra.
Defined.

Lemma fold_updatePlayer_frame (f : Player.t -> Player.t) (l : list nat)
  (w : World) :
  let w' := fold_left (fun acc q => updatePlayer q f acc) l w in
  gameState w' = gameState w /\ now w' = now w.
Proof.
  revert w. induction l as [|a l IH]; intros w; simpl; [tauto|].
  destruct (IH (updatePlayer a f w)) as [Hg Hn]. simpl in Hg, Hn.
  now rewrite Hg, Hn.
Qed.

Lemma fold_updatePlayer_other (f : Player.t -> Player.t) (l : list nat)
  (w : World) (p : nat) :
  ~ In p l ->
  getPlayer p (fold_left (fun acc q => updatePlayer q f acc) l w)
  = getPlayer p w.
Proof.
  revert w. induction l as [|a l IH]; intros w Hin; simpl; [reflexivity|].
  rewrite IH by (simpl in Hin; tauto).
  apply getPlayer_updatePlayer_other. simpl in Hin. tauto.
Qed.

Lemma fold_updatePlayer_same (f : Player.t -> Player.t) (l : list nat)
  (w : World) (p : nat) (pl : Player.t) :
  NoDup l -> In p l -> getPlayer p w = Some pl ->
  getPlayer p (fold_left (fun acc q => updatePlayer q f acc) l w)
  = Some (f pl).
Proof.
  revert w. induction l as [|a l IH]; intros w Hnd Hin Hp; simpl;
    [contradiction|].
  inversion Hnd as [|? ? Ha Hnd']; subst.
  destruct (Nat.eq_dec a p) as [->|Hne].
  - rewrite fold_updatePlayer_other by exact Ha.
    now apply getPlayer_updatePlayer_same.
  - apply IH; [exact Hnd'|destruct Hin; [contradiction|assumption]|].
    now rewrite (@getPlayer_updatePlayer_other a p f w Hne).
Qed.

Lemma player_getSpawnProgress (time : R) (pl : Player.t) :
  Player.isSpawning pl = true -> (0 < Player.spawnDuration pl)%R ->
  ((Player.spawnStartTime pl + Player.spawnDuration pl <= time)%R ->
   Player.isSpawning (snd (Player.getSpawnProgress time pl)) = false)
  /\ ((time < Player.spawnStartTime pl + Player.spawnDuration pl)%R ->
      snd (Player.getSpawnProgress time pl) = pl).
Proof.
  intros Hs Hd. unfold Player.getSpawnProgress. rewrite Hs. cbn [negb].
  set (elapsed := (time - _)%R).
  split; intros Ht.
  - assert (H1 : (1 <= elapsed / Player.spawnDuration pl)%R).
    { apply Rmult_le_reg_r with (r := Player.spawnDuration pl); [exact Hd|].
      unfold Rdiv. rewrite Rmult_assoc, Rinv_l by lra.
      unfold elapsed. lra. }
    rewrite Rmin_right by exact H1. rewrite geb_true by lra. reflexivity.
  - assert (H1 : (elapsed / Player.spawnDuration pl < 1)%R).
    { apply Rmult_lt_reg_r with (r := Player.spawnDuration pl); [exact Hd|].
      unfold Rdiv. rewrite Rmult_assoc, Rinv_l by lra.
      unfold elapsed. lra. }
    rewrite Rmin_left by lra. rewrite geb_false by exact H1. reflexivity.
Qed.

(** [initializePlayers] followed by [startPlayerSpawnAnimations], as
    [checkSpawnProgress] calls them: every new player is spawning.  On a
    board with tiles, a frame rendered 500 ms or more later ends the spawn
    animation of every player, so that [areAllPlayersSpawned] answers
    true, and a frame rendered earlier does not.  On an empty board the
    renderer skips the players, and [areAllPlayersSpawned] stays false
    whatever the time. *)
Theorem players_spawn_window (configs : list Player.Config) (w : World)
  (time : R) :
  configs <> [] ->
  let w2 := startPlayerSpawnAnimations (initializePlayers configs w) in
  let w3 := render (withNow time w2) in
  areAllPlayersSpawned w2 = false
  /\ (board (gameState w) <> [] -> (now w + 500 <= time)%R ->
      areAllPlayersSpawned w3 = true)
  /\ (board (gameState w) <> [] -> (time < now w + 500)%R ->
      areAllPlayersSpawned w3 = false)
  /\ (board (gameState w) = [] -> areAllPlayersSpawned w3 = false).
Proof.
  intros Hne w2 w3.
  set (w1 := initializePlayers configs w).
  set (base := length (heap w)).
  set (refs := seq base (length configs)).
  assert (Hg2 : gameState w2 = gameState w1)
    by apply (fold_updatePlayer_frame _ _ w1).
  assert (Hps : players (gameState w2) = refs) by now rewrite Hg2.
  assert (Hobj : forall p, In p refs ->
            getPlayer p w2
            = option_map (Player.startSpawnAnimation (now w))
                (getPlayer p w1)
            /\ exists i config, getPlayer p w1 = Some (createPlayer w i config)).
  { intros p Hp.
    assert (Hex : exists i config,
               getPlayer p w1 = Some (createPlayer w i config)).
    { apply in_seq in Hp. destruct Hp as [Hlo Hhi].
      destruct (nth_error configs (p - base)) as [config|] eqn:E.
      - exists (p - base)%nat, config.
        replace p with (base + (p - base))%nat at 1 by lia.
        now apply initializePlayers_getPlayer.
      - apply nth_error_None in E. lia. }
    split; [|exact Hex].
    destruct Hex as (i & config & Hi). rewrite Hi. simpl.
    unfold w2, startPlayerSpawnAnimations.
    apply fold_updatePlayer_same; [apply seq_NoDup|exact Hp|exact Hi]. }
  assert (Hfirst : In base refs).
  { apply in_seq. destruct configs; [congruence|]. simpl. lia. }
  assert (Hspawned : forall w', players (gameState w') = refs ->
            (forall p, In p refs ->
               exists pl, getPlayer p w' = Some pl
                          /\ Player.isSpawning pl = true) ->
            areAllPlayersSpawned w' = false).
  { intros w' Hp' H. unfold areAllPlayersSpawned.
    destruct (forallb _ _) eqn:F; [|reflexivity].
    rewrite forallb_forall in F. rewrite Hp' in F.
    specialize (F base Hfirst).
    destruct (H base Hfirst) as (pl & Hpl & Hs). now rewrite Hpl, Hs in F. }
  assert (H2 : forall p, In p refs ->
            exists pl, getPlayer p w2 = Some pl
                       /\ Player.isSpawning pl = true
                       /\ Player.isAlive pl = true
                       /\ Player.spawnStartTime pl = now w
                       /\ Player.spawnDuration pl = 500%R).
  { intros p Hp. destruct (Hobj p Hp) as [Hget (i & config & Hi)].
    rewrite Hi in Hget. simpl in Hget.
    eexists. split; [exact Hget|]. repeat split. }
  split.
  { apply Hspawned; [exact Hps|]. intros p Hp.
    destruct (H2 p Hp) as (pl & Hpl & Hs & _). now exists pl. }
  assert (Hp3 : players (gameState w3) = refs).
  { unfold w3, render. set (wa := onGameState _ _).
    destruct (board _); [exact Hps|].
    destruct (fold_updatePlayer_frame (renderPlayer (now (withNow time w2)))
                (players (gameState wa)) wa) as [Hg _].
    cbv zeta in Hg. rewrite Hg. exact Hps. }
  assert (Hb2 : board (gameState (withNow time w2)) = board (gameState w))
    by (cbn [withNow gameState]; now rewrite Hg2).
  assert (H3 : board (gameState w) <> [] -> forall p, In p refs ->
            exists pl, getPlayer p w2 = Some pl
                       /\ getPlayer p w3 = Some (renderPlayer time pl)).
  { intros Hbne p Hp. destruct (H2 p Hp) as (pl & Hpl & _).
    exists pl. split; [exact Hpl|].
    unfold w3, render. set (wa := onGameState _ _).
    rewrite Hb2. destruct (board (gameState w)); [congruence|].
    apply fold_updatePlayer_same;
      [change (players (gameState wa)) with (players (gameState w2));
       rewrite Hps; apply seq_NoDup
      |change (players (gameState wa)) with (players (gameState w2));
       now rewrite Hps
      |exact Hpl]. }
  split; [|split].
  - intros Hbne Ht. unfold areAllPlayersSpawned. rewrite Hp3.
    apply forallb_forall. intros p Hp.
    destruct (H3 Hbne p Hp) as (pl & Hpl & Hr). rewrite Hr.
    destruct (H2 p Hp) as (pl' & Hpl' & Hs & Ha & Hst & Hdur).
    assert (pl' = pl) by congruence. subst pl'.
    unfold renderPlayer. rewrite Ha, Hs. cbn [negb andb].
    destruct (@player_getSpawnProgress time pl Hs) as [Hdone _];
      [rewrite Hdur; lra|].
    rewrite Hdone by (rewrite Hst, Hdur; lra). reflexivity.
  - intros Hbne Ht. apply Hspawned; [exact Hp3|]. intros p Hp.
    destruct (H3 Hbne p Hp) as (pl & Hpl & Hr).
    destruct (H2 p Hp) as (pl' & Hpl' & Hs & Ha & Hst & Hdur).
    assert (pl' = pl) by congruence. subst pl'.
    exists (renderPlayer time pl). split; [exact Hr|].
    unfold renderPlayer. rewrite Ha, Hs. cbn [negb andb].
    destruct (@player_getSpawnProgress time pl Hs) as [_ Hwait];
      [rewrite Hdur; lra|].
    rewrite Hwait by (rewrite Hst, Hdur; lra). exact Hs.
  - intros Hbe. apply Hspawned; [exact Hp3|]. intros p Hp.
    destruct (H2 p Hp) as (pl & Hpl & Hs & _).
    exists pl. split; [|exact Hs].
    unfold w3, render. rewrite Hb2, Hbe. exact Hpl.
Qed.

Lemma players_spawn_window_witness :
  areAllPlayersSpawned
    (startPlayerSpawnAnimations (initializePlayers PlayerConfig exampleWorld))
  = false.
Proof.
  apply (@players_spawn_window PlayerConfig exampleWorld 0).
  discriminate.
Defined.

End Spawning.

(** ** The phase of the match over a run *)

Section PhaseAdvances.

Lemma phaseAdvances_refl (w : World) : phaseAdvances w w.
Proof. now left. Qed.

Lemma phaseAdvances_trans (w1 w2 w3 : World) :
  phaseAdvances w1 w2 -> phaseAdvances w2 w3 -> phaseAdvances w1 w3.
Proof. unfold phaseAdvances. intros H1 H2. intuition congruence. Qed.

Lemma phaseAdvances_ext (w w' : World) :
  gameState w' = gameState w -> phaseAdvances w w'.
Proof. intros H. left. now rewrite H. Qed.

Lemma phaseAdvances_fold (A : Type) (f : World -> A -> World) (l : list A)
  (w : World) :
  (forall a w0, phaseAdvances w0 (f w0 a)) ->
  phaseAdvances w (fold_left f l w).
Proof.
  intros Hf. revert w. induction l as [|a l IH]; intros w; simpl.
  - apply phaseAdvances_refl.
  - eapply phaseAdvances_trans; [apply Hf|apply IH].
Qed.

Lemma phaseAdvances_emit (e : Event) (w : World) : phaseAdvances w (emit e w).
Proof. destruct (emit_frame e w) as (Hg & _). now apply phaseAdvances_ext. Qed.

Lemma phaseAdvances_eliminatePlayer (q : nat) (w : World) :
  phaseAdvances w (eliminatePlayer q w).
Proof.
  destruct (getPlayer q w) as [pl|] eqn:E;
    [|unfold eliminatePlayer; rewrite E; apply phaseAdvances_refl].
  left. now rewrite (@eliminatePlayer_gameState w q pl E).
Qed.

Lemma phaseAdvances_markTileWarning (k : string) (w : World) :
  phaseAdvances w (markTileWarning k w).
Proof.
  unfold markTileWarning.
  destruct (JsMap.get k _) as [tile|]; [|apply phaseAdvances_refl].
  destruct (Tile.isActive tile); [|apply phaseAdvances_refl].
  eapply phaseAdvances_trans; [|apply phaseAdvances_emit]. now left.
Qed.

Lemma phaseAdvances_removeTile (k : string) (w : World) :
  phaseAdvances w (removeTile k w).
Proof.
  unfold removeTile.
  destruct (JsMap.get k _) as [tile|]; [|apply phaseAdvances_refl].
  eapply phaseAdvances_trans; [|apply phaseAdvances_emit]. now left.
Qed.

Lemma phaseAdvances_scheduleNextFall (w : World) :
  phaseAdvances w (scheduleNextFall w).
Proof.
  unfold scheduleNextFall. destruct (negb _); [apply phaseAdvances_refl|].
  now apply phaseAdvances_ext.
Qed.

Lemma phaseAdvances_selectRandomTile (coin pick : R) (w : World) :
  phaseAdvances w (selectRandomTile coin pick w).
Proof.
  unfold selectRandomTile.
  destruct (gatherTiles w) as [act occ].
  destruct (length act =? 0)%nat; [apply phaseAdvances_refl|].
  match goal with |- context [match ?c with Some _ => _ | None => _ end] =>
    destruct c as [k|] end; [|apply phaseAdvances_refl].
  eapply phaseAdvances_trans; [apply (phaseAdvances_markTileWarning k)|].
  now apply phaseAdvances_ext.
Qed.

Lemma phaseAdvances_updatePlayerMovement (q : nat) (deltaTime : R)
  (w : World) : phaseAdvances w (updatePlayerMovement q deltaTime w).
Proof.
  unfold updatePlayerMovement.
  destruct (getPlayer q w) as [pl|]; [|apply phaseAdvances_refl].
  destruct (Player.isFalling pl); [apply phaseAdvances_refl|].
  destruct (negb _).
  - eapply phaseAdvances_trans; [|apply phaseAdvances_eliminatePlayer].
    now apply phaseAdvances_ext.
  - now apply phaseAdvances_ext.
Qed.

Lemma phaseAdvances_executeFall (k : string) (w : World) :
  phaseAdvances w (executeFall k w).
Proof.
  unfold executeFall.
  eapply phaseAdvances_trans; [|apply phaseAdvances_removeTile].
  set (w1 := onTileFallManager _ w).
  eapply phaseAdvances_trans with (w2 := w1); [now apply phaseAdvances_ext|].
  apply phaseAdvances_fold. intros q w0.
  eapply phaseAdvances_trans; [|apply phaseAdvances_eliminatePlayer].
  now apply phaseAdvances_ext.
Qed.

Lemma phaseAdvances_gameOverCheck (w : World) :
  phaseAdvances w (gameOverCheck w).
Proof.
  unfold gameOverCheck. destruct (_ && _); [|apply phaseAdvances_refl].
  eapply phaseAdvances_trans; [|apply phaseAdvances_emit].
  right. now right.
Qed.

Lemma phaseAdvances_render (w : World) : phaseAdvances w (render w).
Proof.
  unfold render.
  set (w1 := onGameState _ w).
  assert (H1 : phaseAdvances w w1) by now left.
  destruct (board (gameState w)); [exact H1|].
  eapply phaseAdvances_trans; [exact H1|].
  apply phaseAdvances_fold. intros q w0. now apply phaseAdvances_ext.
Qed.

Lemma phaseAdvances_gameLoop (deltaTime : R) (w : World) :
  phaseAdvances w (gameLoop deltaTime w).
Proof.
  unfold gameLoop, update.
  eapply phaseAdvances_trans; [|apply phaseAdvances_render].
  set (w1 := if phaseEqb _ InProgress then _ else w).
  assert (H1 : phaseAdvances w w1).
  { subst w1. destruct (phaseEqb _ _); [|apply phaseAdvances_refl].
    unfold updatePlayers. destruct (negb _); [apply phaseAdvances_refl|].
    apply phaseAdvances_fold. intros q w0.
    apply phaseAdvances_updatePlayerMovement. }
  eapply phaseAdvances_trans; [exact H1|]. now left.
Qed.

Lemma phaseAdvances_spawnPlayers (configs : list Player.Config) (w : World) :
  phaseAdvances w (spawnPlayers configs w).
Proof.
  unfold spawnPlayers.
  destruct (areAllTilesSpawned w); [|apply phaseAdvances_refl].
  unfold startPlayerSpawnAnimations.
  eapply phaseAdvances_trans with (w2 := initializePlayers configs w);
    [now left|].
  apply phaseAdvances_fold. intros q w0. now apply phaseAdvances_ext.
Qed.

Lemma handleStart_started (code : string) (cx cy : R) (jitter : nat -> R)
  (w : World) :
  matchPhase (gameState w) <> WaitingToStart ->
  handleStart code cx cy jitter w = w.
Proof.
  intros H. unfold handleStart.
  destruct (matchPhase (gameState w)); [congruence| | |];
    now rewrite andb_false_r.
Qed.

Lemma phaseAdvances_matchTurn (w w' : World) :
  matchPhase (gameState w) <> WaitingToStart ->
  matchTurn w w' -> phaseAdvances w w'.
Proof.
  intros Hw Hturn. destruct Hturn.
  - set (w0 := withNow time (withTimers (before ++ after) w)).
    apply phaseAdvances_trans with (w2 := w0); [now left|].
    destruct (callback t); cbn [runCallback].
    + unfold nextFall.
      eapply phaseAdvances_trans; [|apply phaseAdvances_scheduleNextFall].
      eapply phaseAdvances_trans;
        [apply (phaseAdvances_selectRandomTile coin pick)|].
      now apply phaseAdvances_ext.
    + apply phaseAdvances_executeFall.
    + apply phaseAdvances_gameOverCheck.
  - apply phaseAdvances_trans with (w2 := withNow time w);
      [now left|apply phaseAdvances_gameLoop].
  - rewrite handleStart_started.
    + unfold handleKeyDown. destruct (existsb _ _); now left.
    + unfold handleKeyDown. destruct (existsb _ _); exact Hw.
  - now left.
  - apply phaseAdvances_spawnPlayers.
  - unfold startGame, start.
    eapply phaseAdvances_trans; [|apply phaseAdvances_scheduleNextFall].
    right. now left.
  - destruct (stop_frame w) as (Hg & _). now apply phaseAdvances_ext.
Qed.

Lemma started_advances (w w' : World) :
  matchPhase (gameState w) <> WaitingToStart -> phaseAdvances w w' ->
  matchPhase (gameState w') <> WaitingToStart.
Proof. unfold phaseAdvances. intros H [E|[E|E]]; congruence. Qed.

End PhaseAdvances.

(** ** A fallen tile stays fallen *)

Section BoardDecay.

Lemma boardDecays_refl (w : World) : boardDecays w w.
Proof.
  repeat split; auto. intros k tile H. exists tile. auto.
Qed.

Lemma boardDecays_trans (w1 w2 w3 : World) :
  boardDecays w1 w2 -> boardDecays w2 w3 -> boardDecays w1 w3.
Proof.
  intros (X1 & Y1 & K1 & T1) (X2 & Y2 & K2 & T2).
  split; [congruence|]. split; [congruence|]. split.
  - congruence.
  - intros k t3 H3. destruct (T2 k t3 H3) as (t2 & H2 & P2 & A2).
    destruct (T1 k t2 H2) as (t1 & H1 & P1 & A1).
    exists t1. repeat split; [exact H1|congruence|auto].
Qed.

Lemma boardDecays_ext (w w' : World) :
  gameState w' = gameState w -> boardDecays w w'.
Proof.
  intros Hg. unfold boardDecays. rewrite Hg.
  repeat split; auto. intros k tile H. exists tile. auto.
Qed.

Lemma boardDecays_board (w w' : World) :
  board (gameState w') = board (gameState w) ->
  centerX (gameState w') = centerX (gameState w) ->
  centerY (gameState w') = centerY (gameState w) ->
  boardDecays w w'.
Proof.
  intros Hb Hx Hy. unfold boardDecays. rewrite Hb, Hx, Hy.
  repeat split; auto. intros k tile H. exists tile. auto.
Qed.

Lemma boardDecays_setTile (k : string) (tile : Tile.t)
  (f : Tile.t -> Tile.t) (w : World) :
  JsMap.get k (board (gameState w)) = Some tile ->
  Tile.position (f tile) = Tile.position tile ->
  Tile.isActive (f tile) = Tile.isActive tile ->
  boardDecays w (setTile k (f tile) w).
Proof.
  intros Hget Hpos Hact. split; [reflexivity|]. split; [reflexivity|]. split.
  - cbn. now apply keys_set_present with (v0 := tile).
  - intros k' tile' H'. cbn in H'.
    destruct (String.eqb k k') eqn:E.
    + apply String.eqb_eq in E. subst k'.
      rewrite get_set_same in H'. injection H' as <-.
      exists tile. repeat split; [exact Hget|exact Hpos|congruence].
    + apply String.eqb_neq in E.
      rewrite get_set_other in H' by exact E.
      exists tile'. auto.
Qed.

Lemma boardDecays_mapBoard (g : Tile.t -> Tile.t) (w : World) :
  (forall tile, Tile.position (g tile) = Tile.position tile
                /\ (Tile.isActive tile = false ->
                    Tile.isActive (g tile) = false)) ->
  boardDecays w
    (onGameState
       (fun gs => withBoard
          (map (fun e : string * Tile.t => (fst e, g (snd e))) (board gs))
          gs) w).
Proof.
  intros Hg. split; [reflexivity|]. split; [reflexivity|]. split.
  - cbn. unfold JsMap.keys. rewrite map_map. reflexivity.
  - intros k tile' H'. cbn in H'.
    rewrite get_map_values in H' by reflexivity.
    destruct (JsMap.get k (board (gameState w))) as [tile|];
      [|discriminate].
    simpl in H'. injection H' as <-.
    exists tile. destruct (Hg tile). auto.
Qed.

Lemma boardDecays_emit (e : Event) (w : World) : boardDecays w (emit e w).
Proof.
  destruct (emit_frame e w) as (Hg & _). now apply boardDecays_ext.
Qed.

Lemma boardDecays_markTileWarning (k : string) (w : World) :
  boardDecays w (markTileWarning k w).
Proof.
  unfold markTileWarning.
  destruct (JsMap.get k _) as [tile|] eqn:E; [|apply boardDecays_refl].
  destruct (Tile.isActive tile); [|apply boardDecays_refl].
  eapply boardDecays_trans; [|apply boardDecays_emit].
  now apply (@boardDecays_setTile k tile (Tile.startWarning (now w))).
Qed.

Lemma boardDecays_removeTile (k : string) (w : World) :
  boardDecays w (removeTile k w).
Proof.
  unfold removeTile.
  destruct (JsMap.get k _) as [tile|] eqn:E; [|apply boardDecays_refl].
  eapply boardDecays_trans; [|apply boardDecays_emit].
  now apply (@boardDecays_setTile k tile (Tile.startShatter (now w))).
Qed.

Lemma boardDecays_scheduleNextFall (w : World) :
  boardDecays w (scheduleNextFall w).
Proof.
  unfold scheduleNextFall. destruct (negb _); [apply boardDecays_refl|].
  now apply boardDecays_ext.
Qed.

Lemma boardDecays_selectRandomTile (coin pick : R) (w : World) :
  boardDecays w (selectRandomTile coin pick w).
Proof.
  unfold selectRandomTile.
  destruct (gatherTiles w) as [act occ].
  destruct (length act =? 0)%nat; [apply boardDecays_refl|].
  match goal with |- context [match ?c with Some _ => _ | None => _ end] =>
    destruct c as [k|] end; [|apply boardDecays_refl].
  eapply boardDecays_trans; [apply (boardDecays_markTileWarning k)|].
  now apply boardDecays_ext.
Qed.

Lemma boardDecays_updatePlayer (q : nat) (f : Player.t -> Player.t)
  (w : World) : boardDecays w (updatePlayer q f w).
Proof. now apply boardDecays_ext. Qed.

Lemma boardDecays_eliminatePlayer (q : nat) (w : World) :
  boardDecays w (eliminatePlayer q w).
Proof.
  destruct (getPlayer q w) as [pl|] eqn:E;
    [|unfold eliminatePlayer; rewrite E; apply boardDecays_refl].
  apply boardDecays_board; now rewrite (@eliminatePlayer_gameState w q pl E).
Qed.

Lemma boardDecays_fold (A : Type) (f : World -> A -> World) (l : list A)
  (w : World) :
  (forall a w0, boardDecays w0 (f w0 a)) -> boardDecays w (fold_left f l w).
Proof.
  intros Hf. revert w. induction l as [|a l IH]; intros w; simpl.
  - apply boardDecays_refl.
  - eapply boardDecays_trans; [apply Hf|apply IH].
Qed.

Lemma boardDecays_updatePlayerMovement (q : nat) (deltaTime : R)
  (w : World) : boardDecays w (updatePlayerMovement q deltaTime w).
Proof.
  unfold updatePlayerMovement.
  destruct (getPlayer q w) as [pl|]; [|apply boardDecays_refl].
  destruct (Player.isFalling pl); [apply boardDecays_refl|].
  destruct (negb _).
  - eapply boardDecays_trans; [|apply boardDecays_eliminatePlayer].
    now apply boardDecays_ext.
  - now apply boardDecays_ext.
Qed.

Lemma boardDecays_executeFall (k : string) (w : World) :
  boardDecays w (executeFall k w).
Proof.
  unfold executeFall.
  eapply boardDecays_trans; [|apply boardDecays_removeTile].
  set (w1 := onTileFallManager _ w).
  eapply boardDecays_trans with (w2 := w1); [now apply boardDecays_ext|].
  apply boardDecays_fold. intros q w0.
  eapply boardDecays_trans; [|apply boardDecays_eliminatePlayer].
  now apply boardDecays_ext.
Qed.

Lemma boardDecays_gameOverCheck (w : World) :
  boardDecays w (gameOverCheck w).
Proof.
  unfold gameOverCheck. destruct (_ && _); [|apply boardDecays_refl].
  eapply boardDecays_trans; [|apply boardDecays_emit].
  now apply boardDecays_board.
Qed.

Lemma boardDecays_gameLoop (deltaTime : R) (w : World) :
  boardDecays w (gameLoop deltaTime w).
Proof.
  unfold gameLoop, update.
  set (w1 := if phaseEqb _ InProgress then _ else w).
  assert (H1 : boardDecays w w1).
  { subst w1. destruct (phaseEqb _ _); [|apply boardDecays_refl].
    unfold updatePlayers. destruct (negb _); [apply boardDecays_refl|].
    apply boardDecays_fold. intros q w0.
    apply boardDecays_updatePlayerMovement. }
  eapply boardDecays_trans; [exact H1|].
  assert (H2 : boardDecays w1 (updateTileAnimations w1)).
  { unfold updateTileAnimations.
    assert (Heq : forall b,
      map (fun e : string * Tile.t =>
             if Tile.isShattering (snd e)
             then (fst e, snd (Tile.getShatterProgress (now w1) (snd e)))
             else e) b
      = map (fun e : string * Tile.t =>
               (fst e,
                (fun tile => if Tile.isShattering tile
                             then snd (Tile.getShatterProgress (now w1) tile)
                             else tile) (snd e))) b).
    { intros b. apply map_ext. intros [k tile]. simpl.
      now destruct (Tile.isShattering tile). }
    eapply boardDecays_trans;
      [apply (boardDecays_mapBoard
                (fun tile => if Tile.isShattering tile
                             then snd (Tile.getShatterProgress (now w1) tile)
                             else tile))|].
    - intros tile. unfold Tile.getShatterProgress.
      destruct (Tile.isShattering tile); simpl; [|tauto].
      destruct (HexUtils.geb _ 1); simpl; tauto.
    - apply boardDecays_board; try reflexivity. cbn. now rewrite Heq. }
  eapply boardDecays_trans; [exact H2|].
  set (w2 := updateTileAnimations w1).
  unfold render.
  set (w3 := onGameState _ w2).
  assert (H3 : boardDecays w2 w3).
  { apply (boardDecays_mapBoard (renderTile (now w2))).
    intros tile. unfold renderTile, Tile.getShatterProgress,
                   Tile.getSpawnProgress.
    destruct (Tile.isShattering tile); simpl.
    - destruct (HexUtils.geb _ 1); simpl; tauto.
    - destruct (Tile.isActive tile) eqn:Ea; simpl; [|tauto].
      destruct (Tile.isSpawning tile); simpl; [|split; congruence].
      destruct (HexUtils.ltb _ 0); simpl; [split; congruence|].
      destruct (HexUtils.geb _ 1); simpl; split; congruence. }
  destruct (board (gameState w2)); [exact H3|].
  eapply boardDecays_trans; [exact H3|].
  apply boardDecays_fold. intros q w0. apply boardDecays_updatePlayer.
Qed.

Lemma boardDecays_spawnPlayers (configs : list Player.Config) (w : World) :
  boardDecays w (spawnPlayers configs w).
Proof.
  unfold spawnPlayers.
  destruct (areAllTilesSpawned w); [|apply boardDecays_refl].
  unfold startPlayerSpawnAnimations.
  eapply boardDecays_trans with (w2 := initializePlayers configs w);
    [now apply boardDecays_board|].
  apply boardDecays_fold. intros q w0. apply boardDecays_updatePlayer.
Qed.

Lemma boardDecays_matchTurn (w w' : World) :
  matchPhase (gameState w) <> WaitingToStart ->
  matchTurn w w' -> boardDecays w w'.
Proof.
  intros Hw Hturn. destruct Hturn.
  - set (w0 := withNow time (withTimers (before ++ after) w)).
    apply boardDecays_trans with (w2 := w0); [now apply boardDecays_ext|].
    destruct (callback t); cbn [runCallback].
    + unfold nextFall.
      eapply boardDecays_trans; [|apply boardDecays_scheduleNextFall].
      eapply boardDecays_trans;
        [apply (boardDecays_selectRandomTile coin pick)|].
      now apply boardDecays_ext.
    + apply boardDecays_executeFall.
    + apply boardDecays_gameOverCheck.
  - apply boardDecays_trans with (w2 := withNow time w);
      [now apply boardDecays_ext|apply boardDecays_gameLoop].
  - rewrite handleStart_started.
    + unfold handleKeyDown. destruct (existsb _ _); [apply boardDecays_refl|].
      now apply boardDecays_ext.
    + unfold handleKeyDown. destruct (existsb _ _); exact Hw.
  - now apply boardDecays_ext.
  - apply boardDecays_spawnPlayers.
  - unfold startGame, start.
    eapply boardDecays_trans; [|apply boardDecays_scheduleNextFall].
    now apply boardDecays_board.
  - destruct (stop_frame w) as (Hg & _). now apply boardDecays_ext.
Qed.

Lemma boardDecays_matchRun (w w' : World) :
  matchPhase (gameState w) <> WaitingToStart ->
  matchRun w w' ->
  matchPhase (gameState w') <> WaitingToStart /\ boardDecays w w'.
Proof.
  intros Hw. induction 1 as [|w1 w2 w3 _ IH Hturn].
  - split; [exact Hw|apply boardDecays_refl].
  - destruct (IH Hw) as [H2 Hd]. split.
    + apply (@started_advances w2 w3 H2). now apply phaseAdvances_matchTurn.
    + eapply boardDecays_trans; [exact Hd|now apply boardDecays_matchTurn].
Qed.

(** From the Space key that builds the board to the restart key the board
    only decays: over every run of the event loop that begins after the
    phase has left [WaitingToStart] and has no restart in it, the phase
    never is [WaitingToStart] again (so the listener of [bindStartKey]
    builds no new board), a point of the canvas with no active tile under
    it never gets one again, a key that is missing stays missing, a tile
    keeps its key and its position, and once it is not active it never is
    again; the keys of the board stay as they are, in their order. *)
Theorem fallen_tiles_stay_fallen (w w' : World) :
  matchPhase (gameState w) <> WaitingToStart ->
  matchRun w w' ->
  matchPhase (gameState w') <> WaitingToStart
  /\ (forall x y, isTileActive x y w = false -> isTileActive x y w' = false)
  /\ (forall k, JsMap.get k (board (gameState w)) = None ->
                JsMap.get k (board (gameState w')) = None)
  /\ (forall k tile',
        JsMap.get k (board (gameState w')) = Some tile' ->
        exists tile,
          JsMap.get k (board (gameState w)) = Some tile
          /\ Tile.position tile' = Tile.position tile
          /\ (Tile.isActive tile = false -> Tile.isActive tile' = false))
  /\ JsMap.keys (board (gameState w')) = JsMap.keys (board (gameState w)).
Proof.
  intros Hw Hrun.
  destruct (@boardDecays_matchRun w w' Hw Hrun) as (Hph & Hx & Hy & Hk & Ht).
  split; [exact Hph|].
  split; [|split; [|split; [exact Ht|exact Hk]]].
  - intros x y. unfold isTileActive, hexOfPixel. rewrite Hx, Hy.
    set (k := HexUtils.toKey _).
    destruct (JsMap.get k (board (gameState w'))) as [tile'|] eqn:E';
      [|reflexivity].
    destruct (Ht k tile' E') as (tile & -> & _ & Hact). exact Hact.
  - intros k Hnone.
    destruct (JsMap.get k (board (gameState w'))) as [tile'|] eqn:E';
      [|reflexivity].
    destruct (Ht k tile' E') as (tile & Hsome & _). congruence.
Qed.

Lemma fallen_tiles_stay_fallen_witness :
  JsMap.get "2,0" (board (gameState (gameLoop 16 (withNow 1016 exampleWorld))))
  = None
  /\ isTileActive 410 350 (gameLoop 16 (withNow 1016 exampleWorld)) = false.
Proof.
  assert (Hrun : matchRun exampleWorld
                   (gameLoop 16 (withNow 1016 exampleWorld))).
  { eapply matchRun_next; [apply matchRun_refl|].
    apply matchTurn_frame. simpl. lra. }
  assert (Hstarted : matchPhase (gameState exampleWorld) <> WaitingToStart)
    by discriminate.
  destruct (@fallen_tiles_stay_fallen exampleWorld _ Hstarted Hrun)
    as (_ & Hpix & Hkey & _).
  split; [apply Hkey; reflexivity|].
  apply Hpix. unfold isTileActive, hexOfPixel.
  cbn [gameState exampleWorld centerX centerY board].
  pose proof sqrt3_lt_2 as H2. pose proof (sqrt_pos 3) as H0.
  assert (H3 : (1 < sqrt 3)%R).
  { rewrite <- sqrt_1 at 1. apply sqrt_lt_1; lra. }
  rewrite (@pixelToAxial_close (HexUtils.mkHex 1 0) GameConfig.HEX_SIZE
             350 350 410 350).
  - reflexivity.
  - unfold GameConfig.HEX_SIZE. lra.
  - unfold GameConfig.HEX_SIZE.
    cbn [HexUtils.axialToPixel HexUtils.px HexUtils.py HexUtils.q HexUtils.r].
    replace (350 - (40 * (15 / 10 * 0) + 350))%R with 0%R by lra.
    rewrite Rabs_R0. lra.
  - unfold GameConfig.HEX_SIZE.
    cbn [HexUtils.axialToPixel HexUtils.px HexUtils.py HexUtils.q HexUtils.r].
    replace (350 - (40 * (15 / 10 * 0) + 350))%R with 0%R by lra.
    replace (410 - (40 * (sqrt 3 * 1 + sqrt 3 / 2 * 0) + 350))%R
      with (60 - 40 * sqrt 3)%R by lra.
    rewrite Rabs_R0.
    assert (Habs : (Rabs (60 - 40 * sqrt 3) <= 20)%R)
      by (apply Rabs_le; lra).
    nra.
Defined.

End BoardDecay.

(** ** InputHandler.js: braking *)

Section Movement.

Local Open Scope R_scope.

Lemma gtb_true (a b : R) : b < a -> HexUtils.gtb a b = true.
Proof. intros H. unfold HexUtils.gtb. now destruct (Rlt_dec b a). Qed.

Lemma gtb_false (a b : R) : a <= b -> HexUtils.gtb a b = false.
Proof. intros H. unfold HexUtils.gtb. destruct (Rlt_dec b a); [lra|easy]. Qed.

(** The clamp of a velocity to the top speed. *)
Lemma clamp_speed (vx vy top : R) :
  0 < top ->
  let speed := sqrt (vx * vx + vy * vy) in
  let c := HexUtils.gtb speed top in
  let vx' := if c then vx / speed * top else vx in
  let vy' := if c then vy / speed * top else vy in
  sqrt (vx' * vx' + vy' * vy') <= top
  /\ exists k, 0 < k <= 1 /\ vx' = k * vx /\ vy' = k * vy.
Proof.
  intros Htop speed c vx' vy'.
  assert (Hnn : 0 <= vx * vx + vy * vy) by nra.
  assert (Hss : speed * speed = vx * vx + vy * vy)
    by (apply sqrt_sqrt; exact Hnn).
  destruct (Rlt_dec top speed) as [Hgt|Hle].
  - assert (Hc : c = true) by (apply gtb_true; exact Hgt).
    subst vx' vy'. rewrite Hc.
    assert (Hs0 : speed <> 0) by lra.
    split.
    + replace (vx / speed * top * (vx / speed * top)
               + vy / speed * top * (vy / speed * top))
        with (top * top).
      * rewrite sqrt_square by lra. lra.
      * transitivity ((vx * vx + vy * vy) / (speed * speed) * (top * top));
          [|field; exact Hs0].
        rewrite <- Hss. field. exact Hs0.
    + exists (top / speed). split.
      * split.
        -- apply Rdiv_lt_0_compat; lra.
        -- apply Rmult_le_reg_r with (r := speed); [lra|].
           unfold Rdiv. rewrite Rmult_assoc, Rinv_l by exact Hs0. lra.
      * split; field; exact Hs0.
  - assert (Hc : c = false) by (apply gtb_false; lra).
    subst vx' vy'. rewrite Hc. split; [fold speed; lra|].
    exists 1. split; [lra|]. split; ring.
Qed.

Lemma brake (v d : R) :
  0 <= d ->
  let v' := if HexUtils.gtb v 0 then Rmax 0 (v - d)
            else if HexUtils.ltb v 0 then Rmin 0 (v + d) else v in
  (0 <= v -> 0 <= v' <= v) /\ (v <= 0 -> v <= v' <= 0)
  /\ (Rabs v <= d -> v' = 0) /\ (d < Rabs v -> Rabs v' = Rabs v - d).
Proof.
  intros Hd v'. subst v'.
  destruct (Rlt_dec 0 v) as [Hpos|Hnpos].
  - rewrite gtb_true by exact Hpos.
    rewrite (Rabs_right v) by lra.
    unfold Rmax. destruct (Rle_dec 0 (v - d)).
    + repeat split; try lra. intros _. rewrite Rabs_right; lra.
    + repeat split; try lra.
  - rewrite gtb_false by lra.
    destruct (Rlt_dec v 0) as [Hneg|Hnneg].
    + rewrite ltb_true by exact Hneg.
      rewrite (Rabs_left v) by lra.
      unfold Rmin. destruct (Rle_dec 0 (v + d)).
      * repeat split; try lra.
      * repeat split; try lra. intros _. rewrite Rabs_left; lra.
    + rewrite ltb_false by lra.
      assert (v = 0) by lra. subst v. rewrite Rabs_R0.
      repeat split; lra.
Qed.

Lemma neqb_refl (a : R) : neqb a a = false.
Proof. unfold neqb. destruct (Req_dec_T a a); congruence. Qed.

(** With none of a player's four keys held and a frame time that is not
    negative, [updatePlayerMovement] brakes: each component of the new
    velocity lies between zero and the old one, so the player never turns
    round and never speeds up, and a player at rest stays where it is. *)
Theorem released_keys_brake (held : list string) (player : Player.t)
  (deltaTime : R) :
  let keys := Player.controls player in
  existsb (String.eqb (Player.up keys)) held = false ->
  existsb (String.eqb (Player.down keys)) held = false ->
  existsb (String.eqb (Player.left keys)) held = false ->
  existsb (String.eqb (Player.right keys)) held = false ->
  0 <= deltaTime ->
  let m := integrate held player deltaTime in
  (0 <= Player.vx player -> 0 <= newVx m <= Player.vx player)
  /\ (Player.vx player <= 0 -> Player.vx player <= newVx m <= 0)
  /\ (0 <= Player.vy player -> 0 <= newVy m <= Player.vy player)
  /\ (Player.vy player <= 0 -> Player.vy player <= newVy m <= 0)
  /\ (Player.vx player = 0 -> Player.vy player = 0 ->
      newVx m = 0 /\ newVy m = 0
      /\ newX m = Player.x player /\ newY m = Player.y player).
Proof.
  intros keys Hu Hd Hl Hr Hdt. unfold keys in *. clear keys.
  unfold integrate. cbv beta zeta.
  rewrite Hu, Hd, Hl, Hr.
  rewrite !neqb_refl. cbn [andb].
  set (d := 800 * (deltaTime / 1000)).
  assert (Hd0 : 0 <= d) by (unfold d; lra).
  destruct (@brake (Player.vx player) d Hd0) as (Bx1 & Bx2 & Bx3 & _).
  destruct (@brake (Player.vy player) d Hd0) as (By1 & By2 & By3 & _).
  cbv zeta in Bx1, Bx2, Bx3, By1, By2, By3.
  set (vx1 := if HexUtils.gtb (Player.vx player) 0 then _ else _) in *.
  set (vy1 := if HexUtils.gtb (Player.vy player) 0 then _ else _) in *.
  destruct (@clamp_speed vx1 vy1 GameConfig.PLAYER_SPEED)
    as [_ (k & [Hk0 Hk1] & Hkx & Hky)];
    [unfold GameConfig.PLAYER_SPEED; lra|].
  cbv zeta in Hkx, Hky.
  cbn [newVx newVy newX newY].
  rewrite Hkx, Hky.
  split; [intros H; specialize (Bx1 H); split; nra|].
  split; [intros H; specialize (Bx2 H); split; nra|].
  split; [intros H; specialize (By1 H); split; nra|].
  split; [intros H; specialize (By2 H); split; nra|].
  intros Hx Hy.
  rewrite Bx3 by (rewrite Hx, Rabs_R0; lra).
  rewrite By3 by (rewrite Hy, Rabs_R0; lra).
  repeat split; ring.
Qed.

Lemma released_keys_brake_witness :
  let m := integrate [] (Player.setVelocity 100 0
                           (Player.new 0 player1Config 350 350)) 16 in
  0 <= newVx m <= 100.
Proof.
  intros m.
  apply (@released_keys_brake []
           (Player.setVelocity 100 0 (Player.new 0 player1Config 350 350)) 16);
    try reflexivity; simpl; lra.
Defined.

End Movement.

(** ** InputHandler.js: a frame of movement on the example board *)

(** A committed move: player 0 holds its right key for one frame of 16 ms
    from rest at the centre of the board. *)
Lemma exampleMotion :
  let m := integrate ["KeyD"%string] (Player.new 0 player1Config 350 350) 16 in
  newVx m = (96 / 5)%R /\ newVy m = 0%R
  /\ newX m = (3503072 / 10000)%R /\ newY m = 350%R.
Proof.
  intros m.
  destruct (integrate_spec ["KeyD"%string]
              (Player.new 0 player1Config 350 350) 16)
    as (Hvx & Hvy & Hx & Hy).
  fold m in Hvx, Hvy, Hx, Hy.
  cbv zeta in Hvx, Hvy.
  change (existsb (String.eqb (Player.left
            (Player.controls (Player.new 0 player1Config 350 350))))
            ["KeyD"%string]) with false in Hvx, Hvy.
  change (existsb (String.eqb (Player.right
            (Player.controls (Player.new 0 player1Config 350 350))))
            ["KeyD"%string]) with true in Hvx, Hvy.
  change (existsb (String.eqb (Player.up
            (Player.controls (Player.new 0 player1Config 350 350))))
            ["KeyD"%string]) with false in Hvx, Hvy.
  change (existsb (String.eqb (Player.down
            (Player.controls (Player.new 0 player1Config 350 350))))
            ["KeyD"%string]) with false in Hvx, Hvy.
  cbv iota in Hvx, Hvy.
  rewrite neqb_refl in Hvx, Hvy.
  rewrite andb_false_r in Hvx, Hvy.
  assert (H10 : neqb 1 0 = true)
    by (unfold neqb; destruct (Req_dec_T 1 0); [lra|reflexivity]).
  rewrite H10 in Hvx, Hvy.
  cbn [Player.vx Player.vy Player.new] in Hvx, Hvy.
  rewrite neqb_refl in Hvx, Hvy.
  rewrite (@gtb_false 0 0) in Hvx, Hvy by lra.
  rewrite (@ltb_false 0 0) in Hvx, Hvy by lra.
  assert (Hs : sqrt ((0 + 1 * 1200 * (16 / 1000)) * (0 + 1 * 1200 * (16 / 1000))
                     + 0 * 0) = (96 / 5)%R).
  { replace ((0 + 1 * 1200 * (16 / 1000)) * (0 + 1 * 1200 * (16 / 1000))
             + 0 * 0)%R with ((96 / 5) * (96 / 5))%R by lra.
    apply sqrt_square. lra. }
  rewrite Hs in Hvx, Hvy.
  rewrite gtb_false in Hvx, Hvy by (unfold GameConfig.PLAYER_SPEED; lra).
  assert (Hvx' : newVx m = (96 / 5)%R) by (rewrite Hvx; lra).
  split; [exact Hvx'|]. split; [exact Hvy|].
  rewrite Hx, Hy, Hvx', Hvy. cbn [Player.x Player.y Player.new].
  split; lra.
Qed.

Lemma exampleMotion_active :
  let m := integrate ["KeyD"%string] (Player.new 0 player1Config 350 350) 16 in
  isTileActive (newX m) (newY m) (withHeldKeys ["KeyD"%string] exampleWorld)
  = true.
Proof.
  intros m. destruct exampleMotion as (_ & _ & Hx & Hy). fold m in Hx, Hy.
  rewrite Hx, Hy. unfold isTileActive, hexOfPixel.
  cbn [gameState withHeldKeys exampleWorld centerX centerY board].
  pose proof sqrt3_lt_2 as H2. pose proof (sqrt_pos 3) as H0.
  rewrite (@pixelToAxial_close (HexUtils.mkHex 0 0) GameConfig.HEX_SIZE
             350 350 (3503072 / 10000) 350).
  - reflexivity.
  - unfold GameConfig.HEX_SIZE. lra.
  - unfold GameConfig.HEX_SIZE.
    cbn [HexUtils.axialToPixel HexUtils.px HexUtils.py HexUtils.q HexUtils.r].
    replace (350 - (40 * (15 / 10 * 0) + 350))%R with 0%R by lra.
    rewrite Rabs_R0. lra.
  - unfold GameConfig.HEX_SIZE.
    cbn [HexUtils.axialToPixel HexUtils.px HexUtils.py HexUtils.q HexUtils.r].
    replace (350 - (40 * (15 / 10 * 0) + 350))%R with 0%R by lra.
    replace (3503072 / 10000 - (40 * (sqrt 3 * 0 + sqrt 3 / 2 * 0) + 350))%R
      with (3072 / 10000)%R by lra.
    rewrite Rabs_R0, Rabs_right by lra. lra.
Qed.

Lemma offboard_move_eliminates_witness :
  let off := onGameState (withBoard []) exampleWorld in
  let on := withHeldKeys ["KeyD"%string] exampleWorld in
  emitted (updatePlayerMovement 0 16 off) = [playerEliminated 0]
  /\ fallenAt 0 350 350 1 (updatePlayerMovement 0 16 off)
  /\ fallenAt 0 350 350 1 (updatePlayers 16 off)
  /\ option_map Player.x (getPlayer 0 (updatePlayerMovement 0 16 on))
     = Some (3503072 / 10000)%R
  /\ option_map Player.y (getPlayer 0 (updatePlayerMovement 0 16 on))
     = Some 350%R
  /\ option_map Player.vx (getPlayer 0 (updatePlayerMovement 0 16 on))
     = Some (96 / 5)%R
  /\ emitted (updatePlayerMovement 0 16 on) = [].
Proof.
  intros off on.
  destruct (@offboard_move_eliminates off 0
              (Player.new 0 player1Config 350 350) 16 eq_refl eq_refl)
    as (_ & _ & _ & _ & Hoff & _).
  destruct (Hoff eq_refl) as (Hem & Hfall & _ & _ & _ & Htick).
  split; [exact Hem|]. split; [exact Hfall|].
  split; [destruct (Htick (or_introl eq_refl) eq_refl) as [Ht _]; exact Ht|].
  destruct (@offboard_move_eliminates on 0
              (Player.new 0 player1Config 350 350) 16 eq_refl eq_refl)
    as (_ & _ & _ & _ & _ & Hon).
  destruct (Hon exampleMotion_active)
    as (_ & (pl & Hget & Hx & Hy & Hvx & _) & _ & Hlog).
  destruct exampleMotion as (Hmvx & _ & Hmx & Hmy).
  cbn [heldKeys withHeldKeys on] in Hx, Hy, Hvx.
  rewrite Hget. cbn [option_map].
  rewrite Hx, Hy, Hvx, Hmx, Hmy, Hmvx.
  repeat split. exact Hlog.
Defined.

(** ** TileFallManager.js: what the fall of a tile does *)

Section FallOfATile.

Lemma falling_twice (t s : R) (pl : Player.t) :
  Player.setEliminated s
    (Player.startFalling t (Player.setEliminated s (Player.startFalling t pl)))
  = Player.setEliminated s (Player.startFalling t pl).
Proof. reflexivity. Qed.

Lemma filter_twice (A : Type) (f g : A -> bool) (l : list A) :
  filter f (filter g l) = filter (fun x => g x && f x) l.
Proof.
  induction l as [|a l IH]; simpl; [reflexivity|].
  destruct (g a); simpl; [destruct (f a)|]; now rewrite IH.
Qed.

Lemma eliminate_fold (l : list nat) (w : World) :
  (forall p, In p l -> (p < length (heap w))%nat) ->
  let w' := fold_left (fun acc p => eliminatePlayer p (startFalling p acc))
                      l w in
  gameState w'
  = withAlivePlayers
      (filter (fun p => negb (existsb (Nat.eqb p) l))
              (alivePlayers (gameState w)))
      (gameState w)
  /\ emitted w' = emitted w ++ map playerEliminated l
  /\ now w' = now w
  /\ length (heap w') = length (heap w)
  /\ (forall p, ~ In p l -> getPlayer p w' = getPlayer p w)
  /\ (forall p pl, In p l -> getPlayer p w = Some pl ->
        getPlayer p w'
        = Some (Player.setEliminated (now w - gameStartTime (gameState w))
                  (Player.startFalling (now w) pl))).
Proof.
  revert w. induction l as [|a l IH]; intros w Hall.
  - simpl. split.
    + destruct (gameState w) as [b ps al mp gst li cx cy]. cbn.
      replace (filter (fun _ : nat => true) al) with al; [reflexivity|].
      induction al as [|a al IHal]; simpl; congruence.
    + rewrite app_nil_r. repeat split; auto. intros p pl [].
  - cbn [fold_left].
    set (w1 := startFalling a w).
    destruct (getPlayer a w) as [pla|] eqn:Ea.
    2:{ apply nth_error_None in Ea. specialize (Hall a (or_introl eq_refl)).
        lia. }
    assert (Ea1 : getPlayer a w1 = Some (Player.startFalling (now w) pla))
      by (apply getPlayer_updatePlayer_same; exact Ea).
    set (wa := eliminatePlayer a w1).
    assert (Hg : gameState wa
                 = withAlivePlayers
                     (filter (fun p' => negb (p' =? a)%nat)
                             (alivePlayers (gameState w))) (gameState w))
      by apply (@eliminatePlayer_gameState w1 a _ Ea1).
    assert (He : emitted wa = emitted w ++ [playerEliminated a])
      by apply (@eliminatePlayer_emitted w1 a _ Ea1).
    assert (Hh : heap wa
                 = listUpdate a
                     (Player.setEliminated (now w - gameStartTime (gameState w)))
                     (heap w1))
      by apply (@eliminatePlayer_heap w1 a _ Ea1).
    assert (Hn : now wa = now w)
      by apply (@eliminatePlayer_clock w1 a _ Ea1).
    destruct (@eliminatePlayer_getPlayer w1 a _ Ea1) as [Hsame Hother].
    fold wa in Hsame, Hother.
    assert (Hlen : length (heap wa) = length (heap w)).
    { rewrite Hh, length_listUpdate. unfold w1, startFalling, updatePlayer.
      cbn. apply length_listUpdate. }
    destruct (IH wa) as (Ig & Ie & In' & Il & Io & Is).
    { intros p Hp. rewrite Hlen. apply Hall. now right. }
    cbv zeta in Ig, Ie, In', Il, Io, Is.
    split; [|split; [|split; [|split; [|split]]]].
    + rewrite Ig, Hg. unfold withAlivePlayers.
      cbn [board players alivePlayers matchPhase gameStartTime listening
           centerX centerY].
      f_equal.
      rewrite filter_twice. apply filter_ext. intros p. cbn [existsb].
      now rewrite negb_orb, (Nat.eqb_sym p a).
    + rewrite Ie, He, <- app_assoc. reflexivity.
    + congruence.
    + congruence.
    + intros p Hp. rewrite Io by (simpl in Hp; tauto).
      rewrite Hother by (simpl in Hp; intros ->; tauto).
      apply getPlayer_updatePlayer_other. simpl in Hp. tauto.
    + intros p pl Hp Hpl.
      assert (Hgs : gameStartTime (gameState wa) = gameStartTime (gameState w))
        by now rewrite Hg.
      destruct (Nat.eq_dec p a) as [->|Hne].
      * assert (pl = pla) by congruence. subst pla.
        destruct (in_dec Nat.eq_dec a l) as [Hin|Hnot].
        -- rewrite (Is a _ Hin Hsame), Hn, Hgs. reflexivity.
        -- rewrite Io by exact Hnot. exact Hsame.
      * destruct Hp as [Hp|Hp]; [congruence|].
        rewrite (Is p pl Hp), Hn, Hgs; [reflexivity|].
        rewrite Hother by exact Hne.
        unfold w1, startFalling.
        rewrite getPlayer_updatePlayer_other by congruence. exact Hpl.
Qed.

(** [executeFall] on the key of a tile of the board, when every player of
    the alive roster is an allocated object: the players that
    [checkPlayersOnTile] finds on the tile leave the alive roster, start
    falling at the current time and are eliminated with the time since
    the match start as survival time, with one [playerEliminated] each in
    the order of the roster, followed by one [tileFallen]; nobody else
    changes; the tile starts to shatter, the key leaves the pending falls,
    and the only timers added are game-over checks.  On a key that is not
    on the board, only the pending fall is forgotten. *)
Theorem executeFall_effect (k : string) (w : World) :
  (forall p, In p (alivePlayers (gameState w)) -> (p < length (heap w))%nat) ->
  let onTile := checkPlayersOnTile k w in
  let w' := executeFall k w in
  (forall tile, JsMap.get k (board (gameState w)) = Some tile ->
     alivePlayers (gameState w')
     = filter (fun p => negb (playerOnKey k w p)) (alivePlayers (gameState w))
     /\ emitted w'
        = emitted w ++ map playerEliminated onTile ++ [tileFallen k]
     /\ board (gameState w')
        = JsMap.set k (Tile.startShatter (now w) tile) (board (gameState w))
     /\ (forall p pl, In p onTile -> getPlayer p w = Some pl ->
           getPlayer p w'
           = Some (Player.setEliminated (now w - gameStartTime (gameState w))
                     (Player.startFalling (now w) pl)))
     /\ (forall p, ~ In p onTile -> getPlayer p w' = getPlayer p w))
  /\ (JsMap.get k (board (gameState w)) = None ->
      w' = onTileFallManager
             (fun m => withPendingFalls
                         (JsMap.delete k (pendingFalls m)) m) w)
  /\ pendingFalls (tileFallManager w')
     = JsMap.delete k (pendingFalls (tileFallManager w))
  /\ matchPhase (gameState w') = matchPhase (gameState w)
  /\ players (gameState w') = players (gameState w)
  /\ exists extra, timers w' = timers w ++ extra
                   /\ forall t, In t extra -> callback t = GameOverCheck.
Proof.
  intros Halloc onTile w'.
  set (w1 := onTileFallManager
               (fun m => withPendingFalls (JsMap.delete k (pendingFalls m)) m)
               w).
  set (w2 := fold_left (fun acc p => eliminatePlayer p (startFalling p acc))
                       onTile w1).
  assert (Hw' : w' = removeTile k w2) by reflexivity.
  assert (Hon : forall p, In p onTile -> (p < length (heap w1))%nat).
  { intros p Hp. apply checkPlayersOnTile_alive in Hp. now apply Halloc. }
  destruct (@eliminate_fold onTile w1 Hon) as (Fg & Fe & Fn & Fl & Fo & Fs).
  fold w2 in Fg, Fe, Fn, Fl, Fo, Fs. cbv zeta in Fg, Fe, Fn, Fl, Fo, Fs.
  assert (Hadd : addsChecks w1 w2).
  { apply addsChecks_fold. intros p w0.
    eapply addsChecks_trans; [|apply addsChecks_eliminatePlayer].
    apply addsChecks_updatePlayer. }
  destruct Hadd as (At & Ab & _ & extra & Aex & _ & Acb).
  assert (Hb2 : board (gameState w2) = board (gameState w))
    by (now rewrite Fg).
  split; [|split].
  - intros tile Hget.
    assert (Hrem : w' = logEvent (tileFallen k)
                          (setTile k (Tile.startShatter (now w2) tile) w2)).
    { rewrite Hw'. apply removeTile_present. now rewrite Hb2. }
    rewrite Hrem.
    cbn [logEvent setTile onGameState gameState withBoard alivePlayers
         emitted board getPlayer heap].
    rewrite Fg, Fe, Fn.
    cbn [withAlivePlayers alivePlayers board].
    split; [|split; [|split; [reflexivity|split]]].
    + change (alivePlayers (gameState w1)) with (alivePlayers (gameState w)).
      apply filter_ext_in. intros p Hp. f_equal.
      unfold onTile, checkPlayersOnTile. rewrite Hget.
      destruct (playerOnKey k w p) eqn:E.
      * apply existsb_exists. exists p. split; [|apply Nat.eqb_refl].
        apply filter_In. now split.
      * destruct (existsb _ _) eqn:X; [|reflexivity].
        apply existsb_exists in X as (q & Hq & Hpq).
        apply Nat.eqb_eq in Hpq. subst q.
        apply filter_In in Hq. destruct Hq. congruence.
    + now rewrite <- app_assoc.
    + intros p pl Hp Hpl. apply (Fs p pl Hp Hpl).
    + intros p Hp. apply (Fo p Hp).
  - intros Hnone.
    assert (Hempty : onTile = []).
    { unfold onTile, checkPlayersOnTile. now rewrite Hnone. }
    rewrite Hw'. unfold w2. rewrite Hempty. simpl.
    unfold removeTile.
    change (board (gameState w1)) with (board (gameState w)).
    now rewrite Hnone.
  - assert (Hf : forall w0, tileFallManager (removeTile k w0)
                             = tileFallManager w0
                             /\ timers (removeTile k w0) = timers w0
                             /\ matchPhase (gameState (removeTile k w0))
                                = matchPhase (gameState w0)
                             /\ players (gameState (removeTile k w0))
                                = players (gameState w0)).
    { intros w0. unfold removeTile.
      destruct (JsMap.get k _); [|tauto].
      rewrite emit_tileFallen. cbn. tauto. }
    destruct (Hf w2) as (H1 & H2 & H3 & H4).
    rewrite Hw', H1, H2, H3, H4, At, Fg, Aex.
    split; [reflexivity|]. split; [reflexivity|]. split; [reflexivity|].
    exists extra. split; [reflexivity|]. intros t Ht. now apply Acb.
Qed.

Lemma executeFall_effect_witness :
  emitted (executeFall "0,0" exampleWorld)
  = emitted exampleWorld
    ++ map playerEliminated (checkPlayersOnTile "0,0" exampleWorld)
    ++ [tileFallen "0,0"].
Proof.
  destruct (@executeFall_effect "0,0" exampleWorld) as [H _].
  - intros p [<-|[<-|[]]]; simpl; lia.
  - destruct (H (Tile.new (HexUtils.mkHex 0 0)) eq_refl) as (_ & He & _).
    exact He.
Defined.

End FallOfATile.

(** ** The selection loop never dies and never doubles *)

Section SelectionLoop.

Lemma keepsQueue_refl (w : World) : keepsQueue w w.
Proof. split; auto. Qed.

Lemma keepsQueue_trans (w1 w2 w3 : World) :
  keepsQueue w1 w2 -> keepsQueue w2 w3 -> keepsQueue w1 w3.
Proof. intros [R1 T1] [R2 T2]. split; [congruence|auto]. Qed.

Lemma keepsQueue_same (w w' : World) :
  tileFallManager w' = tileFallManager w -> timers w' = timers w ->
  keepsQueue w w'.
Proof. intros Ht Hq. unfold keepsQueue. rewrite Ht, Hq. auto. Qed.

Lemma keepsQueue_addsChecks (w w' : World) :
  addsChecks w w' -> keepsQueue w w'.
Proof.
  intros (Ht & _ & _ & extra & Hq & _). split; [now rewrite Ht|].
  intros t Hin. rewrite Hq. apply in_or_app. now left.
Qed.

Lemma loopArmed_keeps (w w' : World) :
  keepsQueue w w' -> loopArmed w -> loopArmed w'.
Proof.
  intros [Hr Hq] Hw Hrun. rewrite Hr in Hrun.
  destruct (Hw Hrun) as (t & Hin & Hc). exists t. auto.
Qed.

Lemma loopArmed_scheduleNextFall (w : World) : loopArmed (scheduleNextFall w).
Proof.
  unfold scheduleNextFall, loopArmed.
  destruct (isRunning (tileFallManager w)) eqn:E; cbn [negb].
  - intros _. cbn.
    exists (mkTimer (nextTimerId w)
                    (now w + IZR (fallInterval (tileFallManager w))) NextFall).
    split; [apply in_or_app; right; now left|reflexivity].
  - congruence.
Qed.

Lemma loopArmed_stop (w : World) : loopArmed (stop w).
Proof.
  unfold loopArmed. destruct (stop_bookkeeping w) as (Hr & _). congruence.
Qed.

Lemma removeTile_queue (k : string) (w : World) :
  keepsQueue w (removeTile k w).
Proof.
  unfold removeTile. destruct (JsMap.get k _); [|apply keepsQueue_refl].
  rewrite emit_tileFallen. now apply keepsQueue_same.
Qed.

Lemma executeFall_queue (k : string) (w : World) :
  keepsQueue w (executeFall k w).
Proof.
  unfold executeFall.
  eapply keepsQueue_trans; [|apply removeTile_queue].
  set (w1 := onTileFallManager _ w).
  apply keepsQueue_trans with (w2 := w1); [split; auto|].
  apply keepsQueue_addsChecks, addsChecks_fold. intros p w0.
  eapply addsChecks_trans; [|apply addsChecks_eliminatePlayer].
  apply addsChecks_updatePlayer.
Qed.

Lemma loopArmed_gameOverCheck (w : World) :
  loopArmed w -> loopArmed (gameOverCheck w).
Proof.
  intros Hw. unfold gameOverCheck. destruct (_ && _); [|exact Hw].
  unfold emit. cbn [logEvent gameState onGameState withMatchPhase listening].
  destruct (listening (gameState w)).
  - apply loopArmed_stop.
  - revert Hw. apply loopArmed_keeps. now apply keepsQueue_same.
Qed.

Lemma fold_updatePlayer_queue (f : Player.t -> Player.t) (l : list nat)
  (w : World) :
  keepsQueue w (fold_left (fun acc q => updatePlayer q f acc) l w).
Proof.
  revert w. induction l as [|a l IH]; intros w; simpl;
    [apply keepsQueue_refl|].
  eapply keepsQueue_trans; [|apply IH]. now apply keepsQueue_same.
Qed.

Lemma gameLoop_queue (deltaTime : R) (w : World) :
  keepsQueue w (gameLoop deltaTime w).
Proof.
  unfold gameLoop, update.
  set (w1 := if phaseEqb _ InProgress then _ else w).
  assert (H1 : keepsQueue w w1).
  { subst w1. destruct (phaseEqb _ _); [|apply keepsQueue_refl].
    apply keepsQueue_addsChecks, addsChecks_updatePlayers. }
  eapply keepsQueue_trans; [exact H1|].
  apply keepsQueue_trans with (w2 := updateTileAnimations w1);
    [now apply keepsQueue_same|].
  unfold render. set (w2 := updateTileAnimations w1).
  set (w3 := onGameState _ w2).
  assert (H3 : keepsQueue w2 w3) by now apply keepsQueue_same.
  destruct (board (gameState w2)); [exact H3|].
  eapply keepsQueue_trans; [exact H3|apply fold_updatePlayer_queue].
Qed.

Lemma loopArmed_step (w w' : World) : step w w' -> loopArmed w -> loopArmed w'.
Proof.
  intros Hstep Hw. destruct Hstep as [w before after t time coin pick Hq
    | | | | | | ].
  - set (w0 := withNow time (withTimers (before ++ after) w)).
    destruct (callback t) eqn:Ec; cbn [runCallback].
    + apply loopArmed_scheduleNextFall.
    + assert (Hw0 : loopArmed w0).
      { intros Hrun. destruct (Hw Hrun) as (t' & Hin & Hc).
        exists t'. split; [|exact Hc]. cbn. rewrite Hq in Hin.
        apply in_app_or in Hin. apply in_or_app.
        destruct Hin as [Hin|[Heq|Hin]]; auto. subst t'. congruence. }
      revert Hw0. apply loopArmed_keeps, executeFall_queue.
    + apply loopArmed_gameOverCheck.
      intros Hrun. destruct (Hw Hrun) as (t' & Hin & Hc).
      exists t'. split; [|exact Hc]. cbn. rewrite Hq in Hin.
      apply in_app_or in Hin. apply in_or_app.
      destruct Hin as [Hin|[Heq|Hin]]; auto. subst t'. congruence.
  - apply (loopArmed_keeps (gameLoop_queue deltaTime (withNow time w))).
    revert Hw. apply loopArmed_keeps. now apply keepsQueue_same.
  - unfold handleKeyDown. destruct (existsb _ _); [exact Hw|].
    revert Hw. apply loopArmed_keeps. now apply keepsQueue_same.
  - revert Hw. apply loopArmed_keeps. now apply keepsQueue_same.
  - apply loopArmed_scheduleNextFall.
  - apply loopArmed_stop.
  - revert Hw. apply loopArmed_keeps. now apply keepsQueue_same.
Qed.

Lemma loopArmed_steps (w w' : World) :
  steps w w' -> loopArmed w -> loopArmed w'.
Proof.
  induction 1 as [|w1 w2 w3 _ IH Hstep]; [auto|].
  intros Hw. apply (loopArmed_step Hstep). now apply IH.
Qed.

Lemma NoDup_map_eq (A B : Type) (f : A -> B) (l : list A) (a b : A) :
  NoDup (map f l) -> In a l -> In b l -> f a = f b -> a = b.
Proof.
  induction l as [|c l IH]; simpl; [contradiction|].
  intros Hnd Ha Hb Hf. inversion Hnd as [|? ? Hc Hnd']; subst.
  destruct Ha as [->|Ha], Hb as [->|Hb]; auto.
  - exfalso. apply Hc. rewrite Hf. now apply in_map.
  - exfalso. apply Hc. rewrite <- Hf. now apply in_map.
Qed.

(** In every world reached from a fresh scheduler by turns of the event
    loop: while the scheduler runs, the queue holds a selection timer, and
    it is the one [nextFallTimeout] holds, so the loop of [scheduleNextFall]
    never dies; when the scheduler does not run, the queue holds none; the
    queue never holds two selection timers, nor two fall timers for the
    same key, and the fall timer of a key is the one [pendingFalls]
    holds for it. *)
Theorem selection_loop_single (w0 w : World) :
  steps w0 w -> schedulerFresh w0 ->
  (isRunning (tileFallManager w) = true ->
   exists t, In t (timers w) /\ callback t = NextFall
             /\ nextFallTimeout (tileFallManager w) = Some (timerId t))
  /\ (isRunning (tileFallManager w) = false ->
      forall t, In t (timers w) -> callback t <> NextFall)
  /\ (forall t1 t2, In t1 (timers w) -> In t2 (timers w) ->
        callback t1 = NextFall -> callback t2 = NextFall -> t1 = t2)
  /\ (forall t1 t2 k, In t1 (timers w) -> In t2 (timers w) ->
        callback t1 = ExecuteFall k -> callback t2 = ExecuteFall k ->
        t1 = t2)
  /\ (forall t k, In t (timers w) -> callback t = ExecuteFall k ->
        JsMap.get k (pendingFalls (tileFallManager w)) = Some (timerId t)).
Proof.
  intros Hsteps Hfresh.
  assert (Harmed : loopArmed w).
  { apply (loopArmed_steps Hsteps). intros Hrun.
    destruct Hfresh as ((Hr & _) & _). congruence. }
  destruct (schedulerInvariant_steps Hsteps (schedulerFresh_invariant Hfresh))
    as ((_ & Hnd & _) & (Hnext & Hexec & _) & _).
  split; [|split; [|split; [|split]]].
  - intros Hrun. destruct (Harmed Hrun) as (t & Hin & Hc).
    exists t. destruct (Hnext t Hin Hc). auto.
  - intros Hrun t Hin Hc. destruct (Hnext t Hin Hc). congruence.
  - intros t1 t2 H1 H2 C1 C2.
    apply (NoDup_map_eq timerId (timers w)); auto.
    destruct (Hnext t1 H1 C1) as [E1 _]. destruct (Hnext t2 H2 C2) as [E2 _].
    congruence.
  - intros t1 t2 k H1 H2 C1 C2.
    apply (NoDup_map_eq timerId (timers w)); auto.
    destruct (Hexec t1 k H1 C1) as [E1 _].
    destruct (Hexec t2 k H2 C2) as [E2 _]. congruence.
  - intros t k Hin Hc. now destruct (Hexec t k Hin Hc).
Qed.

Lemma exampleWorld_fresh : schedulerFresh exampleWorld.
Proof.
  split; [|split].
  - repeat split; simpl; contradiction.
  - repeat split; simpl; try lia; try constructor; contradiction.
  - simpl. repeat constructor; simpl; intuition discriminate.
Qed.

Lemma selection_loop_single_witness :
  exists t, In t (timers (startGame exampleWorld)) /\ callback t = NextFall
            /\ nextFallTimeout (tileFallManager (startGame exampleWorld))
               = Some (timerId t).
Proof.
  apply (@selection_loop_single exampleWorld (startGame exampleWorld)).
  - apply steps_next with exampleWorld; [apply steps_refl|].
    apply step_startGame. reflexivity.
  - apply exampleWorld_fresh.
  - reflexivity.
Defined.

End SelectionLoop.

(** ** No tile falls without a warning *)

Section Warnings.

Lemma app_split_left (A : Type) (a m l1 l2 : list A) (x : A) :
  a ++ m = l1 ++ x :: l2 -> ~ In x m ->
  exists l2', a = l1 ++ x :: l2' /\ l2 = l2' ++ m.
Proof.
  revert a. induction l1 as [|z l1 IH]; intros [|y a] H Hx; simpl in *.
  - subst m. exfalso. apply Hx. now left.
  - injection H as -> H. exists a. auto.
  - subst m. exfalso. apply Hx. right. apply in_or_app. right. now left.
  - injection H as -> H. destruct (IH a H Hx) as (l2' & -> & ->).
    exists l2'. auto.
Qed.

Lemma fallsWarned_app (log more : list Event) :
  (forall k, ~ In (tileFallen k) more) ->
  fallsWarned log -> fallsWarned (log ++ more).
Proof.
  intros Hq Hlog l1 l2 k H.
  destruct (@app_split_left _ _ _ _ _ _ H (Hq k)) as (l2' & Hl & _).
  now apply (Hlog l1 l2' k).
Qed.

Lemma fallsWarned_fall (log : list Event) (k : string) :
  In (tileWarning k) log -> fallsWarned log ->
  fallsWarned (log ++ [tileFallen k]).
Proof.
  intros Hin Hlog l1 l2 k' H.
  destruct (String.string_dec k k') as [<-|E].
  - destruct l2 as [|e l2] using rev_ind.
    + apply app_inj_tail in H as [<- _]. exact Hin.
    + clear IHl2. rewrite app_comm_cons, app_assoc in H.
      apply app_inj_tail in H as [H _]. now apply (Hlog l1 l2 k).
  - assert (Hq : ~ In (tileFallen k') [tileFallen k]).
    { intros [Heq|[]]. injection Heq as ->. now apply E. }
    destruct (@app_split_left _ _ _ _ _ _ H Hq) as (l2' & Hl & _).
    now apply (Hlog l1 l2' k').
Qed.

Lemma appendsQuiet_refl (w : World) : appendsQuiet w w.
Proof.
  split; [|auto]. exists []. split; [now rewrite app_nil_r|].
  intros k [].
Qed.

Lemma appendsQuiet_trans (w1 w2 w3 : World) :
  appendsQuiet w1 w2 -> appendsQuiet w2 w3 -> appendsQuiet w1 w3.
Proof.
  intros [(m1 & E1 & Q1) T1] [(m2 & E2 & Q2) T2]. split.
  - exists (m1 ++ m2). split; [now rewrite E2, E1, app_assoc|].
    intros k Hin. apply in_app_or in Hin. destruct Hin; [apply (Q1 k)|apply (Q2 k)];
      assumption.
  - intros t k Hin Hc. apply (T1 t k); [|exact Hc]. now apply (T2 t k).
Qed.

Lemma appendsQuiet_same (w w' : World) :
  emitted w' = emitted w -> timers w' = timers w -> appendsQuiet w w'.
Proof.
  intros He Ht. unfold appendsQuiet. rewrite He, Ht. apply appendsQuiet_refl.
Qed.

Lemma appendsQuiet_log (w w' : World) (e : Event) :
  emitted w' = emitted w ++ [e] -> (forall k, e <> tileFallen k) ->
  (forall t k, In t (timers w') -> callback t = ExecuteFall k ->
               In t (timers w)) ->
  appendsQuiet w w'.
Proof.
  intros He Hne Ht. split; [|exact Ht].
  exists [e]. split; [exact He|]. intros k [Hk|[]]. now apply (Hne k).
Qed.

Lemma appendsQuiet_fold (A : Type) (f : World -> A -> World) (l : list A)
  (w : World) :
  (forall a w0, appendsQuiet w0 (f w0 a)) -> appendsQuiet w (fold_left f l w).
Proof.
  intros Hf. revert w. induction l as [|a l IH]; intros w; simpl.
  - apply appendsQuiet_refl.
  - eapply appendsQuiet_trans; [apply Hf|apply IH].
Qed.

Lemma appendsQuiet_stop (w : World) : appendsQuiet w (stop w).
Proof.
  destruct (stop_frame w) as (_ & _ & _ & _ & _ & He & _).
  split.
  - exists []. split; [now rewrite app_nil_r|]. intros k [].
  - intros t k Hin _. now apply stop_timers in Hin.
Qed.

Lemma appendsQuiet_eliminatePlayer (p : nat) (w : World) :
  appendsQuiet w (eliminatePlayer p w).
Proof.
  destruct (getPlayer p w) as [pl|] eqn:Ep;
    [|unfold eliminatePlayer; rewrite Ep; apply appendsQuiet_refl].
  apply appendsQuiet_log with (e := playerEliminated p).
  - apply (@eliminatePlayer_emitted w p pl Ep).
  - discriminate.
  - intros t k Hin Hc. rewrite (@eliminatePlayer_timers w p pl Ep) in Hin.
    destruct (_ <=? 1)%nat; [|exact Hin].
    apply in_app_or in Hin. destruct Hin as [Hin|[<-|[]]]; [exact Hin|].
    discriminate.
Qed.

Lemma appendsQuiet_updatePlayerMovement (q : nat) (deltaTime : R)
  (w : World) : appendsQuiet w (updatePlayerMovement q deltaTime w).
Proof.
  unfold updatePlayerMovement.
  destruct (getPlayer q w) as [pl|]; [|apply appendsQuiet_refl].
  destruct (Player.isFalling pl); [apply appendsQuiet_refl|].
  destruct (negb _).
  - eapply appendsQuiet_trans; [|apply appendsQuiet_eliminatePlayer].
    now apply appendsQuiet_same.
  - now apply appendsQuiet_same.
Qed.

Lemma appendsQuiet_gameLoop (deltaTime : R) (w : World) :
  appendsQuiet w (gameLoop deltaTime w).
Proof.
  unfold gameLoop, update.
  set (w1 := if phaseEqb _ InProgress then _ else w).
  assert (H1 : appendsQuiet w w1).
  { subst w1. destruct (phaseEqb _ _); [|apply appendsQuiet_refl].
    unfold updatePlayers. destruct (negb _); [apply appendsQuiet_refl|].
    apply appendsQuiet_fold. intros q w0.
    apply appendsQuiet_updatePlayerMovement. }
  eapply appendsQuiet_trans; [exact H1|].
  apply appendsQuiet_trans with (w2 := updateTileAnimations w1);
    [now apply appendsQuiet_same|].
  unfold render. set (w2 := updateTileAnimations w1).
  set (w3 := onGameState _ w2).
  assert (H3 : appendsQuiet w2 w3) by now apply appendsQuiet_same.
  destruct (board (gameState w2)); [exact H3|].
  eapply appendsQuiet_trans; [exact H3|].
  apply appendsQuiet_fold. intros q w0. now apply appendsQuiet_same.
Qed.

Lemma appendsQuiet_gameOverCheck (w : World) :
  appendsQuiet w (gameOverCheck w).
Proof.
  unfold gameOverCheck. destruct (_ && _); [|apply appendsQuiet_refl].
  set (e := gameOver _). set (w1 := onGameState _ w).
  apply appendsQuiet_trans with (w2 := logEvent e w1).
  - apply appendsQuiet_log with (e := e); [reflexivity|discriminate|auto].
  - unfold emit. destruct (listening (gameState (logEvent e w1)));
      [|apply appendsQuiet_refl].
    subst e. cbn beta iota. apply appendsQuiet_stop.
Qed.

Lemma appendsQuiet_scheduleNextFall (w : World) :
  appendsQuiet w (scheduleNextFall w).
Proof.
  unfold scheduleNextFall. destruct (negb _); [apply appendsQuiet_refl|].
  split.
  - exists []. split; [now rewrite app_nil_r|]. intros k [].
  - intros t k Hin Hc. cbn in Hin. apply in_app_or in Hin.
    destruct Hin as [Hin|[<-|[]]]; [exact Hin|discriminate].
Qed.

Lemma warned_quiet (w w' : World) :
  appendsQuiet w w' ->
  pendingWarned w /\ fallsWarned (emitted w) ->
  pendingWarned w' /\ fallsWarned (emitted w').
Proof.
  intros [(more & He & Hq) Ht] [Hp Hf]. split.
  - intros t k Hin Hc. rewrite He. apply in_or_app. left.
    apply (Hp t k); [|exact Hc]. now apply (Ht t k).
  - rewrite He. now apply fallsWarned_app.
Qed.

Lemma warned_selectRandomTile (coin pick : R) (w : World) :
  NoDup (JsMap.keys (board (gameState w))) ->
  pendingWarned w /\ fallsWarned (emitted w) ->
  pendingWarned (selectRandomTile coin pick w)
  /\ fallsWarned (emitted (selectRandomTile coin pick w)).
Proof.
  intros Hnd [Hp Hf]. unfold selectRandomTile. rewrite gatherTiles_spec.
  destruct (length (candidates w) =? 0)%nat; [now split|].
  match goal with |- context [match ?c with Some _ => _ | None => _ end] =>
    destruct c as [k|] eqn:Ec end; [|now split].
  assert (Hk : In k (candidates w)).
  { destruct (_ && _); apply nth_error_In in Ec; [|exact Ec].
    unfold occupiedCandidates in Ec. now apply filter_In in Ec. }
  apply (in_candidates w k Hnd) in Hk as (tile & Hget & Hact & _).
  rewrite (@markTileWarning_active w k tile Hget Hact).
  cbn [setTimeout logEvent setTile onGameState onTileFallManager timers
       emitted snd fst].
  split.
  - intros t k' Hin Hc. apply in_app_or in Hin. apply in_or_app.
    destruct Hin as [Hin|[<-|[]]].
    + left. now apply (Hp t k').
    + right. injection Hc as <-. now left.
  - apply fallsWarned_app; [|exact Hf]. intros k' [Hk'|[]]. discriminate.
Qed.

Lemma warned_removeTile (k : string) (w : World) :
  In (tileWarning k) (emitted w) ->
  pendingWarned w /\ fallsWarned (emitted w) ->
  pendingWarned (removeTile k w) /\ fallsWarned (emitted (removeTile k w)).
Proof.
  intros Hin [Hp Hf]. unfold removeTile.
  destruct (JsMap.get k _) as [tile|]; [|now split].
  rewrite emit_tileFallen. cbn [logEvent setTile onGameState timers emitted].
  split.
  - intros t k' Ht Hc. apply in_or_app. left. now apply (Hp t k').
  - now apply fallsWarned_fall.
Qed.

Lemma warned_step (w w' : World) :
  step w w' -> schedulerInvariant w ->
  pendingWarned w /\ fallsWarned (emitted w) ->
  pendingWarned w' /\ fallsWarned (emitted w').
Proof.
  intros Hstep Hinv Hw.
  destruct Hstep as [w before after t time coin pick Hq | | | | | | ].
  - set (w0 := withNow time (withTimers (before ++ after) w)).
    assert (Hw0 : pendingWarned w0 /\ fallsWarned (emitted w0)).
    { destruct Hw as [Hp Hf]. split; [|exact Hf].
      intros t' k Hin Hc. apply (Hp t' k); [|exact Hc].
      rewrite Hq. cbn in Hin. apply in_app_or in Hin. apply in_or_app.
      simpl. tauto. }
    destruct (callback t) eqn:Ec; cbn [runCallback].
    + unfold nextFall.
      apply (warned_quiet (appendsQuiet_scheduleNextFall _)).
      assert (Hs : pendingWarned (selectRandomTile coin pick w0)
                   /\ fallsWarned (emitted (selectRandomTile coin pick w0))).
      { apply warned_selectRandomTile; [|exact Hw0]. apply Hinv. }
      revert Hs. apply warned_quiet. now apply appendsQuiet_same.
    + assert (Hin : In (tileWarning posKey) (emitted w)).
      { destruct Hw as [Hp _]. apply (Hp t posKey); [|exact Ec].
        rewrite Hq. apply in_or_app. right. now left. }
      unfold executeFall.
      set (w1 := onTileFallManager _ w0).
      set (w2 := fold_left _ _ w1).
      assert (Hq2 : appendsQuiet w0 w2).
      { apply appendsQuiet_trans with (w2 := w1);
          [now apply appendsQuiet_same|].
        apply appendsQuiet_fold. intros p wa.
        eapply appendsQuiet_trans; [|apply appendsQuiet_eliminatePlayer].
        now apply appendsQuiet_same. }
      apply warned_removeTile; [|now apply (warned_quiet Hq2)].
      destruct Hq2 as [(more & He & _) _]. rewrite He.
      apply in_or_app. now left.
    + now apply (warned_quiet (appendsQuiet_gameOverCheck w0)).
  - apply (warned_quiet (appendsQuiet_gameLoop deltaTime (withNow time w))).
    revert Hw. apply warned_quiet. now apply appendsQuiet_same.
  - unfold handleKeyDown. destruct (existsb _ _); [exact Hw|].
    revert Hw. apply warned_quiet. now apply appendsQuiet_same.
  - revert Hw. apply warned_quiet. now apply appendsQuiet_same.
  - unfold startGame, start.
    apply (warned_quiet (appendsQuiet_scheduleNextFall _)).
    revert Hw. apply warned_quiet. now apply appendsQuiet_same.
  - revert Hw. apply warned_quiet, appendsQuiet_stop.
  - revert Hw. apply warned_quiet. now apply appendsQuiet_same.
Qed.

(** In every run of the event loop from a fresh scheduler and a log with
    no [tileFallen]: each [tileFallen] of the log comes after a
    [tileWarning] for the same key, and every fall timer in the queue is
    for a key whose [tileWarning] is in the log.  No tile falls without
    having warned. *)
Theorem fall_after_warning (w0 w : World) :
  steps w0 w -> schedulerFresh w0 ->
  (forall k, ~ In (tileFallen k) (emitted w0)) ->
  (forall l1 l2 k, emitted w = l1 ++ tileFallen k :: l2 ->
                   In (tileWarning k) l1)
  /\ (forall t k, In t (timers w) -> callback t = ExecuteFall k ->
                  In (tileWarning k) (emitted w)).
Proof.
  intros Hsteps Hfresh Hlog.
  assert (Hinv0 : schedulerInvariant w0) by now apply schedulerFresh_invariant.
  assert (H0 : pendingWarned w0 /\ fallsWarned (emitted w0)).
  { split.
    - intros t k Hin Hc. destruct Hfresh as ((_ & _ & _ & Hno) & _).
      apply Hno in Hin. unfold isSchedulerTimer in Hin. rewrite Hc in Hin.
      discriminate.
    - intros l1 l2 k He. exfalso. apply (Hlog k). rewrite He.
      apply in_or_app. right. now left. }
  assert (H : pendingWarned w /\ fallsWarned (emitted w)).
  { induction Hsteps as [|w1 w2 w3 Hsteps IH Hstep]; [exact H0|].
    apply (warned_step Hstep).
    - now apply (schedulerInvariant_steps Hsteps).
    - now apply IH. }
  destruct H as [Hp Hf]. split; [exact Hf|exact Hp].
Qed.

Lemma oneTileWorld_fresh : schedulerFresh oneTileWorld.
Proof.
  split; [|split].
  - repeat split; simpl; contradiction.
  - repeat split; simpl; try lia; try constructor; contradiction.
  - simpl. repeat constructor; simpl; intuition discriminate.
Qed.

Lemma replay2_reached : steps oneTileWorld replay2.
Proof.
  apply steps_next with replay1.
  - apply steps_next with oneTileWorld; [apply steps_refl|].
    apply step_startGame. reflexivity.
  - apply (@step_fire replay1 [] [] (mkTimer 1 (1000 + 800) NextFall)
             1800 0 0);
      try apply unitDraw_zero; try reflexivity; simpl; lra.
Qed.

Lemma fall_after_warning_witness :
  In (tileWarning "0,0") (emitted replay2).
Proof.
  destruct (@fall_after_warning oneTileWorld replay2 replay2_reached
              oneTileWorld_fresh) as [_ H].
  - intros k [].
  - apply (H (mkTimer 2 (1800 + 600) (ExecuteFall "0,0")) "0,0"%string);
      [rewrite replay2_eq; simpl; auto|reflexivity].
Defined.

End Warnings.

(** ** Game over is final *)

Section GameOverIsFinal.

Lemma sameBody_refl (pl : Player.t) : sameBody pl pl.
Proof. repeat split. Qed.

Lemma samePlay_refl (w : World) : samePlay w w.
Proof.
  repeat split; auto. intros p pl H. exists pl. split; [exact H|].
  apply sameBody_refl.
Qed.

Lemma samePlay_trans (w1 w2 w3 : World) :
  samePlay w1 w2 -> samePlay w2 w3 -> samePlay w1 w3.
Proof.
  intros (E1 & A1 & P1 & M1 & O1) (E2 & A2 & P2 & M2 & O2).
  split; [congruence|]. split; [congruence|]. split; [congruence|].
  split; [congruence|].
  intros p pl3 H3. destruct (O2 p pl3 H3) as (pl2 & H2 & B2).
  destruct (O1 p pl2 H2) as (pl1 & H1 & B1).
  exists pl1. split; [exact H1|].
  unfold sameBody in *.
  destruct B1 as (?&?&?&?&?&?&?&?&?), B2 as (?&?&?&?&?&?&?&?&?).
  repeat split; congruence.
Qed.

Lemma samePlay_ext (w w' : World) :
  gameState w' = gameState w -> heap w' = heap w -> emitted w' = emitted w ->
  samePlay w w'.
Proof.
  intros Hg Hh He. unfold samePlay, getPlayer. rewrite Hg, Hh, He.
  apply samePlay_refl.
Qed.

Lemma samePlay_view (w w' : World) :
  alivePlayers (gameState w') = alivePlayers (gameState w) ->
  players (gameState w') = players (gameState w) ->
  matchPhase (gameState w') = matchPhase (gameState w) ->
  heap w' = heap w -> emitted w' = emitted w ->
  samePlay w w'.
Proof.
  intros Ha Hp Hm Hh He. unfold samePlay, getPlayer.
  rewrite Ha, Hp, Hm, Hh, He. apply samePlay_refl.
Qed.

Lemma samePlay_updatePlayer (q : nat) (f : Player.t -> Player.t)
  (w : World) :
  (forall pl, sameBody pl (f pl)) -> samePlay w (updatePlayer q f w).
Proof.
  intros Hf. repeat split; auto. intros p pl' H.
  destruct (Nat.eq_dec q p) as [->|Hq].
  - destruct (getPlayer p w) as [pl|] eqn:E.
    + rewrite (@getPlayer_updatePlayer_same p f w pl E) in H.
      injection H as <-. exists pl. auto.
    + exfalso. unfold getPlayer, updatePlayer in *. cbn in H.
      rewrite listUpdate_out in H by exact E. congruence.
  - rewrite (@getPlayer_updatePlayer_other q p f w Hq) in H.
    exists pl'. split; [exact H|apply sameBody_refl].
Qed.

Lemma renderPlayer_body (time : R) (pl : Player.t) :
  sameBody pl (renderPlayer time pl).
Proof.
  unfold renderPlayer, Player.getSpawnProgress.
  destruct (negb (Player.isAlive pl) && negb (Player.isFalling pl));
    [apply sameBody_refl|].
  destruct (Player.isSpawning pl); simpl; [|apply sameBody_refl].
  destruct (HexUtils.geb _ 1); simpl; repeat split.
Qed.

Lemma fold_render_frame (time : R) (l : list nat) (w : World) :
  let w' := fold_left (fun acc p => updatePlayer p (renderPlayer time) acc)
                      l w in
  samePlay w w' /\ timers w' = timers w
  /\ tileFallManager w' = tileFallManager w.
Proof.
  revert w. induction l as [|a l IH]; intros w; simpl.
  - split; [apply samePlay_refl|auto].
  - destruct (IH (updatePlayer a (renderPlayer time) w)) as (S & T & M).
    cbv zeta in S, T, M. rewrite T, M. split; [|auto].
    eapply samePlay_trans; [|exact S].
    apply samePlay_updatePlayer. apply renderPlayer_body.
Qed.

(** A frame outside a match in progress moves nobody. *)
Lemma gameLoop_idle (deltaTime : R) (w : World) :
  matchPhase (gameState w) <> InProgress ->
  samePlay w (gameLoop deltaTime w)
  /\ timers (gameLoop deltaTime w) = timers w
  /\ tileFallManager (gameLoop deltaTime w) = tileFallManager w.
Proof.
  intros Hph. unfold gameLoop, update.
  assert (Hb : phaseEqb (matchPhase (gameState w)) InProgress = false).
  { destruct (phaseEqb _ _) eqn:E; [|reflexivity].
    apply phaseEqb_eq in E. contradiction. }
  rewrite Hb. unfold render.
  set (w2 := updateTileAnimations w).
  set (w3 := onGameState _ w2).
  assert (H3 : samePlay w w3) by now apply samePlay_view.
  destruct (board (gameState w2)); [split; [exact H3|split; reflexivity]|].
  destruct (fold_render_frame (now w2) (players (gameState w3)) w3)
    as (S & T & M).
  cbv zeta in S, T, M. rewrite T, M.
  split; [|split; reflexivity].
  eapply samePlay_trans; [exact H3|exact S].
Qed.

Lemma matchOver_idle (w w' : World) :
  idles w w' -> matchOver w -> matchOver w' /\ samePlay w w'.
Proof.
  induction 1 as [w|w1 w2 before after t time coin pick _ IH Hts _ _ _ _
                    |w1 w2 time deltaTime _ IH _
                    |w1 w2 code _ IH|w1 w2 code _ IH|w1 w2 _ IH];
    intros Hw.
  - split; [exact Hw|apply samePlay_refl].
  - destruct (IH Hw) as ((Hph & Hr & Hn & Hp & Hno) & Hsame).
    assert (Hcb : callback t = GameOverCheck).
    { assert (Hin : In t (timers w2))
        by (rewrite Hts; apply in_or_app; right; now left).
      apply Hno in Hin. unfold isSchedulerTimer in Hin.
      destruct (callback t); try discriminate. reflexivity. }
    rewrite Hcb. cbn [runCallback]. unfold gameOverCheck.
    cbn [withNow withTimers gameState]. rewrite Hph.
    rewrite andb_false_r.
    split.
    + split; [exact Hph|]. repeat split; auto.
      intros t' Hin. apply Hno. rewrite Hts. cbn in Hin.
      apply in_app_or in Hin. apply in_or_app. simpl. tauto.
    + eapply samePlay_trans; [exact Hsame|]. now apply samePlay_ext.
  - destruct (IH Hw) as ((Hph & Hr & Hn & Hp & Hno) & Hsame).
    destruct (@gameLoop_idle deltaTime (withNow time w2)) as (S & T & M).
    { cbn. rewrite Hph. discriminate. }
    split.
    + destruct S as (_ & _ & _ & Hm & _).
      split; [rewrite Hm; exact Hph|].
      unfold schedulerStopped. rewrite T, M. repeat split; auto.
    + eapply samePlay_trans; [exact Hsame|].
      eapply samePlay_trans; [|exact S]. now apply samePlay_ext.
  - destruct (IH Hw) as (Hover & Hsame).
    unfold handleKeyDown. destruct (existsb _ _); [now split|].
    split; [exact Hover|].
    eapply samePlay_trans; [exact Hsame|]. now apply samePlay_ext.
  - destruct (IH Hw) as (Hover & Hsame). split; [exact Hover|].
    eapply samePlay_trans; [exact Hsame|]. now apply samePlay_ext.
  - destruct (IH Hw) as (Hover & Hsame).
    rewrite (schedulerStopped_fixpoint (proj2 Hover)). now split.
Qed.

(** The game-over check that ends a match, in a world reached from a
    fresh scheduler with the [gameOver] listener registered: the phase
    becomes [GameOver], [gameOver] is emitted with the last player alive
    if there is one, and the scheduler is stopped with none of its timers
    left.  From then on, whatever timers fire, frames are rendered and
    keys are pressed, until the next [startGame] or [reset]: the phase
    stays [GameOver], the scheduler stays stopped, nothing more is
    emitted, the rosters do not change, and no player moves, falls or is
    eliminated. *)
Theorem game_over_is_final (w0 w : World) (before after : list Timer)
  (t : Timer) (time coin pick : R) :
  steps w0 w -> schedulerFresh w0 ->
  timers w = before ++ t :: after ->
  callback t = GameOverCheck ->
  listening (gameState w) = true ->
  matchPhase (gameState w) = InProgress ->
  (length (alivePlayers (gameState w)) <= 1)%nat ->
  let wg := runCallback (callback t) coin pick
              (withNow time (withTimers (before ++ after) w)) in
  matchPhase (gameState wg) = GameOver
  /\ emitted wg
     = emitted w ++ [gameOver (hd_error (alivePlayers (gameState w)))]
  /\ schedulerStopped wg
  /\ forall w', idles wg w' ->
       matchPhase (gameState w') = GameOver
       /\ schedulerStopped w'
       /\ emitted w' = emitted wg
       /\ alivePlayers (gameState w') = alivePlayers (gameState w)
       /\ players (gameState w') = players (gameState w)
       /\ forall p pl', getPlayer p w' = Some pl' ->
            exists pl, getPlayer p w = Some pl /\ sameBody pl pl'.
Proof.
  intros Hsteps Hfresh Hts Hcb Hlis Hph Hlen wg.
  assert (Hinv : schedulerInvariant w).
  { apply (schedulerInvariant_steps Hsteps).
    now apply schedulerFresh_invariant. }
  destruct (@schedulerInvariant_fired w before after t time Hinv Hts)
    as [Hinv0 _].
  set (w0' := withNow time (withTimers (before ++ after) w)) in *.
  set (w1 := logEvent (gameOver (hd_error (alivePlayers (gameState w))))
               (onGameState (withMatchPhase GameOver) w0')).
  assert (Hwg : wg = stop w1).
  { unfold wg. rewrite Hcb. cbn [runCallback]. unfold gameOverCheck.
    cbn [w0' withNow withTimers gameState]. rewrite Hph.
    apply Nat.leb_le in Hlen. rewrite Hlen. cbn [andb phaseEqb].
    unfold emit. cbn [logEvent onGameState gameState withMatchPhase listening].
    change (listening (gameState w0')) with (listening (gameState w)).
    rewrite Hlis. reflexivity. }
  assert (Hinv1 : schedulerInvariant w1).
  { revert Hinv0. apply schedulerInvariant_ext; reflexivity. }
  destruct (stop_invariant Hinv1) as [_ Hstopped].
  destruct (stop_frame w1) as (Hg & _ & Hh & _ & _ & He & _).
  assert (Hover : matchOver wg).
  { rewrite Hwg. split; [now rewrite Hg|exact Hstopped]. }
  split; [apply Hover|]. split; [now rewrite Hwg, He|].
  split; [apply Hover|].
  intros w' Hidle.
  destruct (matchOver_idle Hidle Hover)
    as ((Hph' & Hst') & (E & A & P & M & O)).
  split; [exact Hph'|]. split; [exact Hst'|]. split; [exact E|].
  split; [rewrite A, Hwg, Hg; reflexivity|].
  split; [rewrite P, Hwg, Hg; reflexivity|].
  intros p pl' Hp. destruct (O p pl' Hp) as (pl & Hpl & Hb).
  exists pl. split; [|exact Hb].
  unfold getPlayer in *. rewrite Hwg, Hh in Hpl. exact Hpl.
Qed.

Lemma endgameWorld_fresh : schedulerFresh endgameWorld.
Proof.
  split; [|split].
  - repeat split; simpl; try reflexivity.
    intros t [<-|[]]. reflexivity.
  - split; [simpl; lia|].
    split; [simpl; repeat constructor; simpl; tauto|].
    intros t [<-|[]]. simpl. lia.
  - simpl. repeat constructor; simpl; intuition discriminate.
Qed.

Lemma game_over_is_final_witness :
  emitted (runCallback GameOverCheck 0 0
             (withNow 1700 (withTimers [] endgameWorld)))
  = [playerEliminated 0; gameOver (Some 1%nat)].
Proof.
  assert (Hlen : (length (alivePlayers (gameState endgameWorld)) <= 1)%nat)
    by (simpl; lia).
  destruct (@game_over_is_final endgameWorld endgameWorld [] []
              (mkTimer 1 1700 GameOverCheck) 1700 0 0
              (steps_refl endgameWorld) endgameWorld_fresh
              eq_refl eq_refl eq_refl eq_refl Hlen) as (_ & He & _).
  exact He.
Defined.

End GameOverIsFinal.

(** ** types.js: subscriptions *)

Section Subscriptions.

Import EventEmitter.

Lemma setAdd_In (cb c : nat) (s : list nat) :
  In c (setAdd cb s) <-> c = cb \/ In c s.
Proof.
  unfold setAdd. destruct (existsb (Nat.eqb cb) s) eqn:E.
  - split; [auto|]. intros [->|H]; [|exact H].
    apply existsb_exists in E as (x & Hx & Hc).
    apply Nat.eqb_eq in Hc. now subst x.
  - rewrite in_app_iff. simpl. intuition.
Qed.

Lemma setAdd_NoDup (cb : nat) (s : list nat) :
  NoDup s -> NoDup (setAdd cb s).
Proof.
  intros Hnd. unfold setAdd. destruct (existsb (Nat.eqb cb) s) eqn:E;
    [exact Hnd|].
  apply NoDup_app; [exact Hnd|repeat constructor; simpl; tauto|].
  intros x Hx [<-|[]].
  assert (H : existsb (Nat.eqb cb) s = true)
    by (apply existsb_exists; exists cb; split;
        [exact Hx|apply Nat.eqb_refl]).
  congruence.
Qed.

Lemma setAdd_twice (cb : nat) (s : list nat) :
  setAdd cb (setAdd cb s) = setAdd cb s.
Proof.
  unfold setAdd at 1.
  assert (H : existsb (Nat.eqb cb) (setAdd cb s) = true).
  { apply existsb_exists. exists cb. split; [|apply Nat.eqb_refl].
    apply setAdd_In. now left. }
  now rewrite H.
Qed.

Lemma setDelete_setAdd (cb : nat) (s : list nat) :
  ~ In cb s -> setDelete cb (setAdd cb s) = s.
Proof.
  intros Hnot. unfold setAdd.
  destruct (existsb (Nat.eqb cb) s) eqn:E.
  - apply existsb_exists in E as (x & Hx & Hc).
    apply Nat.eqb_eq in Hc. subst x. contradiction.
  - unfold setDelete. rewrite filter_app. simpl. rewrite Nat.eqb_refl.
    simpl. rewrite app_nil_r. now apply filter_others_id.
Qed.

Lemma subscribe_get (event : string) (cb : nat) (l : t) :
  JsMap.get event (subscribe event cb l)
  = Some (setAdd cb (emit event l)).
Proof.
  unfold subscribe, emit.
  destruct (JsMap.get event l) as [s|] eqn:E.
  - rewrite E. apply get_set_same.
  - rewrite get_set_same. apply get_set_same.
Qed.

Lemma subscribe_other (event event' : string) (cb : nat) (l : t) :
  event' <> event ->
  JsMap.get event' (subscribe event cb l) = JsMap.get event' l.
Proof.
  intros Hne. unfold subscribe.
  destruct (JsMap.get event l) as [s|] eqn:E.
  - rewrite E. apply get_set_other. congruence.
  - rewrite get_set_same. rewrite !get_set_other by congruence. reflexivity.
Qed.

(** The event emitter.  [emit] calls the callbacks subscribed to the
    event, each once and in the order of their first subscription, and
    none on an event without subscription; subscribing a callback again
    changes nothing more; a subscription to one event leaves the others
    alone; the unsubscribe function removes the callback and only it;
    after [clear], [emit] calls nothing and an unsubscribe function kept
    from before throws. *)
Theorem subscriptions (l : t) (event : string) (cb : nat) :
  wellFormed l ->
  let l' := subscribe event cb l in
  wellFormed l'
  /\ (forall c, In c (emit event l') <-> c = cb \/ In c (emit event l))
  /\ NoDup (emit event l')
  /\ (In cb (emit event l) -> emit event l' = emit event l)
  /\ (~ In cb (emit event l) -> emit event l' = emit event l ++ [cb])
  /\ emit event (subscribe event cb l') = emit event l'
  /\ (forall event', event' <> event -> emit event' l' = emit event' l)
  /\ (exists l'', unsubscribe event cb l' = Some l''
                  /\ wellFormed l''
                  /\ ~ In cb (emit event l'')
                  /\ (forall c, c <> cb ->
                        (In c (emit event l'') <-> In c (emit event l)))
                  /\ (~ In cb (emit event l) ->
                      emit event l'' = emit event l)
                  /\ forall event', event' <> event ->
                       emit event' l'' = emit event' l)
  /\ emit event (clear l') = []
  /\ unsubscribe event cb (clear l') = None.
Proof.
  intros Hwf l'.
  assert (Hnd : NoDup (emit event l)).
  { unfold emit. destruct (JsMap.get event l) as [s|] eqn:E;
      [now apply (Hwf event)|constructor]. }
  assert (Hget : JsMap.get event l' = Some (setAdd cb (emit event l)))
    by apply subscribe_get.
  assert (Hem : emit event l' = setAdd cb (emit event l))
    by (unfold emit at 1; now rewrite Hget).
  assert (Hwf' : wellFormed l').
  { intros e s Hs. destruct (String.string_dec e event) as [->|Hne].
    - rewrite Hget in Hs. injection Hs as <-. now apply setAdd_NoDup.
    - unfold l' in Hs. rewrite subscribe_other in Hs by exact Hne.
      now apply (Hwf e). }
  split; [exact Hwf'|].
  split; [intros c; rewrite Hem; apply setAdd_In|].
  split; [rewrite Hem; now apply setAdd_NoDup|].
  split.
  { intros Hin. rewrite Hem. unfold setAdd.
    assert (H : existsb (Nat.eqb cb) (emit event l) = true)
      by (apply existsb_exists; exists cb; split;
          [exact Hin|apply Nat.eqb_refl]).
    now rewrite H. }
  split.
  { intros Hnot. rewrite Hem. unfold setAdd.
    destruct (existsb (Nat.eqb cb) (emit event l)) eqn:E; [|reflexivity].
    apply existsb_exists in E as (x & Hx & Hc).
    apply Nat.eqb_eq in Hc. subst x. contradiction. }
  split.
  { unfold emit at 1. rewrite subscribe_get, Hem. apply setAdd_twice. }
  split.
  { intros e Hne. unfold emit, l'. now rewrite subscribe_other. }
  split.
  { unfold unsubscribe. rewrite Hget.
    eexists. split; [reflexivity|].
    set (l'' := JsMap.set event _ l').
    assert (Hget'' : JsMap.get event l''
                     = Some (setDelete cb (setAdd cb (emit event l))))
      by apply get_set_same.
    assert (Hem'' : emit event l'' = setDelete cb (setAdd cb (emit event l)))
      by (unfold emit at 1; now rewrite Hget'').
    assert (Hoth : forall e, e <> event -> JsMap.get e l'' = JsMap.get e l).
    { intros e Hne. unfold l''. rewrite get_set_other by congruence.
      unfold l'. now apply subscribe_other. }
    split.
    { intros e s Hs. destruct (String.string_dec e event) as [->|Hne].
      - rewrite Hget'' in Hs. injection Hs as <-.
        apply NoDup_filter. now apply setAdd_NoDup.
      - rewrite Hoth in Hs by exact Hne. now apply (Hwf e). }
    split; [rewrite Hem''; apply filter_others_not_in|].
    split.
    { intros c Hc. rewrite Hem''. unfold setDelete.
      rewrite filter_In, setAdd_In.
      assert (negb (c =? cb)%nat = true)
        by (apply negb_true_iff, Nat.eqb_neq; exact Hc).
      intuition. }
    split; [intros Hnot; rewrite Hem''; now apply setDelete_setAdd|].
    intros e Hne. unfold emit. now rewrite Hoth. }
  split; reflexivity.
Qed.

Lemma subscriptions_witness :
  emit "gameOver" (subscribe "gameOver" 7 (subscribe "gameOver" 7 []))
  = emit "gameOver" (subscribe "gameOver" 7 []).
Proof.
  apply (@subscriptions [] "gameOver" 7).
  intros event s H. discriminate.
Defined.

End Subscriptions.

(** ** InputHandler.js: key events *)

Section Keys.

Lemma existsb_eqb_In (code : string) (l : list string) :
  existsb (String.eqb code) l = true <-> In code l.
Proof.
  rewrite existsb_exists. split.
  - intros (x & Hx & Hc). apply String.eqb_eq in Hc. now subst x.
  - intros H. exists code. split; [exact H|apply String.eqb_refl].
Qed.

Lemma filter_other_keys (code : string) (l : list string) :
  ~ In code l -> filter (fun c => negb (String.eqb c code)) l = l.
Proof.
  induction l as [|a l IH]; simpl; [reflexivity|].
  intros Hn. destruct (String.eqb a code) eqn:Ea.
  - apply String.eqb_eq in Ea. subst a. exfalso. apply Hn. now left.
  - simpl. rewrite IH; [reflexivity|]. intros H. apply Hn. now right.
Qed.

(** The keys held are a set.  After a key-down the key is held and the
    others are as before; a repeated key-down, as the keyboard sends while
    a key stays pressed, changes nothing; one key-up releases the key
    however often it went down, and leaves the others as before; a key
    never occurs twice among the keys held; and a key-down followed by a
    key-up of a key that was not held gives back the keys held before. *)
Theorem held_keys (code c : string) (w : World) :
  isKeyHeld c (handleKeyDown code w) = String.eqb c code || isKeyHeld c w
  /\ isKeyHeld c (handleKeyUp code w)
     = negb (String.eqb c code) && isKeyHeld c w
  /\ handleKeyDown code (handleKeyDown code w) = handleKeyDown code w
  /\ isKeyHeld code (handleKeyUp code (handleKeyDown code
                                         (handleKeyDown code w))) = false
  /\ (NoDup (heldKeys w) ->
      NoDup (heldKeys (handleKeyDown code w))
      /\ NoDup (heldKeys (handleKeyUp code w)))
  /\ (isKeyHeld code w = false ->
      handleKeyUp code (handleKeyDown code w) = w).
Proof.
  assert (Hdown : forall k, isKeyHeld k (handleKeyDown code w)
                            = String.eqb k code || isKeyHeld k w).
  { intros k. unfold isKeyHeld, handleKeyDown.
    destruct (existsb (String.eqb code) (heldKeys w)) eqn:E.
    - destruct (String.eqb k code) eqn:Ek; [|reflexivity].
      apply String.eqb_eq in Ek. subst k. now rewrite E.
    - cbn [withHeldKeys heldKeys]. rewrite existsb_app. simpl.
      rewrite orb_false_r. apply orb_comm. }
  assert (Hup : forall k v, existsb (String.eqb k)
                              (heldKeys (handleKeyUp code v))
                            = negb (String.eqb k code)
                              && existsb (String.eqb k) (heldKeys v)).
  { intros k v. unfold handleKeyUp. cbn [withHeldKeys heldKeys].
    induction (heldKeys v) as [|a l IH]; simpl; [now rewrite andb_false_r|].
    destruct (String.eqb a code) eqn:Ea; simpl.
    - rewrite IH. apply String.eqb_eq in Ea. subst a.
      destruct (String.eqb k code); reflexivity.
    - rewrite IH. destruct (String.eqb k a) eqn:Eka; simpl.
      + apply String.eqb_eq in Eka. subst a.
        now rewrite Ea.
      + reflexivity. }
  assert (Htwice : handleKeyDown code (handleKeyDown code w)
                   = handleKeyDown code w).
  { unfold handleKeyDown at 1.
    change (existsb (String.eqb code) (heldKeys (handleKeyDown code w)))
      with (isKeyHeld code (handleKeyDown code w)).
    now rewrite Hdown, String.eqb_refl. }
  split; [apply Hdown|]. split; [apply Hup|]. split; [exact Htwice|].
  split.
  { unfold isKeyHeld. now rewrite Hup, String.eqb_refl. }
  split.
  { intros Hnd. split.
    - unfold handleKeyDown.
      destruct (existsb (String.eqb code) (heldKeys w)) eqn:E; [exact Hnd|].
      cbn [withHeldKeys heldKeys].
      apply NoDup_app; [exact Hnd|repeat constructor; simpl; tauto|].
      intros x Hx [<-|[]]. apply existsb_eqb_In in Hx. congruence.
    - unfold handleKeyUp. cbn [withHeldKeys heldKeys].
      now apply NoDup_filter. }
  intros Hnot. unfold isKeyHeld in Hnot. unfold handleKeyDown.
  rewrite Hnot. unfold handleKeyUp. cbn [withHeldKeys heldKeys].
  rewrite filter_app. simpl. rewrite String.eqb_refl. simpl.
  rewrite app_nil_r.
  assert (Hid : filter (fun c0 => negb (String.eqb c0 code)) (heldKeys w)
                = heldKeys w).
  { apply filter_other_keys. intros H. apply existsb_eqb_In in H.
    congruence. }
  rewrite Hid. now destruct w.
Qed.

End Keys.

(** ** Tile.js and Player.js: the progress of the animations *)

Section Progress.

Local Open Scope R_scope.

(** [Math.min(elapsed / duration, 1)] and the test [progress >= 1]. *)
Lemma ramp (elapsed duration : R) :
  0 < duration -> 0 <= elapsed ->
  let progress := Rmin (elapsed / duration) 1 in
  0 <= progress <= 1
  /\ (HexUtils.geb progress 1 = true <-> duration <= elapsed)
  /\ (progress = 1 <-> duration <= elapsed).
Proof.
  intros Hd He progress.
  assert (H0 : 0 <= elapsed / duration).
  { unfold Rdiv. apply Rmult_le_pos; [exact He|].
    left. now apply Rinv_0_lt_compat. }
  assert (Hiff : 1 <= elapsed / duration <-> duration <= elapsed).
  { split; intros H.
    - apply Rmult_le_compat_r with (r := duration) in H; [|lra].
      unfold Rdiv in H. rewrite Rmult_assoc, Rinv_l in H by lra. lra.
    - apply Rmult_le_reg_r with (r := duration); [exact Hd|].
      unfold Rdiv. rewrite Rmult_assoc, Rinv_l by lra. lra. }
  unfold progress, Rmin. destruct (Rle_dec (elapsed / duration) 1) as [Hle|Hgt].
  - split; [lra|]. split.
    + unfold HexUtils.geb.
      destruct (Rle_dec 1 (elapsed / duration)); split; intros H;
        try reflexivity; try discriminate; tauto.
    + split; intros H; [apply Hiff; lra|apply Hiff in H; lra].
  - split; [lra|]. split.
    + rewrite geb_true by lra. split; [intros _; apply Hiff; lra|reflexivity].
    + split; [intros _; apply Hiff; lra|reflexivity].
Qed.

(** With the clock at or after the start of an animation and a positive
    duration, the progress that [getShatterProgress], [getSpawnProgress]
    (of tiles and of players) and [getFallProgress] return lies between 0
    and 1 and is 1 exactly when the duration has elapsed (for the spawn of
    a tile, counted from the end of its delay).  At that moment, and not
    before, a shattering tile falls (it is neither active nor shattering
    afterwards) and a spawning tile or player stops spawning; before it
    the object is left as it is. *)
Theorem animation_progress (time : R) (tile : Tile.t) (pl : Player.t) :
  (Tile.isShattering tile = true -> 0 < Tile.shatterDuration tile ->
   Tile.shatterStartTime tile <= time ->
   let r := Tile.getShatterProgress time tile in
   0 <= fst r <= 1
   /\ (fst r = 1 <-> Tile.shatterStartTime tile + Tile.shatterDuration tile
                     <= time)
   /\ (fst r = 1 -> snd r = Tile.fall tile)
   /\ (fst r < 1 -> snd r = tile))
  /\ (Tile.isSpawning tile = true -> 0 < Tile.spawnDuration tile ->
      let r := Tile.getSpawnProgress time tile in
      0 <= fst r <= 1
      /\ (fst r = 1 <-> Tile.spawnStartTime tile + Tile.spawnDelay tile
                        + Tile.spawnDuration tile <= time)
      /\ (fst r = 1 -> Tile.isSpawning (snd r) = false)
      /\ (fst r < 1 -> snd r = tile))
  /\ (Player.isSpawning pl = true -> 0 < Player.spawnDuration pl ->
      Player.spawnStartTime pl <= time ->
      let r := Player.getSpawnProgress time pl in
      0 <= fst r <= 1
      /\ (fst r = 1 <-> Player.spawnStartTime pl + Player.spawnDuration pl
                        <= time)
      /\ (fst r = 1 -> Player.isSpawning (snd r) = false)
      /\ (fst r < 1 -> snd r = pl))
  /\ (Player.isFalling pl = true -> 0 < Player.fallDuration pl ->
      Player.fallStartTime pl <= time ->
      0 <= Player.getFallProgress time pl <= 1
      /\ (Player.getFallProgress time pl = 1
          <-> Player.fallStartTime pl + Player.fallDuration pl <= time))
  /\ (Tile.isShattering tile = false ->
      Tile.getShatterProgress time tile = (0, tile))
  /\ (Tile.isSpawning tile = false ->
      Tile.getSpawnProgress time tile = (1, tile))
  /\ (Player.isSpawning pl = false ->
      Player.getSpawnProgress time pl = (1, pl))
  /\ (Player.isFalling pl = false -> Player.getFallProgress time pl = 0).
Proof.
  split; [|split; [|split; [|split]]].
  - intros Hs Hd Ht. unfold Tile.getShatterProgress. rewrite Hs. cbn [negb].
    destruct (@ramp (time - Tile.shatterStartTime tile)
                (Tile.shatterDuration tile) Hd) as (Hb & Hg & H1); [lra|].
    cbv zeta in Hb, Hg, H1.
    destruct (HexUtils.geb _ 1) eqn:E; cbn [fst snd].
    + assert (Hdone : Tile.shatterDuration tile
                      <= time - Tile.shatterStartTime tile)
        by now apply Hg.
      split; [exact Hb|]. split; [rewrite H1; split; lra|].
      split; [reflexivity|]. intros Hlt. apply H1 in Hdone. lra.
    + assert (Hnot : ~ Tile.shatterDuration tile
                       <= time - Tile.shatterStartTime tile)
        by (intros H; apply Hg in H; congruence).
      split; [exact Hb|]. split; [rewrite H1; split; lra|].
      split; [|reflexivity]. intros H. apply H1 in H. contradiction.
  - intros Hs Hd. unfold Tile.getSpawnProgress. rewrite Hs. cbn [negb].
    set (elapsed := time - Tile.spawnStartTime tile - Tile.spawnDelay tile).
    destruct (Rlt_dec elapsed 0) as [Hneg|Hpos].
    + rewrite ltb_true by exact Hneg. cbn [fst snd].
      split; [lra|]. split; [split; intros H; unfold elapsed in *; lra|].
      split; [intros H; lra|reflexivity].
    + rewrite ltb_false by lra.
      destruct (@ramp elapsed (Tile.spawnDuration tile) Hd) as (Hb & Hg & H1);
        [lra|].
      cbv zeta in Hb, Hg, H1.
      destruct (HexUtils.geb _ 1) eqn:E; cbn [fst snd].
      * assert (Hdone : Tile.spawnDuration tile <= elapsed) by now apply Hg.
        split; [exact Hb|].
        split; [rewrite H1; unfold elapsed; split; lra|].
        split; [reflexivity|]. intros Hlt. apply H1 in Hdone. lra.
      * assert (Hnot : ~ Tile.spawnDuration tile <= elapsed)
          by (intros H; apply Hg in H; congruence).
        split; [exact Hb|].
        split; [rewrite H1; unfold elapsed; split; lra|].
        split; [|reflexivity]. intros H. apply H1 in H. contradiction.
  - intros Hs Hd Ht. unfold Player.getSpawnProgress. rewrite Hs. cbn [negb].
    destruct (@ramp (time - Player.spawnStartTime pl)
                (Player.spawnDuration pl) Hd) as (Hb & Hg & H1); [lra|].
    cbv zeta in Hb, Hg, H1.
    destruct (HexUtils.geb _ 1) eqn:E; cbn [fst snd].
    + assert (Hdone : Player.spawnDuration pl
                      <= time - Player.spawnStartTime pl) by now apply Hg.
      split; [exact Hb|]. split; [rewrite H1; split; lra|].
      split; [reflexivity|]. intros Hlt. apply H1 in Hdone. lra.
    + assert (Hnot : ~ Player.spawnDuration pl
                       <= time - Player.spawnStartTime pl)
        by (intros H; apply Hg in H; congruence).
      split; [exact Hb|]. split; [rewrite H1; split; lra|].
      split; [|reflexivity]. intros H. apply H1 in H. contradiction.
  - intros Hs Hd Ht. unfold Player.getFallProgress. rewrite Hs. cbn [negb].
    destruct (@ramp (time - Player.fallStartTime pl)
                (Player.fallDuration pl) Hd) as (Hb & _ & H1); [lra|].
    cbv zeta in Hb, H1.
    split; [exact Hb|]. rewrite H1. split; lra.
  - split; [|split; [|split]].
    + intros H. unfold Tile.getShatterProgress. now rewrite H.
    + intros H. unfold Tile.getSpawnProgress. now rewrite H.
    + intros H. unfold Player.getSpawnProgress. now rewrite H.
    + intros H. unfold Player.getFallProgress. now rewrite H.
Qed.

End Progress.
